(** * drift: route tree, handler chain and path joining

    A shallow embedding of the routing core of the drift web framework
    (tree.go, context.go, drift.go, router.go) together with the
    properties of its specification. *)

From Stdlib Require Import ZArith Ascii String List Lia.
From stdpp Require Import base option list sorting gmap strings.
Import ListNotations.

Set Warnings "-register-all".
Local Open Scope nat_scope.
Local Open Scope list_scope.

(** ** Go strings and runtime values *)

(** A Go string is a sequence of bytes. *)
Abbreviation str := (list ascii).

Definition bytes (s : string) : str := list_ascii_of_string s.
Definition text (s : str) : string := string_of_list_ascii s.

Definition slash : ascii := "/"%char.
Definition colon : ascii := ":"%char.
Definition star : ascii := "*"%char.

Definition eqb_str (a b : str) : bool := bool_decide (a = b).

(** Outcome of a Go call that may panic.  [Panic] carries the message of
    the source; [OutOfFuel] only marks an exhausted recursion bound of
    the model and is shown never to be returned. *)
Inductive result (A : Type) : Type :=
| Ok (a : A)
| Panic (msg : string)
| OutOfFuel.
Arguments Ok {A} a.
Arguments Panic {A} msg.
Arguments OutOfFuel {A}.

Global Instance result_ret : MRet result := fun A a => Ok a.
Global Instance result_bind : MBind result := fun A B f r =>
  match r with
  | Ok a => f a
  | Panic m => Panic m
  | OutOfFuel => OutOfFuel
  end.


Definition is_ok {A} (r : result A) : Prop :=
  match r with Ok _ => True | _ => False end.

Definition index_out_of_range : string := "runtime error: index out of range".
Definition slice_out_of_range : string := "runtime error: slice bounds out of range".

(** uint32 and int8 arithmetic wraps around. *)
Definition u32 (z : Z) : Z := (z mod 2 ^ 32)%Z.
Definition i8 (z : Z) : Z := ((z + 128) mod 256 - 128)%Z.

(** Values of the key/value store ([any] in the source). *)
Inductive value : Type :=
| VString (s : str)
| VInt (z : Z)
| VBool (b : bool).

(** ** Handlers

    A [HandlerFunc] is a Go closure over the request context.  What a
    closure can do to the chain state goes through the exported methods
    of [Context]; a handler is modelled as the tree of such calls, each
    continuation receiving what the call returned. *)
Inductive hprog : Type :=
| Done
| CallNext (k : hprog)
| CallAbort (k : hprog)
| CallSet (key : str) (v : value) (k : hprog)
| CallGet (key : str) (k : option value -> hprog)
| CallParam (key : str) (k : str -> hprog)
| CallIsAborted (k : bool -> hprog)
| CallWrite (ctype : str) (code : Z) (body : str) (k : hprog).

Definition HandlerFunc : Type := hprog.

(** ** The radix tree (tree.go) *)

Module tree.

Inductive nodeType : Type := static | param | catchAll.

Global Instance nodeType_eq_dec : EqDecision nodeType.
Proof. solve_decision. Defined.

(** [handlers] is a Go slice: [None] is the nil slice. *)
Inductive node : Type := Node {
  path : str;
  indices : str;
  children : list node;
  handlers : option (list HandlerFunc);
  priority : Z;
  nType : nodeType;
  wildChild : bool;
  fullPath : str
}.

(** The zero value [&node{}]. *)
Definition zero_node : node :=
  {| path := []; indices := []; children := []; handlers := None;
     priority := 0; nType := static; wildChild := false; fullPath := [] |}.

Definition set_path (p : str) (n : node) : node :=
  {| path := p; indices := indices n; children := children n;
     handlers := handlers n; priority := priority n; nType := nType n;
     wildChild := wildChild n; fullPath := fullPath n |}.
Definition set_indices (s : str) (n : node) : node :=
  {| path := path n; indices := s; children := children n;
     handlers := handlers n; priority := priority n; nType := nType n;
     wildChild := wildChild n; fullPath := fullPath n |}.
Definition set_children (cs : list node) (n : node) : node :=
  {| path := path n; indices := indices n; children := cs;
     handlers := handlers n; priority := priority n; nType := nType n;
     wildChild := wildChild n; fullPath := fullPath n |}.
Definition set_handlers (h : option (list HandlerFunc)) (n : node) : node :=
  {| path := path n; indices := indices n; children := children n;
     handlers := h; priority := priority n; nType := nType n;
     wildChild := wildChild n; fullPath := fullPath n |}.
Definition set_priority (p : Z) (n : node) : node :=
  {| path := path n; indices := indices n; children := children n;
     handlers := handlers n; priority := p; nType := nType n;
     wildChild := wildChild n; fullPath := fullPath n |}.
Definition set_nType (t : nodeType) (n : node) : node :=
  {| path := path n; indices := indices n; children := children n;
     handlers := handlers n; priority := priority n; nType := t;
     wildChild := wildChild n; fullPath := fullPath n |}.
Definition set_wildChild (b : bool) (n : node) : node :=
  {| path := path n; indices := indices n; children := children n;
     handlers := handlers n; priority := priority n; nType := nType n;
     wildChild := b; fullPath := fullPath n |}.
Definition set_fullPath (p : str) (n : node) : node :=
  {| path := path n; indices := indices n; children := children n;
     handlers := handlers n; priority := priority n; nType := nType n;
     wildChild := wildChild n; fullPath := p |}.

(** [n.priority++] on a uint32. *)
Definition incr_priority (n : node) : node :=
  set_priority (u32 (priority n + 1)) n.

(** Height of a tree: the recursion bound of the insertion walk. *)
Fixpoint height (n : node) : nat :=
  match n with
  | Node _ _ cs _ _ _ _ _ =>
      S ((fix go (l : list node) : nat :=
            match l with
            | [] => 0
            | c :: l' => Nat.max (height c) (go l')
            end) cs)
  end.

(** *** Helper functions *)

(** [longestCommonPrefix]: the number of leading bytes [a] and [b] share. *)
Fixpoint longestCommonPrefix (a b : str) : nat :=
  match a, b with
  | x :: a', y :: b' =>
      if bool_decide (x = y) then S (longestCommonPrefix a' b') else 0
  | _, _ => 0
  end.

Definition is_sigil (c : ascii) : bool :=
  bool_decide (c = colon) || bool_decide (c = star).

(** The inner loop of [findWildcard] over [path[start+1:]]: returns the
    offset [end] at which the scan stops (a separator or the end of the
    string) and the [valid] flag. *)
Fixpoint wildcardEnd (rest : str) (valid : bool) : nat * bool :=
  match rest with
  | [] => (0, valid)
  | c :: rest' =>
      if bool_decide (c = slash) then (0, valid)
      else
        let '(e, v) := wildcardEnd rest' (if is_sigil c then false else valid) in
        (S e, v)
  end.

(** The outer loop of [findWildcard], [start] bytes into the path. *)
Fixpoint findWildcard_from (start : nat) (path : str) : str * Z * bool :=
  match path with
  | [] => ([], (-1)%Z, false)
  | c :: rest =>
      if is_sigil c then
        let '(e, v) := wildcardEnd rest true in
        (c :: take e rest, Z.of_nat start, v)
      else findWildcard_from (S start) rest
  end.

Definition findWildcard (path : str) : str * Z * bool :=
  findWildcard_from 0 path.

(** *** incrementChildPrio *)

(** The move-to-front loop: swaps the child at [newPos] with its left
    neighbour while that neighbour has a lower priority. *)
Fixpoint bubble (cs : list node) (newPos : nat) (prio : Z) : list node * nat :=
  match newPos with
  | 0 => (cs, 0)
  | S k =>
      match cs !! k, cs !! newPos with
      | Some a, Some b =>
          if (priority a <? prio)%Z
          then bubble (<[k := b]> (<[newPos := a]> cs)) k prio
          else (cs, newPos)
      | _, _ => (cs, newPos)
      end
  end.

Definition incrementChildPrio (n : node) (pos : nat) : result (node * nat) :=
  match children n !! pos with
  | None => Panic index_out_of_range
  | Some c =>
      let c' := incr_priority c in
      let prio := priority c' in
      let '(cs, newPos) := bubble (<[pos := c']> (children n)) pos prio in
      if bool_decide (newPos = pos) then Ok (set_children cs n, newPos)
      else if length (indices n) <? pos + 1 then Panic slice_out_of_range
      else
        let ix := indices n in
        Ok (set_indices (take newPos ix ++ take 1 (drop pos ix)
                         ++ take (pos - newPos) (drop newPos ix)
                         ++ drop (pos + 1) ix)
              (set_children cs n), newPos)
  end.

(** *** insertChild *)

(** The loop of [insertChild].  [n] is the node the loop currently points
    at; the result is that node with the new subtree below it.  Each
    further iteration runs on a freshly allocated child. *)
Fixpoint insertChild_loop (fuel : nat) (n : node) (p fp : str)
    (hs : option (list HandlerFunc)) : result node :=
  let '(wildcard, i, valid) := findWildcard p in
  if (i <? 0)%Z then
    (* no wildcard: insert the path and the handlers *)
    Ok (set_fullPath fp (set_handlers hs (set_path p n)))
  else if negb valid then
    Panic "only one wildcard per path segment is allowed"
  else if length wildcard <? 2 then
    Panic "wildcards must be named with a non-empty name"
  else if 0 <? length (children n) then
    Panic "wildcard segment conflicts with existing children"
  else if bool_decide (head wildcard = Some colon) then
    (* param *)
    let n1 := if (0 <? i)%Z then set_path (take (Z.to_nat i) p) n else n in
    let p1 := if (0 <? i)%Z then drop (Z.to_nat i) p else p in
    let child :=
      incr_priority
        (set_fullPath fp (set_path wildcard (set_nType param zero_node))) in
    if length wildcard <? length p1 then
      let p2 := drop (length wildcard) p1 in
      let child2 := set_fullPath fp (set_priority 1 zero_node) in
      match fuel with
      | 0 => OutOfFuel
      | S fuel' =>
          child2' ← insertChild_loop fuel' child2 p2 fp hs;
          Ok (set_children [set_children [child2'] child]
                (set_wildChild true n1))
      end
    else
      Ok (set_children [set_handlers hs child] (set_wildChild true n1))
  else
    (* catchAll *)
    if negb (i + Z.of_nat (length wildcard) =? Z.of_nat (length p))%Z then
      Panic "catch-all routes are only allowed at the end of the path"
    else if (0 <? length (path n)) && bool_decide (last (path n) = Some slash) then
      Panic "catch-all conflicts with existing handle for the path segment root"
    else
      let i := (i - 1)%Z in
      if (i <? 0)%Z then Panic index_out_of_range
      else
        match p !! Z.to_nat i with
        | None => Panic index_out_of_range
        | Some c =>
            if negb (bool_decide (c = slash)) then Panic "no / before catch-all"
            else
              let second :=
                {| path := drop (Z.to_nat i) p; indices := []; children := [];
                   handlers := hs; priority := 1; nType := catchAll;
                   wildChild := false; fullPath := fp |} in
              let first :=
                incr_priority
                  (set_fullPath fp
                     (set_nType catchAll (set_wildChild true zero_node))) in
              Ok (set_indices [slash]
                    (set_children [set_children [second] first]
                       (set_path (take (Z.to_nat i) p) n)))
        end.

Definition insertChild (n : node) (p fp : str)
    (hs : option (list HandlerFunc)) : result node :=
  insertChild_loop (length p) n p fp hs.

(** *** addRoute *)

(** Position of the first byte of [ix] equal to [c]
    ([for i, c := range []byte(n.indices)]). *)
Fixpoint index_of (c : ascii) (ix : str) : option nat :=
  match ix with
  | [] => None
  | x :: ix' => if bool_decide (x = c) then Some 0 else S <$> index_of c ix'
  end.

(** The edge split of [addRoute]: the node keeps the common prefix and
    gets a single child that inherits everything else. *)
Definition split_edge (n : node) (i : nat) (p fp : str)
    (parentFullPathIndex : nat) : result node :=
  match path n !! i with
  | None => Panic index_out_of_range
  | Some b =>
      if length fp <? parentFullPathIndex + i then Panic slice_out_of_range
      else
        let child :=
          {| path := drop i (path n); indices := indices n;
             children := children n; handlers := handlers n;
             priority := u32 (priority n - 1); nType := static;
             wildChild := wildChild n; fullPath := fullPath n |} in
        Ok {| path := take i p; indices := [b]; children := [child];
              handlers := None; priority := priority n; nType := nType n;
              wildChild := false;
              fullPath := take (parentFullPathIndex + i) fp |}
  end.

(** The branch of [addRoute] that inserts a new static child for the
    byte [idxc]: the child is appended at position [last], its index byte
    at the end of [indices]; [incrementChildPrio] is called at the
    position of that byte, and [insertChild] on the new child, wherever
    the reordering has left it. *)
Definition insert_new_child (n : node) (idxc : ascii) (p fp : str)
    (hs : option (list HandlerFunc)) : result node :=
  let last := length (children n) in
  let child := set_fullPath fp zero_node in
  let n := set_children (children n ++ [child])
             (set_indices (indices n ++ [idxc]) n) in
  let pos := length (indices n) - 1 in
  '(n, newPos) ← incrementChildPrio n pos;
  let at_ := if pos =? last then newPos else last in
  match children n !! at_ with
  | None => Panic index_out_of_range
  | Some child =>
      child' ← insertChild child p fp hs;
      Ok (set_children (<[at_ := child']> (children n)) n)
  end.

(** The check made on the existing wildcard child [c] against the rest
    [p] of the new pattern. *)
Definition wildcard_matches (c : node) (p : str) : bool :=
  (length (path c) <=? length p)
  && eqb_str (path c) (take (length (path c)) p)
  && ((length p <=? length (path c))
      || bool_decide (p !! length (path c) = Some slash)).

(** The [walk] loop of [addRoute]; one unit of [fuel] per iteration. *)
Fixpoint addRoute_walk (fuel : nat) (n : node) (p fp : str)
    (parentFullPathIndex : nat) (hs : option (list HandlerFunc))
    : result node :=
  match fuel with
  | 0 => OutOfFuel
  | S fuel' =>
      let i := longestCommonPrefix p (path n) in
      n ← (if i <? length (path n)
            then split_edge n i p fp parentFullPathIndex else Ok n);
      if i <? length p then
        let p := drop i p in
        if wildChild n then
          let parentFullPathIndex := parentFullPathIndex + length (path n) in
          match children n with
          | [] => Panic index_out_of_range
          | c :: rest =>
              let c := incr_priority c in
              if wildcard_matches c p then
                c' ← addRoute_walk fuel' c p fp parentFullPathIndex hs;
                Ok (set_children (c' :: rest) n)
              else Panic "conflict with wildcard route"
          end
        else
          match p with
          | [] => Panic index_out_of_range
          | idxc :: _ =>
              match index_of idxc (indices n) with
              | Some k =>
                  let parentFullPathIndex :=
                    parentFullPathIndex + length (path n) in
                  '(n, k) ← incrementChildPrio n k;
                  match children n !! k with
                  | None => Panic index_out_of_range
                  | Some c =>
                      c' ← addRoute_walk fuel' c p fp parentFullPathIndex hs;
                      Ok (set_children (<[k := c']> (children n)) n)
                  end
              | None =>
                  if negb (is_sigil idxc) then insert_new_child n idxc p fp hs
                  else insertChild n p fp hs
              end
          end
      else if bool_decide (handlers n <> None) then
        Panic ("handlers are already registered for path '" +:+ text fp +:+ "'")%string
      else Ok (set_fullPath fp (set_handlers hs n))
  end.

Definition addRoute (n : node) (p : str) (hs : option (list HandlerFunc))
    : result node :=
  let fp := p in
  let n := incr_priority n in
  if (length (path n) =? 0) && (length (children n) =? 0) then
    n ← insertChild n p fp hs;
    Ok (set_nType static n)
  else addRoute_walk (S (height n)) n p fp 0 hs.

(** *** getValue *)

(** What [getValue] returns: the handlers (nil when nothing is bound),
    the parameter map (nil on the not-found returns) and the pattern. *)
Definition lookup_result : Type :=
  option (list HandlerFunc) * option (gmap str str) * str.

Definition not_found : lookup_result := (None, None, []).

(** End of a parameter value: the offset of the first separator. *)
Fixpoint param_end (p : str) : nat :=
  match p with
  | [] => 0
  | c :: p' => if bool_decide (c = slash) then 0 else S (param_end p')
  end.

(** The [walk] loop of [getValue], by recursion on the tree: every
    [continue walk] moves to a child of the current node. *)
Fixpoint getValue_walk (n : node) (p : str) (params : gmap str str)
    {struct n} : result lookup_result :=
  match n with
  | Node prefix ix cs hs _ _ wild fp =>
      if length prefix <? length p then
        if eqb_str (take (length prefix) p) prefix then
          let p := drop (length prefix) p in
          match p with
          | [] => Panic index_out_of_range
          | idxc :: _ =>
              (* try all the non-wildcard children first *)
              let static_child :=
                (fix scan (cs : list node) (ix : str) {struct cs}
                   : option (result lookup_result) :=
                   match ix, cs with
                   | [], _ => None
                   | c :: ix', ch :: cs' =>
                       if bool_decide (c = idxc)
                       then Some (getValue_walk ch p params)
                       else scan cs' ix'
                   | _ :: _, [] =>
                       if bool_decide (idxc ∈ ix)
                       then Some (Panic index_out_of_range) else None
                   end) cs ix in
              match static_child with
              | Some r => r
              | None =>
                  if wild then
                    match cs with
                    | [] => Panic index_out_of_range
                    | Node wpath _ wcs whs _ wtype _ wfp :: _ =>
                        match wtype with
                        | param =>
                            let e := param_end p in
                            if length wpath <? 1 then Panic slice_out_of_range
                            else
                              let params := <[drop 1 wpath := take e p]> params in
                              if e <? length p then
                                match wcs with
                                | gc :: _ => getValue_walk gc (drop e p) params
                                | [] => Ok not_found
                                end
                              else Ok (whs, Some params, wfp)
                        | catchAll =>
                            if length wpath <? 2 then Panic slice_out_of_range
                            else Ok (whs, Some (<[drop 2 wpath := p]> params), wfp)
                        | static => Panic "invalid node type"
                        end
                    end
                  else Ok not_found
              end
          end
        else Ok not_found
      else if eqb_str p prefix then
        match hs with
        | Some _ => Ok (hs, Some params, fp)
        | None => Ok not_found
        end
      else Ok not_found
  end.

Definition getValue (n : node) (p : str) : result lookup_result :=
  getValue_walk n p ∅.

End tree.

(** ** The request context and the handler chain (context.go) *)

Module context.

(** What the model keeps of [*http.Request]. *)
Record Request : Type := {
  Method : string;
  URLPath : str;
  URLQuery : gmap str (list str)
}.

(** A write to the [http.ResponseWriter]: content type, status code and
    body. *)
Definition write : Type := str * Z * str.

Record Context : Type := {
  Request_ : Request;
  Response : list write;
  Params : gmap str str;
  Query : gmap str (list str);
  handlers : list HandlerFunc;
  index : Z;
  store : option (gmap str value);
  aborted : bool;
  statusCode : Z
}.

Definition set_handlers (hs : list HandlerFunc) (c : Context) : Context :=
  {| Request_ := Request_ c; Response := Response c; Params := Params c;
     Query := Query c; handlers := hs; index := index c; store := store c;
     aborted := aborted c; statusCode := statusCode c |}.
Definition set_Params (ps : gmap str str) (c : Context) : Context :=
  {| Request_ := Request_ c; Response := Response c; Params := ps;
     Query := Query c; handlers := handlers c; index := index c;
     store := store c; aborted := aborted c; statusCode := statusCode c |}.
Definition set_index (i : Z) (c : Context) : Context :=
  {| Request_ := Request_ c; Response := Response c; Params := Params c;
     Query := Query c; handlers := handlers c; index := i; store := store c;
     aborted := aborted c; statusCode := statusCode c |}.
Definition set_store (m : option (gmap str value)) (c : Context) : Context :=
  {| Request_ := Request_ c; Response := Response c; Params := Params c;
     Query := Query c; handlers := handlers c; index := index c; store := m;
     aborted := aborted c; statusCode := statusCode c |}.
Definition set_aborted (b : bool) (c : Context) : Context :=
  {| Request_ := Request_ c; Response := Response c; Params := Params c;
     Query := Query c; handlers := handlers c; index := index c;
     store := store c; aborted := b; statusCode := statusCode c |}.

(** [Abort] prevents pending handlers from being called. *)
Definition Abort (c : Context) : Context := set_aborted true c.

Definition IsAborted (c : Context) : bool := aborted c.

(** [Set]: a write to a nil map panics in Go. *)
Definition Set_ (key : str) (v : value) (c : Context) : result Context :=
  match store c with
  | None => Panic "assignment to entry in nil map"
  | Some m => Ok (set_store (Some (<[key := v]> m)) c)
  end.

Definition Get (key : str) (c : Context) : option value :=
  m ← store c; m !! key.

Definition Param (key : str) (c : Context) : str :=
  default [] (Params c !! key).

(** [JSON], [String], [HTML] and [Data]: set the content type, record the
    status code and write the body. *)
Definition Write_ (ctype : str) (code : Z) (body : str) (c : Context)
    : Context :=
  {| Request_ := Request_ c; Response := Response c ++ [(ctype, code, body)];
     Params := Params c; Query := Query c; handlers := handlers c;
     index := index c; store := store c; aborted := aborted c;
     statusCode := code |}.

(** Ghost history of a chain execution: every movement of the cursor,
    every handler invocation (by cursor value) and every call of
    [Abort]. *)
Inductive event : Type :=
| Advanced (from to : Z)
| Invoked (i : Z)
| AbortCalled.

Global Instance event_eq_dec : EqDecision event.
Proof. solve_decision. Defined.

Definition run_state : Type := Context * list event.

(** A Go panic (or an exhausted bound of the model) stops the execution
    and leaves the context as it was at that point. *)
Inductive status : Type :=
| Running
| Panicked (msg : string)
| NoFuel.

Definition outcome : Type := run_state * status.

(** [c.index++] on the int8 cursor. *)
Definition advance (s : run_state) : run_state :=
  (set_index (i8 (index s.1 + 1)) s.1,
   s.2 ++ [Advanced (index s.1) (i8 (index s.1 + 1))]).

(** The body of a handler, with [next] standing for [c.Next]. *)
Fixpoint run (next : run_state -> outcome) (h : hprog) (s : run_state)
    : outcome :=
  match h with
  | Done => (s, Running)
  | CallNext k =>
      let '(s', st) := next s in
      match st with
      | Running => run next k s'
      | _ => (s', st)
      end
  | CallAbort k => run next k (Abort s.1, s.2 ++ [AbortCalled])
  | CallSet key v k =>
      match Set_ key v s.1 with
      | Ok c => run next k (c, s.2)
      | Panic m => (s, Panicked m)
      | OutOfFuel => (s, NoFuel)
      end
  | CallGet key k => run next (k (Get key s.1)) s
  | CallParam key k => run next (k (Param key s.1)) s
  | CallIsAborted k => run next (k (IsAborted s.1)) s
  | CallWrite ctype code body k => run next k (Write_ ctype code body s.1, s.2)
  end.

(** The loop of [Next], entered after the first [c.index++]; one unit of
    [fuel] per handler invocation. *)
Fixpoint Next_loop (fuel : nat) (s : run_state) : outcome :=
  let c := s.1 in
  if (index c <? i8 (Z.of_nat (length (handlers c))))%Z then
    if aborted c then (s, Running)
    else if (index c <? 0)%Z then (s, Panicked index_out_of_range)
    else
      match handlers c !! Z.to_nat (index c) with
      | None => (s, Panicked index_out_of_range)
      | Some h =>
          match fuel with
          | 0 => (s, NoFuel)
          | S fuel' =>
              let '(s', st) :=
                run (fun s0 => Next_loop fuel' (advance s0)) h
                  (c, s.2 ++ [Invoked (index c)]) in
              match st with
              | Running => Next_loop fuel' (advance s')
              | _ => (s', st)
              end
          end
      end
  else (s, Running).

Definition Next_fuel (fuel : nat) (s : run_state) : outcome :=
  Next_loop fuel (advance s).

(** An int8 cursor allows at most 127 invocations. *)
Definition chain_fuel : nat := 128.

Definition Next (s : run_state) : outcome := Next_fuel chain_fuel s.

(** *** Handlers of a given shape *)

(** The handler never calls [Abort]. *)
Inductive no_abort : hprog -> Prop :=
| na_Done : no_abort Done
| na_Next k : no_abort k -> no_abort (CallNext k)
| na_Set key v k : no_abort k -> no_abort (CallSet key v k)
| na_Get key k : (forall o, no_abort (k o)) -> no_abort (CallGet key k)
| na_Param key k : (forall o, no_abort (k o)) -> no_abort (CallParam key k)
| na_IsAborted k : (forall o, no_abort (k o)) -> no_abort (CallIsAborted k)
| na_Write ct code body k : no_abort k -> no_abort (CallWrite ct code body k).

(** The handler never calls [Next]. *)
Inductive no_next : hprog -> Prop :=
| nn_Done : no_next Done
| nn_Abort k : no_next k -> no_next (CallAbort k)
| nn_Set key v k : no_next k -> no_next (CallSet key v k)
| nn_Get key k : (forall o, no_next (k o)) -> no_next (CallGet key k)
| nn_Param key k : (forall o, no_next (k o)) -> no_next (CallParam key k)
| nn_IsAborted k : (forall o, no_next (k o)) -> no_next (CallIsAborted k)
| nn_Write ct code body k : no_next k -> no_next (CallWrite ct code body k).

(** The handler calls [Abort] whatever it observes. *)
Inductive calls_abort : hprog -> Prop :=
| ca_here k : calls_abort (CallAbort k)
| ca_Next k : calls_abort k -> calls_abort (CallNext k)
| ca_Set key v k : calls_abort k -> calls_abort (CallSet key v k)
| ca_Get key k : (forall o, calls_abort (k o)) -> calls_abort (CallGet key k)
| ca_Param key k : (forall o, calls_abort (k o)) -> calls_abort (CallParam key k)
| ca_IsAborted k :
    (forall o, calls_abort (k o)) -> calls_abort (CallIsAborted k)
| ca_Write ct code body k :
    calls_abort k -> calls_abort (CallWrite ct code body k).

(** *** Reading the history *)

Definition invocations (tr : list event) : list Z :=
  omap (fun e => match e with Invoked i => Some i | _ => None end) tr.

Definition times_invoked (i : Z) (tr : list event) : nat :=
  length (filter (fun j => j = i) (invocations tr)).

(** No handler is invoked after [Abort] has been called. *)
Definition quiet_after_abort (tr : list event) : Prop :=
  forall l1 l2, tr = l1 ++ AbortCalled :: l2 -> invocations l2 = [].

(** The recorded cursor movements form one history: it starts at [from],
    every movement starts where the previous one ended, and it ends at
    [to]. *)
Fixpoint cursor_history (from : Z) (tr : list event) (to : Z) : Prop :=
  match tr with
  | [] => from = to
  | Advanced a b :: tr' => a = from /\ cursor_history b tr' to
  | _ :: tr' => cursor_history from tr' to
  end.

Definition movements (tr : list event) : list (Z * Z) :=
  omap (fun e => match e with Advanced a b => Some (a, b) | _ => None end) tr.

End context.

(** ** Route groups (router.go) *)

Module router.

Record RouterGroup : Type := {
  handlers : list HandlerFunc;
  basePath : str
}.

(** [joinPaths] joins two paths. *)
Definition joinPaths (absolutePath relativePath : str) : str :=
  if bool_decide (relativePath = []) then absolutePath
  else
    let finalPath :=
      if bool_decide (absolutePath = []) then [slash] else absolutePath in
    if bool_decide (head relativePath = Some slash) then
      (* relativePath starts with '/': use it directly *)
      if bool_decide (finalPath = [slash]) then relativePath
      else finalPath ++ relativePath
    else if bool_decide (last finalPath = Some slash) then
      finalPath ++ relativePath
    else finalPath ++ [slash] ++ relativePath.

Definition calculateAbsolutePath (group : RouterGroup) (relativePath : str)
    : str :=
  joinPaths (basePath group) relativePath.

Definition combineHandlers (group : RouterGroup) (hs : list HandlerFunc)
    : list HandlerFunc :=
  handlers group ++ hs.

Definition Group (group : RouterGroup) (relativePath : str)
    (hs : list HandlerFunc) : RouterGroup :=
  {| handlers := combineHandlers group hs;
     basePath := calculateAbsolutePath group relativePath |}.

Definition Use (group : RouterGroup) (middleware : list HandlerFunc)
    : RouterGroup :=
  {| handlers := handlers group ++ middleware; basePath := basePath group |}.

(** Number of separators at the junction of [base] and [rel] in a joined
    path: the separators that end [base] plus those that start [rel]
    (one more when [joinPaths] inserts its own). *)
Fixpoint leading_slashes (s : str) : nat :=
  match s with
  | c :: s' => if bool_decide (c = slash) then S (leading_slashes s') else 0
  | [] => 0
  end.

Definition trailing_slashes (s : str) : nat := leading_slashes (rev s).

End router.

(** ** The engine (drift.go) *)

Module drift.

Inductive Mode : Type := DebugMode | ReleaseMode.

Record Engine : Type := {
  RouterGroup_ : router.RouterGroup;
  pool : list context.Context;
  trees : gmap string tree.node;
  mode : Mode
}.

Definition set_trees (t : gmap string tree.node) (e : Engine) : Engine :=
  {| RouterGroup_ := RouterGroup_ e; pool := pool e; trees := t;
     mode := mode e |}.
Definition set_pool (p : list context.Context) (e : Engine) : Engine :=
  {| RouterGroup_ := RouterGroup_ e; pool := p; trees := trees e;
     mode := mode e |}.

Definition New : Engine :=
  {| RouterGroup_ := {| router.handlers := []; router.basePath := [slash] |};
     pool := []; trees := ∅; mode := DebugMode |}.

(** Modelled from the spec: [router.NewNode] is not among the sources; a
    new tree is the empty node that [addRoute] of tree.go treats as the
    empty tree. *)
Definition NewNode : tree.node := tree.zero_node.

(** [Engine.addRoute]; the debug log line is not modelled. *)
Definition addRoute (e : Engine) (method : string) (p : str)
    (hs : list HandlerFunc) : result Engine :=
  match p with
  | [] => Panic index_out_of_range
  | c :: _ =>
      if bool_decide (c <> slash) then Panic "path must begin with '/'"
      else
        let root := default NewNode (trees e !! method) in
        (* make([]router.HandlerFunc, len(handlers)) is never nil *)
        root ← tree.addRoute root p (Some hs);
        Ok (set_trees (<[method := root]> (trees e)) e)
  end.

(** [RouterGroup.handle] *)
Definition handle (e : Engine) (group : router.RouterGroup)
    (httpMethod : string) (relativePath : str) (hs : list HandlerFunc)
    : result Engine :=
  addRoute e httpMethod (router.calculateAbsolutePath group relativePath)
    (router.combineHandlers group hs).

(** Registration of a list of routes for one method, one after the
    other; a panic ends it. *)
Definition register_step (method : string) (r : result Engine)
    (route : str * list HandlerFunc) : result Engine :=
  e ← r; addRoute e method route.1 route.2.

Definition register (method : string)
    (routes : list (str * list HandlerFunc)) (e : Engine) : result Engine :=
  foldl (register_step method) (Ok e) routes.

(** The zero value [&Context{}] of the pool's [New]. *)
Definition zero_Context : context.Context :=
  {| context.Request_ :=
       {| context.Method := ""; context.URLPath := [];
          context.URLQuery := ∅ |};
     context.Response := []; context.Params := ∅; context.Query := ∅;
     context.handlers := []; context.index := 0; context.store := None;
     context.aborted := false; context.statusCode := 0 |}.

(** [pool.Get]: a context released earlier, or a new one. *)
Definition pool_Get (p : list context.Context)
    : context.Context * list context.Context :=
  match p with
  | c :: p' => (c, p')
  | [] => (zero_Context, [])
  end.

(** The field assignments at the start of [ServeHTTP]. *)
Definition reset (c : context.Context) (w : list context.write)
    (req : context.Request) : context.Context :=
  {| context.Request_ := req; context.Response := w; context.Params := ∅;
     context.Query := context.URLQuery req;
     context.handlers := context.handlers c; context.index := (-1)%Z;
     context.store := Some ∅; context.aborted := false;
     context.statusCode := 200 |}.

Definition dquote : ascii := ascii_of_nat 34.
Definition newline : ascii := ascii_of_nat 10.

(** The built-in handler of [handleRequest] for unmatched requests:
    [c.JSON(404, {error: Not Found})]. *)
Definition notFoundHandler : HandlerFunc :=
  CallWrite (bytes "application/json") 404
    (bytes "{" ++ [dquote] ++ bytes "error" ++ [dquote] ++ bytes ":"
     ++ [dquote] ++ bytes "Not Found" ++ [dquote] ++ bytes "}" ++ [newline])
    Done.

Definition handleRequest (e : Engine) (s : context.run_state)
    : context.outcome :=
  let c := s.1 in
  let httpMethod := context.Method (context.Request_ c) in
  let p := context.URLPath (context.Request_ c) in
  let noRoute :=
    context.Next (context.set_handlers [notFoundHandler] c, s.2) in
  match trees e !! httpMethod with
  | Some root =>
      match tree.getValue root p with
      | Ok (Some routerHandlers, params, fullPath) =>
          let c := context.set_handlers routerHandlers c in
          let c := context.set_Params (default ∅ params) c in
          match context.Set_ (bytes "_fullPath") (VString fullPath) c with
          | Ok c => context.Next (c, s.2)
          | Panic m => ((c, s.2), context.Panicked m)
          | OutOfFuel => ((c, s.2), context.NoFuel)
          end
      | Ok (None, _, _) => noRoute
      | Panic m => (s, context.Panicked m)
      | OutOfFuel => (s, context.NoFuel)
      end
  | None => noRoute
  end.

(** [ServeHTTP]: acquire, reset, dispatch, release.  A panic propagates
    and the context is not put back.  The debug log lines are not
    modelled. *)
Definition ServeHTTP (e : Engine) (w : list context.write)
    (req : context.Request) : Engine * context.outcome :=
  let '(c, rest) := pool_Get (pool e) in
  let c := reset c w req in
  let '(s, st) := handleRequest e (c, []) in
  match st with
  | context.Running => (set_pool (s.1 :: rest) e, (s, st))
  | _ => (set_pool rest e, (s, st))
  end.

End drift.

(** ** Vocabulary of the properties *)

Module props.
Import tree.

(** The parameter branch of [getValue], on the wildcard child [w]. *)
Definition getValue_wild (w : node) (p : str) (params : gmap str str)
    (continue : node -> str -> gmap str str -> result lookup_result)
    : result lookup_result :=
  match nType w with
  | param =>
      let e := param_end p in
      if length (path w) <? 1 then Panic slice_out_of_range
      else
        let params := <[drop 1 (path w) := take e p]> params in
        if e <? length p then
          match children w with
          | gc :: _ => continue gc (drop e p) params
          | [] => Ok not_found
          end
        else Ok (handlers w, Some params, fullPath w)
  | catchAll =>
      if length (path w) <? 2 then Panic slice_out_of_range
      else Ok (handlers w, Some (<[drop 2 (path w) := p]> params), fullPath w)
  | static => Panic "invalid node type"
  end.

(** *** Trees *)

(** [P] holds at every node of the tree. *)
Fixpoint tree_all (P : node -> Prop) (n : node) : Prop :=
  match n with
  | Node _ _ cs _ _ _ _ _ =>
      P n /\ (fix all (l : list node) : Prop :=
                match l with
                | [] => True
                | c :: l' => tree_all P c /\ all l'
                end) cs
  end.

(** Siblings in the order of lookup: priorities do not increase. *)
Definition non_increasing (l : list Z) : Prop :=
  StronglySorted (fun x y => (y <= x)%Z) l.

Definition sorted_children (n : node) : Prop :=
  non_increasing (priority <$> children n).

(** After [N] registrations: priorities between 0 and [N], children in
    order, at every node. *)
Definition prio_bounded (N : Z) (n : node) : Prop :=
  (0 <= priority n <= N)%Z /\ sorted_children n.

Definition ordered (N : Z) (n : node) : Prop := tree_all (prio_bounded N) n.

(** Every tree of the engine is ordered, with priorities up to [N]. *)
Definition trees_ordered (N : Z) (e : drift.Engine) : Prop :=
  forall (method : string) (root : node),
    drift.trees e !! method = Some root -> ordered N root.

(** The sibling order alone, at every node of a tree. *)
Definition siblings_ordered (root : node) : Prop :=
  tree_all sorted_children root.

(** A tree of literal routes: no wildcard child, one index byte per child,
    which is the first byte of the child's fragment, and no byte twice. *)
Definition static_node (n : node) : Prop :=
  wildChild n = false /\ NoDup (indices n)
  /\ Forall2 (fun x c => head (path c) = Some x) (indices n) (children n).

Definition static_tree (n : node) : Prop := tree_all static_node n.

(** The children of a node by index byte. *)
Definition cmap (n : node) : gmap ascii node :=
  list_to_map (zip (indices n) (children n)).

(** Number of handler chains bound in a tree: one per registered
    pattern. *)
Fixpoint routes_below (n : node) : nat :=
  match n with
  | Node _ _ cs h _ _ _ _ =>
      match h with Some _ => 1 | None => 0 end
      + (fix sum (l : list node) : nat :=
           match l with
           | [] => 0
           | c :: l' => routes_below c + sum l'
           end) cs
  end.

(** The routes bound at a node itself. *)
Definition bound_here (n : node) : nat :=
  match handlers n with Some _ => 1 | None => 0 end.

(** The priority of every node is the number of routes in its subtree. *)
Definition counts_routes (n : node) : Prop :=
  priority n = Z.of_nat (routes_below n).

Definition counted (n : node) : Prop := tree_all counts_routes n.

(** The panic of a registration at a node that has a chain. *)
Definition already_registered (fp : str) : string :=
  ("handlers are already registered for path '" +:+ text fp +:+ "'")%string.

(** The tree [root] holds exactly the literal routes of the map [M]. *)
Definition models (M : gmap str (list HandlerFunc)) (root : node) : Prop :=
  static_tree root
  /\ (M = ∅ -> root = zero_node)
  /\ (M <> ∅ -> head (path root) = Some slash)
  /\ forall q ps,
       getValue_walk root q ps
       = match M !! q with
         | Some hs => Ok (Some hs, Some ps, q)
         | None => Ok not_found
         end.

(** A literal pattern: no wildcard sigil. *)
Definition literal (p : str) : Prop := Forall (fun c => is_sigil c = false) p.

(** A parameter name: not empty, no separator, no sigil. *)
Definition param_name (nm : str) : Prop :=
  nm <> [] /\ (slash ∉ nm) /\ literal nm.

Definition starts_with_slash (p : str) : Prop := head p = Some slash.

(** The tree of [method], as [Engine.addRoute] finds it. *)
Definition root_of (method : string) (e : drift.Engine) : node :=
  default drift.NewNode (drift.trees e !! method).

(** The tree that holds the single pattern [pre ++ ":" ++ nm]. *)
Definition param_tree (pre nm : str) (hs : list HandlerFunc) : node :=
  {| path := pre; indices := [];
     children :=
       [ {| path := colon :: nm; indices := []; children := [];
            handlers := Some hs; priority := 1; nType := param;
            wildChild := false; fullPath := pre ++ colon :: nm |} ];
     handlers := None; priority := 1; nType := static; wildChild := true;
     fullPath := [] |}.

(** Three handlers that can be told apart by what they write. *)
Definition hA : HandlerFunc := CallWrite (bytes "text/plain") 200 (bytes "A") Done.
Definition hB : HandlerFunc := CallWrite (bytes "text/plain") 200 (bytes "B") Done.
Definition hC : HandlerFunc := CallWrite (bytes "text/plain") 200 (bytes "C") Done.

(** *** Chain execution *)

Definition int8 (z : Z) : Prop := (-128 <= z <= 127)%Z.

(** A list of cursor values in strictly increasing order. *)
Definition increasing (l : list Z) : Prop :=
  forall i j a b, i < j -> l !! i = Some a -> l !! j = Some b -> (a < b)%Z.

(** What holds of the context and the history at every point of a chain
    execution over the handlers [hs], the point of a panic included. *)
Record chain_inv (hs : list HandlerFunc) (s : context.run_state) : Prop := {
  inv_handlers : context.handlers s.1 = hs;
  inv_abort_called :
    context.aborted s.1 = false -> context.AbortCalled ∉ s.2;
  inv_quiet : context.quiet_after_abort s.2;
  inv_increasing : increasing (context.invocations s.2);
  inv_invoked :
    forall j, j ∈ context.invocations s.2 ->
              (0 <= j < i8 (Z.of_nat (length hs)))%Z
}.

(** What holds in addition wherever the execution goes on. *)
Definition chain_live (hs : list HandlerFunc) (s : context.run_state)
    : Prop :=
  chain_inv hs s
  /\ int8 (context.index s.1)
  /\ (context.aborted s.1 = false ->
      forall j, j ∈ context.invocations s.2 -> (j <= context.index s.1)%Z).

(** The loop of [Next] is about to invoke a handler in state [s]. *)
Definition invocable (s : context.run_state) : Prop :=
  (context.index s.1
     < i8 (Z.of_nat (length (context.handlers s.1))))%Z
  /\ context.aborted s.1 = false
  /\ (0 <= context.index s.1)%Z
  /\ is_Some (context.handlers s.1 !! Z.to_nat (context.index s.1)).

(** What an invariant [P] of the running states, with [Q] for the final
    ones, says of an outcome; an exhausted bound is traced back to a state
    that had no fuel left for an invocation. *)
Definition chain_post (P : nat -> context.run_state -> Prop)
    (Q : context.run_state -> Prop) (f : nat) (o : context.outcome) : Prop :=
  Q o.1 /\ (o.2 = context.Running -> P f o.1)
  /\ (o.2 = context.NoFuel ->
      exists s0, P 0 s0 /\ invocable (context.advance s0)).

(** The invariant of the running states; with [bounded], the fuel left
    also suffices for the invocations that can still follow. *)
Definition fuelled (bounded : bool) (hs : list HandlerFunc) (fuel : nat)
    (s : context.run_state) : Prop :=
  chain_live hs s
  /\ (bounded = true -> context.aborted s.1 = false ->
      (0 < i8 (Z.of_nat (length hs)))%Z ->
      (-1 <= context.index s.1)%Z ->
      (126 <= Z.of_nat fuel + context.index s.1)%Z).

(** The two phases of the chain [A; B; C] in which [B] aborts: [A] has
    been invoked and the chain is not aborted; [A] and [B] have been
    invoked and the chain is aborted. *)
Definition before_abort (chain : list HandlerFunc) (s : context.run_state)
    : Prop :=
  context.handlers s.1 = chain /\ context.index s.1 = 0%Z
  /\ context.aborted s.1 = false /\ context.store s.1 <> None
  /\ context.invocations s.2 = [0%Z].

Definition after_abort (chain : list HandlerFunc) (s : context.run_state)
    : Prop :=
  context.handlers s.1 = chain /\ context.aborted s.1 = true
  /\ context.store s.1 <> None
  /\ context.invocations s.2 = [0%Z; 1%Z].

(** One movement of the int8 cursor: one up, or from 127 around to -128. *)
Definition cursor_step (m : Z * Z) : Prop :=
  (m.2 = m.1 + 1 \/ (m.1 = 127 /\ m.2 = -128))%Z.

Definition cursor_ok (start : Z) (s : context.run_state) : Prop :=
  context.cursor_history start s.2 (context.index s.1)
  /\ int8 (context.index s.1)
  /\ Forall cursor_step (context.movements s.2).

(** [n] nested calls of [c.Next()] before [k]. *)
Fixpoint nexts (n : nat) (k : hprog) : hprog :=
  match n with
  | 0 => k
  | S m => CallNext (nexts m k)
  end.

Definition some_request : context.Request :=
  {| context.Method := "GET"; context.URLPath := bytes "/";
     context.URLQuery := ∅ |}.

(** *** The panics of a registration *)



(** The segments of a pattern: the pieces between its separators. *)
Fixpoint segments (p : str) : list str :=
  match p with
  | [] => [[]]
  | c :: p' =>
      if bool_decide (c = slash) then [] :: segments p'
      else match segments p' with
           | s :: ss => (c :: s) :: ss
           | [] => [[c]]
           end
  end.

Definition sigils (s : str) : nat := length (filter (fun c => is_sigil c) s).

(** More than one wildcard sigil in the segment. *)
Definition many_sigils (s : str) : bool := 2 <=? sigils s.


(** A catch-all segment that is not the last segment of the pattern, or
    does not follow the separator immediately. *)
Definition misplaced_catch_all (final : bool) (s : str) : bool :=
  bool_decide (star ∈ s)
  && (negb final || negb (bool_decide (head s = Some star))).

(** [f final s] holds of some segment [s]; [final] tells the last one. *)
Fixpoint some_segment (f : bool -> str -> bool) (ss : list str) : bool :=
  match ss with
  | [] => false
  | s :: rest =>
      f (match rest with [] => true | _ => false end) s || some_segment f rest
  end.

(** The faults of a segment that the specification lists, and those for
    which [insertChild] panics: the listed ones and the wildcard without
    a name. *)
Definition listed_segment_fault (final : bool) (s : str) : bool :=
  many_sigils s || misplaced_catch_all final s.


(** The faults of a pattern by itself: no leading separator, or a fault
    in a segment. *)
Definition listed_fault (p : str) : bool :=
  negb (bool_decide (starts_with_slash p))
  || some_segment listed_segment_fault (segments p).


End props.

(** ** Further methods of the context (context.go) *)

Module context_api.
Import context.

(** [newContext] *)
Definition newContext (w : list write) (r : Request) : Context :=
  {| Request_ := r; Response := w; Params := ∅; Query := URLQuery r;
     handlers := []; index := (-1)%Z; store := Some ∅; aborted := false;
     statusCode := 200 |}.

(** The message of the panic of [MustGet]. *)
Definition key_missing (key : str) : string :=
  ("Key " +:+ String drift.dquote (text key)
   +:+ String drift.dquote " does not exist")%string.

(** [MustGet] retrieves a value or panics if it does not exist. *)
Definition MustGet (key : str) (c : Context) : result value :=
  match Get key c with
  | Some v => Ok v
  | None => Panic (key_missing key)
  end.

(** [GetString], [GetInt], [GetBool]: the value when it is there and has
    the type, the zero value of the type otherwise. *)
Definition GetString (key : str) (c : Context) : str :=
  match Get key c with
  | Some (VString s) => s
  | _ => []
  end.

Definition GetInt (key : str) (c : Context) : Z :=
  match Get key c with
  | Some (VInt i) => i
  | _ => 0%Z
  end.

Definition GetBool (key : str) (c : Context) : bool :=
  match Get key c with
  | Some (VBool b) => b
  | _ => false
  end.

(** [url.Values.Get]: the first value of the key, or the empty string. *)
Definition Values_Get (q : gmap str (list str)) (key : str) : str :=
  match q !! key with
  | Some (v :: _) => v
  | _ => []
  end.

Definition QueryParam (key : str) (c : Context) : str :=
  Values_Get (Query c) key.

Definition DefaultQuery (key defaultValue : str) (c : Context) : str :=
  let value := Values_Get (Query c) key in
  if bool_decide (value <> []) then value else defaultValue.

(** The failed type assertion [path.(string)] of [FullPath]. *)
Definition not_a_string : string :=
  "interface conversion: interface {} is not string".

(** [FullPath]: the pattern that [handleRequest] has stored under
    [_fullPath], or the path of the request. *)
Definition FullPath (c : Context) : result str :=
  match Get (bytes "_fullPath") c with
  | Some (VString s) => Ok s
  | Some _ => Panic not_a_string
  | None => Ok (URLPath (Request_ c))
  end.

(** [Redirect]: the location and the status code that are handed to
    [http.Redirect]. *)
Definition Redirect (code : Z) (location : str) : str * Z :=
  let code :=
    if (code <? 300)%Z || (308 <? code)%Z then 302%Z else code in
  (location, code).

(** [AbortWithStatusJSON]: [c.Abort()] and then [c.JSON(code, data)], the
    body being the encoding of [data]. *)
Definition AbortWithStatusJSON (code : Z) (body : str) (k : hprog)
    : hprog :=
  CallAbort (CallWrite (bytes "application/json") code body k).

End context_api.

(** ** HTTP error helpers (errors.go)

    [enc code message] stands for the JSON encoding of
    [HTTPError{Code: code, Message: message}] by encoding/json, and
    [statusText] for [http.StatusText]; neither is among the sources. *)

Module errors.
Import context_api.

Section helpers.
Variable enc : Z -> str -> str.
Variable statusText : Z -> str.

(** The body of every helper: the default message when none is given. *)
Definition or_default (message defaultMessage : str) : str :=
  if bool_decide (message = []) then defaultMessage else message.

Definition BadRequest (message : str) (k : hprog) : hprog :=
  AbortWithStatusJSON 400
    (enc 400 (or_default message (bytes "Bad Request"))) k.
Definition Unauthorized (message : str) (k : hprog) : hprog :=
  AbortWithStatusJSON 401
    (enc 401 (or_default message (bytes "Unauthorized"))) k.
Definition Forbidden (message : str) (k : hprog) : hprog :=
  AbortWithStatusJSON 403
    (enc 403 (or_default message (bytes "Forbidden"))) k.
Definition NotFound (message : str) (k : hprog) : hprog :=
  AbortWithStatusJSON 404
    (enc 404 (or_default message (bytes "Not Found"))) k.
Definition MethodNotAllowed (message : str) (k : hprog) : hprog :=
  AbortWithStatusJSON 405
    (enc 405 (or_default message (bytes "Method Not Allowed"))) k.
Definition Conflict (message : str) (k : hprog) : hprog :=
  AbortWithStatusJSON 409
    (enc 409 (or_default message (bytes "Conflict"))) k.
Definition UnprocessableEntity (message : str) (k : hprog) : hprog :=
  AbortWithStatusJSON 422
    (enc 422 (or_default message (bytes "Unprocessable Entity"))) k.
Definition TooManyRequests (message : str) (k : hprog) : hprog :=
  AbortWithStatusJSON 429
    (enc 429 (or_default message (bytes "Too Many Requests"))) k.
Definition InternalServerError (message : str) (k : hprog) : hprog :=
  AbortWithStatusJSON 500
    (enc 500 (or_default message (bytes "Internal Server Error"))) k.
Definition NotImplemented (message : str) (k : hprog) : hprog :=
  AbortWithStatusJSON 501
    (enc 501 (or_default message (bytes "Not Implemented"))) k.
Definition BadGateway (message : str) (k : hprog) : hprog :=
  AbortWithStatusJSON 502
    (enc 502 (or_default message (bytes "Bad Gateway"))) k.
Definition ServiceUnavailable (message : str) (k : hprog) : hprog :=
  AbortWithStatusJSON 503
    (enc 503 (or_default message (bytes "Service Unavailable"))) k.
Definition GatewayTimeout (message : str) (k : hprog) : hprog :=
  AbortWithStatusJSON 504
    (enc 504 (or_default message (bytes "Gateway Timeout"))) k.

(** The panic of [http.ResponseWriter.WriteHeader] (net/http) for a
    status code that has not three digits. *)
Definition invalid_WriteHeader_code : string := "invalid WriteHeader code".

(** [Error]: the status code of the caller, with its standard text as
    the default message.  The code goes unchecked through
    [AbortWithStatusJSON] and [JSON] to [WriteHeader], which panics
    outside 100..999; the codes of the helpers above are constants of
    that range. *)
Definition Error (code : Z) (message : str) (k : hprog) : result hprog :=
  if (code <? 100)%Z || (999 <? code)%Z then Panic invalid_WriteHeader_code
  else
    Ok (AbortWithStatusJSON code
          (enc code (or_default message (statusText code))) k).

End helpers.

End errors.

(** ** Route registration through groups (router.go, drift.go) *)

Module routes.

Definition Get (e : drift.Engine) (group : router.RouterGroup)
    (relativePath : str) (hs : list HandlerFunc) : result drift.Engine :=
  drift.handle e group "GET" relativePath hs.
Definition Post (e : drift.Engine) (group : router.RouterGroup)
    (relativePath : str) (hs : list HandlerFunc) : result drift.Engine :=
  drift.handle e group "POST" relativePath hs.
Definition Put (e : drift.Engine) (group : router.RouterGroup)
    (relativePath : str) (hs : list HandlerFunc) : result drift.Engine :=
  drift.handle e group "PUT" relativePath hs.
Definition Delete (e : drift.Engine) (group : router.RouterGroup)
    (relativePath : str) (hs : list HandlerFunc) : result drift.Engine :=
  drift.handle e group "DELETE" relativePath hs.
Definition Patch (e : drift.Engine) (group : router.RouterGroup)
    (relativePath : str) (hs : list HandlerFunc) : result drift.Engine :=
  drift.handle e group "PATCH" relativePath hs.
Definition Options (e : drift.Engine) (group : router.RouterGroup)
    (relativePath : str) (hs : list HandlerFunc) : result drift.Engine :=
  drift.handle e group "OPTIONS" relativePath hs.
Definition Head (e : drift.Engine) (group : router.RouterGroup)
    (relativePath : str) (hs : list HandlerFunc) : result drift.Engine :=
  drift.handle e group "HEAD" relativePath hs.

(** [Any] registers the route for all HTTP methods, in this order. *)
Definition methods : list string :=
  ["GET"; "POST"; "PUT"; "DELETE"; "PATCH"; "OPTIONS"; "HEAD"]%string.

Definition Any_step (group : router.RouterGroup) (relativePath : str)
    (hs : list HandlerFunc) (r : result drift.Engine) (method : string)
    : result drift.Engine :=
  e ← r; drift.handle e group method relativePath hs.

Definition Any (e : drift.Engine) (group : router.RouterGroup)
    (relativePath : str) (hs : list HandlerFunc) : result drift.Engine :=
  foldl (Any_step group relativePath hs) (Ok e) methods.

(** The handler of [Static]:
    [c.String(200, "Static file serving for: "+root)]. *)
Definition static_handler (root : str) : HandlerFunc :=
  CallWrite (bytes "text/plain") 200
    (bytes "Static file serving for: " ++ root) Done.

Definition Static (e : drift.Engine) (group : router.RouterGroup)
    (relativePath root : str) : result drift.Engine :=
  let urlPattern := router.joinPaths relativePath (bytes "/*filepath") in
  Get e group urlPattern [static_handler root].

End routes.

(** ** Further vocabulary: well-formed trees, dispatch *)

Module more.
Import tree props.

(** *** Trees on which a lookup cannot fail *)

(** A node that [getValue] enters as the wildcard child of its parent:
    it is a parameter with its sigil or a catch-all with separator and
    sigil, so that the name can be cut out of its fragment. *)
Definition wild_ok (c : node) : Prop :=
  match nType c with
  | param => 1 <= length (path c)
  | catchAll => 2 <= length (path c)
  | static => False
  end.

(** Every index byte has a child, and a node flagged [wildChild] has a
    wildcard child in front. *)
Definition lookup_safe_node (n : node) : Prop :=
  length (indices n) <= length (children n)
  /\ (wildChild n = true ->
      exists c cs, children n = c :: cs /\ wild_ok c).

Definition lookup_safe (n : node) : Prop := tree_all lookup_safe_node n.

(** All the trees of the engine. *)
Definition trees_safe (e : drift.Engine) : Prop :=
  forall (method : string) (root : node),
    drift.trees e !! method = Some root -> lookup_safe root.

(** Registration of routes for any methods, one after the other; a
    panic ends it. *)
Definition register_all_step (r : result drift.Engine)
    (route : string * str * list HandlerFunc) : result drift.Engine :=
  e ← r; drift.addRoute e route.1.1 route.1.2 route.2.

Definition register_all (routes : list (string * str * list HandlerFunc))
    (e : drift.Engine) : result drift.Engine :=
  foldl register_all_step (Ok e) routes.

(** *** Where a lookup ends *)

(** The returns of [getValue] that hand out the chain and the pattern
    of a node: at the node whose fragment ends the input; at a
    parameter node that takes the input to its end; at a catch-all
    node. *)
Inductive exit : Type := at_node | at_param | at_catchAll.

(** [getValue] with a ghost result: beside what the walk returns, the
    return that was taken, the node whose chain it handed out, and what
    was left of the input when the walk came to that node.  The ghost
    result is [None] on the returns that find nothing. *)
Fixpoint getValue_ghost (n : node) (p : str) (params : gmap str str)
    {struct n} : result (lookup_result * option (exit * node * str)) :=
  match n with
  | Node prefix ix cs hs _ _ wild fp =>
      if length prefix <? length p then
        if eqb_str (take (length prefix) p) prefix then
          let p := drop (length prefix) p in
          match p with
          | [] => Panic index_out_of_range
          | idxc :: _ =>
              let static_child :=
                (fix scan (cs : list node) (ix : str) {struct cs}
                   : option (result (lookup_result
                                     * option (exit * node * str))) :=
                   match ix, cs with
                   | [], _ => None
                   | c :: ix', ch :: cs' =>
                       if bool_decide (c = idxc)
                       then Some (getValue_ghost ch p params)
                       else scan cs' ix'
                   | _ :: _, [] =>
                       if bool_decide (idxc ∈ ix)
                       then Some (Panic index_out_of_range) else None
                   end) cs ix in
              match static_child with
              | Some r => r
              | None =>
                  if wild then
                    match cs with
                    | [] => Panic index_out_of_range
                    | (Node wpath _ wcs whs _ wtype _ wfp as w) :: _ =>
                        match wtype with
                        | param =>
                            let e := param_end p in
                            if length wpath <? 1 then Panic slice_out_of_range
                            else
                              let params :=
                                <[drop 1 wpath := take e p]> params in
                              if e <? length p then
                                match wcs with
                                | gc :: _ =>
                                    getValue_ghost gc (drop e p) params
                                | [] => Ok (not_found, None)
                                end
                              else
                                Ok ((whs, Some params, wfp),
                                    Some (at_param, w, p))
                        | catchAll =>
                            if length wpath <? 2 then Panic slice_out_of_range
                            else
                              Ok ((whs, Some (<[drop 2 wpath := p]> params),
                                   wfp),
                                  Some (at_catchAll, w, p))
                        | static => Panic "invalid node type"
                        end
                    end
                  else Ok (not_found, None)
              end
          end
        else Ok (not_found, None)
      else if eqb_str p prefix then
        match hs with
        | Some _ => Ok ((hs, Some params, fp), Some (at_node, n, p))
        | None => Ok (not_found, None)
        end
      else Ok (not_found, None)
  end.

(** *** Catch-all patterns *)

(** The pattern [pre ++ "/*" ++ nm]. *)
Definition catch_all_pattern (pre nm : str) : str :=
  pre ++ slash :: star :: nm.

(** The tree that holds this pattern alone: the fragment [pre], below it
    the empty catch-all node and the node of the variable. *)
Definition catch_all_tree (pre nm : str) (hs : list HandlerFunc) : node :=
  {| path := pre; indices := [slash];
     children :=
       [ {| path := []; indices := [];
            children :=
              [ {| path := slash :: star :: nm; indices := [];
                   children := []; handlers := Some hs; priority := 1;
                   nType := catchAll; wildChild := false;
                   fullPath := catch_all_pattern pre nm |} ];
            handlers := None; priority := 1; nType := catchAll;
            wildChild := true; fullPath := catch_all_pattern pre nm |} ];
     handlers := None; priority := 1; nType := static; wildChild := false;
     fullPath := [] |}.

(** *** Parameters inside a pattern *)

(** The pattern [pre ++ ":" ++ nm ++ suf]. *)
Definition inner_param_pattern (pre nm suf : str) : str :=
  pre ++ colon :: nm ++ suf.

(** The tree that holds this pattern alone: the fragment [pre], below it
    the parameter, below that the fragment [suf] with the chain. *)
Definition inner_param_tree (pre nm suf : str) (hs : list HandlerFunc)
    : node :=
  {| path := pre; indices := [];
     children :=
       [ {| path := colon :: nm; indices := [];
            children :=
              [ {| path := suf; indices := []; children := [];
                   handlers := Some hs; priority := 1; nType := static;
                   wildChild := false;
                   fullPath := inner_param_pattern pre nm suf |} ];
            handlers := None; priority := 1; nType := param;
            wildChild := false;
            fullPath := inner_param_pattern pre nm suf |} ];
     handlers := None; priority := 1; nType := static; wildChild := true;
     fullPath := [] |}.

(** *** Route groups *)

(** The names on a path: its segments that are not empty. *)
Definition path_names (p : str) : list str :=
  filter (fun s => s <> []) (segments p).

(** The groups of an application: the group of the engine and what
    [Group] and [Use] make of a group. *)
Inductive derived : router.RouterGroup -> Prop :=
| derived_engine : derived (drift.RouterGroup_ drift.New)
| derived_Group g relativePath hs :
    derived g -> derived (router.Group g relativePath hs)
| derived_Use g middleware :
    derived g -> derived (router.Use g middleware).

(** What is known of every tree of an engine that holds literal routes
    only: a map [M] of its routes, all of them among [seen]. *)
Definition tracked (seen : list (string * str)) (e : drift.Engine) : Prop :=
  forall m, exists M,
    models M (root_of m e)
    /\ forall p, is_Some (M !! p) -> (m, p) ∈ seen.

(** *** The error helpers *)

(** The helpers of errors.go with a fixed status code, each with its
    code and its default message. *)
Definition error_helpers (enc : Z -> str -> str)
    : list ((str -> hprog -> hprog) * (Z * str)) :=
  [ (errors.BadRequest enc, (400%Z, bytes "Bad Request"));
    (errors.Unauthorized enc, (401%Z, bytes "Unauthorized"));
    (errors.Forbidden enc, (403%Z, bytes "Forbidden"));
    (errors.NotFound enc, (404%Z, bytes "Not Found"));
    (errors.MethodNotAllowed enc, (405%Z, bytes "Method Not Allowed"));
    (errors.Conflict enc, (409%Z, bytes "Conflict"));
    (errors.UnprocessableEntity enc, (422%Z, bytes "Unprocessable Entity"));
    (errors.TooManyRequests enc, (429%Z, bytes "Too Many Requests"));
    (errors.InternalServerError enc,
     (500%Z, bytes "Internal Server Error"));
    (errors.NotImplemented enc, (501%Z, bytes "Not Implemented"));
    (errors.BadGateway enc, (502%Z, bytes "Bad Gateway"));
    (errors.ServiceUnavailable enc, (503%Z, bytes "Service Unavailable"));
    (errors.GatewayTimeout enc, (504%Z, bytes "Gateway Timeout")) ].

(** The answer of an error helper: the encoding of the code and of the
    message, the default message standing in for an empty one. *)
Definition error_answer (enc : Z -> str -> str) (code : Z)
    (message defaultMessage : str) : context.write :=
  (bytes "application/json", code,
   enc code (if bool_decide (message = []) then defaultMessage else message)).

(** *** Dispatch *)

(** The context as [ServeHTTP] hands it to the chain [hs] of a matched
    route: the request and the writer of this call, the parameters of
    the lookup, the pattern under [_fullPath], the cursor before the
    first handler. *)
Definition dispatched (w : list context.write) (req : context.Request)
    (hs : list HandlerFunc) (ps : gmap str str) (fp : str)
    : context.Context :=
  {| context.Request_ := req; context.Response := w; context.Params := ps;
     context.Query := context.URLQuery req; context.handlers := hs;
     context.index := (-1)%Z;
     context.store := Some {[ bytes "_fullPath" := VString fp ]};
     context.aborted := false; context.statusCode := 200 |}.

(** The body of the answer to an unmatched request. *)
Definition not_found_body : str :=
  bytes "{" ++ [drift.dquote] ++ bytes "error" ++ [drift.dquote] ++ bytes ":"
  ++ [drift.dquote] ++ bytes "Not Found" ++ [drift.dquote] ++ bytes "}"
  ++ [drift.newline].

(** The context after the answer to an unmatched request. *)
Definition answered_404 (w : list context.write) (req : context.Request)
    : context.Context :=
  {| context.Request_ := req;
     context.Response := w ++ [(bytes "application/json", 404%Z,
                                not_found_body)];
     context.Params := ∅; context.Query := context.URLQuery req;
     context.handlers := [drift.notFoundHandler]; context.index := 1%Z;
     context.store := Some ∅; context.aborted := false;
     context.statusCode := 404 |}.

(** A handler that neither calls [Next] nor [Abort]. *)
Definition plain (h : HandlerFunc) : Prop :=
  context.no_next h /\ context.no_abort h.

(** The positions [0], ..., [n - 1] of a chain of [n] handlers. *)
Definition positions (n : nat) : list Z := Z.of_nat <$> seq 0 n.

End more.

(** ** Middleware (pkg/middleware)

    A middleware is a closure over the context.  It is modelled by the
    calls that it makes on the context, in order, as a function of what
    it reads from the request. *)

Module middleware.

(** The calls on the context. *)
Inductive call : Type :=
| Header (key value : str)
| SetCookie (name value : str) (maxAge : Z) (path domain : str)
    (secure httpOnly : bool)
| Set_ (key : str) (v : value)
| JSON (code : Z) (body : str)
| AbortWithStatus (code : Z)
| Abort
| Next.

(** What the middleware reads from the request.  [Cookie] is [None] for
    the error of [http.Request.Cookie]. *)
Record request : Type := {
  Method : string;
  GetHeader : str -> str;
  PostForm : str -> str;
  QueryParam : str -> str;
  Cookie : str -> option str
}.

(** [strings.Join] *)
Definition Join (elems : list str) (sep : str) : str :=
  match elems with
  | [] => []
  | e :: elems' => foldl (fun acc x => acc ++ sep ++ x) e elems'
  end.

(** *** CORS *)

Record CORSConfig : Type := {
  AllowOrigins : list str;
  AllowMethods : list str;
  AllowHeaders : list str;
  ExposeHeaders : list str;
  AllowCredentials : bool;
  MaxAge : Z
}.

Definition DefaultCORSConfig : CORSConfig :=
  {| AllowOrigins := [bytes "*"];
     AllowMethods :=
       [bytes "GET"; bytes "POST"; bytes "PUT"; bytes "PATCH";
        bytes "DELETE"; bytes "HEAD"; bytes "OPTIONS"];
     AllowHeaders :=
       [bytes "Origin"; bytes "Content-Type"; bytes "Accept";
        bytes "Authorization"];
     ExposeHeaders := [];
     AllowCredentials := false;
     MaxAge := 3600 |}.

(** The defaults that [CORSWithConfig] sets before it builds the
    closure. *)
Definition CORS_defaults (config : CORSConfig) : CORSConfig :=
  {| AllowOrigins :=
       if length (AllowOrigins config) =? 0 then [bytes "*"]
       else AllowOrigins config;
     AllowMethods :=
       if length (AllowMethods config) =? 0 then
         [bytes "GET"; bytes "POST"; bytes "PUT"; bytes "PATCH";
          bytes "DELETE"; bytes "HEAD"; bytes "OPTIONS"]
       else AllowMethods config;
     AllowHeaders :=
       if length (AllowHeaders config) =? 0 then
         [bytes "Origin"; bytes "Content-Type"; bytes "Accept"]
       else AllowHeaders config;
     ExposeHeaders := ExposeHeaders config;
     AllowCredentials := AllowCredentials config;
     MaxAge := MaxAge config |}.

(** The loop over the configured origins: the request origin when it is
    listed or the wildcard is, the empty string otherwise. *)
Fixpoint match_origin (origins : list str) (origin : str) : str :=
  match origins with
  | [] => []
  | o :: origins' =>
      if bool_decide (o = origin) || bool_decide (o = bytes "*") then origin
      else match_origin origins' origin
  end.

Section cors.
(** [strconv.Itoa] *)
Variable Itoa : Z -> str.

(** The second half of the closure: the headers, then the answer to a
    preflight request or the rest of the chain. *)
Definition CORS_headers (config : CORSConfig) (r : request)
    (allowOrigin : str) : list call :=
  [ Header (bytes "Access-Control-Allow-Origin") allowOrigin;
    Header (bytes "Access-Control-Allow-Methods")
      (Join (AllowMethods config) (bytes ", "));
    Header (bytes "Access-Control-Allow-Headers")
      (Join (AllowHeaders config) (bytes ", ")) ]
  ++ (if 0 <? length (ExposeHeaders config) then
        [ Header (bytes "Access-Control-Expose-Headers")
            (Join (ExposeHeaders config) (bytes ", ")) ]
      else [])
  ++ (if AllowCredentials config then
        [ Header (bytes "Access-Control-Allow-Credentials") (bytes "true") ]
      else [])
  ++ (if (0 <? MaxAge config)%Z then
        [ Header (bytes "Access-Control-Max-Age") (Itoa (MaxAge config)) ]
      else [])
  ++ (if bool_decide (Method r = "OPTIONS"%string) then [AbortWithStatus 204]
      else [Next]).

Definition CORSWithConfig (config : CORSConfig) (r : request) : list call :=
  let config := CORS_defaults config in
  let origin := GetHeader r (bytes "Origin") in
  if AllowCredentials config && (length (AllowOrigins config) =? 1)
     && bool_decide (head (AllowOrigins config) = Some (bytes "*")) then
    (* wildcard with credentials: echo the origin *)
    if bool_decide (origin <> []) then CORS_headers config r origin
    else [Next]
  else if (0 <? length (AllowOrigins config))
          && bool_decide (head (AllowOrigins config) = Some (bytes "*")) then
    CORS_headers config r (bytes "*")
  else
    let allowOrigin := match_origin (AllowOrigins config) origin in
    if bool_decide (allowOrigin = []) && bool_decide (origin <> []) then
      [AbortWithStatus 403]
    else if bool_decide (origin = []) then [Next]
    else CORS_headers config r allowOrigin.

Definition CORS : request -> list call := CORSWithConfig DefaultCORSConfig.

End cors.

(** *** CSRF *)

Record CSRFConfig : Type := {
  TokenLength : Z;
  TokenLookup : str;
  CookieName : str;
  CookiePath : str;
  CookieDomain : str;
  CookieSecure : bool;
  CookieHTTPOnly : bool;
  (** the calls of the handler for an invalid token; [None] is nil *)
  ErrorHandler : option (list call)
}.

(** The body that [c.JSON] writes for the map with the one field error,
    [message]. *)
Definition error_body (message : str) : str :=
  bytes "{" ++ [drift.dquote] ++ bytes "error" ++ [drift.dquote] ++ bytes ":"
  ++ [drift.dquote] ++ message ++ [drift.dquote] ++ bytes "}"
  ++ [drift.newline].

Definition invalid_token : list call :=
  [JSON 403 (error_body (bytes "Invalid CSRF token"))].

(** The defaults that [CSRFWithConfig] sets before it builds the
    closure. *)
Definition CSRF_defaults (config : CSRFConfig) : CSRFConfig :=
  {| TokenLength :=
       if (TokenLength config =? 0)%Z then 32%Z else TokenLength config;
     TokenLookup :=
       if bool_decide (TokenLookup config = []) then
         bytes "header:X-CSRF-Token"
       else TokenLookup config;
     CookieName :=
       if bool_decide (CookieName config = []) then bytes "_csrf"
       else CookieName config;
     CookiePath :=
       if bool_decide (CookiePath config = []) then bytes "/"
       else CookiePath config;
     CookieDomain := CookieDomain config;
     CookieSecure := CookieSecure config;
     CookieHTTPOnly := CookieHTTPOnly config;
     ErrorHandler :=
       match ErrorHandler config with
       | None => Some invalid_token
       | Some h => Some h
       end |}.

(** [splitLookup] cuts the lookup string at its first colon. *)
Definition splitLookup (lookup : str) : list str :=
  match tree.index_of colon lookup with
  | Some i => [take i lookup; drop (i + 1) lookup]
  | None => [lookup]
  end.

(** [extractToken]: the token of the request, from the source that the
    lookup string names. *)
Definition extractToken (r : request) (lookup : str) : str :=
  match splitLookup lookup with
  | [source; key] =>
      if bool_decide (source = bytes "header") then GetHeader r key
      else if bool_decide (source = bytes "form") then PostForm r key
      else if bool_decide (source = bytes "query") then QueryParam r key
      else if bool_decide (source = bytes "cookie") then
        default [] (Cookie r key)
      else []
  | _ => []
  end.

(** [int(a[i])]: the value of a byte. *)
Definition byte (c : ascii) : Z := Z.of_N (N_of_ascii c).

(** The loop of [compareTokens] over two strings of the same length:
    [result |= int(a[i]) ^ int(b[i])]. *)
Fixpoint compare_loop (a b : str) (result : Z) : Z :=
  match a, b with
  | x :: a', y :: b' =>
      compare_loop a' b' (Z.lor result (Z.lxor (byte x) (byte y)))
  | _, _ => result
  end.

(** [compareTokens] compares two tokens in constant time. *)
Definition compareTokens (a b : str) : bool :=
  if negb (length a =? length b) then false
  else (compare_loop a b 0 =? 0)%Z.

(** The closure of [CSRFWithConfig].  [generateToken] stands for the
    function of that name, which draws the token from crypto/rand;
    [None] is its error. *)
Definition CSRFWithConfig (generateToken : Z -> option str)
    (config : CSRFConfig) (r : request) : list call :=
  let config := CSRF_defaults config in
  let ErrorHandler := default [] (ErrorHandler config) in
  if bool_decide (Method r = "GET"%string)
     || bool_decide (Method r = "HEAD"%string)
     || bool_decide (Method r = "OPTIONS"%string) then
    match generateToken (TokenLength config) with
    | None =>
        [ JSON 500 (error_body (bytes "Failed to generate CSRF token"));
          Abort ]
    | Some token =>
        [ SetCookie (CookieName config) token 3600 (CookiePath config)
            (CookieDomain config) (CookieSecure config)
            (CookieHTTPOnly config);
          Set_ (bytes "csrf_token") (VString token);
          Next ]
    end
  else
    match Cookie r (CookieName config) with
    | None => ErrorHandler ++ [Abort]
    | Some cookieToken =>
        if bool_decide (cookieToken = []) then ErrorHandler ++ [Abort]
        else
          let requestToken := extractToken r (TokenLookup config) in
          if bool_decide (requestToken = []) then ErrorHandler ++ [Abort]
          else if negb (compareTokens cookieToken requestToken) then
            ErrorHandler ++ [Abort]
          else [Next]
    end.

(** *** Security headers *)

Record SecurityConfig : Type := {
  XSSProtection : str;
  ContentTypeNosniff : str;
  XFrameOptions : str;
  HSTSMaxAge : Z;
  HSTSIncludeSubdomains : bool;
  HSTSPreload : bool;
  ContentSecurityPolicy : str;
  ReferrerPolicy : str;
  PermissionsPolicy : str
}.

Definition or_default (s d : str) : str :=
  if bool_decide (s = []) then d else s.

(** The defaults that [SecureWithConfig] sets before it builds the
    closure. *)
Definition Secure_defaults (config : SecurityConfig) : SecurityConfig :=
  {| XSSProtection := or_default (XSSProtection config) (bytes "1; mode=block");
     ContentTypeNosniff :=
       or_default (ContentTypeNosniff config) (bytes "nosniff");
     XFrameOptions := or_default (XFrameOptions config) (bytes "SAMEORIGIN");
     HSTSMaxAge :=
       if (HSTSMaxAge config =? 0)%Z then 31536000%Z else HSTSMaxAge config;
     HSTSIncludeSubdomains := HSTSIncludeSubdomains config;
     HSTSPreload := HSTSPreload config;
     ContentSecurityPolicy := ContentSecurityPolicy config;
     ReferrerPolicy :=
       or_default (ReferrerPolicy config)
         (bytes "strict-origin-when-cross-origin");
     PermissionsPolicy := PermissionsPolicy config |}.

Section secure.
(** The decimal digits that [fmt.Sprintf] writes for [%d]. *)
Variable Itoa : Z -> str.

(** [c.Header(key, value)] when [value] is not the empty string. *)
Definition header_if_set (key value : str) : list call :=
  if bool_decide (value <> []) then [Header key value] else [].

Definition SecureWithConfig (config : SecurityConfig) : list call :=
  let config := Secure_defaults config in
  header_if_set (bytes "X-XSS-Protection") (XSSProtection config)
  ++ header_if_set (bytes "X-Content-Type-Options")
       (ContentTypeNosniff config)
  ++ header_if_set (bytes "X-Frame-Options") (XFrameOptions config)
  ++ (if (0 <? HSTSMaxAge config)%Z then
        [ Header (bytes "Strict-Transport-Security")
            ((bytes "max-age=" ++ Itoa (HSTSMaxAge config))
             ++ (if HSTSIncludeSubdomains config
                 then bytes "; includeSubDomains" else [])
             ++ (if HSTSPreload config then bytes "; preload" else [])) ]
      else [])
  ++ header_if_set (bytes "Content-Security-Policy")
       (ContentSecurityPolicy config)
  ++ header_if_set (bytes "Referrer-Policy") (ReferrerPolicy config)
  ++ header_if_set (bytes "Permissions-Policy") (PermissionsPolicy config)
  ++ [Next].

End secure.

(** *** The compressing response writer *)

(** What [compressResponseWriter.Write] does to the writer that it
    wraps and to the compressor. *)
Inductive wcall : Type :=
| Direct (data : str)              (* w.ResponseWriter.Write(data) *)
| HeaderSet (key value : str)
| HeaderDel (key : str)
| HeaderAdd (key value : str)
| Compressed (data : str).         (* w.writer.Write(data) *)

Record compressResponseWriter : Type := {
  encoding : str;
  minLength : nat;
  written : nat;
  headerSet : bool
}.

(** [Write], the writes to the compressor succeeding with the length of
    the data. *)
Definition Write (w : compressResponseWriter) (data : str)
    : compressResponseWriter * list wcall :=
  let compress (w : compressResponseWriter) :=
    ({| encoding := encoding w; minLength := minLength w;
        written := written w + length data; headerSet := headerSet w |},
     [Compressed data]) in
  if negb (headerSet w) then
    let w := {| encoding := encoding w; minLength := minLength w;
                written := written w; headerSet := true |} in
    if length data <? minLength w then (w, [Direct data])
    else
      let '(w', calls) := compress w in
      (w', [ HeaderSet (bytes "Content-Encoding") (encoding w);
             HeaderDel (bytes "Content-Length");
             HeaderAdd (bytes "Vary") (bytes "Accept-Encoding") ] ++ calls)
  else compress w.

(** A sequence of writes. *)
Definition Write_all (w : compressResponseWriter) (chunks : list str)
    : compressResponseWriter * list wcall :=
  foldl (fun st data => let '(w', calls) := Write st.1 data in
                        (w', st.2 ++ calls))
        (w, []) chunks.

End middleware.

(** ** Further vocabulary: middleware *)

Module mprops.
Import middleware.

(** The zero value [CSRFConfig{}]. *)
Definition zero_CSRFConfig : CSRFConfig :=
  {| TokenLength := 0; TokenLookup := []; CookieName := [];
     CookiePath := []; CookieDomain := []; CookieSecure := false;
     CookieHTTPOnly := false; ErrorHandler := None |}.

(** A POST request that carries [token] as cookie [_csrf] and [sent] in
    the header X-CSRF-Token. *)
Definition post_with_tokens (token sent : str) : request :=
  {| Method := "POST";
     GetHeader := fun key =>
       if bool_decide (key = bytes "X-CSRF-Token") then sent else [];
     PostForm := fun _ => [];
     QueryParam := fun _ => [];
     Cookie := fun name =>
       if bool_decide (name = bytes "_csrf") then Some token else None |}.

(** A request with the given method and Origin header. *)
Definition request_from (method : string) (origin : str) : request :=
  {| Method := method;
     GetHeader := fun key =>
       if bool_decide (key = bytes "Origin") then origin else [];
     PostForm := fun _ => [];
     QueryParam := fun _ => [];
     Cookie := fun _ => None |}.

(** The configuration that lists [origin] alone and allows
    credentials. *)
Definition only_origin (origin : str) : CORSConfig :=
  {| AllowOrigins := [origin]; AllowMethods := []; AllowHeaders := [];
     ExposeHeaders := []; AllowCredentials := true; MaxAge := 0 |}.

(** The values that the calls give to the header [key], in order. *)
Definition header_values (key : str) (calls : list call) : list str :=
  omap (fun c => match c with
                 | Header k v => if bool_decide (k = key) then Some v else None
                 | _ => None
                 end) calls.

(** The writer as [CompressWithConfig] creates it. *)
Definition new_writer (encoding : str) (minLength : nat)
    : compressResponseWriter :=
  {| encoding := encoding; minLength := minLength; written := 0;
     headerSet := false |}.

End mprops.

(** * Properties *)

(** Closed decidable facts are settled by evaluation. *)
Ltac by_evaluation := apply (bool_decide_unpack _); vm_compute; exact I.

(** ** Path joining *)

Section joinPaths_facts.
Import router.

Lemma joinPaths_empty_relative (base : str) : joinPaths base [] = base.
Proof. reflexivity. Qed.

(** Where the relative path does not start with a separator, the join
    has exactly one separator at the junction. *)
Lemma joinPaths_inserts_separator (base rel : str) :
  rel <> [] -> head rel <> Some slash ->
  base <> [] -> last base <> Some slash ->
  joinPaths base rel = base ++ slash :: rel.
Proof.
  intros Hrel Hhead Hbase Hlast. unfold joinPaths.
  rewrite (bool_decide_eq_false_2 (rel = [])) by assumption.
  rewrite (bool_decide_eq_false_2 (base = [])) by assumption.
  rewrite (bool_decide_eq_false_2 (head rel = Some slash)) by assumption.
  rewrite bool_decide_eq_false_2 by assumption. reflexivity.
Qed.

Lemma joinPaths_keeps_trailing_separator (base rel : str) :
  rel <> [] -> head rel <> Some slash -> last base = Some slash ->
  joinPaths base rel = base ++ rel.
Proof.
  intros Hrel Hhead Hlast. unfold joinPaths.
  assert (base <> []) by (intros ->; discriminate).
  rewrite (bool_decide_eq_false_2 (rel = [])) by assumption.
  rewrite (bool_decide_eq_false_2 (base = [])) by assumption.
  rewrite (bool_decide_eq_false_2 (head rel = Some slash)) by assumption.
  rewrite bool_decide_eq_true_2 by assumption. reflexivity.
Qed.

(** A relative path that starts with a separator is appended as it is to
    every base other than the root, whatever the base ends with. *)
Lemma joinPaths_leading_separator (base rel : str) :
  head rel = Some slash -> base <> [] -> base <> [slash] ->
  joinPaths base rel = base ++ rel.
Proof.
  intros Hhead Hbase Hroot. unfold joinPaths.
  assert (rel <> []) by (intros ->; discriminate).
  rewrite (bool_decide_eq_false_2 (rel = [])) by assumption.
  rewrite (bool_decide_eq_false_2 (base = [])) by assumption.
  rewrite (bool_decide_eq_true_2 (head rel = Some slash)) by assumption.
  rewrite bool_decide_eq_false_2 by assumption. reflexivity.
Qed.

(** C9 (evaluation of the code at the failing input): a base that ends
    with a separator joined with a relative path that starts with one
    keeps both separators, [/api/] and [/users] give [/api//users]; the
    base [/api/] is what [Group] computes from the root for [/api/]. *)
Theorem joinPaths_doubles_separator :
  basePath (Group {| handlers := []; basePath := [slash] |} (bytes "/api/") [])
    = bytes "/api/"
  /\ joinPaths (bytes "/api/") (bytes "/users") = bytes "/api//users"
  /\ trailing_slashes (bytes "/api/") + leading_slashes (bytes "/users") = 2.
Proof. repeat split; vm_compute; reflexivity. Qed.

End joinPaths_facts.

(** ** The route tree: basic facts *)

Section tree_basics.
Import tree props.

(** *** Strings *)

Lemma longestCommonPrefix_le_l (a b : str) :
  longestCommonPrefix a b <= length a.
Proof.
  revert b. induction a as [|x a IH]; intros [|y b]; simpl; try lia.
  case_bool_decide; simpl; [specialize (IH b)|]; lia.
Qed.

Lemma longestCommonPrefix_le_r (a b : str) :
  longestCommonPrefix a b <= length b.
Proof.
  revert b. induction a as [|x a IH]; intros [|y b]; simpl; try lia.
  case_bool_decide; simpl; [specialize (IH b)|]; lia.
Qed.

Lemma longestCommonPrefix_take (a b : str) :
  take (longestCommonPrefix a b) a = take (longestCommonPrefix a b) b.
Proof.
  revert b. induction a as [|x a IH]; intros [|y b]; simpl; try reflexivity.
  case_bool_decide; simpl; [|reflexivity]. subst. f_equal. apply IH.
Qed.

(** The bytes after the common prefix differ. *)
Lemma longestCommonPrefix_next (a b : str) (x y : ascii) :
  a !! longestCommonPrefix a b = Some x ->
  b !! longestCommonPrefix a b = Some y -> x <> y.
Proof.
  revert b. induction a as [|c a IH]; intros [|d b]; simpl; try discriminate.
  case_bool_decide; simpl.
  - apply IH.
  - intros [= ->] [= ->]. assumption.
Qed.

Lemma longestCommonPrefix_full_r (a b : str) :
  longestCommonPrefix a b = length b -> a = b ++ drop (length b) a.
Proof.
  revert b. induction a as [|x a IH]; intros [|y b]; simpl; try reflexivity;
    try discriminate.
  case_bool_decide; [|discriminate]. intros [= H1]. subst. f_equal. auto.
Qed.

Lemma longestCommonPrefix_app (b r : str) :
  longestCommonPrefix (b ++ r) b = length b.
Proof.
  induction b as [|x b IH]; simpl.
  - destruct r; reflexivity.
  - rewrite bool_decide_eq_true_2 by reflexivity. f_equal. exact IH.
Qed.

(** *** Unfolding getValue *)

(** The scan over the index bytes: the first position of the byte, and
    the child at that position. *)
Lemma scan_indices (f : node -> result lookup_result) (idxc : ascii)
    (cs : list node) (ix : str) :
  (fix scan (cs : list node) (ix : str) {struct cs}
     : option (result lookup_result) :=
     match ix, cs with
     | [], _ => None
     | c :: ix', ch :: cs' =>
         if bool_decide (c = idxc) then Some (f ch) else scan cs' ix'
     | _ :: _, [] =>
         if bool_decide (idxc ∈ ix)
         then Some (Panic index_out_of_range) else None
     end) cs ix
  = match index_of idxc ix with
    | None => None
    | Some k =>
        Some (match cs !! k with
              | Some ch => f ch
              | None => Panic index_out_of_range
              end)
    end.
Proof.
  revert ix. induction cs as [|ch cs IH]; intros ix.
  - destruct ix as [|c ix]; [reflexivity|].
    case_bool_decide as Hin.
    + assert (is_Some (index_of idxc (c :: ix))) as [k ->]; [|reflexivity].
      clear -Hin. induction Hin as [x l|x y l Hin IH]; simpl.
      * rewrite bool_decide_eq_true_2 by reflexivity. eauto.
      * case_bool_decide; [eauto|]. destruct IH as [k ->]. simpl. eauto.
    + assert (index_of idxc (c :: ix) = None) as ->; [|reflexivity].
      clear -Hin. induction (c :: ix) as [|x l IH]; [reflexivity|]. simpl.
      case_bool_decide as Hx; [subst; exfalso; apply Hin; left|].
      rewrite IH; [reflexivity|]. intros H. apply Hin. right. exact H.
  - destruct ix as [|c ix]; [reflexivity|]. simpl.
    case_bool_decide; [reflexivity|]. rewrite IH.
    destruct (index_of idxc ix); reflexivity.
Qed.

Lemma getValue_walk_eq (n : node) (p : str) (params : gmap str str) :
  getValue_walk n p params =
  if length (path n) <? length p then
    if eqb_str (take (length (path n)) p) (path n) then
      match drop (length (path n)) p with
      | [] => Panic index_out_of_range
      | idxc :: _ =>
          match index_of idxc (indices n) with
          | Some k =>
              match children n !! k with
              | Some ch => getValue_walk ch (drop (length (path n)) p) params
              | None => Panic index_out_of_range
              end
          | None =>
              if wildChild n then
                match children n with
                | [] => Panic index_out_of_range
                | w :: _ =>
                    getValue_wild w (drop (length (path n)) p) params
                      getValue_walk
                end
              else Ok not_found
          end
      end
    else Ok not_found
  else if eqb_str p (path n) then
    match handlers n with
    | Some _ => Ok (handlers n, Some params, fullPath n)
    | None => Ok not_found
    end
  else Ok not_found.
Proof.
  destruct n as [prefix ix cs hs pr ty wild fp]. cbn [getValue_walk path
    indices children handlers wildChild fullPath].
  destruct (length prefix <? length p); [|reflexivity].
  destruct (eqb_str (take (length prefix) p) prefix); [|reflexivity].
  destruct (drop (length prefix) p) as [|idxc rest] eqn:Hd; [reflexivity|].
  rewrite (scan_indices (fun ch => getValue_walk ch (idxc :: rest) params)).
  destruct (index_of idxc ix) as [k|]; [reflexivity|].
  destruct wild; [|reflexivity].
  destruct cs as [|[wpath wix wcs whs wpr wty wwild wfp] cs]; [reflexivity|].
  unfold getValue_wild. cbn [nType path children handlers fullPath].
  destruct wty; reflexivity.
Qed.

Lemma param_end_no_slash (v : str) : slash ∉ v -> param_end v = length v.
Proof.
  induction v as [|c v IH]; [reflexivity|]. intros Hn. simpl.
  rewrite bool_decide_eq_false_2.
  - f_equal. apply IH. intros H. apply Hn. right. exact H.
  - intros ->. apply Hn. left.
Qed.

Lemma param_end_le (v : str) : param_end v <= length v.
Proof.
  induction v as [|c v IH]; simpl; [lia|]. case_bool_decide; simpl; lia.
Qed.

Lemma param_end_slash (v : str) :
  param_end v < length v -> v !! param_end v = Some slash.
Proof.
  induction v as [|c v IH]; simpl; [lia|].
  case_bool_decide; simpl; [subst; reflexivity|]. intros. apply IH. lia.
Qed.

Lemma param_end_take (v : str) : slash ∉ take (param_end v) v.
Proof.
  induction v as [|c v IH]; simpl; [apply not_elem_of_nil|].
  case_bool_decide; simpl; [apply not_elem_of_nil|].
  intros [Heq|Hin]%elem_of_cons; [congruence|exact (IH Hin)].
Qed.

End tree_basics.

(** ** Patterns with one wildcard *)

Section wildcard_facts.
Import tree props.

Lemma findWildcard_from_literal (k : nat) (p : str) :
  literal p -> findWildcard_from k p = ([], (-1)%Z, false).
Proof.
  revert k. induction p as [|c p IH]; intros k Hl; [reflexivity|].
  inversion Hl as [|? ? Hc Hp]; subst. simpl. rewrite Hc. apply IH, Hp.
Qed.

Lemma findWildcard_from_app (k : nat) (pre w : str) :
  literal pre ->
  findWildcard_from k (pre ++ w) = findWildcard_from (k + length pre) w.
Proof.
  revert k. induction pre as [|c pre IH]; intros k Hl; simpl.
  - f_equal. lia.
  - inversion Hl as [|? ? Hc Hp]; subst. rewrite Hc, IH by assumption.
    f_equal. lia.
Qed.

Lemma wildcardEnd_name (nm : str) (valid : bool) :
  slash ∉ nm -> literal nm -> wildcardEnd nm valid = (length nm, valid).
Proof.
  revert valid. induction nm as [|c nm IH]; intros valid Hs Hl;
    [reflexivity|].
  inversion Hl as [|? ? Hc Hp]; subst. simpl.
  rewrite bool_decide_eq_false_2
    by (intros ->; apply Hs; left).
  rewrite Hc, IH; [reflexivity| |assumption].
  intros H. apply Hs. right. exact H.
Qed.

Lemma literal_app (a b : str) : literal (a ++ b) <-> literal a /\ literal b.
Proof. apply Forall_app. Qed.

Lemma findWildcard_param (pre nm : str) :
  literal pre -> slash ∉ nm -> literal nm ->
  findWildcard (pre ++ colon :: nm)
  = (colon :: nm, Z.of_nat (length pre), true).
Proof.
  intros Hpre Hs Hl. unfold findWildcard.
  rewrite findWildcard_from_app by assumption. simpl.
  rewrite wildcardEnd_name by assumption.
  rewrite firstn_all. reflexivity.
Qed.

(** Registration of [pre ++ ":" ++ nm] in an empty tree. *)
Lemma addRoute_single_param (pre nm : str) (hs : list HandlerFunc) :
  literal pre -> starts_with_slash pre -> param_name nm ->
  addRoute zero_node (pre ++ colon :: nm) (Some hs)
  = Ok (param_tree pre nm hs).
Proof.
  intros Hpre Hstart (Hne & Hs & Hl).
  destruct pre as [|c pre]; [discriminate|].
  unfold addRoute. cbn [incr_priority zero_node set_priority path children
    length Nat.eqb andb priority].
  unfold insertChild.
  destruct (length ((c :: pre) ++ colon :: nm)) as [|fuel] eqn:Hlen;
    [discriminate|].
  cbn [insertChild_loop]. rewrite findWildcard_param by assumption.
  assert ((Z.of_nat (length (c :: pre)) <? 0)%Z = false) as ->
    by (apply Z.ltb_ge; lia).
  assert ((0 <? Z.of_nat (length (c :: pre)))%Z = true) as ->
    by (apply Z.ltb_lt; simpl; lia).
  rewrite Nat2Z.id, drop_app_length, take_app_length.
  destruct nm as [|x nm]; [done|].
  rewrite (Nat.ltb_irrefl (length (colon :: x :: nm))).
  reflexivity.
Qed.

(** Lookup in that tree: exactly the paths [pre ++ v] with a non-empty,
    separator-free [v] are found, and [v] is the parameter value. *)
Lemma getValue_param_tree (pre nm : str) (hs : list HandlerFunc) (q : str) :
  (exists v, q = pre ++ v /\ v <> [] /\ (slash ∉ v)
     /\ getValue (param_tree pre nm hs) q
        = Ok (Some hs, Some {[ nm := v ]}, pre ++ colon :: nm))
  \/ ((forall v, q = pre ++ v -> v <> [] -> slash ∈ v)
      /\ getValue (param_tree pre nm hs) q = Ok not_found).
Proof.
  unfold getValue. rewrite getValue_walk_eq.
  cbn [param_tree path indices children handlers wildChild fullPath index_of].
  destruct (length pre <? length q) eqn:Hlen.
  - apply Nat.ltb_lt in Hlen. unfold eqb_str. case_bool_decide as Hpre.
    + destruct (drop (length pre) q) as [|idxc rest] eqn:Hd.
      { apply (f_equal length) in Hd. rewrite length_drop in Hd. simpl in Hd.
        lia. }
      unfold getValue_wild. cbn [nType path children handlers fullPath].
      change (length (colon :: nm) <? 1) with false.
      change (drop 1 (colon :: nm)) with nm. cbv iota.
      assert (q = pre ++ idxc :: rest) as Hq.
      { rewrite <- Hd, <- Hpre at 1. symmetry. by rewrite take_drop. }
      destruct (param_end (idxc :: rest) <? length (idxc :: rest)) eqn:He.
      * apply Nat.ltb_lt in He. right. split; [|reflexivity].
        intros v Hv _. rewrite Hq in Hv.
        apply app_inv_head in Hv. subst v.
        apply param_end_slash in He.
        eapply list_elem_of_lookup_2, He.
      * apply Nat.ltb_ge in He. left.
        exists (idxc :: rest). split; [exact Hq|]. split; [done|].
        pose proof (param_end_take (idxc :: rest)) as Ht.
        rewrite take_ge in Ht by lia. split; [exact Ht|].
        rewrite take_ge by lia. reflexivity.
    + right. split; [|reflexivity].
      intros v -> _. exfalso. apply Hpre. by rewrite take_app_length.
  - apply Nat.ltb_ge in Hlen. right. split.
    + intros v -> Hv. rewrite length_app in Hlen.
      destruct v; [done|]. simpl in Hlen. lia.
    + unfold eqb_str. case_bool_decide; reflexivity.
Qed.

End wildcard_facts.

(** ** Lookup of parameter and catch-all patterns *)

Section wildcard_claims.
Import tree props.

Lemma register_first (method : string) (p : str) (hs : list HandlerFunc)
    (root : node) :
  starts_with_slash p ->
  addRoute zero_node p (Some hs) = Ok root ->
  exists e, drift.register method [(p, hs)] drift.New = Ok e
            /\ drift.trees e !! method = Some root.
Proof.
  intros Hp Hadd. destruct p as [|c p]; [discriminate|].
  injection Hp as ->. eexists. split.
  - cbn [drift.register drift.register_step foldl mbind result_bind
         drift.addRoute fst snd].
    rewrite bool_decide_eq_false_2 by (intros H; apply H; reflexivity).
    change (default drift.NewNode (drift.trees drift.New !! method))
      with zero_node.
    rewrite Hadd. reflexivity.
  - cbn [drift.trees drift.set_trees]. apply lookup_insert_eq.
Qed.

(** C2: with [/users/:id] the only pattern, the lookup of [/users/] followed
    by a non-empty value without separator ([42], say) succeeds, returns
    the registered chain and binds [id] to that value, which is the input
    up to its end. *)
Theorem users_id_binds_value (hs : list HandlerFunc) (v : str) :
  v <> [] -> slash ∉ v ->
  exists e root,
    drift.register "GET" [(bytes "/users/:id", hs)] drift.New = Ok e
    /\ drift.trees e !! "GET"%string = Some root
    /\ getValue root (bytes "/users/" ++ v)
       = Ok (Some hs, Some {[ bytes "id" := v ]}, bytes "/users/:id").
Proof.
  intros Hv Hs.
  assert (addRoute zero_node (bytes "/users/:id") (Some hs)
          = Ok (param_tree (bytes "/users/") (bytes "id") hs)) as Hadd.
  { apply (addRoute_single_param (bytes "/users/") (bytes "id")).
    - repeat constructor.
    - reflexivity.
    - split; [discriminate|]. split; [by_evaluation|repeat constructor]. }
  destruct (register_first "GET" (bytes "/users/:id") hs _ eq_refl Hadd)
    as (e & He & Hroot).
  exists e, (param_tree (bytes "/users/") (bytes "id") hs).
  split; [exact He|]. split; [exact Hroot|].
  destruct (getValue_param_tree (bytes "/users/") (bytes "id") hs
              (bytes "/users/" ++ v)) as [(v' & Hq & _ & _ & Hget)|[Hno _]].
  - apply app_inv_head in Hq. subst v'. exact Hget.
  - exfalso. exact (Hs (Hno v eq_refl Hv)).
Qed.

Lemma users_id_binds_value_witness :
  exists e root,
    drift.register "GET" [(bytes "/users/:id", [hA])] drift.New = Ok e
    /\ drift.trees e !! "GET"%string = Some root
    /\ getValue root (bytes "/users/42")
       = Ok (Some [hA], Some {[ bytes "id" := bytes "42" ]},
             bytes "/users/:id").
Proof.
  apply (users_id_binds_value [hA] (bytes "42")).
  - discriminate.
  - by_evaluation.
Defined.

(** C3 (as stated, refuted): with [/files/*rest] the only pattern, the
    lookup of [/files/a/b/c.txt] binds [rest] to [/a/b/c.txt], separator
    included, and not to [a/b/c.txt]. *)
Lemma catch_all_value_is_not_stripped :
  exists e root,
    drift.register "GET" [(bytes "/files/*rest", [hA])] drift.New = Ok e
    /\ drift.trees e !! "GET"%string = Some root
    /\ getValue root (bytes "/files/a/b/c.txt")
       = Ok (Some [hA], Some {[ bytes "rest" := bytes "/a/b/c.txt" ]},
             bytes "/files/*rest")
    /\ forall h fp, getValue root (bytes "/files/a/b/c.txt")
         <> Ok (h, Some {[ bytes "rest" := bytes "a/b/c.txt" ]}, fp).
Proof.
  eexists _, _. split; [vm_compute; reflexivity|].
  split; [vm_compute; reflexivity|].
  assert (getValue
    (Node (bytes "/files") [slash]
       [Node [] [] [Node (bytes "/*rest") [] [] (Some [hA]) 1 catchAll false
                      (bytes "/files/*rest")]
          None 1 catchAll true (bytes "/files/*rest")]
       None 1 static false []) (bytes "/files/a/b/c.txt")
    = Ok (Some [hA], Some {[ bytes "rest" := bytes "/a/b/c.txt" ]},
          bytes "/files/*rest")) as Hget by (vm_compute; reflexivity).
  split; [exact Hget|].
  intros h fp Heq. pose proof (eq_trans (eq_sym Hget) Heq) as Hboth.
  apply (f_equal (fun r : result lookup_result =>
    match r with
    | Ok (_, Some m, _) => m !! bytes "rest"
    | _ => None
    end)) in Hboth.
  cbv beta iota in Hboth. rewrite !lookup_singleton_eq in Hboth.
  discriminate.
Qed.

(** C3 (amended): with [/files/*rest] the only pattern, the lookup of
    [/files/] followed by any [v] succeeds with the registered chain and
    binds [rest] to the separator followed by [v]; for [/files/a/b/c.txt]
    the value is [/a/b/c.txt]. *)
Theorem catch_all_binds_rest_with_separator (hs : list HandlerFunc) (v : str) :
  exists e root,
    drift.register "GET" [(bytes "/files/*rest", hs)] drift.New = Ok e
    /\ drift.trees e !! "GET"%string = Some root
    /\ getValue root (bytes "/files/" ++ v)
       = Ok (Some hs, Some {[ bytes "rest" := slash :: v ]},
             bytes "/files/*rest").
Proof.
  assert (addRoute zero_node (bytes "/files/*rest") (Some hs)
          = Ok (Node (bytes "/files") [slash]
                  [Node [] [] [Node (bytes "/*rest") [] [] (Some hs) 1
                                 catchAll false (bytes "/files/*rest")]
                     None 1 catchAll true (bytes "/files/*rest")]
                  None 1 static false [])) as Hadd
    by (vm_compute; reflexivity).
  destruct (register_first "GET" (bytes "/files/*rest") hs _ eq_refl Hadd)
    as (e & He & Hroot).
  eexists e, _. split; [exact He|]. split; [exact Hroot|].
  vm_compute. reflexivity.
Qed.

(** C10 (as stated, refuted): a tree in which a pattern ends in a
    parameter segment, [/users/:id], and that holds [/users/:id/x] too.
    The lookup of [/users//x] succeeds and binds [id], the value of a
    param node, to the empty string, for that parameter is followed by
    more of the pattern that is found; the lookup of [/users/7] finds
    the pattern that ends in the parameter. *)
Lemma inner_param_binds_empty_value :
  exists e root,
    drift.register "GET"
      [(bytes "/users/:id", [hA]); (bytes "/users/:id/x", [hB])] drift.New
    = Ok e
    /\ drift.trees e !! "GET"%string = Some root
    /\ getValue root (bytes "/users//x")
       = Ok (Some [hB], Some {[ bytes "id" := [] ]}, bytes "/users/:id/x")
    /\ getValue root (bytes "/users/7")
       = Ok (Some [hA], Some {[ bytes "id" := bytes "7" ]},
             bytes "/users/:id").
Proof.
  eexists _, _. split; [vm_compute; reflexivity|].
  split; [vm_compute; reflexivity|].
  split; vm_compute; reflexivity.
Qed.

End wildcard_claims.

(** ** The pooled context *)

Section pool_claims.
Import context drift props.

(** C7 (as stated, refuted): the reset at acquisition does not clear the
    handler chain; a context released with the chain [[hA]] still refers
    to it after the reset. *)
Lemma reset_keeps_handler_chain :
  handlers (reset (set_handlers [hA] zero_Context) [] some_request) = [hA]
  /\ handlers (reset (set_handlers [hA] zero_Context) [] some_request) <> [].
Proof. split; [reflexivity|discriminate]. Qed.

(** C7 (amended): the reset at acquisition clears Params, the store, the
    cursor and the Aborted flag; the handler chain is replaced by the
    dispatch before any handler runs.  So a request served with a
    reacquired context ends in the same context, history and status
    whatever the pool held: the two outcomes are equal, unless the lookup
    itself panicked, which happens before any handler is invoked. *)
Theorem reacquired_context_has_no_leftovers (e : Engine)
    (pool1 pool2 : list Context) (w : list write) (req : Request) :
  (forall c, Params (reset c w req) = ∅
             /\ store (reset c w req) = Some ∅
             /\ index (reset c w req) = (-1)%Z
             /\ aborted (reset c w req) = false)
  /\ ((ServeHTTP (set_pool pool1 e) w req).2
      = (ServeHTTP (set_pool pool2 e) w req).2
      \/ exists st,
           st <> Running
           /\ (ServeHTTP (set_pool pool1 e) w req).2.2 = st
           /\ (ServeHTTP (set_pool pool2 e) w req).2.2 = st
           /\ (ServeHTTP (set_pool pool1 e) w req).2.1.2 = []
           /\ (ServeHTTP (set_pool pool2 e) w req).2.1.2 = []).
Proof.
  split; [intros c; repeat split|].
  unfold ServeHTTP. cbn [pool set_pool].
  destruct (pool_Get pool1) as [c1 rest1], (pool_Get pool2) as [c2 rest2].
  assert (handleRequest (set_pool pool1 e) = handleRequest e) as -> by done.
  assert (handleRequest (set_pool pool2 e) = handleRequest e) as -> by done.
  unfold handleRequest.
  cbn [fst snd reset Request_ Method URLPath].
  change (set_handlers [notFoundHandler] (reset c1 w req))
    with (set_handlers [notFoundHandler] (reset c2 w req)).
  destruct (trees e !! Method req) as [root|].
  - destruct (tree.getValue root (URLPath req))
      as [[[[hs|] params] fp]|m|].
    + left.
      change (set_Params (default ∅ params) (set_handlers hs (reset c1 w req)))
        with (set_Params (default ∅ params) (set_handlers hs (reset c2 w req))).
      destruct (Set_ _ _ _) as [c|m|]; [|reflexivity..].
      destruct (Next (c, [])) as [s [| |]]; reflexivity.
    + left. destruct (Next _) as [s [| |]]; reflexivity.
    + right. exists (Panicked m). repeat split. discriminate.
    + right. exists NoFuel. repeat split. discriminate.
  - left. destruct (Next _) as [s [| |]]; reflexivity.
Qed.

End pool_claims.

(** ** Chain execution *)

Section chain_invariants.
Import context props.

(** A family of invariants [P fuel] of the states the execution continues
    from, with a weaker [Q] that also holds where it stops. *)
Variable P : nat -> run_state -> Prop.
Variable Q : run_state -> Prop.
Hypothesis P_mono : forall f s, P f s -> P (S f) s.
Hypothesis P_Q : forall f s, P f s -> Q s.
Hypothesis P_abort :
  forall f c tr, P f (c, tr) -> P f (Abort c, tr ++ [AbortCalled]).
Hypothesis P_set :
  forall f c tr key v c', P f (c, tr) -> Set_ key v c = Ok c' -> P f (c', tr).
Hypothesis P_write :
  forall f c tr ct code body, P f (c, tr) -> P f (Write_ ct code body c, tr).
Hypothesis Q_advance : forall f s, P f s -> Q (advance s).
Hypothesis P_advance :
  forall f s, P f s ->
    (index (advance s).1 <? i8 (Z.of_nat (length (handlers (advance s).1))))%Z
      = false
    \/ aborted (advance s).1 = true ->
    P f (advance s).
Hypothesis P_invoke :
  forall f s, P (S f) s -> invocable (advance s) ->
    P f ((advance s).1, (advance s).2 ++ [Invoked (index (advance s).1)]).

Local Abbreviation chain_post := (chain_post P Q).

Lemma run_invariant (f : nat) (next : run_state -> outcome) (h : hprog) :
  (forall s0, P f s0 -> chain_post f (next s0)) ->
  forall s, P f s -> chain_post f (run next h s).
Proof.
  intros Hnext. induction h as [|k IH|k IH|key v k IH|key k IH|key k IH|k IH
    |ct code body k IH]; intros [c tr] HP; cbn [run fst snd].
  - repeat split; eauto; discriminate.
  - destruct (next (c, tr)) as [s1 st1] eqn:Hn.
    destruct (Hnext _ HP) as (HQ1 & HP1 & HF1). rewrite Hn in HQ1, HP1, HF1.
    destruct st1; [apply IH; auto| |]; repeat split; auto; discriminate.
  - apply IH. auto.
  - destruct (Set_ key v c) as [c'| |] eqn:Hset.
    + apply IH. eauto.
    + repeat split; eauto; discriminate.
    + repeat split; eauto.
      (* Set never runs out of fuel *)
      unfold Set_ in Hset. destruct (store c); discriminate.
  - apply IH. auto.
  - apply IH. auto.
  - apply IH. auto.
  - apply IH. auto.
Qed.

Lemma Next_loop_invariant (f : nat) :
  forall s, P f s -> chain_post f (Next_loop f (advance s)).
Proof.
  induction f as [|f IH]; intros s HP; cbn [Next_loop].
  - destruct (index (advance s).1 <? _)%Z eqn:Hlt.
    + destruct (aborted (advance s).1) eqn:Hab.
      { repeat split; eauto; discriminate. }
      destruct (index (advance s).1 <? 0)%Z eqn:Hneg.
      { repeat split; eauto; discriminate. }
      destruct (handlers (advance s).1 !! _) as [h|] eqn:Hh.
      * repeat split; eauto; try discriminate. intros _. exists s.
        split; [exact HP|]. apply Z.ltb_lt in Hlt. apply Z.ltb_ge in Hneg.
        repeat split; eauto.
      * repeat split; eauto; discriminate.
    + repeat split; eauto; discriminate.
  - destruct (index (advance s).1 <? _)%Z eqn:Hlt.
    + destruct (aborted (advance s).1) eqn:Hab.
      { repeat split; eauto; discriminate. }
      destruct (index (advance s).1 <? 0)%Z eqn:Hneg.
      { repeat split; eauto; discriminate. }
      destruct (handlers (advance s).1 !! _) as [h|] eqn:Hh.
      * apply Z.ltb_lt in Hlt. apply Z.ltb_ge in Hneg.
        assert (invocable (advance s)) as Hinv by (repeat split; eauto).
        pose proof (P_invoke f s HP Hinv) as HP1.
        pose proof (run_invariant f _ h IH _ HP1) as (HQ2 & HP2 & HF2).
        destruct (run _ h _) as [s2 st2]. cbn [fst snd] in *.
        destruct st2.
        -- destruct (IH s2 (HP2 eq_refl)) as (HQ3 & HP3 & HF3).
           repeat split; auto.
        -- repeat split; auto; discriminate.
        -- repeat split; auto; discriminate.
      * repeat split; eauto; discriminate.
    + repeat split; eauto; discriminate.
Qed.

End chain_invariants.

Section chain_facts.
Import context props.

(** *** int8 arithmetic *)

Lemma i8_range (z : Z) : int8 (i8 z).
Proof.
  unfold int8, i8. pose proof (Z.mod_pos_bound (z + 128) 256). lia.
Qed.

Lemma i8_small (z : Z) : int8 z -> i8 z = z.
Proof. unfold int8, i8. intros. rewrite Z.mod_small; lia. Qed.

Lemma i8_succ (z : Z) :
  int8 z -> (i8 (z + 1) = z + 1 \/ (z = 127 /\ i8 (z + 1) = -128))%Z.
Proof.
  unfold int8. intros Hz. destruct (decide (z = 127%Z)) as [->|Hne].
  - right. split; reflexivity.
  - left. apply i8_small. unfold int8. lia.
Qed.

Lemma i8_length_nonneg (n : nat) : (i8 (Z.of_nat n) <= 127)%Z.
Proof. apply i8_range. Qed.

(** *** Histories *)

Lemma invocations_app (l1 l2 : list event) :
  invocations (l1 ++ l2) = invocations l1 ++ invocations l2.
Proof. apply omap_app. Qed.

Lemma movements_app (l1 l2 : list event) :
  movements (l1 ++ l2) = movements l1 ++ movements l2.
Proof. apply omap_app. Qed.

Lemma snoc_decompose {A} (tr l1 l2 : list A) (e x : A) :
  tr ++ [e] = l1 ++ x :: l2 ->
  (l2 = [] /\ l1 = tr /\ x = e)
  \/ exists l2', l2 = l2' ++ [e] /\ tr = l1 ++ x :: l2'.
Proof.
  destruct l2 as [|y l2 _] using rev_ind; intros Heq.
  - left. apply app_inj_tail in Heq as [-> ->]. auto.
  - right. exists l2.
    change (tr ++ [e] = l1 ++ (x :: l2) ++ [y]) in Heq.
    rewrite app_assoc in Heq. apply app_inj_tail in Heq as [-> ->].
    split; reflexivity.
Qed.

Lemma quiet_snoc (tr : list event) (e : event) :
  quiet_after_abort tr ->
  invocations [e] = [] \/ AbortCalled ∉ tr ->
  quiet_after_abort (tr ++ [e]).
Proof.
  intros Hq He l1 l2 Heq.
  apply snoc_decompose in Heq as [(-> & _ & _)|(l2' & -> & ->)];
    [reflexivity|].
  rewrite invocations_app, (Hq l1 l2' eq_refl). simpl.
  destruct He as [He|He]; [exact He|].
  exfalso. apply He. apply elem_of_app. right. left.
Qed.

Lemma quiet_nil : quiet_after_abort [].
Proof. intros [|? ?] l2 Heq; discriminate. Qed.

Lemma increasing_nil : increasing [].
Proof. intros i j a b _ Hi. discriminate. Qed.

Lemma increasing_snoc (l : list Z) (x : Z) :
  increasing l -> (forall a, a ∈ l -> (a < x)%Z) -> increasing (l ++ [x]).
Proof.
  intros Hinc Hlt i j a b Hij Hi Hj.
  destruct (decide (j < length l)) as [Hjl|Hjl].
  - rewrite lookup_app_l in Hi, Hj by lia. eauto.
  - assert (j = length l) as ->.
    { apply lookup_lt_Some in Hj. rewrite length_app in Hj. simpl in Hj. lia. }
    rewrite lookup_app_l in Hi by lia.
    rewrite list_lookup_middle in Hj by reflexivity. injection Hj as <-.
    apply Hlt. eapply list_elem_of_lookup_2, Hi.
Qed.

Lemma increasing_NoDup (l : list Z) : increasing l -> NoDup l.
Proof.
  intros Hinc. apply NoDup_alt. intros i j x Hi Hj.
  destruct (Nat.lt_trichotomy i j) as [Hlt|[Heq|Hgt]]; [|exact Heq|].
  - pose proof (Hinc i j x x Hlt Hi Hj). lia.
  - pose proof (Hinc j i x x Hgt Hj Hi). lia.
Qed.

Lemma cursor_history_app (a m b : Z) (tr l : list event) :
  cursor_history a tr m -> cursor_history m l b ->
  cursor_history a (tr ++ l) b.
Proof.
  revert a. induction tr as [|e tr IH]; intros a Ha Hl; simpl in *.
  - subst. exact Hl.
  - destruct e; try (apply IH; assumption).
    destruct Ha as [-> Ha]. split; [reflexivity|]. apply IH; assumption.
Qed.

End chain_facts.

Section chain_execution.
Import context props.

Variable bounded : bool.
Variable hs : list HandlerFunc.

Lemma chain_inv_quiet_event (c c' : Context) (tr : list event) (e : event) :
  handlers c' = handlers c -> (aborted c = true -> aborted c' = true) ->
  invocations [e] = [] -> (e = AbortCalled -> aborted c' = true) ->
  chain_inv hs (c, tr) -> chain_inv hs (c', tr ++ [e]).
Proof.
  intros Hh Hab He Hac [H1 H2 H3 H4 H5]. cbn [fst snd] in *.
  split; cbn [fst snd].
  - congruence.
  - intros Hf [Hin|Hin]%elem_of_app.
    + destruct (aborted c) eqn:Hc; [rewrite Hab in Hf by reflexivity; done|].
      exact (H2 eq_refl Hin).
    + apply list_elem_of_singleton in Hin. rewrite Hac in Hf by auto. done.
  - apply quiet_snoc; auto.
  - rewrite invocations_app, He, app_nil_r. exact H4.
  - rewrite invocations_app, He, app_nil_r. exact H5.
Qed.

Lemma chain_inv_frame (c c' : Context) (tr : list event) :
  handlers c' = handlers c -> aborted c' = aborted c ->
  chain_inv hs (c, tr) -> chain_inv hs (c', tr).
Proof.
  intros Hh Hab [H1 H2 H3 H4 H5]. cbn [fst snd] in *.
  split; cbn [fst snd]; try assumption.
  - congruence.
  - rewrite Hab. exact H2.
Qed.

Lemma fuelled_mono (f : nat) (s : run_state) :
  fuelled bounded hs f s -> fuelled bounded hs (S f) s.
Proof.
  intros [Hl Hb]. split; [exact Hl|]. intros H1 H2 H3 H4.
  specialize (Hb H1 H2 H3 H4). lia.
Qed.

Lemma fuelled_abort (f : nat) (c : Context) (tr : list event) :
  fuelled bounded hs f (c, tr) -> fuelled bounded hs f (Abort c, tr ++ [AbortCalled]).
Proof.
  intros [(Hinv & Hr & Hle) Hb].
  split; [split; [|split]|]; cbn [fst snd Abort] in *.
  - apply (chain_inv_quiet_event c); auto.
  - exact Hr.
  - discriminate.
  - discriminate.
Qed.

Lemma fuelled_frame (f : nat) (c c' : Context) (tr : list event) :
  handlers c' = handlers c -> aborted c' = aborted c -> index c' = index c ->
  fuelled bounded hs f (c, tr) -> fuelled bounded hs f (c', tr).
Proof.
  intros Hh Hab Hi [(Hinv & Hr & Hle) Hb]. cbn [fst snd] in *.
  unfold fuelled, chain_live. cbn [fst snd]. rewrite Hab, Hi.
  split; [split; [|split]|]; auto. eapply chain_inv_frame; eauto.
Qed.

Lemma chain_inv_advance (s : run_state) :
  chain_inv hs s -> chain_inv hs (advance s).
Proof.
  destruct s as [c tr]. intros H. unfold advance. cbn [fst snd].
  apply (chain_inv_quiet_event c); auto; discriminate.
Qed.

Lemma fuelled_advance (f : nat) (s : run_state) :
  fuelled bounded hs f s ->
  (index (advance s).1 <? i8 (Z.of_nat (length (handlers (advance s).1))))%Z
    = false
  \/ aborted (advance s).1 = true ->
  fuelled bounded hs f (advance s).
Proof.
  destruct s as [c tr]. intros [(Hinv & Hr & Hle) Hb] Hexit.
  pose proof (chain_inv_advance _ Hinv) as Hinv'.
  cbn [advance fst snd set_index index handlers aborted] in *.
  destruct Hexit as [Hge|Hab].
  - apply Z.ltb_ge in Hge.
    pose proof (inv_handlers _ _ Hinv) as Hh. cbn [fst] in Hh.
    rewrite Hh in Hge.
    split; [split; [|split]|]; cbn [advance fst snd set_index index aborted]; auto.
    + apply i8_range.
    + intros Hab j Hj. rewrite invocations_app in Hj. simpl in Hj.
      rewrite app_nil_r in Hj.
      pose proof (inv_invoked _ _ Hinv j Hj). lia.
    + intros Hbd Hab Hpos Hm1.
      destruct (i8_succ (index c) Hr) as [Heq|[_ Heq]]; rewrite Heq in *;
        [|lia].
      specialize (Hb Hbd Hab Hpos). lia.
  - split; [split; [|split]|]; cbn [advance fst snd set_index index aborted]; auto;
      try apply i8_range; congruence.
Qed.

Lemma fuelled_invoke (f : nat) (s : run_state) :
  fuelled bounded hs (S f) s -> invocable (advance s) ->
  fuelled bounded hs f ((advance s).1, (advance s).2 ++ [Invoked (index (advance s).1)]).
Proof.
  destruct s as [c tr]. intros [(Hinv & Hr & Hle) Hb] (Hlt & Hab & Hpos & _).
  pose proof (chain_inv_advance _ Hinv) as [H1 H2 H3 H4 H5].
  cbn [advance fst snd set_index index handlers aborted] in *.
  rewrite H1 in Hlt.
  destruct (i8_succ (index c) Hr) as [Heq|[_ Heq]]; rewrite Heq in *; [|lia].
  assert (forall j, j ∈ invocations (tr ++ [Advanced (index c) (index c + 1)])
                    -> (j <= index c)%Z) as Hold.
  { intros j Hj. rewrite invocations_app in Hj. simpl in Hj.
    rewrite app_nil_r in Hj. auto. }
  split; [split; [split|split]|]; cbn [advance fst snd set_index index aborted].
  - exact H1.
  - intros _ [Hin|Hin]%elem_of_app; [exact (H2 Hab Hin)|].
    apply list_elem_of_singleton in Hin. discriminate.
  - apply quiet_snoc; auto.
  - rewrite invocations_app. apply increasing_snoc; [exact H4|].
    intros a Ha. specialize (Hold a Ha). lia.
  - intros j. rewrite invocations_app. intros [Hj|Hj]%elem_of_app; [auto|].
    apply list_elem_of_singleton in Hj. subst j. lia.
  - unfold int8 in *. pose proof (i8_length_nonneg (length hs)). lia.
  - intros _ j. rewrite invocations_app. intros [Hj|Hj]%elem_of_app.
    + specialize (Hold j Hj). lia.
    + apply list_elem_of_singleton in Hj. subst j. lia.
  - intros Hbd _ Hp _. specialize (Hb Hbd Hab Hp). lia.
Qed.

(** The outcome of [Next] from a state with enough fuel. *)
Lemma Next_loop_fuelled (f : nat) (s : run_state) :
  fuelled bounded hs f s ->
  chain_post (fuelled bounded hs) (chain_inv hs) f (Next_loop f (advance s)).
Proof.
  apply Next_loop_invariant.
  - apply fuelled_mono.
  - intros f0 s0 H. apply H.
  - apply fuelled_abort.
  - intros f0 c tr key v c' H Hset. unfold Set_ in Hset.
    destruct (store c); [|discriminate]. injection Hset as <-.
    revert H. apply fuelled_frame; reflexivity.
  - intros f0 c tr ct code body. apply fuelled_frame; reflexivity.
  - intros f0 s0 H. apply chain_inv_advance, H.
  - apply fuelled_advance.
  - apply fuelled_invoke.
Qed.

(** No state is left without fuel for an invocation. *)
Lemma fuelled_never_starved (s : run_state) :
  bounded = true -> fuelled bounded hs 0 s -> invocable (advance s) -> False.
Proof.
  destruct s as [c tr].
  intros Hbd [(Hinv & Hr & Hle) Hb] (Hlt & Hab & Hpos & _).
  cbn [advance fst snd set_index index handlers aborted] in *.
  pose proof (inv_handlers _ _ Hinv) as Hh. cbn [fst] in Hh.
  rewrite Hh in Hlt.
  pose proof (i8_length_nonneg (length hs)).
  destruct (i8_succ (index c) Hr) as [Heq|[_ Heq]]; rewrite Heq in *; [|lia].
  specialize (Hb Hbd Hab). lia.
Qed.

End chain_execution.

Section chain_claims.
Import context props.

Lemma chain_live_start (c : Context) :
  int8 (index c) -> chain_live (handlers c) (c, []).
Proof.
  intros Hr. split; [split|split]; cbn [fst snd]; auto using quiet_nil,
    increasing_nil.
  - intros _ H. inversion H.
  - intros j H. inversion H.
  - intros _ j H. inversion H.
Qed.

(** The history of [Next] from a fresh history. *)
Lemma Next_fuel_chain_inv (c : Context) (fuel : nat) :
  int8 (index c) -> chain_inv (handlers c) (Next_fuel fuel (c, [])).1.
Proof.
  intros Hr.
  assert (fuelled false (handlers c) fuel (c, [])) as Hf.
  { split; [apply chain_live_start, Hr|discriminate]. }
  exact (proj1 (Next_loop_fuelled _ _ _ _ Hf)).
Qed.

(** [Next] never exhausts its recursion bound. *)
Lemma Next_has_fuel (c : Context) (fuel : nat) :
  int8 (index c) -> 127 <= fuel -> (Next_fuel fuel (c, [])).2 <> NoFuel.
Proof.
  intros Hr Hfuel Hno.
  assert (fuelled true (handlers c) fuel (c, [])) as Hf.
  { split; [apply chain_live_start, Hr|]. cbn [fst snd].
    unfold int8 in Hr. lia. }
  destruct (Next_loop_fuelled _ _ _ _ Hf) as (_ & _ & Hstarved).
  destruct (Hstarved Hno) as (s0 & H0 & Hinv).
  exact (fuelled_never_starved _ _ _ eq_refl H0 Hinv).
Qed.

Lemma cursor_ok_Next (start : Z) (f : nat) (s : run_state) :
  cursor_ok start s ->
  cursor_ok start (Next_loop f (advance s)).1.
Proof.
  intros Hs.
  refine (proj1 (Next_loop_invariant (fun _ => cursor_ok start)
                   (cursor_ok start) _ _ _ _ _ _ _ _ f s Hs)); clear.
  - auto.
  - auto.
  - intros _ c tr (Hh & Hr & Hm). split; [|split]; cbn [fst snd Abort] in *.
    + eapply cursor_history_app; [exact Hh|reflexivity].
    + exact Hr.
    + rewrite movements_app. simpl. rewrite app_nil_r. exact Hm.
  - intros _ c tr key v c' H Hset. unfold Set_ in Hset.
    destruct (store c); [|discriminate]. injection Hset as <-. exact H.
  - intros _ c tr ct code body H. exact H.
  - intros _ [c tr] (Hh & Hr & Hm). split; [|split];
      cbn [advance fst snd set_index index] in *.
    + eapply cursor_history_app; [exact Hh|]. simpl. auto.
    + apply i8_range.
    + rewrite movements_app. apply Forall_app. split; [exact Hm|].
      constructor; [|constructor]. apply i8_succ, Hr.
  - intros _ [c tr] (Hh & Hr & Hm) _. split; [|split];
      cbn [advance fst snd set_index index] in *.
    + eapply cursor_history_app; [exact Hh|]. simpl. auto.
    + apply i8_range.
    + rewrite movements_app. apply Forall_app. split; [exact Hm|].
      constructor; [|constructor]. apply i8_succ, Hr.
  - intros _ [c tr] (Hh & Hr & Hm) _. split; [|split];
      cbn [advance fst snd set_index index] in *.
    + eapply cursor_history_app; [|reflexivity].
      eapply cursor_history_app; [exact Hh|]. simpl. auto.
    + apply i8_range.
    + rewrite !movements_app. simpl. rewrite app_nil_r.
      apply Forall_app. split; [exact Hm|].
      constructor; [|constructor]. apply i8_succ, Hr.
Qed.

(** C6 (as stated, refuted): with the cursor at 127, past the end of a
    one-handler chain, [Next] is no no-op: the int8 cursor wraps to -128
    and the index expression panics.  A handler that calls [Next] 128
    times gets there; if it has aborted first, the run completes with the
    cursor below where it was. *)
Lemma cursor_wraps_at_127 :
  let fresh := drift.reset drift.zero_Context [] some_request in
  Next (set_index 127 (set_handlers [hA] fresh), [])
  = ((set_index (-128) (set_handlers [hA] fresh), [Advanced 127 (-128)]),
     Panicked index_out_of_range)
  /\ (Next (set_handlers [nexts 128 Done] fresh, [])).2
     = Panicked index_out_of_range
  /\ (Next (set_handlers [CallAbort (nexts 128 Done)] fresh, [])).2 = Running
  /\ (127, -128)%Z
     ∈ movements (Next (set_handlers [CallAbort (nexts 128 Done)] fresh, [])).1.2.
Proof.
  cbv zeta. split; [vm_compute; reflexivity|].
  split; [vm_compute; reflexivity|].
  split; [vm_compute; reflexivity|]. by_evaluation.
Qed.

(** C6 (amended): with the cursor at or past the end of the chain and
    below 127, [Next] invokes no handler and only moves the cursor one up.
    Across the calls of [Next] of a chain execution, whatever the handlers
    do, the cursor moves one up at a time, except from 127 around to -128,
    and the invoked positions are strictly increasing: no handler is
    invoked a second time.  The recursion bound of the model is never
    exhausted. *)
Theorem advance_never_reinvokes (c : Context) (fuel : nat) :
  int8 (index c) ->
  ((Z.of_nat (length (handlers c)) <= index c + 1)%Z -> (index c < 127)%Z ->
   Next_fuel fuel (c, [])
   = ((set_index (index c + 1) c, [Advanced (index c) (index c + 1)]),
      Running))
  /\ cursor_history (index c) (Next_fuel fuel (c, [])).1.2
       (index (Next_fuel fuel (c, [])).1.1)
  /\ Forall cursor_step (movements (Next_fuel fuel (c, [])).1.2)
  /\ increasing (invocations (Next_fuel fuel (c, [])).1.2)
  /\ NoDup (invocations (Next_fuel fuel (c, [])).1.2)
  /\ (127 <= fuel -> (Next_fuel fuel (c, [])).2 <> NoFuel).
Proof.
  intros Hr. split; [|split; [|split; [|split; [|split]]]].
  - intros Hend Hlt. unfold Next_fuel.
    assert (i8 (index c + 1) = (index c + 1)%Z) as Hi
      by (apply i8_small; unfold int8 in *; lia).
    assert (i8 (Z.of_nat (length (handlers c))) = Z.of_nat (length (handlers c)))
      as Hl by (apply i8_small; unfold int8 in *; lia).
    destruct fuel; cbn [Next_loop]; unfold advance;
      cbn [fst snd set_index index handlers]; rewrite Hi, Hl;
      (destruct (Z.ltb_spec (index c + 1) (Z.of_nat (length (handlers c))))
         as [Hlt'|_]; [lia|reflexivity]).
  - apply (cursor_ok_Next (index c) fuel (c, [])).
    split; [reflexivity|]. split; [exact Hr|constructor].
  - apply (cursor_ok_Next (index c) fuel (c, [])).
    split; [reflexivity|]. split; [exact Hr|constructor].
  - apply (inv_increasing _ _ (Next_fuel_chain_inv c fuel Hr)).
  - apply increasing_NoDup.
    apply (inv_increasing _ _ (Next_fuel_chain_inv c fuel Hr)).
  - apply Next_has_fuel, Hr.
Qed.

Lemma advance_never_reinvokes_witness :
  int8 (index (set_handlers [hA; hB]
                 (drift.reset drift.zero_Context [] some_request)))
  /\ NoDup (invocations
              (Next_fuel 128
                 (set_handlers [hA; hB]
                    (drift.reset drift.zero_Context [] some_request), [])).1.2).
Proof.
  assert (int8 (index (set_handlers [hA; hB]
                         (drift.reset drift.zero_Context [] some_request))))
    as Hr by (unfold int8; simpl; lia).
  split; [exact Hr|].
  exact (proj1 (proj2 (proj2 (proj2 (proj2
           (advance_never_reinvokes _ 128 Hr)))))).
Defined.

(** *** A chain in which the second handler aborts *)

Lemma run_no_next (next : run_state -> outcome) (h : hprog) :
  no_next h ->
  forall s, store s.1 <> None ->
  exists s', run next h s = (s', Running)
             /\ handlers s'.1 = handlers s.1 /\ index s'.1 = index s.1
             /\ store s'.1 <> None /\ invocations s'.2 = invocations s.2
             /\ (aborted s.1 = true -> aborted s'.1 = true).
Proof.
  induction 1 as [|k _ IH|key v k _ IH|key k _ IH|key k _ IH|k _ IH
    |ct code body k _ IH]; intros [c tr] Hst; cbn [run fst snd] in *.
  - eexists. split; [reflexivity|]. auto.
  - destruct (IH (Abort c, tr ++ [AbortCalled]) Hst)
      as (s' & Hrun & Hh & Hi & Hs & Hinv & Hab).
    exists s'. split; [exact Hrun|]. cbn [fst snd Abort] in *.
    rewrite invocations_app in Hinv. simpl in Hinv.
    rewrite app_nil_r in Hinv.
    repeat split; auto.
  - unfold Set_. destruct (store c) as [m|] eqn:Hm; [|done].
    destruct (IH (set_store (Some (<[key:=v]> m)) c, tr)) as
      (s' & Hrun & Hh & Hi & Hs & Hinv & Hab); [discriminate|].
    exists s'. split; [exact Hrun|]. auto.
  - apply (IH _ (c, tr) Hst).
  - apply (IH _ (c, tr) Hst).
  - apply (IH _ (c, tr) Hst).
  - apply (IH (Write_ ct code body c, tr) Hst).
Qed.

Lemma run_calls_abort (next : run_state -> outcome) (h : hprog) :
  calls_abort h -> no_next h ->
  forall s, store s.1 <> None ->
  exists s', run next h s = (s', Running)
             /\ handlers s'.1 = handlers s.1 /\ index s'.1 = index s.1
             /\ store s'.1 <> None /\ invocations s'.2 = invocations s.2
             /\ aborted s'.1 = true.
Proof.
  induction 1 as [k|k _ IH|key v k _ IH|key k _ IH|key k _ IH|k _ IH
    |ct code body k _ IH]; intros Hnn [c tr] Hst; inversion Hnn; subst;
    cbn [run fst snd] in *.
  - destruct (run_no_next next k ltac:(assumption)
                (Abort c, tr ++ [AbortCalled]) Hst)
      as (s' & Hrun & Hh & Hi & Hs & Hinv & Hab).
    exists s'. split; [exact Hrun|]. cbn [fst snd Abort] in *.
    rewrite invocations_app in Hinv. simpl in Hinv.
    rewrite app_nil_r in Hinv. repeat split; auto.
  - unfold Set_. destruct (store c) as [m|] eqn:Hm; [|done].
    destruct (IH ltac:(assumption) (set_store (Some (<[key:=v]> m)) c, tr))
      as (s' & Hrun & Hh & Hi & Hs & Hinv & Hab); [discriminate|].
    exists s'. split; [exact Hrun|]. auto.
  - apply (IH _ ltac:(auto) (c, tr) Hst).
  - apply (IH _ ltac:(auto) (c, tr) Hst).
  - apply (IH _ ltac:(auto) (c, tr) Hst).
  - apply (IH ltac:(assumption) (Write_ ct code body c, tr) Hst).
Qed.

Lemma Next_loop_unfold (f : nat) (s : run_state) :
  Next_loop (S f) s =
  if (index s.1 <? i8 (Z.of_nat (length (handlers s.1))))%Z then
    if aborted s.1 then (s, Running)
    else if (index s.1 <? 0)%Z then (s, Panicked index_out_of_range)
    else
      match handlers s.1 !! Z.to_nat (index s.1) with
      | None => (s, Panicked index_out_of_range)
      | Some h =>
          let '(s', st) :=
            run (fun s0 => Next_loop f (advance s0)) h
              (s.1, s.2 ++ [Invoked (index s.1)]) in
          match st with
          | Running => Next_loop f (advance s')
          | _ => (s', st)
          end
      end
  else (s, Running).
Proof. reflexivity. Qed.

(** Once aborted, [Next] only moves the cursor. *)
Lemma Next_loop_aborted (f : nat) (s : run_state) :
  aborted s.1 = true -> Next_loop f (advance s) = (advance s, Running).
Proof.
  intros Hab. destruct s as [c tr].
  destruct f; cbn [Next_loop]; cbn [advance fst snd set_index aborted] in *;
    rewrite Hab; destruct (_ <? _)%Z; reflexivity.
Qed.

Lemma after_abort_Next (chain : list HandlerFunc) (f : nat) (s : run_state) :
  after_abort chain s ->
  Next_loop f (advance s) = (advance s, Running)
  /\ after_abort chain (advance s).
Proof.
  intros (Hh & Hab & Hst & Hinv). split; [apply Next_loop_aborted, Hab|].
  destruct s as [c tr]. unfold after_abort.
  cbn [advance fst snd set_index handlers aborted store] in *.
  repeat split; auto.
  rewrite invocations_app, Hinv. reflexivity.
Qed.

Lemma before_abort_Next (A B C : HandlerFunc) (f : nat) (s : run_state) :
  no_next B -> calls_abort B -> before_abort [A; B; C] s ->
  exists s', Next_loop (S f) (advance s) = (s', Running)
             /\ after_abort [A; B; C] s'.
Proof.
  intros Hnn Hca (Hh & Hi & Hab & Hst & Hinv). destruct s as [c tr].
  cbn [fst snd] in *. rewrite Next_loop_unfold.
  cbn [advance fst snd set_index index handlers aborted].
  rewrite Hh, Hi, Hab.
  change (i8 (0 + 1)) with 1%Z. change (i8 (Z.of_nat (length [A; B; C])))
    with 3%Z.
  change (1 <? 3)%Z with true. change (1 <? 0)%Z with false. cbv iota.
  change ([A; B; C] !! Z.to_nat 1) with (Some B).
  destruct (run_calls_abort (fun s0 => Next_loop f (advance s0)) B Hca Hnn
              (set_index 1 c, (tr ++ [Advanced 0 1]) ++ [Invoked 1]) Hst)
    as ([c2 tr2] & Hrun & Hh2 & Hi2 & Hs2 & Hinv2 & Hab2).
  rewrite Hrun. cbn [fst snd set_index handlers index] in *.
  assert (after_abort [A; B; C] (c2, tr2)) as Hafter.
  { repeat split; cbn [fst snd]; auto; [congruence|].
    rewrite Hinv2, !invocations_app, Hinv. reflexivity. }
  destruct (after_abort_Next _ f _ Hafter) as [-> Hafter'].
  eexists. split; [reflexivity|exact Hafter'].
Qed.

Lemma run_first_handler (A B C : HandlerFunc) (f : nat) (h : hprog) :
  no_abort h -> no_next B -> calls_abort B ->
  forall s, before_abort [A; B; C] s \/ after_abort [A; B; C] s ->
  exists s', run (fun s0 => Next_loop (S f) (advance s0)) h s = (s', Running)
             /\ (before_abort [A; B; C] s' \/ after_abort [A; B; C] s').
Proof.
  intros Hna Hnn Hca.
  induction Hna as [|k _ IH|key v k _ IH|key k _ IH|key k _ IH|k _ IH
    |ct code body k _ IH]; intros [c tr] Hs; cbn [run fst snd].
  - eexists. split; [reflexivity|exact Hs].
  - destruct Hs as [Hb|Ha].
    + destruct (before_abort_Next A B C f _ Hnn Hca Hb) as (s1 & -> & Ha).
      apply IH. right. exact Ha.
    + destruct (after_abort_Next _ (S f) _ Ha) as [-> Ha'].
      apply IH. right. exact Ha'.
  - assert (store c <> None) as Hst by (destruct Hs as [H|H]; apply H).
    unfold Set_. destruct (store c) as [m|] eqn:Hm; [|done].
    apply IH. destruct Hs as [(H1 & H2 & H3 & H4 & H5)|(H1 & H2 & H3 & H4)];
      [left|right]; repeat split; cbn [fst snd set_store] in *; auto;
      discriminate.
  - apply IH, Hs.
  - apply IH, Hs.
  - apply IH, Hs.
  - apply IH. destruct Hs as [(H1 & H2 & H3 & H4 & H5)|(H1 & H2 & H3 & H4)];
      [left|right]; repeat split; cbn [fst snd Write_] in *; auto.
Qed.

(** C5: in a chain [A; B; C] run by [Next] from a fresh context, where [A]
    does not abort and [B] aborts without calling [Next], [A] and [B] are
    invoked once each and [C] never.  In every chain execution, no handler
    is invoked after [Abort] has been called, and none at all from a
    context that is already aborted. *)
Theorem abort_stops_chain :
  (forall (A B C : HandlerFunc) (c : Context),
     no_abort A -> no_next B -> calls_abort B ->
     handlers c = [A; B; C] -> index c = (-1)%Z -> aborted c = false ->
     store c <> None ->
     exists c' tr,
       Next (c, []) = ((c', tr), Running) /\ aborted c' = true
       /\ times_invoked 0 tr = 1 /\ times_invoked 1 tr = 1
       /\ times_invoked 2 tr = 0)
  /\ (forall (fuel : nat) (c : Context),
        int8 (index c) ->
        quiet_after_abort (Next_fuel fuel (c, [])).1.2
        /\ (aborted c = true ->
            invocations (Next_fuel fuel (c, [])).1.2 = [])).
Proof.
  split.
  - intros A B C c HA HnB HcB Hh Hi Hab Hst.
    unfold Next, Next_fuel. change chain_fuel with (S 127).
    rewrite Next_loop_unfold.
    cbn [advance fst snd set_index index handlers aborted].
    rewrite Hh, Hi, Hab.
    change (i8 (-1 + 1)) with 0%Z. change (i8 (Z.of_nat (length [A; B; C])))
      with 3%Z.
    change (0 <? 3)%Z with true. change (0 <? 0)%Z with false. cbv iota.
    change ([A; B; C] !! Z.to_nat 0) with (Some A). cbv iota.
    destruct (run_first_handler A B C 126 A HA HnB HcB
                (set_index 0 c, ([] ++ [Advanced (-1) 0]) ++ [Invoked 0]))
      as (s1 & -> & Hs1).
    { left. repeat split; cbn [fst snd set_index]; auto. }
    assert (exists s', Next_loop 127 (advance s1) = (s', Running)
                       /\ after_abort [A; B; C] s') as ([c' tr] & -> & Hfin).
    { destruct Hs1 as [Hb|Ha].
      - apply (before_abort_Next A B C 126 _ HnB HcB Hb).
      - destruct (after_abort_Next _ 127 _ Ha) as [-> Ha']. eauto. }
    destruct Hfin as (_ & Hab' & _ & Hinv). cbn [fst snd] in *.
    exists c', tr. split; [reflexivity|]. split; [exact Hab'|].
    unfold times_invoked. rewrite Hinv. repeat split.
  - intros fuel c Hr. split.
    + apply (inv_quiet _ _ (Next_fuel_chain_inv c fuel Hr)).
    + intros Hab. unfold Next_fuel.
      rewrite Next_loop_aborted by exact Hab. reflexivity.
Qed.

Lemma abort_stops_chain_witness :
  exists c' tr,
    Next (set_handlers [hA; CallAbort Done; hC]
            (drift.reset drift.zero_Context [] some_request), [])
    = ((c', tr), Running)
    /\ aborted c' = true
    /\ times_invoked 0 tr = 1 /\ times_invoked 1 tr = 1
    /\ times_invoked 2 tr = 0.
Proof.
  apply (proj1 abort_stops_chain hA (CallAbort Done) hC).
  - repeat constructor.
  - repeat constructor.
  - constructor.
  - reflexivity.
  - reflexivity.
  - reflexivity.
  - discriminate.
Defined.

End chain_claims.

(** ** Reordering of children *)

Section tree_order.
Import tree props.

Lemma tree_all_eq (P : node -> Prop) (n : node) :
  tree_all P n <-> P n /\ Forall (tree_all P) (children n).
Proof.
  destruct n as [p ix cs h pr ty w fp]. cbn [tree_all children].
  apply and_iff_compat_l. induction cs as [|c cs IH].
  - split; [constructor|trivial].
  - rewrite Forall_cons, IH. reflexivity.
Qed.

Lemma tree_all_impl (P Q : node -> Prop) (n : node) :
  (forall m, P m -> Q m) -> tree_all P n -> tree_all Q n.
Proof.
  intros HPQ. revert n. fix IH 1. intros [p ix cs h pr ty w fp] [HP Hcs].
  split; [auto|]. clear HP. induction cs as [|c cs IHcs]; [exact I|].
  destruct Hcs as [Hc Hcs]. split; [apply IH, Hc|apply IHcs, Hcs].
Qed.

Lemma height_child (n c : node) : c ∈ children n -> height c < height n.
Proof.
  destruct n as [p ix cs h pr ty w fp]. cbn [children height].
  induction 1 as [c cs|c d cs _ IH]; lia.
Qed.

Lemma height_set_priority (z : Z) (n : node) :
  height (set_priority z n) = height n.
Proof. destruct n. reflexivity. Qed.

(** The move-to-front loop, on a list cut at the position of the moved
    child [x]: [x] passes the siblings [back] of lower priority and stops
    behind [front]. *)
Lemma bubble_spec (pre post : list node) (x : node) (prio : Z) :
  exists front back,
    pre = front ++ back
    /\ bubble (pre ++ x :: post) (length pre) prio
       = (front ++ x :: back ++ post, length front)
    /\ Forall (fun c => (priority c < prio)%Z) back
    /\ (front = [] \/ exists f a, front = f ++ [a] /\ (prio <= priority a)%Z).
Proof.
  revert post. induction pre as [|a pre IH] using rev_ind; intros post.
  - exists [], []. repeat split; auto.
  - rewrite length_app. cbn [length]. rewrite Nat.add_1_r. cbn [bubble].
    rewrite <- app_assoc. cbn [app].
    rewrite list_lookup_middle by reflexivity.
    assert ((pre ++ a :: x :: post) !! S (length pre) = Some x) as ->.
    { rewrite lookup_app_r by lia.
      replace (S (length pre) - length pre) with 1 by lia. reflexivity. }
    destruct (priority a <? prio)%Z eqn:Hlt.
    + assert (<[length pre:=x]> (<[S (length pre):=a]> (pre ++ a :: x :: post))
              = pre ++ x :: a :: post) as ->.
      { rewrite insert_app_r_alt by lia.
        replace (S (length pre) - length pre) with 1 by lia. cbn [insert
          list_insert]. rewrite insert_app_r_alt by lia.
        rewrite Nat.sub_diag. reflexivity. }
      destruct (IH (a :: post)) as (front & back & -> & Hb & Hback & Hfront).
      exists front, (back ++ [a]). split; [by rewrite app_assoc|].
      split; [rewrite Hb, <- !app_assoc; reflexivity|].
      split; [|exact Hfront].
      apply Forall_app. split; [exact Hback|].
      constructor; [|constructor]. apply Z.ltb_lt, Hlt.
    + exists (pre ++ [a]), []. split; [by rewrite app_nil_r|].
      split; [rewrite <- app_assoc, length_app; cbn [length app];
              rewrite Nat.add_1_r; reflexivity|].
      split; [constructor|]. right. exists pre, a. split; [reflexivity|].
      apply Z.ltb_ge, Hlt.
Qed.

(** [incrementChildPrio] at the position of [c], on children and index
    bytes cut at that position: [c] gets its priority incremented and
    moves, with its index byte, in front of the siblings of lower
    priority. *)
Lemma incrementChildPrio_spec (n : node) (pre post : list node) (c : node)
    (ipre ipost : str) (y : ascii) :
  children n = pre ++ c :: post -> indices n = ipre ++ y :: ipost ->
  length ipre = length pre ->
  exists front back ifront iback,
    pre = front ++ back /\ ipre = ifront ++ iback
    /\ length ifront = length front
    /\ incrementChildPrio n (length pre)
       = Ok (set_indices (ifront ++ y :: iback ++ ipost)
               (set_children (front ++ incr_priority c :: back ++ post) n),
             length front)
    /\ Forall (fun d => (priority d < priority (incr_priority c))%Z) back
    /\ (front = []
        \/ exists f a, front = f ++ [a]
                       /\ (priority (incr_priority c) <= priority a)%Z).
Proof.
  intros Hcs Hix Hlen. unfold incrementChildPrio.
  rewrite Hcs, list_lookup_middle by reflexivity.
  rewrite insert_app_r_alt, Nat.sub_diag by lia. cbn [insert list_insert].
  destruct (bubble_spec pre post (incr_priority c)
              (priority (incr_priority c)))
    as (front & back & -> & -> & Hback & Hfront).
  exists front, back, (take (length front) ipre), (drop (length front) ipre).
  rewrite length_app in Hlen.
  split; [reflexivity|]. split; [by rewrite take_drop|].
  split; [rewrite length_take; lia|]. split; [|split; assumption].
  case_bool_decide as Hpos.
  - (* the child stays where it is *)
    assert (back = []) as ->.
    { destruct back; [reflexivity|]. rewrite length_app in Hpos.
      simpl in Hpos. lia. }
    rewrite app_nil_r in *. rewrite Nat.add_0_r in Hlen. cbn [length] in Hlen.
    rewrite <- Hlen, firstn_all, drop_all. cbn [app].
    rewrite <- Hix. destruct n; reflexivity.
  - rewrite Hix.
    assert ((length (ipre ++ y :: ipost) <? length (front ++ back) + 1)
            = false) as ->.
    { apply Nat.ltb_ge. rewrite !length_app. simpl. lia. }
    f_equal. f_equal. f_equal.
    rewrite length_app, <- Hlen.
    rewrite take_app_le by lia.
    rewrite drop_app_length. cbn [take].
    rewrite drop_app_le by lia.
    rewrite take_app_length' by (rewrite length_drop; lia).
    rewrite drop_app_ge by lia.
    replace (length ipre + 1 - length ipre) with 1 by lia. reflexivity.
Qed.

End tree_order.

(** ** Trees of literal routes *)

Section tree_static.
Import tree props.

Lemma static_tree_eq (n : node) :
  static_tree n <-> static_node n /\ Forall static_tree (children n).
Proof. apply tree_all_eq. Qed.

(** *** Children by index byte *)

Lemma list_to_map_zip_lookup (ix : str) (cs : list node) (x : ascii) :
  length ix = length cs ->
  (list_to_map (zip ix cs) : gmap ascii node) !! x
  = index_of x ix ≫= fun k => cs !! k.
Proof.
  revert cs. induction ix as [|y ix IH]; intros [|c cs] Hlen;
    try discriminate; [reflexivity|].
  cbn [zip zip_with list_to_map foldr index_of]. case_bool_decide as Hy.
  - subst. cbn. apply lookup_insert_eq.
  - cbn. rewrite lookup_insert_ne by assumption.
    rewrite IH by (simpl in Hlen; lia).
    destruct (index_of x ix); reflexivity.
Qed.

Lemma static_node_length (n : node) :
  static_node n -> length (indices n) = length (children n).
Proof. intros (_ & _ & H). eapply Forall2_length, H. Qed.

Lemma cmap_lookup (n : node) (x : ascii) :
  static_node n ->
  cmap n !! x = index_of x (indices n) ≫= fun k => children n !! k.
Proof. intros H. apply list_to_map_zip_lookup, static_node_length, H. Qed.

Lemma cmap_lookup_Some (n : node) (x : ascii) (c : node) :
  static_node n -> cmap n !! x = Some c ->
  c ∈ children n /\ head (path c) = Some x.
Proof.
  intros Hn Hc. unfold cmap in Hc.
  apply elem_of_list_to_map_2 in Hc.
  apply elem_of_lookup_zip_with in Hc as (k & y & d & [= -> ->] & Hy & Hd).
  split; [eapply list_elem_of_lookup_2, Hd|].
  destruct Hn as (_ & _ & HF). eapply Forall2_lookup_lr in HF; eauto.
Qed.

Lemma cmap_lookup_None (n : node) (x : ascii) :
  static_node n -> cmap n !! x = None -> index_of x (indices n) = None.
Proof.
  intros Hn. rewrite cmap_lookup by assumption.
  destruct (index_of x (indices n)) as [k|] eqn:Hk; [|reflexivity].
  cbn. intros Hnone. apply lookup_ge_None in Hnone.
  assert (k < length (indices n)).
  { clear -Hk. revert k Hk. induction (indices n) as [|y l IH]; intros k;
      [discriminate|]. simpl. case_bool_decide; [intros [= <-]; lia|].
    destruct (index_of x l); [|discriminate]. intros [= <-].
    specialize (IH _ eq_refl). lia. }
  rewrite (static_node_length n Hn) in *. lia.
Qed.

Lemma index_of_Some (x : ascii) (ix : str) (k : nat) :
  index_of x ix = Some k ->
  ix !! k = Some x /\ x ∉ take k ix.
Proof.
  revert k. induction ix as [|y ix IH]; intros k; [discriminate|]. simpl.
  case_bool_decide as Hy.
  - intros [= <-]. subst. split; [reflexivity|apply not_elem_of_nil].
  - destruct (index_of x ix) as [j|]; [|discriminate]. intros [= <-].
    destruct (IH j eq_refl) as [Hj Hnot]. split; [exact Hj|].
    simpl. intros [->|Hin]%elem_of_cons; [done|exact (Hnot Hin)].
Qed.

Lemma index_of_None (x : ascii) (ix : str) : index_of x ix = None -> x ∉ ix.
Proof.
  induction ix as [|y ix IH]; [intros _; apply not_elem_of_nil|]. simpl.
  case_bool_decide as Hy; [discriminate|].
  destruct (index_of x ix); [discriminate|]. intros _.
  intros [->|Hin]%elem_of_cons; [done|exact (IH eq_refl Hin)].
Qed.

(** Lookup in a tree of literal routes: by the fragment, then by the
    child for the next byte. *)
Lemma getValue_static (n : node) (q : str) (ps : gmap str str) :
  static_node n ->
  getValue_walk n q ps =
  if length (path n) <? length q then
    if eqb_str (take (length (path n)) q) (path n) then
      match head (drop (length (path n)) q) ≫= fun x => cmap n !! x with
      | Some ch => getValue_walk ch (drop (length (path n)) q) ps
      | None => Ok not_found
      end
    else Ok not_found
  else if eqb_str q (path n) then
    match handlers n with
    | Some _ => Ok (handlers n, Some ps, fullPath n)
    | None => Ok not_found
    end
  else Ok not_found.
Proof.
  intros Hn. rewrite getValue_walk_eq.
  destruct (length (path n) <? length q) eqn:Hlen; [|reflexivity].
  destruct (eqb_str _ _); [|reflexivity].
  destruct (drop (length (path n)) q) as [|x rest] eqn:Hd.
  { apply Nat.ltb_lt in Hlen. apply (f_equal length) in Hd.
    rewrite length_drop in Hd. simpl in Hd. lia. }
  cbn [head mbind option_bind]. rewrite cmap_lookup by assumption.
  destruct (index_of x (indices n)) as [k|] eqn:Hk; cbn.
  - destruct (children n !! k) as [ch|] eqn:Hch; [reflexivity|].
    exfalso. apply lookup_ge_None in Hch.
    apply index_of_Some in Hk as [Hk _]. apply lookup_lt_Some in Hk.
    rewrite (static_node_length n Hn) in Hk. lia.
  - destruct Hn as (-> & _). reflexivity.
Qed.

(** Lookup does not read the priority of the node it starts from. *)
Lemma getValue_walk_set_priority (z : Z) (n : node) (q : str)
    (ps : gmap str str) :
  getValue_walk (set_priority z n) q ps = getValue_walk n q ps.
Proof. rewrite !getValue_walk_eq. destruct n; reflexivity. Qed.

(** *** Changes of the children of a node *)

(** The child for [y] is replaced by [c'] and moved in front of [back],
    with its index byte. *)
Lemma static_node_reorder (n : node) (front back post : list node)
    (c c' : node) (ifront iback ipost : str) (y : ascii) :
  static_node n ->
  children n = (front ++ back) ++ c :: post ->
  indices n = (ifront ++ iback) ++ y :: ipost ->
  length ifront = length front -> length iback = length back ->
  head (path c') = Some y ->
  let n' := set_indices (ifront ++ y :: iback ++ ipost)
              (set_children (front ++ c' :: back ++ post) n) in
  static_node n' /\ cmap n' = <[y := c']> (cmap n).
Proof.
  intros (Hw & Hnd & HF) Hcs Hix Hl1 Hl2 Hc' n'.
  rewrite Hcs, Hix in HF. rewrite Hix in Hnd.
  apply Forall2_app_inv in HF as [HF1 HF2];
    [|rewrite !length_app; lia].
  apply Forall2_app_inv in HF1 as [HFf HFb]; [|exact Hl1].
  apply Forall2_cons in HF2 as [_ HFp].
  assert ((ifront ++ iback) ++ y :: ipost ≡ₚ ifront ++ y :: iback ++ ipost)
    as Hperm.
  { rewrite <- app_assoc. apply Permutation_app_head.
    symmetry. apply Permutation_middle. }
  split.
  - split; [destruct n; exact Hw|]. split.
    + destruct n; cbn [n' set_indices set_children indices].
      rewrite <- Hperm. exact Hnd.
    + destruct n; cbn [n' set_indices set_children indices children].
      apply Forall2_app; [exact HFf|]. constructor; [exact Hc'|].
      apply Forall2_app; assumption.
  - unfold cmap. rewrite Hcs, Hix.
    replace (indices n') with (ifront ++ y :: iback ++ ipost)
      by (destruct n; reflexivity).
    replace (children n') with (front ++ c' :: back ++ post)
      by (destruct n; reflexivity).
    pose proof (Forall2_length _ _ _ HFp) as Hl3.
    rewrite (zip_with_app _ ifront _ front) by exact Hl1.
    cbn [zip_with]. rewrite (zip_with_app _ iback _ back) by exact Hl2.
    rewrite (zip_with_app _ (ifront ++ iback) _ (front ++ back))
      by (rewrite !length_app; lia).
    rewrite (zip_with_app _ ifront _ front) by exact Hl1. cbn [zip_with].
    set (zf := zip_with pair ifront front).
    set (zb := zip_with pair iback back).
    set (zp := zip_with pair ipost post).
    assert (NoDup ((zf ++ (y, c') :: zb ++ zp).*1)) as Hnd1.
    { rewrite !fmap_app, fmap_cons, fmap_app. unfold zf, zb, zp.
      rewrite !fst_zip by lia. cbn [fst]. rewrite <- Hperm. exact Hnd. }
    assert (NoDup (((zf ++ zb) ++ (y, c) :: zp).*1)) as Hnd2.
    { rewrite !fmap_app, fmap_cons. unfold zf, zb, zp.
      rewrite !fst_zip by lia. exact Hnd. }
    rewrite (list_to_map_proper _ ((y, c') :: zf ++ zb ++ zp) Hnd1)
      by (symmetry; apply Permutation_middle).
    assert ((zf ++ zb) ++ (y, c) :: zp ≡ₚ (y, c) :: zf ++ zb ++ zp) as Hp2.
    { rewrite (app_assoc zf zb zp). symmetry. apply Permutation_middle. }
    rewrite (list_to_map_proper _ _ Hnd2 Hp2).
    cbn [list_to_map foldr]. rewrite insert_insert_eq. reflexivity.
Qed.

(** A child for a new index byte is appended. *)
Lemma static_node_append (n : node) (c : node) (x : ascii) :
  static_node n -> x ∉ indices n -> head (path c) = Some x ->
  let n' := set_children (children n ++ [c])
              (set_indices (indices n ++ [x]) n) in
  static_node n' /\ cmap n' = <[x := c]> (cmap n).
Proof.
  intros (Hw & Hnd & HF) Hx Hc n'.
  pose proof (Forall2_length _ _ _ HF) as Hlen.
  split; [split; [|split]|].
  - destruct n; exact Hw.
  - destruct n; cbn [n' set_indices set_children indices] in *.
    apply NoDup_app. split; [exact Hnd|]. split.
    + intros z Hz [->|Hin]%elem_of_cons; [done|inversion Hin].
    + apply NoDup_singleton.
  - destruct n; cbn [n' set_indices set_children indices children] in *.
    apply Forall2_app; [exact HF|]. constructor; [exact Hc|constructor].
  - unfold cmap.
    replace (indices n') with (indices n ++ [x]) by (destruct n; reflexivity).
    replace (children n') with (children n ++ [c])
      by (destruct n; reflexivity).
    rewrite zip_with_app by exact Hlen. cbn [zip_with].
    apply list_to_map_snoc. rewrite fst_zip by lia. exact Hx.
Qed.

(** *** The steps of the insertion walk *)

Lemma insertChild_literal (n : node) (p fp : str)
    (hs : option (list HandlerFunc)) :
  literal p ->
  insertChild n p fp hs = Ok (set_fullPath fp (set_handlers hs (set_path p n))).
Proof.
  intros Hl. unfold insertChild.
  destruct (length p); cbn [insertChild_loop]; unfold findWildcard;
    rewrite findWildcard_from_literal by assumption; reflexivity.
Qed.

(** Lookup below a fragment [a ++ path child], for a node [child] that
    differs from [m] in the fragment only. *)
Lemma getValue_walk_path_app (m child : node) (a r : str)
    (ps : gmap str str) :
  path m = a ++ path child -> indices child = indices m ->
  children child = children m -> handlers child = handlers m ->
  wildChild child = wildChild m -> fullPath child = fullPath m ->
  getValue_walk m (a ++ r) ps = getValue_walk child r ps.
Proof.
  intros Hp Hi Hc Hh Hw Hf.
  rewrite (getValue_walk_eq m), (getValue_walk_eq child).
  rewrite Hp, Hi, Hc, Hh, Hw, Hf, !length_app.
  rewrite !drop_app_add', !take_app_add' by reflexivity.
  replace (length a + length (path child) <? length a + length r)
    with (length (path child) <? length r)
    by (apply eq_iff_eq_true; rewrite !Nat.ltb_lt; lia).
  unfold eqb_str.
  rewrite (bool_decide_ext (a ++ take (length (path child)) r
                            = a ++ path child)
             (take (length (path child)) r = path child))
    by (split; [apply app_inv_head|congruence]).
  rewrite (bool_decide_ext (a ++ r = a ++ path child) (r = path child))
    by (split; [apply app_inv_head|congruence]).
  reflexivity.
Qed.

Lemma getValue_walk_mismatch (m : node) (q : str) (ps : gmap str str) :
  take (length (path m)) q <> path m -> getValue_walk m q ps = Ok not_found.
Proof.
  intros Hne. rewrite getValue_walk_eq. unfold eqb_str.
  rewrite (bool_decide_eq_false_2 _ Hne).
  destruct (Nat.ltb_spec (length (path m)) (length q)); [reflexivity|].
  rewrite bool_decide_eq_false_2; [reflexivity|].
  intros ->. apply Hne. apply firstn_all.
Qed.

(** An edge split does not change what is found. *)
Lemma getValue_split_edge (m top : node) (i : nat) (p fp : str) (pfi : nat)
    (q : str) (ps : gmap str str) :
  i < length (path m) ->
  i = longestCommonPrefix p (path m) ->
  split_edge m i p fp pfi = Ok top ->
  getValue_walk top q ps = getValue_walk m q ps.
Proof.
  intros Hi Hlcp Hsplit. unfold split_edge in Hsplit.
  destruct (path m !! i) as [b|] eqn:Hb;
    [|apply lookup_ge_None in Hb; lia].
  destruct (length fp <? pfi + i); [discriminate|]. injection Hsplit as <-.
  assert (take i p = take i (path m)) as Htake
    by (subst i; apply longestCommonPrefix_take).
  assert (path m = take i (path m) ++ drop i (path m)) as Hpm
    by (symmetry; apply take_drop).
  assert (head (drop i (path m)) = Some b) as Hhd.
  { rewrite <- (take_drop_middle _ _ _ Hb) at 1.
    rewrite drop_app_length' by (rewrite length_take; lia). reflexivity. }
  set (a := take i (path m)) in *.
  assert (length a = i) as Hla by (unfold a; rewrite length_take; lia).
  set (child := Node (drop i (path m)) _ _ _ _ _ _ _).
  assert (forall r, getValue_walk child r ps = getValue_walk m (a ++ r) ps)
    as Hchild.
  { intros r. symmetry. apply getValue_walk_path_app; auto. }
  rewrite getValue_walk_eq.
  cbn [path indices children handlers wildChild fullPath].
  rewrite Htake, Hla. unfold eqb_str.
  destruct (Nat.ltb_spec i (length q)) as [Hiq|Hiq].
  - case_bool_decide as Hqa.
    + assert (q = a ++ drop i q) as Hq.
      { rewrite <- Hqa at 1. by rewrite take_drop. }
      destruct (drop i q) as [|x rest] eqn:Hdq.
      { apply (f_equal length) in Hdq. rewrite length_drop in Hdq.
        simpl in Hdq. lia. }
      cbn [index_of]. case_bool_decide as Hbx.
      * cbn [lookup list_lookup]. rewrite Hchild, <- Hq. reflexivity.
      * cbn [fmap option_fmap option_map]. symmetry.
        apply getValue_walk_mismatch.
        rewrite Hq, Hpm. intros H.
        rewrite length_app, take_app_add' in H by reflexivity.
        apply app_inv_head in H.
        apply (f_equal head) in H. rewrite Hhd in H.
        destruct (drop i (path m)); [discriminate|].
        simpl in H. congruence.
    + symmetry. apply getValue_walk_mismatch. intros H. apply Hqa.
      apply (f_equal (take i)) in H.
      rewrite take_take in H. rewrite Nat.min_l in H by lia. exact H.
  - assert (getValue_walk m q ps = Ok not_found) as ->.
    { apply getValue_walk_mismatch. rewrite take_ge by lia.
      intros ->. lia. }
    case_bool_decide; reflexivity.
Qed.

(** Binding a chain at a node that has none. *)
Lemma getValue_walk_bind_here (n : node) (hs : list HandlerFunc) (fp q : str)
    (ps : gmap str str) :
  handlers n = None ->
  getValue_walk (set_fullPath fp (set_handlers (Some hs) n)) q ps
  = if bool_decide (q = path n) then Ok (Some hs, Some ps, fp)
    else getValue_walk n q ps.
Proof.
  intros Hnone. rewrite !getValue_walk_eq.
  destruct n as [np ix cs h pr ty w nfp].
  cbn [path indices children handlers wildChild fullPath set_fullPath
       set_handlers] in *. subst h.
  destruct (Nat.ltb_spec (length np) (length q)) as [Hlt|Hge].
  - rewrite bool_decide_eq_false_2; [reflexivity|]. intros ->. lia.
  - unfold eqb_str. case_bool_decide; reflexivity.
Qed.

(** Replacing the child for the byte [x]. *)
Lemma getValue_child_update (n' n : node) (x : ascii) (c' : node) (q : str)
    (ps : gmap str str) :
  static_node n' -> static_node n ->
  path n' = path n -> handlers n' = handlers n -> fullPath n' = fullPath n ->
  cmap n' = <[x := c']> (cmap n) ->
  getValue_walk n' q ps
  = if bool_decide (length (path n) < length q
                    /\ take (length (path n)) q = path n
                    /\ head (drop (length (path n)) q) = Some x)
    then getValue_walk c' (drop (length (path n)) q) ps
    else getValue_walk n q ps.
Proof.
  intros Hn' Hn Hp Hh Hf Hc.
  rewrite (getValue_static n'), (getValue_static n) by assumption.
  rewrite Hp, Hh, Hf, Hc. unfold eqb_str.
  destruct (Nat.ltb_spec (length (path n)) (length q)) as [Hlt|Hge].
  - case_bool_decide as Hpre.
    + destruct (head (drop (length (path n)) q)) as [y|] eqn:Hy; cbn.
      * destruct (decide (y = x)) as [->|Hne].
        -- rewrite lookup_insert_eq.
           rewrite (bool_decide_eq_true_2 (_ /\ _)) by auto. reflexivity.
        -- rewrite lookup_insert_ne by congruence.
           rewrite (bool_decide_eq_false_2 (_ /\ _)); [reflexivity|].
           intros (_ & _ & [= ->]). done.
      * rewrite (bool_decide_eq_false_2 (_ /\ _)); [reflexivity|].
        intros (_ & _ & ?). discriminate.
    + rewrite (bool_decide_eq_false_2 (_ /\ _)); [reflexivity|]. intros (_ & ? & _). done.
  - rewrite (bool_decide_eq_false_2 (_ /\ _)); [reflexivity|]. intros (? & _). lia.
Qed.

Lemma literal_drop (i : nat) (p : str) : literal p -> literal (drop i p).
Proof. apply Forall_drop. Qed.

Lemma static_tree_child (n c : node) :
  static_tree n -> c ∈ children n -> static_tree c.
Proof.
  rewrite static_tree_eq. intros [_ HF] Hc.
  rewrite Forall_forall in HF. auto.
Qed.

Lemma static_tree_set_priority (z : Z) (n : node) :
  static_tree n -> static_tree (set_priority z n).
Proof. rewrite !static_tree_eq. destruct n. auto. Qed.

Lemma getValue_walk_leaf (n : node) (q : str) (ps : gmap str str) :
  indices n = [] -> wildChild n = false ->
  getValue_walk n q ps
  = if bool_decide (q = path n) then
      match handlers n with
      | Some _ => Ok (handlers n, Some ps, fullPath n)
      | None => Ok not_found
      end
    else Ok not_found.
Proof.
  intros Hi Hw. rewrite getValue_walk_eq, Hi, Hw. unfold eqb_str.
  destruct (Nat.ltb_spec (length (path n)) (length q)) as [Hlt|Hge];
    [|reflexivity].
  rewrite (bool_decide_eq_false_2 (q = path n)) by (intros ->; lia).
  case_bool_decide; [|reflexivity].
  destruct (drop (length (path n)) q) eqn:Hd; [|reflexivity].
  apply (f_equal length) in Hd. rewrite length_drop in Hd. simpl in Hd. lia.
Qed.

(** The new static child of the insertion walk. *)
Lemma insert_new_child_static (n : node) (idxc : ascii) (rest fp : str)
    (hs : list HandlerFunc) :
  static_tree n -> literal (idxc :: rest) ->
  index_of idxc (indices n) = None ->
  exists n' leaf,
    insert_new_child n idxc (idxc :: rest) fp (Some hs) = Ok n'
    /\ static_tree n' /\ path n' = path n /\ priority n' = priority n
    /\ handlers n' = handlers n /\ fullPath n' = fullPath n
    /\ cmap n' = <[idxc := leaf]> (cmap n)
    /\ forall q ps,
         getValue_walk leaf q ps
         = if bool_decide (q = idxc :: rest) then Ok (Some hs, Some ps, fp)
           else Ok not_found.
Proof.
  intros Hn Hl Hidx. apply static_tree_eq in Hn as [Hnode Hkids].
  pose proof (static_node_length n Hnode) as Hlen.
  apply index_of_None in Hidx.
  set (child0 := set_fullPath fp zero_node).
  set (leaf := set_fullPath fp (set_handlers (Some hs)
                 (set_path (idxc :: rest) (incr_priority child0)))).
  set (n2 := set_children (children n ++ [child0])
               (set_indices (indices n ++ [idxc]) n)).
  destruct (incrementChildPrio_spec n2 (children n) [] child0
              (indices n) [] idxc) as
    (front & back & ifront & iback & Hpre & Hipre & Hlf & Hinc & _).
  { destruct n; reflexivity. }
  { destruct n; reflexivity. }
  { exact Hlen. }
  assert (length iback = length back) as Hlb.
  { apply (f_equal length) in Hpre, Hipre. rewrite length_app in *. lia. }
  set (n2' := set_children (children n ++ [leaf])
                (set_indices (indices n ++ [idxc]) n)).
  destruct (static_node_append n leaf idxc Hnode Hidx eq_refl)
    as [Hn2' Hc2']. fold n2' in Hn2', Hc2'.
  destruct (static_node_reorder n2' front back [] leaf leaf ifront iback []
              idxc Hn2') as [Hn' Hc'].
  { rewrite <- Hpre. destruct n; reflexivity. }
  { rewrite <- Hipre. destruct n; reflexivity. }
  { exact Hlf. }
  { exact Hlb. }
  { reflexivity. }
  eexists _, leaf. split; [|split; [|split; [|split; [|split; [|split;
    [|split]]]]]].
  - unfold insert_new_child. fold child0. fold n2.
    replace (length (indices n2) - 1) with (length (children n)).
    2:{ destruct n; cbn [n2 set_children set_indices indices].
        rewrite length_app. simpl in *. lia. }
    rewrite Hinc. cbn [mbind result_bind]. rewrite Nat.eqb_refl.
    replace (children (set_indices _ _))
      with (front ++ incr_priority child0 :: back ++ [])
      by (destruct n; reflexivity).
    rewrite list_lookup_middle by reflexivity.
    rewrite insertChild_literal by assumption. cbn [mbind result_bind].
    rewrite insert_app_r_alt, Nat.sub_diag by lia. cbn [insert list_insert].
    reflexivity.
  - apply static_tree_eq. split.
    + destruct n; exact Hn'.
    + match goal with
      | |- Forall _ (children ?t) =>
          replace (children t) with (front ++ leaf :: back ++ [])
            by (destruct n; reflexivity)
      end.
      rewrite Hpre in Hkids. apply Forall_app in Hkids as [Hf Hb].
      apply Forall_app. split; [exact Hf|]. constructor.
      * apply static_tree_eq. split; [|constructor].
        split; [reflexivity|]. split; constructor.
      * rewrite app_nil_r. exact Hb.
  - destruct n; reflexivity.
  - destruct n; reflexivity.
  - destruct n; reflexivity.
  - destruct n; reflexivity.
  - etransitivity; [|etransitivity; [exact Hc'|]].
    + destruct n; reflexivity.
    + rewrite Hc2', insert_insert_eq. reflexivity.
  - intros q ps. rewrite getValue_walk_leaf by reflexivity. reflexivity.
Qed.

Lemma longestCommonPrefix_pos (a b : str) (x : ascii) :
  head a = Some x -> head b = Some x -> 0 < longestCommonPrefix a b.
Proof.
  destruct a, b; try discriminate. simpl. intros [= ->] [= ->].
  rewrite bool_decide_eq_true_2 by reflexivity. lia.
Qed.

Lemma longestCommonPrefix_lookup (a b : str) :
  longestCommonPrefix a b = length b -> take (length b) a = b.
Proof.
  intros H. pose proof (longestCommonPrefix_take a b) as Ht.
  rewrite H, firstn_all in Ht. exact Ht.
Qed.

(** The insertion walk in a tree of literal routes, for a literal
    pattern: where the pattern is not found yet, the walk returns a tree
    in which it is found, with the new chain, and every other lookup is
    as before; where it is found, the walk panics. *)
Lemma addRoute_walk_static (fuel : nat) :
  forall (n : node) (p fp : str) (pfi : nat) (hs : list HandlerFunc),
    static_tree n -> literal p -> height n <= fuel ->
    pfi + length p <= length fp ->
    (getValue_walk n p ∅ = Ok not_found ->
     exists n',
       addRoute_walk fuel n p fp pfi (Some hs) = Ok n'
       /\ static_tree n'
       /\ path n' = take (longestCommonPrefix p (path n)) (path n)
       /\ priority n' = priority n
       /\ forall q ps,
            getValue_walk n' q ps
            = if bool_decide (q = p) then Ok (Some hs, Some ps, fp)
              else getValue_walk n q ps)
    /\ (getValue_walk n p ∅ <> Ok not_found ->
        addRoute_walk fuel n p fp pfi (Some hs)
        = Panic (already_registered fp)).
Proof.
  induction fuel as [|fuel IH]; intros n p fp pfi hs Hn Hl Hh Hfp.
  { destruct n; simpl in Hh; lia. }
  pose proof Hn as Hn0. apply static_tree_eq in Hn0 as [Hnode Hkids].
  cbn [addRoute_walk].
  pose proof (longestCommonPrefix_le_l p (path n)) as Hip.
  pose proof (longestCommonPrefix_le_r p (path n)) as Hin.
  set (i := longestCommonPrefix p (path n)) in *.
  destruct (Nat.ltb_spec i (length (path n))) as [Hsplit|Hfull].
  - (* split edge *)
    destruct (path n !! i) as [b|] eqn:Hb;
      [|apply lookup_ge_None in Hb; lia].
    assert (getValue_walk n p ∅ = Ok not_found) as Hnf.
    { apply getValue_walk_mismatch. intros H.
      assert (length (path n) <= length p).
      { apply (f_equal length) in H. rewrite length_take in H. lia. }
      assert (is_Some (p !! i)) as [x Hx] by (apply lookup_lt_is_Some_2; lia).
      pose proof (longestCommonPrefix_next p (path n) x b Hx Hb) as Hne.
      apply Hne. rewrite <- H in Hb.
      rewrite lookup_take_lt in Hb by lia. congruence. }
    split; [intros _|intros H; contradiction].
    destruct (split_edge n i p fp pfi) as [top| |] eqn:Htop.
    2,3: unfold split_edge in Htop; rewrite Hb in Htop;
      destruct (Nat.ltb_spec (length fp) (pfi + i)); [lia|discriminate].
    assert (forall q ps, getValue_walk top q ps = getValue_walk n q ps) as Hsame.
    { intros q ps. eapply getValue_split_edge; eauto. }
    unfold split_edge in Htop. rewrite Hb in Htop.
    destruct (length fp <? pfi + i); [discriminate|]. injection Htop as Htop.
    assert (head (drop i (path n)) = Some b) as Hhd.
    { rewrite <- (take_drop_middle _ _ _ Hb) at 1.
      rewrite drop_app_length' by (rewrite length_take; lia). reflexivity. }
    assert (static_tree top) as Htopt.
    { subst top. apply static_tree_eq. split.
      - split; [reflexivity|]. split; [apply NoDup_singleton|].
        constructor; [exact Hhd|constructor].
      - constructor; [|constructor]. apply static_tree_eq. split.
        + destruct Hnode as (Hw & Hnd & Hf). split; [exact Hw|]. split;
            assumption.
        + exact Hkids. }
    assert (path top = take i p) as Hptop by (subst top; reflexivity).
    assert (priority top = priority n) as Hprtop by (subst top; reflexivity).
    assert (handlers top = None) as Hhtop by (subst top; reflexivity).
    assert (wildChild top = false) as Hwtop by (subst top; reflexivity).
    assert (indices top = [b]) as Hitop by (subst top; reflexivity).
    assert (take i p = take i (path n)) as Htake
      by apply longestCommonPrefix_take.
    cbn [mbind result_bind].
    destruct (Nat.ltb_spec i (length p)) as [Hmore|Hdone].
    + (* a new child below the split node *)
      rewrite Hwtop.
      destruct (drop i p) as [|idxc rest] eqn:Hd.
      { apply (f_equal length) in Hd. rewrite length_drop in Hd.
        simpl in Hd. lia. }
      assert (p !! i = Some idxc) as Hpi.
      { rewrite <- (take_drop i p), Hd.
        rewrite lookup_app_r by (rewrite length_take; lia).
        rewrite length_take. replace (i - (i `min` length p)) with 0 by lia.
        reflexivity. }
      pose proof (longestCommonPrefix_next p (path n) idxc b Hpi Hb) as Hne.
      rewrite Hitop. cbn [index_of].
      rewrite bool_decide_eq_false_2 by congruence.
      cbn [fmap option_fmap option_map].
      assert (literal (idxc :: rest)) as Hlr
        by (rewrite <- Hd; apply literal_drop, Hl).
      assert (is_sigil idxc = false) as -> by (inversion Hlr; assumption).
      cbn [negb].
      destruct (insert_new_child_static top idxc rest fp hs Htopt Hlr)
        as (n' & leaf & Hadd & Hn' & Hp' & Hpr' & Hh' & Hf' & Hc' & Hleaf).
      { rewrite Hitop. cbn [index_of].
        rewrite bool_decide_eq_false_2 by congruence. reflexivity. }
      exists n'. split; [exact Hadd|]. split; [exact Hn'|].
      split; [congruence|]. split; [congruence|].
      intros q ps.
      apply static_tree_eq in Hn' as [Hn' _].
      apply static_tree_eq in Htopt as [Htopn _].
      rewrite (getValue_child_update n' top idxc leaf) by assumption.
      rewrite Hleaf, Hptop, <- Hsame.
      assert (length (take i p) = i) as Hlt by (rewrite length_take; lia).
      rewrite Hlt.
      case_bool_decide as Hq.
      * destruct Hq as (Hq1 & Hq2 & Hq3).
        assert (q = take i p ++ drop i q) as Hqeq.
        { rewrite <- Hq2 at 1. by rewrite take_drop. }
        case_bool_decide as Hq4.
        -- rewrite bool_decide_eq_true_2; [reflexivity|].
           rewrite Hqeq, Hq4, <- Hd. apply take_drop.
        -- rewrite bool_decide_eq_false_2.
           ++ symmetry.
              rewrite (getValue_static top) by assumption.
              rewrite Hptop, Hlt.
              destruct (length q); [lia|].
              assert ((i <? S n0) = true) as -> by (apply Nat.ltb_lt; lia).
              unfold eqb_str. rewrite bool_decide_eq_true_2 by assumption.
              rewrite Hq3. cbn [mbind option_bind].
              unfold cmap. rewrite Hitop. subst top.
              cbn [children zip zip_with list_to_map foldr fst snd].
              rewrite lookup_insert_ne by congruence. reflexivity.
           ++ intros ->. apply Hq4. exact Hd.
      * rewrite bool_decide_eq_false_2; [reflexivity|].
        intros ->. apply Hq. split; [lia|]. split; [reflexivity|].
        rewrite Hd. reflexivity.
    + (* the pattern ends at the split node *)
      rewrite Hhtop. rewrite bool_decide_eq_false_2 by (intros H; apply H;
        reflexivity).
      eexists. split; [reflexivity|]. split; [|split; [|split]].
      * apply static_tree_eq. apply static_tree_eq in Htopt as [? ?].
        destruct top; split; assumption.
      * destruct top; cbn in *. congruence.
      * destruct top; cbn in *. congruence.
      * intros q ps. rewrite getValue_walk_bind_here by assumption.
        rewrite Hptop, Hsame.
        assert (take i p = p) as -> by (apply take_ge; lia). reflexivity.
  - (* the fragment of the node is a prefix of the pattern *)
    assert (i = length (path n)) as Hi by lia.
    assert (take (length (path n)) p = path n) as Hpre.
    { apply longestCommonPrefix_lookup. exact Hi. }
    cbn [mbind result_bind].
    assert (take i (path n) = path n) as Htk by (apply take_ge; lia).
    destruct (Nat.ltb_spec i (length p)) as [Hmore|Hdone].
    + destruct Hnode as (Hw & Hnd & HF2). rewrite Hw.
      pose proof (conj Hw (conj Hnd HF2) : static_node n) as Hnode.
      destruct (drop i p) as [|idxc rest] eqn:Hd.
      { apply (f_equal length) in Hd. rewrite length_drop in Hd.
        simpl in Hd. lia. }
      assert (literal (idxc :: rest)) as Hlr
        by (rewrite <- Hd; apply literal_drop, Hl).
      assert (forall ps, getValue_walk n p ps
                = match cmap n !! idxc with
                  | Some ch => getValue_walk ch (idxc :: rest) ps
                  | None => Ok not_found
                  end) as Hgp.
      { intros ps. rewrite getValue_static by assumption.
        rewrite <- Hi, Hd. cbn [head mbind option_bind].
        assert ((i <? length p) = true) as -> by (apply Nat.ltb_lt; lia).
        unfold eqb_str. rewrite Hi, bool_decide_eq_true_2 by assumption.
        reflexivity. }
      destruct (index_of idxc (indices n)) as [k|] eqn:Hk.
      * (* descend into the child for the next byte *)
        pose proof (cmap_lookup n idxc Hnode) as Hcm. rewrite Hk in Hcm.
        cbn [mbind option_bind] in Hcm.
        apply index_of_Some in Hk as [Hk _].
        destruct (children n !! k) as [c|] eqn:Hc.
        2:{ apply lookup_ge_None in Hc. apply lookup_lt_Some in Hk.
            rewrite (static_node_length n Hnode) in Hk. lia. }
        pose proof (take_drop_middle _ _ _ Hc) as Hcs.
        pose proof (take_drop_middle _ _ _ Hk) as Hix.
        assert (length (take k (children n)) = k) as Hlk.
        { rewrite length_take. apply lookup_lt_Some in Hc. lia. }
        assert (length (take k (indices n)) = k) as Hlki.
        { rewrite length_take. apply lookup_lt_Some in Hk. lia. }
        destruct (incrementChildPrio_spec n (take k (children n))
                    (drop (S k) (children n)) c (take k (indices n))
                    (drop (S k) (indices n)) idxc)
          as (front & back & ifront & iback & Hpre' & Hipre & Hlf & Hinc & _);
          [symmetry; exact Hcs|symmetry; exact Hix|lia|].
        rewrite Hlk in Hinc. rewrite Hinc. cbn [mbind result_bind].
        replace (children (set_indices _ _))
          with (front ++ incr_priority c :: back ++ drop (S k) (children n))
          by (destruct n; reflexivity).
        rewrite list_lookup_middle by reflexivity.
        assert (c ∈ children n) as Hcin by (eapply list_elem_of_lookup_2, Hc).
        assert (static_tree (incr_priority c)) as Hct.
        { apply static_tree_set_priority. eapply static_tree_child; eauto. }
        assert (height (incr_priority c) <= fuel) as Hch.
        { unfold incr_priority. rewrite height_set_priority.
          pose proof (height_child n c Hcin). lia. }
        assert (pfi + length (path n) + length (idxc :: rest) <= length fp)
          as Hfp'.
        { rewrite <- Hd, length_drop. lia. }
        assert (head (path c) = Some idxc) as Hhc.
        { eapply Forall2_lookup_lr in HF2; eauto. }
        destruct (IH (incr_priority c) (idxc :: rest) fp
                    (pfi + length (path n)) hs Hct Hlr Hch Hfp')
          as [IHok IHdup].
        unfold incr_priority in IHok, IHdup.
        rewrite getValue_walk_set_priority in IHok, IHdup.
        rewrite Hgp, Hcm. split.
        -- intros Hnf. destruct (IHok Hnf)
             as (c' & Hwalk & Hc't & Hpc' & Hprc' & Hgc').
           unfold incr_priority. rewrite Hwalk. cbn [mbind result_bind].
           rewrite insert_app_r_alt, Nat.sub_diag by lia.
           cbn [insert list_insert].
           assert (head (path c') = Some idxc) as Hhc'.
           { rewrite Hpc'. destruct c as [cp ? ? ? ? ? ? ?].
             cbn [path set_priority] in *.
             pose proof (longestCommonPrefix_pos (idxc :: rest) cp idxc
                           eq_refl Hhc) as Hpos.
             destruct cp as [|y cp]; [discriminate|].
             destruct (longestCommonPrefix (idxc :: rest) (y :: cp)) eqn:E;
               [lia|]. exact Hhc. }
           assert (length iback = length back) as Hlb.
           { apply (f_equal length) in Hpre', Hipre.
             rewrite length_app in *. lia. }
           destruct (static_node_reorder n front back
                       (drop (S k) (children n)) c c' ifront iback
                       (drop (S k) (indices n)) idxc Hnode)
             as [Hn' Hcm']; [rewrite <- Hpre'; auto|rewrite <- Hipre; auto
                            |exact Hlf|exact Hlb|exact Hhc'|].
           eexists. split; [reflexivity|]. split; [|split; [|split]].
           ++ apply static_tree_eq. split; [destruct n; exact Hn'|].
              match goal with
              | |- Forall _ (children ?t) =>
                  replace (children t)
                    with (front ++ c' :: back ++ drop (S k) (children n))
                    by (destruct n; reflexivity)
              end.
              rewrite <- Hcs, Hpre' in Hkids.
              apply Forall_app in Hkids as [Hfb Hrest].
              apply Forall_app in Hfb as [Hf Hb'].
              apply Forall_cons in Hrest as [_ Hrest].
              apply Forall_app. split; [exact Hf|]. constructor;
                [exact Hc't|]. apply Forall_app. split; assumption.
           ++ rewrite Htk. destruct n; reflexivity.
           ++ destruct n; reflexivity.
           ++ intros q ps.
              rewrite (getValue_child_update _ n idxc c')
                by (try assumption; destruct n; auto).
              rewrite Hgc', getValue_walk_set_priority.
              case_bool_decide as Hq.
              ** destruct Hq as (Hq1 & Hq2 & Hq3).
                 assert (q = path n ++ drop (length (path n)) q) as Hqeq.
                 { rewrite <- Hq2 at 1. by rewrite take_drop. }
                 assert (p = path n ++ idxc :: rest) as Hpeq.
                 { rewrite <- Hd, <- Hpre at 1. rewrite Hi.
                   symmetry. apply take_drop. }
                 rewrite (bool_decide_ext (q = p)
                            (drop (length (path n)) q = idxc :: rest)).
                 2:{ split.
                     - intros ->. rewrite <- Hi. exact Hd.
                     - intros H. rewrite Hqeq, H. symmetry. exact Hpeq. }
                 case_bool_decide; [reflexivity|].
                 rewrite (getValue_static n) by assumption.
                 destruct (length q); [lia|].
                 assert ((length (path n) <? S n0) = true) as ->
                   by (apply Nat.ltb_lt; lia).
                 unfold eqb_str. rewrite bool_decide_eq_true_2 by assumption.
                 rewrite Hq3. cbn [mbind option_bind]. rewrite Hcm.
                 reflexivity.
              ** rewrite bool_decide_eq_false_2; [reflexivity|].
                 intros ->. apply Hq. split; [lia|]. split; [assumption|].
                 rewrite <- Hi, Hd. reflexivity.
        -- intros Hdup. unfold incr_priority. rewrite (IHdup Hdup).
           reflexivity.
      * (* no child for the next byte: insert one *)
        assert (is_sigil idxc = false) as -> by (inversion Hlr; assumption).
        cbn [negb].
        pose proof (cmap_lookup n idxc Hnode) as Hcm. rewrite Hk in Hcm.
        cbn [mbind option_bind] in Hcm.
        rewrite Hgp, Hcm.
        split; [intros _|intros H; contradiction].
        destruct (insert_new_child_static n idxc rest fp hs Hn Hlr Hk)
          as (n' & leaf & Hadd & Hn' & Hp' & Hpr' & Hh' & Hf' & Hc' & Hleaf).
        exists n'. split; [exact Hadd|]. split; [exact Hn'|].
        split; [congruence|]. split; [congruence|].
        intros q ps. apply static_tree_eq in Hn' as [Hn' _].
        rewrite (getValue_child_update n' n idxc leaf) by assumption.
        rewrite Hleaf.
        assert (p = path n ++ idxc :: rest) as Hpeq.
        { rewrite <- Hd, <- Hpre at 1. rewrite Hi. symmetry. apply take_drop. }
        case_bool_decide as Hq.
        -- destruct Hq as (Hq1 & Hq2 & Hq3).
           assert (q = path n ++ drop (length (path n)) q) as Hqeq.
           { rewrite <- Hq2 at 1. by rewrite take_drop. }
           rewrite (bool_decide_ext (q = p)
                      (drop (length (path n)) q = idxc :: rest)).
           2:{ split.
               - intros ->. rewrite <- Hi. exact Hd.
               - intros H. rewrite Hqeq, H. symmetry. exact Hpeq. }
           case_bool_decide; [reflexivity|].
           rewrite (getValue_static n) by assumption.
           destruct (length q); [lia|].
           assert ((length (path n) <? S n0) = true) as ->
             by (apply Nat.ltb_lt; lia).
           unfold eqb_str. rewrite bool_decide_eq_true_2 by assumption.
           rewrite Hq3. cbn [mbind option_bind]. rewrite Hcm. reflexivity.
        -- rewrite bool_decide_eq_false_2; [reflexivity|].
           intros ->. apply Hq. split; [lia|]. split; [assumption|].
           rewrite <- Hi, Hd. reflexivity.
    + (* the pattern is the fragment of the node *)
      assert (p = path n) as Hp.
      { rewrite <- Hpre. symmetry. apply take_ge. lia. }
      assert (forall ps, getValue_walk n p ps
                = match handlers n with
                  | Some _ => Ok (handlers n, Some ps, fullPath n)
                  | None => Ok not_found
                  end) as Hgp.
      { intros ps. rewrite getValue_walk_eq, <- Hp.
        rewrite Nat.ltb_irrefl. unfold eqb_str.
        rewrite bool_decide_eq_true_2 by reflexivity. reflexivity. }
      rewrite Hgp. destruct (handlers n) as [h|] eqn:Hh'.
      * split; [discriminate|]. intros _.
        rewrite bool_decide_eq_true_2 by discriminate. reflexivity.
      * split; [intros _|intros H; contradiction].
        rewrite bool_decide_eq_false_2 by (intros H; apply H; reflexivity).
        eexists. split; [reflexivity|]. split; [|split; [|split]].
        -- apply static_tree_eq. destruct n; split; assumption.
        -- rewrite Htk. destruct n; reflexivity.
        -- destruct n; reflexivity.
        -- intros q ps. rewrite getValue_walk_bind_here by assumption.
           rewrite <- Hp. reflexivity.
Qed.

End tree_static.

(** ** Registration and lookup of literal routes *)

Section literal_routes.
Import tree props.

Lemma models_empty : models ∅ zero_node.
Proof.
  split; [|split; [|split]].
  - split; [|exact I]. split; [reflexivity|]. split; constructor.
  - reflexivity.
  - intros H. contradiction.
  - intros q ps. rewrite getValue_walk_leaf by reflexivity.
    rewrite lookup_empty. cbn [path handlers zero_node].
    case_bool_decide; reflexivity.
Qed.

(** [addRoute] on a tree of literal routes. *)
Lemma addRoute_models (M : gmap str (list HandlerFunc)) (root : node)
    (p : str) (hs : list HandlerFunc) :
  models M root -> literal p -> starts_with_slash p ->
  (M !! p = None ->
   exists root', addRoute root p (Some hs) = Ok root'
                 /\ models (<[p := hs]> M) root')
  /\ (M !! p <> None ->
      addRoute root p (Some hs) = Panic (already_registered p)).
Proof.
  intros (Ht & Hzero & Hslash & Hget) Hl Hp.
  destruct (decide (M = ∅)) as [->|Hne].
  - (* the first route *)
    rewrite (Hzero eq_refl). split; [intros _|rewrite lookup_empty; done].
    unfold addRoute. cbn [incr_priority zero_node set_priority path children
      length Nat.eqb andb].
    rewrite insertChild_literal by assumption. cbn [mbind result_bind].
    eexists. split; [reflexivity|].
    split; [|split; [|split]].
    + split; [|exact I]. split; [reflexivity|]. split; constructor.
    + intros H. apply (f_equal (fun m => m !! p)) in H.
      rewrite lookup_insert_eq, lookup_empty in H. discriminate.
    + intros _. exact Hp.
    + intros q ps. rewrite getValue_walk_leaf by reflexivity.
      cbn [path handlers fullPath set_nType set_fullPath set_handlers
           set_path].
      case_bool_decide as Hq.
      * subst q. rewrite lookup_insert_eq. reflexivity.
      * rewrite lookup_insert_ne by congruence. rewrite lookup_empty.
        reflexivity.
  - (* a tree that holds routes already *)
    specialize (Hslash Hne).
    unfold addRoute.
    assert ((length (path (incr_priority root)) =? 0) = false) as ->.
    { destruct root as [[|c rp] ? ? ? ? ? ? ?]; [discriminate|reflexivity]. }
    cbn [andb].
    assert (static_tree (incr_priority root)) as Ht'
      by apply static_tree_set_priority, Ht.
    destruct (addRoute_walk_static (S (height (incr_priority root)))
                (incr_priority root) p p 0 hs Ht' Hl) as [Hok Hdup];
      [lia|lia|].
    unfold incr_priority in Hok, Hdup.
    rewrite getValue_walk_set_priority, Hget in Hok, Hdup.
    split.
    + intros Hnone. rewrite Hnone in Hok.
      destruct (Hok eq_refl) as (root' & Hwalk & Ht'' & Hpath & _ & Hget').
      exists root'. split; [exact Hwalk|].
      split; [exact Ht''|]. split; [|split].
      * intros H. apply (f_equal (fun m => m !! p)) in H.
        rewrite lookup_insert_eq, lookup_empty in H. discriminate.
      * intros _. rewrite Hpath. destruct root as [rp ? ? ? ? ? ? ?].
        cbn [path set_priority] in *.
        pose proof (longestCommonPrefix_pos p rp slash Hp Hslash) as Hpos.
        destruct rp as [|y rp]; [discriminate|].
        destruct (longestCommonPrefix p (y :: rp)); [lia|]. exact Hslash.
      * intros q ps. rewrite Hget', getValue_walk_set_priority, Hget.
        case_bool_decide as Hq.
        -- subst q. rewrite lookup_insert_eq. reflexivity.
        -- rewrite lookup_insert_ne by congruence. reflexivity.
    + intros Hsome. apply Hdup.
      destruct (M !! p); [discriminate|contradiction].
Qed.

Lemma register_stops (method : string) (routes : list (str * list HandlerFunc))
    (r : result drift.Engine) :
  ~ is_ok r -> foldl (drift.register_step method) r routes = r.
Proof.
  revert r. induction routes as [|route routes IH]; intros r Hr;
    [reflexivity|].
  cbn [foldl]. destruct r as [e| |]; [exfalso; apply Hr; exact I| |];
    apply IH; intros [].
Qed.

(** [Engine.addRoute] on the tree of [method]. *)
Lemma engine_addRoute_models (method : string)
    (M : gmap str (list HandlerFunc)) (e : drift.Engine) (p : str)
    (hs : list HandlerFunc) :
  models M (root_of method e) -> literal p ->
  (starts_with_slash p -> M !! p = None ->
   exists e', drift.addRoute e method p hs = Ok e'
              /\ models (<[p := hs]> M) (root_of method e')
              /\ is_Some (drift.trees e' !! method))
  /\ (forall e', drift.addRoute e method p hs = Ok e' ->
                 starts_with_slash p /\ M !! p = None).
Proof.
  intros HM Hl. split.
  - intros Hp Hnone. destruct p as [|c p]; [discriminate|].
    injection Hp as ->.
    destruct (addRoute_models M _ (slash :: p) hs HM Hl eq_refl) as [Hok _].
    destruct (Hok Hnone) as (root' & Hadd & HM').
    unfold drift.addRoute.
    rewrite bool_decide_eq_false_2 by (intros H; apply H; reflexivity).
    fold (root_of method e). rewrite Hadd. cbn [mbind result_bind].
    eexists. split; [reflexivity|].
    unfold root_of. cbn [drift.trees drift.set_trees].
    rewrite lookup_insert_eq. split; [exact HM'|eauto].
  - intros e' Hadd. unfold drift.addRoute in Hadd.
    destruct p as [|c p]; [discriminate|].
    case_bool_decide as Hc; [discriminate|].
    assert (c = slash) as -> by (destruct (decide (c = slash)); done).
    split; [reflexivity|].
    destruct (M !! (slash :: p)) eqn:Hlook; [|reflexivity].
    destruct (addRoute_models M _ (slash :: p) hs HM Hl eq_refl) as [_ Hdup].
    fold (root_of method e) in Hadd.
    rewrite Hdup in Hadd by (rewrite Hlook; discriminate). discriminate.
Qed.

Lemma register_models (method : string)
    (routes : list (str * list HandlerFunc)) :
  forall (e : drift.Engine) (M : gmap str (list HandlerFunc)),
    models M (root_of method e) ->
    (M <> ∅ -> is_Some (drift.trees e !! method)) ->
    Forall (fun r => literal r.1) routes ->
    (Forall (fun r => starts_with_slash r.1) routes -> NoDup routes.*1 ->
     (forall r, r ∈ routes -> M !! r.1 = None) ->
     is_ok (foldl (drift.register_step method) (Ok e) routes))
    /\ (forall e',
          foldl (drift.register_step method) (Ok e) routes = Ok e' ->
          exists M',
            models M' (root_of method e')
            /\ (M' <> ∅ -> is_Some (drift.trees e' !! method))
            /\ M ⊆ M'
            /\ forall p hs, (p, hs) ∈ routes -> M' !! p = Some hs).
Proof.
  induction routes as [|[p hs] routes IH]; intros e M HM Htree Hlit.
  - split; [intros; exact I|]. intros e' [= <-]. exists M.
    split; [exact HM|]. split; [exact Htree|]. split; [reflexivity|].
    intros p hs Hin. inversion Hin.
  - apply Forall_cons in Hlit as [Hl Hlit]. cbn [fst] in Hl.
    destruct (engine_addRoute_models method M e p hs HM Hl) as [Hadd Hinv].
    cbn [foldl drift.register_step mbind result_bind fst snd]. split.
    + intros Hs Hnd Hfresh. apply Forall_cons in Hs as [Hp Hs].
      cbn [fmap list_fmap fst] in Hnd. apply NoDup_cons in Hnd as [Hnp Hnd].
      destruct (Hadd Hp) as (e1 & -> & HM1 & Hsome).
      { apply (Hfresh (p, hs)). left. }
      apply (IH e1 (<[p := hs]> M) HM1); [auto|exact Hlit|exact Hs|exact Hnd|].
      intros r Hr. rewrite lookup_insert_ne.
      * apply Hfresh. right. exact Hr.
      * intros ->. apply Hnp. apply list_elem_of_fmap. eauto.
    + intros e' Hfold.
      destruct (drift.addRoute e method p hs) as [e1| |] eqn:He1.
      2,3: rewrite register_stops in Hfold by (intros []); discriminate.
      destruct (Hinv e1 eq_refl) as [Hp Hnone].
      destruct (Hadd Hp Hnone) as (e1' & [= <-] & HM1 & Hsome).
      destruct (IH e1 (<[p := hs]> M) HM1 ltac:(auto) Hlit) as [_ Hrest].
      destruct (Hrest e' Hfold) as (M' & HM' & Htree' & Hsub & Hall).
      exists M'. split; [exact HM'|]. split; [exact Htree'|]. split.
      * etransitivity; [|exact Hsub]. apply insert_subseteq, Hnone.
      * intros q hq [[= -> ->]|Hin]%elem_of_cons; [|auto].
        eapply lookup_weaken; [|exact Hsub]. apply lookup_insert_eq.
Qed.

(** C1: for every list of literal patterns registered for a method, one
    after the other, the lookup of each registered path returns the chain
    registered for it, an empty parameter map and the pattern.  The
    registration succeeds when the patterns start with a separator and
    are pairwise distinct. *)
Theorem literal_routes_are_found (method : string)
    (routes : list (str * list HandlerFunc)) :
  Forall (fun r => literal r.1) routes ->
  (Forall (fun r => starts_with_slash r.1) routes -> NoDup routes.*1 ->
   is_ok (drift.register method routes drift.New))
  /\ forall e,
       drift.register method routes drift.New = Ok e ->
       forall p hs,
         (p, hs) ∈ routes ->
         exists root,
           drift.trees e !! method = Some root
           /\ getValue root p = Ok (Some hs, Some ∅, p).
Proof.
  intros Hlit.
  destruct (register_models method routes drift.New ∅) as [Hok Hfound];
    [exact models_empty|done|exact Hlit|].
  split.
  - intros Hs Hnd. apply Hok; [exact Hs|exact Hnd|].
    intros r _. apply lookup_empty.
  - intros e He p hs Hin.
    destruct (Hfound e He) as (M' & (_ & _ & _ & Hget) & Htree & _ & Hall).
    specialize (Hall p hs Hin).
    destruct Htree as [root Hroot].
    { intros ->. rewrite lookup_empty in Hall. discriminate. }
    exists root. split; [exact Hroot|].
    unfold root_of in Hget. rewrite Hroot in Hget. cbn [default] in Hget.
    unfold getValue. rewrite Hget, Hall. reflexivity.
Qed.

Lemma literal_routes_are_found_witness :
  is_ok (drift.register "GET"
           [(bytes "/api/users", [hA]); (bytes "/api/usage", [hB])]
           drift.New)
  /\ forall e,
       drift.register "GET"
         [(bytes "/api/users", [hA]); (bytes "/api/usage", [hB])] drift.New
       = Ok e ->
       forall p hs,
         (p, hs) ∈ [(bytes "/api/users", [hA]); (bytes "/api/usage", [hB])] ->
         exists root,
           drift.trees e !! "GET"%string = Some root
           /\ getValue root p = Ok (Some hs, Some ∅, p).
Proof.
  destruct (literal_routes_are_found "GET"
              [(bytes "/api/users", [hA]); (bytes "/api/usage", [hB])])
    as [Hok Hfound].
  - repeat constructor.
  - split; [|exact Hfound]. apply Hok.
    + repeat constructor.
    + apply (bool_decide_unpack _). vm_compute. exact I.
Defined.

End literal_routes.

(** ** Priorities *)

Section tree_priority.
Import tree props.

Lemma u32_small (z : Z) : (0 <= z < 2 ^ 32)%Z -> u32 z = z.
Proof. intros. unfold u32. apply Z.mod_small. assumption. Qed.

Lemma ordered_eq (N : Z) (n : node) :
  ordered N n <-> prio_bounded N n /\ Forall (ordered N) (children n).
Proof. apply tree_all_eq. Qed.

Lemma ordered_mono (N N' : Z) (n : node) :
  (N <= N')%Z -> ordered N n -> ordered N' n.
Proof.
  intros HN. apply tree_all_impl. intros m [Hp Hs]. split; [lia|exact Hs].
Qed.

Lemma non_increasing_singleton (z : Z) : non_increasing [z].
Proof. repeat constructor. Qed.

(** A sibling whose priority went up by one, moved in front of the
    siblings it has overtaken. *)
Lemma non_increasing_move (front back post : list Z) (p : Z) :
  non_increasing ((front ++ back) ++ p :: post) ->
  Forall (fun x => (x < p + 1)%Z) back ->
  (front = [] \/ exists f a, front = f ++ [a] /\ (p + 1 <= a)%Z) ->
  non_increasing (front ++ (p + 1)%Z :: back ++ post).
Proof.
  unfold non_increasing. intros Hs Hback Hfront.
  apply StronglySorted_app in Hs as (Hcross & Hfb & Hpp).
  apply StronglySorted_app in Hfb as (Hfbx & Hf & Hb).
  apply StronglySorted_cons in Hpp as (Hpost & Hp).
  rewrite Forall_forall in Hpost, Hback.
  assert (forall x, x ∈ front -> (p + 1 <= x)%Z) as Hfge.
  { intros x Hx. destruct Hfront as [->|(f & a & -> & Ha)]; [inversion Hx|].
    apply StronglySorted_app in Hf as (Hfa & _ & _).
    apply elem_of_app in Hx as [Hx|Hx].
    - specialize (Hfa x a Hx ltac:(left)). simpl in Hfa. lia.
    - apply list_elem_of_singleton in Hx. subst. lia. }
  assert (forall x, x ∈ back -> (x <= p)%Z) as Hble.
  { intros x Hx. specialize (Hback x Hx). lia. }
  apply StronglySorted_app. split; [|split; [exact Hf|]].
  - intros x1 x2 Hx1 Hx2. specialize (Hfge x1 Hx1).
    apply elem_of_cons in Hx2 as [->|Hx2]; [lia|].
    apply elem_of_app in Hx2 as [Hx2|Hx2].
    + specialize (Hble x2 Hx2). lia.
    + specialize (Hpost x2 Hx2). simpl in Hpost. lia.
  - apply StronglySorted_cons. split.
    + apply Forall_forall. intros x [Hx|Hx]%elem_of_app.
      * specialize (Hble x Hx). lia.
      * specialize (Hpost x Hx). simpl in Hpost. lia.
    + apply StronglySorted_app. split; [|split; assumption].
      intros x1 x2 Hx1 Hx2. apply (Hcross x1 x2).
      * apply elem_of_app. right. exact Hx1.
      * right. exact Hx2.
Qed.

(** What [incrementChildPrio] returns, when it returns. *)
Lemma incrementChildPrio_inv (n n' : node) (pos k' : nat) :
  incrementChildPrio n pos = Ok (n', k') ->
  exists front back post c,
    children n = (front ++ back) ++ c :: post
    /\ pos = length (front ++ back) /\ k' = length front
    /\ children n' = front ++ incr_priority c :: back ++ post
    /\ priority n' = priority n /\ path n' = path n
    /\ handlers n' = handlers n /\ nType n' = nType n
    /\ wildChild n' = wildChild n /\ fullPath n' = fullPath n
    /\ Forall (fun d => (priority d < priority (incr_priority c))%Z) back
    /\ (front = []
        \/ exists f a, front = f ++ [a]
                       /\ (priority (incr_priority c) <= priority a)%Z).
Proof.
  intros H.
  assert (exists c, children n !! pos = Some c) as [c Hc].
  { unfold incrementChildPrio in H.
    destruct (children n !! pos); [eauto|discriminate]. }
  pose proof (take_drop_middle _ _ _ Hc) as Hcs.
  assert (length (take pos (children n)) = pos) as Hlen.
  { rewrite length_take. apply lookup_lt_Some in Hc. lia. }
  revert Hcs Hlen.
  generalize (take pos (children n)) (drop (S pos) (children n)).
  intros pre post Hcs <-. clear Hc. symmetry in Hcs.
  unfold incrementChildPrio in H.
  rewrite Hcs, list_lookup_middle in H by reflexivity.
  rewrite insert_app_r_alt in H by lia.
  rewrite Nat.sub_diag in H. cbn [insert list_insert] in H.
  destruct (bubble_spec pre post (incr_priority c)
              (priority (incr_priority c)))
    as (front & back & Hpre & Hb & Hback & Hfront).
  rewrite Hb in H.
  exists front, back, post, c.
  rewrite <- Hpre. split; [exact Hcs|]. split; [reflexivity|].
  case_bool_decide.
  - injection H as <- <-. destruct n; repeat split; auto.
  - destruct (_ <? _); [discriminate|]. injection H as <- <-.
    destruct n; repeat split; auto.
Qed.

Lemma sorted_children_increment (front back post : list node) (c : node) :
  (0 <= priority c)%Z -> (priority c + 1 < 2 ^ 32)%Z ->
  non_increasing (priority <$> (front ++ back) ++ c :: post) ->
  Forall (fun d => (priority d < priority (incr_priority c))%Z) back ->
  (front = []
   \/ exists f a, front = f ++ [a]
                  /\ (priority (incr_priority c) <= priority a)%Z) ->
  non_increasing (priority <$> front ++ incr_priority c :: back ++ post).
Proof.
  intros H0 H32 Hs Hback Hfront.
  assert (priority (incr_priority c) = (priority c + 1)%Z) as Hp.
  { destruct c. cbn. apply u32_small. cbn in *. lia. }
  rewrite Hp in *.
  rewrite !fmap_app, fmap_cons in *. rewrite fmap_app, Hp.
  apply non_increasing_move.
  - exact Hs.
  - apply Forall_fmap. exact Hback.
  - destruct Hfront as [->|(f & a & -> & Ha)]; [left; reflexivity|].
    right. exists (priority <$> f), (priority a).
    rewrite fmap_app. split; [reflexivity|exact Ha].
Qed.

Lemma sorted_children_replace (l : list node) (i : nat) (a a' : node) :
  l !! i = Some a -> priority a' = priority a ->
  non_increasing (priority <$> l) ->
  non_increasing (priority <$> <[i := a']> l).
Proof.
  intros Hi Hp Hs. rewrite list_fmap_insert, Hp.
  rewrite list_insert_id; [exact Hs|].
  rewrite list_lookup_fmap, Hi. reflexivity.
Qed.

Lemma ordered_intro (N : Z) (n : node) :
  (0 <= priority n <= N)%Z -> sorted_children n ->
  Forall (ordered N) (children n) -> ordered N n.
Proof. intros. apply ordered_eq. split; [split|]; assumption. Qed.

Lemma ordered_same (N : Z) (n n' : node) :
  children n' = children n -> priority n' = priority n ->
  ordered N n -> ordered N n'.
Proof.
  rewrite !ordered_eq. unfold prio_bounded, sorted_children.
  intros -> ->. trivial.
Qed.

Lemma ordered_leaf (N : Z) (n : node) :
  (0 <= priority n <= N)%Z -> children n = [] -> ordered N n.
Proof.
  intros Hp Hc. apply ordered_intro; [exact Hp| |]; unfold sorted_children;
    rewrite Hc; constructor.
Qed.

Lemma ordered_single (N : Z) (n c : node) :
  (0 <= priority n <= N)%Z -> children n = [c] -> ordered N c ->
  ordered N n.
Proof.
  intros Hp Hc Ho. apply ordered_intro; [exact Hp| |]; unfold sorted_children;
    rewrite Hc; [apply non_increasing_singleton|by constructor].
Qed.

(** One step of the analysis of a computation that has returned. *)
Ltac returned H :=
  match type of H with
  | Panic _ = Ok _ => discriminate H
  | OutOfFuel = Ok _ => discriminate H
  | Ok _ = Ok _ => injection H as <-
  | (if ?b then _ else _) = Ok _ => destruct b eqn:?
  | mbind _ ?r = Ok _ =>
      let E := fresh "E" in
      destruct r eqn:E; cbn [mbind result_bind] in H
  | match ?x with _ => _ end = Ok _ => destruct x eqn:?
  end.

(** [insertChild] builds nodes of priority 1 below the node it is called
    on, one under the other. *)
Lemma insertChild_loop_ordered (N : Z) (fuel : nat) :
  (1 <= N)%Z ->
  forall (n n' : node) (p fp : str) (hs : option (list HandlerFunc)),
    ordered N n -> insertChild_loop fuel n p fp hs = Ok n' ->
    ordered N n' /\ priority n' = priority n.
Proof.
  intros HN. induction fuel as [|fuel IH]; intros n n' p fp hs Ho H;
    cbn [insertChild_loop] in H;
    destruct (findWildcard p) as [[w i] v];
    pose proof (proj1 (proj1 (proj1 (ordered_eq N n) Ho))) as Hp.
  all: repeat returned H.
  all: try destruct (0 <? i)%Z.
  all: split; [|destruct n; reflexivity].
  all: try (eapply ordered_same; [| |exact Ho]; destruct n; reflexivity).
  all: eapply ordered_single;
    [destruct n; exact Hp|destruct n; reflexivity|].
  all: try (apply ordered_leaf; [change (0 <= 1 <= N)%Z; lia|reflexivity]).
  all: eapply ordered_single; [|reflexivity|];
    [change (0 <= 1 <= N)%Z; lia|].
  all: try (apply ordered_leaf; [change (0 <= 1 <= N)%Z; lia|reflexivity]).
  all: eapply IH; [|eassumption]; apply ordered_leaf;
    [change (0 <= 1 <= N)%Z; lia|reflexivity].
Qed.

(** The invariant of the insertion walk at the node [n] it stands on:
    the priority of [n] has been incremented already, the subtrees below
    have not. *)
Lemma ordered_entered (N : Z) (n : node) :
  (0 <= priority n <= N + 1)%Z -> sorted_children n ->
  Forall (ordered N) (children n) -> ordered (N + 1) n.
Proof.
  intros Hp Hs Hc. apply ordered_intro; [exact Hp|exact Hs|].
  eapply Forall_impl; [exact Hc|]. intros c. apply ordered_mono. lia.
Qed.

Lemma ordered_priority (N : Z) (n : node) :
  ordered N n -> (0 <= priority n <= N)%Z.
Proof. intros Ho. apply ordered_eq in Ho. apply Ho. Qed.

Lemma incr_priority_ordered (N : Z) (c : node) :
  (N + 1 < 2 ^ 32)%Z -> ordered N c ->
  priority (incr_priority c) = (priority c + 1)%Z
  /\ sorted_children (incr_priority c)
  /\ Forall (ordered N) (children (incr_priority c)).
Proof.
  intros HN Ho. pose proof (ordered_priority N c Ho) as Hp.
  apply ordered_eq in Ho as [[_ Hs] Hc].
  split; [|split; [exact Hs|exact Hc]].
  cbn. apply u32_small. lia.
Qed.

Lemma split_edge_ordered (N : Z) (n n1 : node) (i : nat) (p fp : str)
    (pfi : nat) :
  (N + 1 < 2 ^ 32)%Z ->
  (1 <= priority n <= N + 1)%Z -> sorted_children n ->
  Forall (ordered N) (children n) ->
  split_edge n i p fp pfi = Ok n1 ->
  priority n1 = priority n /\ sorted_children n1
  /\ Forall (ordered N) (children n1).
Proof.
  intros HN Hp Hs Hc H. unfold split_edge in H. repeat returned H.
  split; [reflexivity|]. split; [apply non_increasing_singleton|].
  constructor; [|constructor].
  apply ordered_intro; [|exact Hs|exact Hc].
  cbn [priority]. rewrite u32_small; lia.
Qed.

Lemma insert_new_child_ordered (N : Z) (n n' : node) (idxc : ascii)
    (p fp : str) (hs : option (list HandlerFunc)) :
  (0 <= N)%Z -> (N + 1 < 2 ^ 32)%Z ->
  (0 <= priority n <= N + 1)%Z -> sorted_children n ->
  Forall (ordered N) (children n) ->
  insert_new_child n idxc p fp hs = Ok n' ->
  ordered (N + 1) n' /\ priority n' = priority n.
Proof.
  intros HN HN' Hp Hs Hc H. unfold insert_new_child in H.
  set (child := set_fullPath fp zero_node) in H.
  set (n0 := set_children (children n ++ [child]) _) in H.
  assert (ordered N child) as Hchild by (apply ordered_leaf; [cbn; lia|done]).
  assert (Forall (ordered N) (children n0)) as Hc0.
  { apply Forall_app. split; [exact Hc|]. by constructor. }
  assert (sorted_children n0) as Hs0.
  { unfold sorted_children. cbn [n0 children set_children].
    rewrite fmap_app. apply StronglySorted_app.
    split; [|split; [exact Hs|apply non_increasing_singleton]].
    intros x1 x2 [c [-> Hin]]%list_elem_of_fmap Hx2.
    apply list_elem_of_singleton in Hx2 as ->.
    rewrite Forall_forall in Hc. apply (ordered_priority N c), Hc, Hin. }
  destruct (incrementChildPrio n0 _) as [[n2 newPos]| |] eqn:Hinc;
    [|discriminate..].
  cbn [mbind result_bind] in H.
  apply incrementChildPrio_inv in Hinc
    as (front & back & post & c & Hcs0 & _ & _ & Hcs2 & Hp2 & _ & _ & _ & _
        & _ & Hback & Hfront).
  unfold sorted_children in Hs0. rewrite Hcs0 in Hc0, Hs0.
  apply Forall_app in Hc0 as [Hfb Hcp].
  apply Forall_app in Hfb as [Hf Hb].
  apply Forall_cons in Hcp as [Hoc Hpost].
  pose proof (ordered_priority N c Hoc) as Hpc.
  destruct (incr_priority_ordered N c HN' Hoc) as (Hpi & Hsi & Hci).
  assert (Forall (ordered (N + 1)) (children n2)) as Hc2.
  { rewrite Hcs2. apply Forall_app. split; [|apply Forall_cons; split;
      [|apply Forall_app; split]].
    - eapply Forall_impl; [exact Hf|]. intros ?. apply ordered_mono. lia.
    - apply ordered_entered; [lia|exact Hsi|exact Hci].
    - eapply Forall_impl; [exact Hb|]. intros ?. apply ordered_mono. lia.
    - eapply Forall_impl; [exact Hpost|]. intros ?. apply ordered_mono. lia. }
  assert (non_increasing (priority <$> children n2)) as Hs2.
  { rewrite Hcs2. apply sorted_children_increment; [lia|lia|assumption..]. }
  match type of H with
  | match children n2 !! ?k with _ => _ end = _ =>
      set (at_ := k) in H; destruct (children n2 !! at_) as [ch|] eqn:Hat;
        [|discriminate]
  end.
  destruct (insertChild ch p fp hs) as [ch'| |] eqn:Hins; [|discriminate..].
  cbn [mbind result_bind] in H. injection H as <-.
  apply insertChild_loop_ordered with (N := (N + 1)%Z) in Hins as [Ho' Hp'];
    [|lia|].
  2:{ rewrite Forall_forall in Hc2. apply Hc2.
      eapply list_elem_of_lookup_2, Hat. }
  split; [|cbn [priority set_children]; rewrite Hp2; reflexivity].
  apply ordered_intro.
  - cbn [priority set_children]. rewrite Hp2. cbn. lia.
  - unfold sorted_children. cbn [children set_children].
    eapply sorted_children_replace; [exact Hat|exact Hp'|exact Hs2].
  - cbn [children set_children]. apply Forall_insert; assumption.
Qed.

(** The insertion walk keeps the siblings in order at every node it
    passes and below. *)
Lemma addRoute_walk_ordered (N : Z) (fuel : nat) :
  (0 <= N)%Z -> (N + 1 < 2 ^ 32)%Z ->
  forall (n n' : node) (p fp : str) (pfi : nat)
         (hs : option (list HandlerFunc)),
    (1 <= priority n <= N + 1)%Z -> sorted_children n ->
    Forall (ordered N) (children n) ->
    addRoute_walk fuel n p fp pfi hs = Ok n' ->
    ordered (N + 1) n' /\ priority n' = priority n.
Proof.
  intros HN HN'. induction fuel as [|fuel IH];
    intros n n' p fp pfi hs Hp Hs Hc H; [discriminate|].
  cbn [addRoute_walk] in H.
  set (i := longestCommonPrefix p (path n)) in H.
  assert (exists n1,
             (if i <? length (path n) then split_edge n i p fp pfi else Ok n)
             = Ok n1
             /\ priority n1 = priority n /\ sorted_children n1
             /\ Forall (ordered N) (children n1))
    as (n1 & Hn1 & Hp1 & Hs1 & Hc1).
  { destruct (i <? length (path n)); [|eauto].
    destruct (split_edge n i p fp pfi) as [n1| |] eqn:Hsplit;
      [|discriminate..].
    exists n1. split; [reflexivity|].
    eapply split_edge_ordered; eassumption. }
  rewrite Hn1 in H. cbn [mbind result_bind] in H. rewrite <- Hp1 in *.
  clear Hn1 Hp1 Hs Hc.
  assert (ordered (N + 1) n1) as Ho1 by (apply ordered_entered; [lia|done..]).
  destruct (i <? length p).
  2:{ repeat returned H. split; [|destruct n1; reflexivity].
      eapply ordered_same; [| |exact Ho1]; destruct n1; reflexivity. }
  destruct (wildChild n1).
  - (* the wildcard child *)
    destruct (children n1) as [|c rest] eqn:Hcs; [discriminate|].
    destruct (wildcard_matches _ _); [|discriminate].
    apply Forall_cons in Hc1 as [Hoc Hrest].
    pose proof (ordered_priority N c Hoc) as Hpc.
    destruct (incr_priority_ordered N c HN' Hoc) as (Hpi & Hsi & Hci).
    destruct (addRoute_walk fuel _ _ _ _ _) as [c'| |] eqn:Hwalk;
      [|discriminate..].
    cbn [mbind result_bind] in H. injection H as <-.
    apply IH in Hwalk as [Ho' Hp']; [|lia|assumption..].
    split; [|reflexivity]. apply ordered_intro.
    + cbn [priority set_children]. lia.
    + unfold sorted_children in *. rewrite Hcs in Hs1.
      cbn [children set_children fmap list_fmap] in *.
      apply StronglySorted_cons in Hs1 as [Hle Hs1].
      apply StronglySorted_cons. split; [|exact Hs1].
      eapply Forall_impl; [exact Hle|]. cbn. intros z Hz. lia.
    + cbn [children set_children]. constructor; [exact Ho'|].
      eapply Forall_impl; [exact Hrest|]. intros ?. apply ordered_mono. lia.
  - destruct (drop i p) as [|idxc q] eqn:Hq; [discriminate|].
    destruct (index_of idxc (indices n1)) as [k|].
    + (* an existing child *)
      destruct (incrementChildPrio n1 k) as [[n2 k2]| |] eqn:Hinc;
        [|discriminate..].
      cbn [mbind result_bind] in H.
      apply incrementChildPrio_inv in Hinc
        as (front & back & post & c & Hcs1 & _ & -> & Hcs2 & Hp2 & _ & _ & _
            & _ & _ & Hback & Hfront).
      unfold sorted_children in Hs1. rewrite Hcs1 in Hc1, Hs1.
      apply Forall_app in Hc1 as [Hfb Hcp].
      apply Forall_app in Hfb as [Hf Hb].
      apply Forall_cons in Hcp as [Hoc Hpost].
      pose proof (ordered_priority N c Hoc) as Hpc.
      destruct (incr_priority_ordered N c HN' Hoc) as (Hpi & Hsi & Hci).
      rewrite Hcs2, list_lookup_middle in H by reflexivity.
      destruct (addRoute_walk fuel _ _ _ _ _) as [c'| |] eqn:Hwalk;
        [|discriminate..].
      cbn [mbind result_bind] in H. injection H as <-.
      apply IH in Hwalk as [Ho' Hp']; [|lia|assumption..].
      split; [|exact Hp2]. apply ordered_intro.
      * cbn [priority set_children]. rewrite Hp2. lia.
      * unfold sorted_children. cbn [children set_children].
        eapply sorted_children_replace;
          [apply list_lookup_middle; reflexivity|exact Hp'|].
        apply sorted_children_increment; [lia|lia|assumption..].
      * cbn [children set_children]. apply Forall_insert; [|exact Ho'].
        apply Forall_app. split; [|apply Forall_cons; split;
          [|apply Forall_app; split]].
        -- eapply Forall_impl; [exact Hf|]. intros ?. apply ordered_mono. lia.
        -- apply ordered_entered; [lia|exact Hsi|exact Hci].
        -- eapply Forall_impl; [exact Hb|]. intros ?. apply ordered_mono. lia.
        -- eapply Forall_impl; [exact Hpost|]. intros ?.
           apply ordered_mono. lia.
    + destruct (negb (is_sigil idxc)).
      * eapply insert_new_child_ordered; [| | | | |exact H];
          [lia|lia|lia|assumption..].
      * eapply insertChild_loop_ordered; [|exact Ho1|exact H]. lia.
Qed.

(** [addRoute] on a tree that has seen at most [N] registrations. *)
Lemma addRoute_ordered (N : Z) (root root' : node) (p : str)
    (hs : option (list HandlerFunc)) :
  (0 <= N)%Z -> (N + 1 < 2 ^ 32)%Z -> ordered N root ->
  addRoute root p hs = Ok root' -> ordered (N + 1) root'.
Proof.
  intros HN HN' Ho H. unfold addRoute in H.
  pose proof (ordered_priority N root Ho) as Hp.
  destruct (incr_priority_ordered N root HN' Ho) as (Hpi & Hsi & Hci).
  destruct (_ && _).
  - destruct (insertChild _ _ _ _) as [n1| |] eqn:Hins; [|discriminate..].
    cbn [mbind result_bind] in H. injection H as <-.
    apply insertChild_loop_ordered with (N := (N + 1)%Z) in Hins as [Ho' _];
      [|lia|apply ordered_entered; [lia|assumption..]].
    eapply ordered_same; [| |exact Ho']; destruct n1; reflexivity.
  - eapply addRoute_walk_ordered; [| | | | |exact H];
      [lia|lia|lia|assumption..].
Qed.

End tree_priority.

(** ** The sibling order after a sequence of registrations *)

Section sibling_order.
Import tree props.

Lemma trees_ordered_New : trees_ordered 0 drift.New.
Proof.
  intros method root H. cbn [drift.New drift.trees] in H.
  rewrite lookup_empty in H. discriminate.
Qed.

Lemma engine_addRoute_ordered (N : Z) (e e' : drift.Engine)
    (method : string) (p : str) (hs : list HandlerFunc) :
  (0 <= N)%Z -> (N + 1 < 2 ^ 32)%Z -> trees_ordered N e ->
  drift.addRoute e method p hs = Ok e' -> trees_ordered (N + 1) e'.
Proof.
  intros HN HN' He H. unfold drift.addRoute in H.
  destruct p as [|c p]; [discriminate|].
  destruct (bool_decide (c <> slash)); [discriminate|].
  destruct (addRoute _ _ _) as [root'| |] eqn:Hadd; [|discriminate..].
  cbn [mbind result_bind] in H. injection H as <-.
  apply addRoute_ordered with (N := N) in Hadd; [|lia|lia|].
  - intros m root. cbn [drift.trees drift.set_trees].
    destruct (decide (m = method)) as [->|Hm].
    + rewrite lookup_insert_eq. intros [= <-]. exact Hadd.
    + rewrite lookup_insert_ne by congruence. intros Hlook.
      eapply ordered_mono; [|eapply He, Hlook]. lia.
  - destruct (drift.trees e !! method) as [root|] eqn:Hroot; cbn [default].
    + eapply He, Hroot.
    + apply ordered_leaf; [cbn; lia|reflexivity].
Qed.

Lemma register_ordered (method : string)
    (routes : list (str * list HandlerFunc)) :
  forall (N : Z) (e e' : drift.Engine),
    (0 <= N)%Z -> (N + Z.of_nat (length routes) < 2 ^ 32)%Z ->
    trees_ordered N e ->
    foldl (drift.register_step method) (Ok e) routes = Ok e' ->
    trees_ordered (N + Z.of_nat (length routes)) e'.
Proof.
  induction routes as [|[p hs] routes IH]; intros N e e' HN HN' He H.
  - injection H as <-. cbn [length]. rewrite Z.add_0_r. exact He.
  - cbn [foldl drift.register_step mbind result_bind fst snd] in H.
    cbn [length] in *.
    destruct (drift.addRoute e method p hs) as [e1| |] eqn:He1.
    2,3: rewrite register_stops in H by (intros []); discriminate.
    apply engine_addRoute_ordered with (N := N) in He1; [|lia|lia|exact He].
    apply IH with (N := (N + 1)%Z) in H; [|lia|lia|exact He1].
    replace (N + Z.of_nat (S (length routes)))%Z
      with (N + 1 + Z.of_nat (length routes))%Z by lia.
    exact H.
Qed.

(** After every sequence of fewer than 2^32 registrations, of any
    patterns, the children of every node of every tree are in the order
    of non-increasing priority. *)
Theorem registration_keeps_siblings_ordered (method : string)
    (routes : list (str * list HandlerFunc)) (e : drift.Engine) :
  (Z.of_nat (length routes) < 2 ^ 32)%Z ->
  drift.register method routes drift.New = Ok e ->
  forall (m : string) (root : node),
    drift.trees e !! m = Some root -> siblings_ordered root.
Proof.
  intros Hlen H m root Hroot.
  apply register_ordered with (N := 0%Z) in H;
    [|lia|lia|exact trees_ordered_New].
  eapply tree_all_impl; [|eapply H, Hroot].
  intros n [_ Hs]. exact Hs.
Qed.

(** [incrementChildPrio] on a node whose children are in order, at the
    position of a child [c] whose priority is below the uint32 maximum:
    the priority of [c] goes up by one, [c] moves to the front of the
    siblings whose priority is now lower, nothing else changes place,
    and the children are in order again. *)
Theorem incrementChildPrio_moves_ahead (n n' : node) (pos k : nat) (c : node) :
  sorted_children n -> children n !! pos = Some c ->
  (0 <= priority c)%Z -> (priority c + 1 < 2 ^ 32)%Z ->
  incrementChildPrio n pos = Ok (n', k) ->
  exists front back post,
    children n = front ++ back ++ c :: post
    /\ children n' = front ++ incr_priority c :: back ++ post
    /\ k = length front
    /\ priority (incr_priority c) = (priority c + 1)%Z
    /\ Forall (fun d => (priority d < priority c + 1)%Z) back
    /\ Forall (fun d => (priority c + 1 <= priority d)%Z) front
    /\ sorted_children n'.
Proof.
  intros Hs Hc H0 H32 H.
  apply incrementChildPrio_inv in H
    as (front & back & post & c0 & Hcs & -> & -> & Hcs' & _ & _ & _ & _ & _
        & _ & Hback & Hfront).
  rewrite Hcs, list_lookup_middle in Hc by reflexivity.
  injection Hc as ->.
  assert (priority (incr_priority c) = (priority c + 1)%Z) as Hp.
  { cbn. apply u32_small. lia. }
  assert (sorted_children n') as Hs'.
  { unfold sorted_children in *. rewrite Hcs'. rewrite Hcs in Hs.
    apply sorted_children_increment; assumption. }
  exists front, back, post. rewrite <- app_assoc in Hcs.
  rewrite Hp in Hback.
  split; [exact Hcs|]. split; [exact Hcs'|]. split; [reflexivity|].
  split; [exact Hp|]. split; [exact Hback|]. split; [|exact Hs'].
  unfold sorted_children in Hs'. rewrite Hcs', fmap_app, fmap_cons in Hs'.
  apply StronglySorted_app in Hs' as (Hcross & _ & _).
  apply Forall_forall. intros d Hd. rewrite <- Hp.
  apply (Hcross (priority d) (priority (incr_priority c))).
  - apply list_elem_of_fmap. eauto.
  - left.
Qed.

(** C8 (the code at a failing input): [/users/:id/a] and then
    [/users/:id/b] are registered.  The second registration finds no
    index byte at the parameter node (its first child was attached
    without one), appends a new child and calls [incrementChildPrio] at
    the position of the new index byte, which is the position of the
    child [/a]: the priority of [/a] becomes 2 although one route lies
    below it, the new child [/b] keeps priority 0 although its route has
    just been inserted through it, and the index byte leads to [/a], so
    that the lookup of [/users/1/b] finds nothing. *)
Theorem sibling_priority_counts_wrong_child :
  exists e root idn a b,
    drift.register "GET"
      [(bytes "/users/:id/a", [hA]); (bytes "/users/:id/b", [hB])] drift.New
    = Ok e
    /\ drift.trees e !! "GET"%string = Some root
    /\ children root = [idn] /\ path idn = bytes ":id"
    /\ indices idn = bytes "/" /\ children idn = [a; b]
    /\ path a = bytes "/a" /\ priority a = 2%Z /\ routes_below a = 1
    /\ path b = bytes "/b" /\ priority b = 0%Z /\ routes_below b = 1
    /\ getValue root (bytes "/users/1/a")
       = Ok (Some [hA], Some {[ bytes "id" := bytes "1" ]},
             bytes "/users/:id/a")
    /\ getValue root (bytes "/users/1/b") = Ok not_found.
Proof.
  eexists _, _, _, _, _. split; [vm_compute; reflexivity|].
  repeat split; vm_compute; reflexivity.
Qed.

End sibling_order.

(** ** Priorities as route counts, in trees of literal routes *)

Section route_counts.
Import tree props.

Lemma routes_below_eq (n : node) :
  routes_below n = bound_here n + sum_list_with routes_below (children n).
Proof.
  destruct n as [p ix cs h pr ty w fp].
  cbn [routes_below bound_here handlers children]. f_equal.
Qed.

Lemma counted_eq (n : node) :
  counted n <-> counts_routes n /\ Forall counted (children n).
Proof. apply tree_all_eq. Qed.

Lemma routes_below_child (n c : node) :
  c ∈ children n -> routes_below c <= routes_below n.
Proof.
  intros Hc. rewrite (routes_below_eq n).
  apply list_elem_of_split in Hc as (l1 & l2 & ->).
  rewrite sum_list_with_app. cbn [sum_list_with]. lia.
Qed.

(** The new leaf of a literal pattern holds one route, with priority 1,
    and stands among the children that were there. *)
Lemma insert_new_child_counted (n n' : node) (idxc : ascii) (p fp : str)
    (hs : list HandlerFunc) :
  length (indices n) = length (children n) -> literal p ->
  insert_new_child n idxc p fp (Some hs) = Ok n' ->
  exists front back leaf,
    children n = front ++ back /\ children n' = front ++ leaf :: back
    /\ counted leaf /\ routes_below leaf = 1
    /\ priority n' = priority n /\ handlers n' = handlers n.
Proof.
  intros Hlen Hl H. unfold insert_new_child in H.
  set (child := set_fullPath fp zero_node) in H.
  set (n0 := set_children (children n ++ [child]) _) in H.
  assert (length (indices n0) - 1 = length (children n)) as Hpos.
  { cbn [n0 indices set_children set_indices]. rewrite length_app.
    cbn [length]. lia. }
  rewrite Hpos in H.
  destruct (incrementChildPrio n0 _) as [[n2 newPos]| |] eqn:Hinc;
    [|discriminate..].
  cbn [mbind result_bind] in H. rewrite Nat.eqb_refl in H.
  apply incrementChildPrio_inv in Hinc
    as (front & back & post & c & Hcs0 & Hk & -> & Hcs2 & Hp2 & _ & Hh2 & _).
  cbn [n0 children set_children] in Hcs0.
  apply app_inj_1 in Hcs0 as [Hfb Hc]; [|exact Hk].
  injection Hc as <- <-.
  rewrite Hcs2, list_lookup_middle in H by reflexivity.
  rewrite insertChild_literal in H by exact Hl.
  cbn [mbind result_bind] in H. injection H as <-.
  eexists front, back, _. split; [exact Hfb|]. split.
  { cbn [children set_children].
    rewrite insert_app_r_alt, Nat.sub_diag by lia.
    cbn [insert list_insert]. rewrite app_nil_r. reflexivity. }
  split; [|split; [reflexivity|split]].
  - apply counted_eq. split; [reflexivity|constructor].
  - cbn [priority set_children]. rewrite Hp2. reflexivity.
  - cbn [handlers set_children]. rewrite Hh2. reflexivity.
Qed.

Lemma counted_intro (n : node) :
  priority n
  = Z.of_nat (bound_here n + sum_list_with routes_below (children n)) ->
  Forall counted (children n) -> counted n.
Proof.
  intros Hp Hc. apply counted_eq. split; [|exact Hc].
  unfold counts_routes. rewrite routes_below_eq. exact Hp.
Qed.

(** The insertion walk of a literal pattern through a tree of literal
    routes: every node passed has one route more below it, as its
    priority says. *)
Lemma addRoute_walk_counted (fuel : nat) :
  forall (n n' : node) (p fp : str) (pfi : nat) (hs : list HandlerFunc),
    static_tree n -> literal p ->
    priority n = (Z.of_nat (routes_below n) + 1)%Z ->
    (priority n < 2 ^ 32)%Z -> Forall counted (children n) ->
    addRoute_walk fuel n p fp pfi (Some hs) = Ok n' ->
    counted n' /\ routes_below n' = S (routes_below n)
    /\ priority n' = priority n.
Proof.
  induction fuel as [|fuel IH]; intros n n' p fp pfi hs Hn Hl Hp H32 Hc H;
    [discriminate|].
  pose proof Hn as Hn0. apply static_tree_eq in Hn0 as [Hnode Hkids].
  pose proof (static_node_length n Hnode) as Hlen.
  destruct Hnode as (Hwild & _ & _).
  cbn [addRoute_walk] in H.
  set (i := longestCommonPrefix p (path n)) in H.
  pose proof (routes_below_eq n) as Hrn.
  destruct (i <? length (path n)) eqn:Hi.
  - (* the edge is split *)
    unfold split_edge in H.
    destruct (path n !! i) as [b|] eqn:Hb; [|discriminate].
    destruct (length fp <? pfi + i); [discriminate|].
    cbn [mbind result_bind path wildChild indices handlers children] in H.
    set (child := {| path := drop i (path n); indices := indices n;
                     children := children n; handlers := handlers n;
                     priority := u32 (priority n - 1); nType := static;
                     wildChild := wildChild n; fullPath := fullPath n |})
      in H.
    assert (routes_below child = routes_below n) as Hrc
      by (rewrite (routes_below_eq child); exact (eq_sym Hrn)).
    assert (counted child) as Hchild.
    { apply counted_eq. split; [|exact Hc].
      unfold counts_routes. rewrite Hrc. cbn [child priority].
      rewrite u32_small; lia. }
    destruct (i <? length p).
    + destruct (drop i p) as [|idxc q] eqn:Hd; [discriminate|].
      assert (p !! i = Some idxc) as Hpi.
      { rewrite <- (Nat.add_0_r i), <- lookup_drop, Hd. reflexivity. }
      pose proof (longestCommonPrefix_next p (path n) idxc b Hpi Hb) as Hne.
      cbn [index_of] in H.
      rewrite bool_decide_eq_false_2 in H by congruence.
      cbn [fmap option_fmap option_map] in H.
      assert (literal (idxc :: q)) as Hlq
        by (rewrite <- Hd; apply literal_drop, Hl).
      pose proof (Forall_inv Hlq) as Hsig. cbn beta in Hsig.
      rewrite Hsig in H. cbn [negb] in H.
      apply insert_new_child_counted in H
        as (front & back & leaf & Hfb & Hcs' & Hleaf & Hr & Hp' & Hh');
        [|reflexivity|exact Hlq].
      cbn [children priority handlers] in Hfb, Hp', Hh'.
      assert (sum_list_with routes_below (children n')
              = S (routes_below n)) as Hsum.
      { rewrite Hcs', sum_list_with_app. cbn [sum_list_with].
        rewrite Hr.
        assert (sum_list_with routes_below (front ++ back)
                = routes_below n) as Hfb'.
        { rewrite <- Hfb. cbn [sum_list_with]. lia. }
        rewrite sum_list_with_app in Hfb'. lia. }
      assert (routes_below n' = S (routes_below n)) as Hrn'.
      { rewrite (routes_below_eq n'). unfold bound_here. rewrite Hh'.
        exact Hsum. }
      split; [|split; [exact Hrn'|exact Hp']].
      apply counted_eq. split.
      * unfold counts_routes. rewrite Hrn', Hp', Hp. lia.
      * rewrite Hcs'. apply Forall_app.
        assert (Forall counted (front ++ back)) as Hall
          by (rewrite <- Hfb; by constructor).
        apply Forall_app in Hall as [Hf Hbk].
        split; [exact Hf|by constructor].
    + rewrite bool_decide_eq_false_2 in H
        by (intros Hx; apply Hx; reflexivity).
      injection H as <-.
      assert (routes_below
                (set_fullPath fp (set_handlers (Some hs)
                   {| path := take i p; indices := [b]; children := [child];
                      handlers := None; priority := priority n;
                      nType := nType n; wildChild := false;
                      fullPath := take (pfi + i) fp |}))
              = S (routes_below n)) as Hrn'.
      { rewrite routes_below_eq. unfold bound_here.
        cbn [handlers children set_fullPath set_handlers sum_list_with].
        rewrite Hrc. lia. }
      split; [|split; [exact Hrn'|reflexivity]].
      apply counted_eq. split; [|by constructor].
      unfold counts_routes. rewrite Hrn'. cbn [priority set_fullPath
        set_handlers]. lia.
  - cbn [mbind result_bind] in H. destruct (i <? length p).
    + rewrite Hwild in H.
      destruct (drop i p) as [|idxc q] eqn:Hd; [discriminate|].
      assert (literal (idxc :: q)) as Hlq
        by (rewrite <- Hd; apply literal_drop, Hl).
      destruct (index_of idxc (indices n)) as [k|].
      * (* an existing child *)
        destruct (incrementChildPrio n k) as [[n2 k2]| |] eqn:Hinc;
          [|discriminate..].
        cbn [mbind result_bind] in H.
        apply incrementChildPrio_inv in Hinc
          as (front & back & post & c & Hcs & _ & -> & Hcs2 & Hp2 & _ & Hh2
              & _).
        rewrite Hcs2, list_lookup_middle in H by reflexivity.
        destruct (addRoute_walk fuel _ _ _ _ _) as [c'| |] eqn:Hwalk;
          [|discriminate..].
        cbn [mbind result_bind] in H. injection H as <-.
        assert (c ∈ children n) as Hin.
        { rewrite Hcs. apply elem_of_app. right. left. }
        pose proof (routes_below_child n c Hin) as Hle.
        rewrite Hcs in Hc, Hrn.
        apply Forall_app in Hc as [Hfb Hcp].
        apply Forall_app in Hfb as [Hf Hbk].
        apply Forall_cons in Hcp as [Hcc Hpost].
        apply counted_eq in Hcc as [Hpc Hcc]. unfold counts_routes in Hpc.
        assert (priority (incr_priority c)
                = (Z.of_nat (routes_below c) + 1)%Z) as Hpi.
        { cbn. rewrite u32_small; lia. }
        apply IH in Hwalk as (Hc' & Hrc' & Hpc').
        2:{ apply static_tree_set_priority. eapply static_tree_child; eauto. }
        2:{ exact Hlq. }
        2:{ rewrite Hpi. f_equal. f_equal.
            rewrite !routes_below_eq. reflexivity. }
        2:{ rewrite Hpi. lia. }
        2:{ exact Hcc. }
        replace (routes_below (incr_priority c)) with (routes_below c)
          in Hrc' by (rewrite !routes_below_eq; reflexivity).
        rewrite insert_app_r_alt, Nat.sub_diag by lia.
        cbn [insert list_insert].
        match goal with
        | |- counted ?t /\ _ => set (n' := t)
        end.
        assert (routes_below n' = S (routes_below n)) as Hrn'.
        { rewrite (routes_below_eq n'). unfold bound_here.
          cbn [n' handlers children set_children]. rewrite Hh2.
          fold (bound_here n). rewrite Hrn.
          rewrite !sum_list_with_app. cbn [sum_list_with].
          rewrite !sum_list_with_app. lia. }
        split; [|split; [exact Hrn'|exact Hp2]].
        apply counted_eq. split.
        -- unfold counts_routes. rewrite Hrn'.
           cbn [n' priority set_children]. rewrite Hp2, Hp. lia.
        -- cbn [n' children set_children]. apply Forall_app.
           split; [exact Hf|]. constructor; [exact Hc'|].
           apply Forall_app. split; assumption.
      * pose proof (Forall_inv Hlq) as Hsig. cbn beta in Hsig.
        rewrite Hsig in H. cbn [negb] in H.
        apply insert_new_child_counted in H
          as (front & back & leaf & Hfb & Hcs' & Hleaf & Hr & Hp' & Hh');
          [|exact Hlen|exact Hlq].
        assert (routes_below n' = S (routes_below n)) as Hrn'.
        { rewrite (routes_below_eq n'), Hrn. unfold bound_here.
          rewrite Hh', Hcs', Hfb, !sum_list_with_app. cbn [sum_list_with].
          lia. }
        split; [|split; [exact Hrn'|exact Hp']].
        apply counted_eq. split.
        -- unfold counts_routes. rewrite Hrn', Hp', Hp. lia.
        -- rewrite Hcs'. rewrite Hfb in Hc.
           apply Forall_app in Hc as [Hf Hbk]. apply Forall_app.
           split; [exact Hf|by constructor].
    + destruct (bool_decide (handlers n <> None)) eqn:Hh; [discriminate|].
      apply bool_decide_eq_false in Hh. injection H as <-.
      assert (handlers n = None) as Hnone.
      { destruct (handlers n); [|reflexivity].
        exfalso. apply Hh. discriminate. }
      assert (routes_below (set_fullPath fp (set_handlers (Some hs) n))
              = S (routes_below n)) as Hrn'.
      { rewrite routes_below_eq, Hrn. unfold bound_here.
        cbn [handlers children set_fullPath set_handlers].
        rewrite Hnone. lia. }
      split; [|split; [exact Hrn'|reflexivity]].
      apply counted_eq. split; [|exact Hc].
      unfold counts_routes. rewrite Hrn'.
      cbn [priority set_fullPath set_handlers]. lia.
Qed.

Lemma routes_below_set_priority (z : Z) (n : node) :
  routes_below (set_priority z n) = routes_below n.
Proof. rewrite !routes_below_eq. reflexivity. Qed.

(** [addRoute] of a literal pattern on a tree of literal routes. *)
Lemma addRoute_counted (M : gmap str (list HandlerFunc))
    (root root' : node) (p : str) (hs : list HandlerFunc) :
  models M root -> counted root ->
  (Z.of_nat (routes_below root) + 1 < 2 ^ 32)%Z -> literal p ->
  addRoute root p (Some hs) = Ok root' ->
  counted root' /\ routes_below root' = S (routes_below root).
Proof.
  intros (Ht & Hzero & Hslash & _) Hc H32 Hl H.
  apply counted_eq in Hc as [Hp Hc]. unfold counts_routes in Hp.
  unfold addRoute in H.
  destruct (_ && _) eqn:Hempty.
  - (* the first route *)
    assert (root = zero_node) as ->.
    { apply Hzero. destruct (decide (M = ∅)) as [HM|HM]; [exact HM|].
      specialize (Hslash HM). apply andb_true_iff in Hempty as [He _].
      destruct root as [[|x rp] ? ? ? ? ? ? ?]; discriminate. }
    rewrite insertChild_literal in H by exact Hl.
    cbn [mbind result_bind] in H. injection H as <-.
    split; [|reflexivity]. apply counted_eq. split; [reflexivity|constructor].
  - apply addRoute_walk_counted in H as (Hc' & Hr' & _).
    + unfold incr_priority in Hr'.
      rewrite routes_below_set_priority in Hr'. split; assumption.
    + apply static_tree_set_priority, Ht.
    + exact Hl.
    + unfold incr_priority. rewrite routes_below_set_priority.
      cbn [priority set_priority]. rewrite u32_small; lia.
    + cbn [incr_priority priority set_priority]. rewrite u32_small; lia.
    + destruct root; exact Hc.
Qed.

Lemma register_counted (method : string)
    (routes : list (str * list HandlerFunc)) :
  forall (e e' : drift.Engine) (M : gmap str (list HandlerFunc)),
    models M (root_of method e) -> counted (root_of method e) ->
    (Z.of_nat (routes_below (root_of method e) + length routes) < 2 ^ 32)%Z ->
    Forall (fun r => literal r.1) routes ->
    foldl (drift.register_step method) (Ok e) routes = Ok e' ->
    counted (root_of method e')
    /\ routes_below (root_of method e')
       = routes_below (root_of method e) + length routes.
Proof.
  induction routes as [|[p hs] routes IH];
    intros e e' M HM Hc H32 Hlit Hfold.
  - injection Hfold as <-. cbn [length]. rewrite Nat.add_0_r.
    split; [exact Hc|reflexivity].
  - apply Forall_cons in Hlit as [Hl Hlit]. cbn [fst] in Hl.
    destruct (engine_addRoute_models method M e p hs HM Hl) as [Hadd Hinv].
    cbn [foldl drift.register_step mbind result_bind fst snd] in Hfold.
    cbn [length] in H32.
    destruct (drift.addRoute e method p hs) as [e1| |] eqn:He1.
    2,3: rewrite register_stops in Hfold by (intros []); discriminate.
    destruct (Hinv e1 eq_refl) as [Hp Hnone].
    destruct (Hadd Hp Hnone) as (e1' & [= <-] & HM1 & _).
    assert (counted (root_of method e1)
            /\ routes_below (root_of method e1)
               = S (routes_below (root_of method e))) as [Hc1 Hr1].
    { unfold drift.addRoute in He1. destruct p as [|c p]; [discriminate|].
      destruct (bool_decide (c <> slash)); [discriminate|].
      fold (root_of method e) in He1.
      destruct (addRoute (root_of method e) (c :: p) (Some hs))
        as [root1| |] eqn:Hroot1; [|discriminate..].
      cbn [mbind result_bind] in He1. injection He1 as <-.
      assert (root_of method
                (drift.set_trees (<[method := root1]> (drift.trees e)) e)
              = root1) as ->.
      { unfold root_of. cbn [drift.trees drift.set_trees].
        rewrite lookup_insert_eq. reflexivity. }
      eapply addRoute_counted; [exact HM|exact Hc|lia|exact Hl|exact Hroot1]. }
    destruct (IH e1 e' _ HM1 Hc1 ltac:(lia) Hlit Hfold) as [Hc' Hr'].
    split; [exact Hc'|]. rewrite Hr', Hr1. cbn [length]. lia.
Qed.

(** In the tree of a method for which only literal patterns are
    registered, fewer than 2^32 of them, the priority of every node is
    the number of routes registered through it. *)
Theorem literal_priorities_count_routes (method : string)
    (routes : list (str * list HandlerFunc)) (e : drift.Engine) :
  Forall (fun r => literal r.1) routes ->
  (Z.of_nat (length routes) < 2 ^ 32)%Z ->
  drift.register method routes drift.New = Ok e ->
  counted (root_of method e)
  /\ routes_below (root_of method e) = length routes.
Proof.
  intros Hlit H32 Hreg.
  apply (register_counted method routes drift.New e ∅) in Hreg.
  - exact Hreg.
  - exact models_empty.
  - apply counted_eq. split; [reflexivity|constructor].
  - exact H32.
  - exact Hlit.
Qed.

End route_counts.

(** ** The outcomes of a registration *)

Section registration_outcomes.
Import tree props.










End registration_outcomes.

(** ** The faults of a pattern *)

Section pattern_faults.
Import tree props.

(** *** What [findWildcard] returns *)

Lemma first_sigil (p : str) :
  literal p
  \/ exists a c rest, p = a ++ c :: rest /\ literal a /\ is_sigil c = true.
Proof.
  induction p as [|x p IH]; [left; constructor|].
  destruct (is_sigil x) eqn:Hx.
  - right. exists [], x, p. split; [reflexivity|]. split; [constructor|done].
  - destruct IH as [Hl|(a & c & rest & -> & Ha & Hc)].
    + left. by constructor.
    + right. exists (x :: a), c, rest. split; [reflexivity|].
      split; [by constructor|exact Hc].
Qed.


Lemma sigils_cons (c : ascii) (s : str) :
  sigils (c :: s) = (if is_sigil c then 1 else 0) + sigils s.
Proof.
  unfold sigils. rewrite filter_cons.
  destruct (decide _) as [H|H]; cbn beta in H; destruct (is_sigil c);
    try reflexivity; exfalso; [exact H|apply H; exact I].
Qed.

Lemma sigils_literal (s : str) : literal s <-> sigils s = 0.
Proof.
  induction s as [|c s IH]; [split; [reflexivity|constructor]|].
  rewrite sigils_cons. unfold literal in *. rewrite Forall_cons, IH.
  destruct (is_sigil c); split; try lia; intros [? ?]; try lia; discriminate.
Qed.

(** The scan for the end of the wildcard stops before the first
    separator. *)
Lemma wildcardEnd_spec (rest : str) (valid : bool) :
  exists b post,
    rest = b ++ post /\ (slash ∉ b)
    /\ (post = [] \/ head post = Some slash)
    /\ wildcardEnd rest valid
       = (length b, valid && bool_decide (sigils b = 0)).
Proof.
  revert valid. induction rest as [|c rest IH]; intros valid.
  - exists [], []. split; [reflexivity|]. split; [apply not_elem_of_nil|].
    split; [by left|]. cbn. by rewrite andb_true_r.
  - cbn [wildcardEnd]. case_bool_decide as Hc.
    + subst c. exists [], (slash :: rest). split; [reflexivity|].
      split; [apply not_elem_of_nil|]. split; [by right|].
      cbn. by rewrite andb_true_r.
    + destruct (IH (if is_sigil c then false else valid))
        as (b & post & -> & Hb & Hpost & ->).
      exists (c :: b), post. split; [reflexivity|].
      split; [by apply not_elem_of_cons|]. split; [exact Hpost|].
      cbn [length]. f_equal. rewrite sigils_cons.
      destruct (is_sigil c); cbn [andb].
      * rewrite andb_false_r. reflexivity.
      * reflexivity.
Qed.

Lemma findWildcard_cases (p : str) :
  (literal p /\ findWildcard p = ([], (-1)%Z, false))
  \/ exists a c b post,
       p = a ++ c :: b ++ post /\ literal a /\ is_sigil c = true
       /\ (slash ∉ b) /\ (post = [] \/ head post = Some slash)
       /\ findWildcard p
          = (c :: b, Z.of_nat (length a), bool_decide (sigils b = 0)).
Proof.
  destruct (first_sigil p) as [Hl|(a & c & rest & -> & Ha & Hc)].
  - left. split; [exact Hl|]. by apply findWildcard_from_literal.
  - right. destruct (wildcardEnd_spec rest true)
      as (b & post & -> & Hb & Hpost & Hend).
    exists a, c, b, post. split; [reflexivity|]. split; [exact Ha|].
    split; [exact Hc|]. split; [exact Hb|]. split; [exact Hpost|].
    unfold findWildcard. rewrite findWildcard_from_app by exact Ha.
    cbn [findWildcard_from]. rewrite Hc, Hend. cbn [andb].
    rewrite take_app_length. reflexivity.
Qed.

(** *** Segments *)

Lemma segments_cons (p : str) : exists s ss, segments p = s :: ss.
Proof.
  induction p as [|c p (s & ss & IH)]; [by eexists _, _|].
  cbn [segments]. case_bool_decide; [by eexists _, _|].
  rewrite IH. by eexists _, _.
Qed.

Lemma segments_app_slash (x y : str) :
  segments (x ++ slash :: y) = segments x ++ segments y.
Proof.
  induction x as [|c x IH]; cbn [app segments].
  - rewrite bool_decide_eq_true_2 by reflexivity. reflexivity.
  - case_bool_decide; [by rewrite IH|].
    rewrite IH. destruct (segments_cons x) as (s & ss & ->). reflexivity.
Qed.



(** *** Faults of segments *)







(** *** The first registration of a tree *)



End pattern_faults.

(** ** When a registration panics *)

Section registration_panics.
Import tree props.

(** The map of a tree of literal routes holds the registered patterns
    and no other. *)
Lemma register_domain (method : string)
    (routes : list (str * list HandlerFunc)) :
  forall (e e' : drift.Engine) (M : gmap str (list HandlerFunc)),
    models M (root_of method e) ->
    Forall (fun r => literal r.1) routes ->
    foldl (drift.register_step method) (Ok e) routes = Ok e' ->
    exists M',
      models M' (root_of method e')
      /\ forall p, is_Some (M' !! p) <-> is_Some (M !! p) \/ p ∈ routes.*1.
Proof.
  induction routes as [|[p0 hs0] routes IH]; intros e e' M HM Hlit Hfold.
  - injection Hfold as <-. exists M. split; [exact HM|].
    intros p. cbn. rewrite elem_of_nil. tauto.
  - apply Forall_cons in Hlit as [Hl Hlit]. cbn [fst] in Hl.
    destruct (engine_addRoute_models method M e p0 hs0 HM Hl) as [Hadd Hinv].
    cbn [foldl drift.register_step mbind result_bind fst snd] in Hfold.
    destruct (drift.addRoute e method p0 hs0) as [e1| |] eqn:He1.
    2,3: rewrite register_stops in Hfold by (intros []); discriminate.
    destruct (Hinv e1 eq_refl) as [Hp Hnone].
    destruct (Hadd Hp Hnone) as (e1' & [= <-] & HM1 & _).
    destruct (IH e1 e' (<[p0 := hs0]> M) HM1 Hlit Hfold) as (M' & HM' & Hdom).
    exists M'. split; [exact HM'|]. intros p. rewrite Hdom.
    cbn [fmap list_fmap fst]. rewrite elem_of_cons, lookup_insert_is_Some.
    destruct (decide (p0 = p)) as [->|Hne]; [tauto|].
    split; [intros [[?|[_ ?]]|?]|intros [?|[?|?]]]; auto; congruence.
Qed.



(** A catch-all that is not the final segment is refused by
    [insertChild] only: where the tree holds [/files/*rest] already, the
    walk of [addRoute] accepts [/files/*rest/x] and hangs a child below
    the catch-all node. *)
Example catch_all_is_extended :
  is_ok (drift.register "GET"
           [(bytes "/files/*rest", [hA]); (bytes "/files/*rest/x", [hB])]
           drift.New)
  /\ listed_fault (bytes "/files/*rest/x") = true.
Proof. split; [vm_compute; exact I|vm_compute; reflexivity]. Qed.

End registration_panics.

(** * Further properties of the code *)

(** ** Lookup never fails on a registered tree *)

Section lookup_safety.
Import tree props more.

Lemma lookup_safe_eq (n : node) :
  lookup_safe n <-> lookup_safe_node n /\ Forall lookup_safe (children n).
Proof. apply tree_all_eq. Qed.

(** A lookup in a well-formed tree returns. *)
Lemma getValue_walk_safe (k : nat) :
  forall (n : node) (p : str) (ps : gmap str str),
    height n <= k -> lookup_safe n -> is_ok (getValue_walk n p ps).
Proof.
  induction k as [|k IH]; intros n p ps Hh Hn.
  { destruct n; cbn in Hh; lia. }
  apply lookup_safe_eq in Hn as [[Hix Hwild] Hkids].
  rewrite Forall_forall in Hkids.
  rewrite getValue_walk_eq.
  destruct (_ <? _) eqn:Hlen.
  2:{ destruct (eqb_str _ _); [destruct (handlers n)|]; exact I. }
  destruct (eqb_str _ _); [|exact I].
  destruct (drop (length (path n)) p) as [|idxc rest] eqn:Hd.
  { apply Nat.ltb_lt in Hlen. apply (f_equal length) in Hd.
    rewrite length_drop in Hd. cbn in Hd. lia. }
  destruct (index_of idxc (indices n)) as [i|] eqn:Hidx.
  - apply index_of_Some in Hidx.
    assert (i < length (children n)) as Hi.
    { destruct Hidx as [Hi _]. apply lookup_lt_Some in Hi. lia. }
    apply lookup_lt_is_Some_2 in Hi as [ch Hch]. rewrite Hch.
    apply IH.
    + pose proof (height_child n ch (list_elem_of_lookup_2 _ _ _ Hch)). lia.
    + apply Hkids. eapply list_elem_of_lookup_2, Hch.
  - destruct (wildChild n); [|exact I].
    destruct (Hwild eq_refl) as (w & cs & Hcs & Hw). rewrite Hcs.
    assert (w ∈ children n) as Hwin by (rewrite Hcs; left).
    pose proof (height_child n w Hwin) as Hhw.
    specialize (Hkids w Hwin). apply lookup_safe_eq in Hkids as [_ Hgk].
    unfold getValue_wild, wild_ok in *. destruct (nType w); [done| |].
    + assert ((length (path w) <? 1) = false) as -> by (apply Nat.ltb_ge; lia).
      destruct (param_end _ <? _); [|exact I].
      destruct (children w) as [|gc gcs] eqn:Hgc; [exact I|].
      apply IH.
      * assert (height gc < height w)
          by (apply height_child; rewrite Hgc; left).
        lia.
      * apply Forall_cons in Hgk as [Hgc' _]. exact Hgc'.
    + assert ((length (path w) <? 2) = false) as -> by (apply Nat.ltb_ge; lia).
      exact I.
Qed.

(** *** Registration keeps the trees well-formed *)

Lemma lookup_safe_same (n n' : node) :
  indices n' = indices n -> children n' = children n ->
  wildChild n' = wildChild n -> lookup_safe n -> lookup_safe n'.
Proof.
  rewrite !lookup_safe_eq. unfold lookup_safe_node.
  intros -> -> ->. trivial.
Qed.

Lemma lookup_safe_leaf (n : node) :
  indices n = [] -> children n = [] -> wildChild n = false -> lookup_safe n.
Proof.
  intros Hi Hc Hw. apply lookup_safe_eq. unfold lookup_safe_node.
  rewrite Hi, Hc, Hw. split; [split; [reflexivity|discriminate]|constructor].
Qed.

Lemma lookup_safe_children (n c : node) :
  lookup_safe n -> c ∈ children n -> lookup_safe c.
Proof.
  rewrite lookup_safe_eq. intros [_ HF] Hc. rewrite Forall_forall in HF. auto.
Qed.

(** A node without children is not flagged. *)
Lemma lookup_safe_no_children (n : node) :
  lookup_safe n -> children n = [] -> wildChild n = false.
Proof.
  intros [[_ Hw] _]%lookup_safe_eq Hc.
  destruct (wildChild n); [|reflexivity].
  destruct (Hw eq_refl) as (c & cs & Hcs & _). congruence.
Qed.

Lemma incrementChildPrio_indices (n n' : node) (pos k : nat) :
  incrementChildPrio n pos = Ok (n', k) ->
  length (indices n') = length (indices n).
Proof.
  intros H. pose proof H as H0.
  apply incrementChildPrio_inv in H0
    as (front & back & post & c & _ & Hpos & Hk & _).
  assert (k <= pos) by (subst; rewrite length_app; lia).
  unfold incrementChildPrio in H. destruct (children n !! pos); [|discriminate].
  cbv zeta in H. destruct (bubble _ _ _) as [cs newPos].
  case_bool_decide; [injection H as <- <-; reflexivity|].
  destruct (length (indices n) <? pos + 1) eqn:Hlt; [discriminate|].
  apply Nat.ltb_ge in Hlt. injection H as <- ->.
  cbn [indices set_indices]. rewrite !length_app, !length_take, !length_drop.
  lia.
Qed.

(** [insertChild] on a node that begins with the wildcard keeps the
    fragment of the node. *)
Lemma insertChild_loop_path (fuel : nat) (n n' : node) (c : ascii)
    (q fp : str) (hs : option (list HandlerFunc)) :
  is_sigil c = true ->
  insertChild_loop fuel n (c :: q) fp hs = Ok n' -> path n' = path n.
Proof.
  intros Hc H.
  assert (exists w v, findWildcard (c :: q) = (w, 0%Z, v)) as (w & v & Hf).
  { unfold findWildcard. cbn [findWildcard_from]. rewrite Hc.
    destruct (wildcardEnd q true). eauto. }
  destruct fuel; cbn [insertChild_loop] in H; rewrite Hf in H;
    change (0 <? 0)%Z with false in H; change (0 - 1 <? 0)%Z with true in H;
    cbv iota in H;
    repeat match type of H with
      | Panic _ = Ok _ => discriminate H
      | OutOfFuel = Ok _ => discriminate H
      | Ok _ = Ok _ => injection H as <-
      | (if ?b then _ else _) = Ok _ => destruct b
      | mbind _ ?r = Ok _ => destruct r; cbn [mbind result_bind] in H
      end; destruct n; reflexivity.
Qed.

Lemma lookup_safe_intro (n : node) :
  length (indices n) <= length (children n) ->
  (wildChild n = true -> exists c cs, children n = c :: cs /\ wild_ok c) ->
  Forall lookup_safe (children n) -> lookup_safe n.
Proof. intros. apply lookup_safe_eq. split; [split|]; assumption. Qed.

(** What [insertChild] hangs below a node is well-formed. *)
Lemma insertChild_param_safe (n c : node) (w fp : str) :
  lookup_safe n -> children n = [] -> 2 <= length w ->
  lookup_safe c -> nType c = param -> path c = w ->
  lookup_safe (set_children [c] (set_wildChild true n)).
Proof.
  intros Hn Hnil Hw Hc Hty Hpath.
  assert (indices n = []) as Hix.
  { apply lookup_safe_eq in Hn as [[Hle _] _]. rewrite Hnil in Hle.
    destruct (indices n); [reflexivity|cbn in Hle; lia]. }
  apply lookup_safe_intro.
  - destruct n; cbn in *. rewrite Hix. cbn. lia.
  - intros _. exists c, []. split; [destruct n; reflexivity|].
    unfold wild_ok. rewrite Hty, Hpath. lia.
  - destruct n; cbn. constructor; [exact Hc|constructor].
Qed.

Ltac catch_all_case H Hn Hnil Hflag Hw :=
  let Hend := fresh "Hend" in
  let Hc0 := fresh "Hc0" in
  match type of H with
  | (if negb ?b then _ else _) = _ =>
      destruct b eqn:Hend; [|discriminate H]
  end;
  apply Z.eqb_eq in Hend; cbn [negb] in H;
  destruct (_ && _); [discriminate H|];
  match type of H with
  | (if (?z <? 0)%Z then _ else _) = _ =>
      destruct (Z.ltb_spec z 0); [discriminate H|]
  end;
  match type of H with
  | match ?o with Some _ => _ | None => _ end = _ =>
      destruct o eqn:Hc0; [|discriminate H]
  end;
  destruct (negb _); [discriminate H|]; injection H as <-;
  split; [|reflexivity];
  apply lookup_safe_intro;
  [ cbn [indices children set_indices set_children length]; lia
  | cbn [wildChild set_indices set_children set_path]; congruence
  | cbn [children set_indices set_children];
    constructor; [|constructor];
    apply lookup_safe_intro;
    [ cbn; lia
    | intros _; eexists _, _; split; [reflexivity|];
      unfold wild_ok; cbn [nType path]; rewrite length_drop; lia
    | constructor; [|constructor]; by apply lookup_safe_leaf ] ].

Lemma insertChild_loop_safe (fuel : nat) :
  forall (n n' : node) (p fp : str) (hs : option (list HandlerFunc)),
    lookup_safe n -> insertChild_loop fuel n p fp hs = Ok n' ->
    lookup_safe n' /\ nType n' = nType n.
Proof.
  induction fuel as [|fuel IH]; intros n n' p fp hs Hn H;
    cbn [insertChild_loop] in H;
    destruct (findWildcard p) as [[w i] v].
  all: destruct (i <? 0)%Z;
    [injection H as <-; split; [|destruct n; reflexivity];
     eapply lookup_safe_same; [| | |exact Hn]; destruct n; reflexivity|].
  all: destruct (negb v); [discriminate|].
  all: destruct (length w <? 2) eqn:Hw; [discriminate|];
    apply Nat.ltb_ge in Hw.
  all: destruct (0 <? length (children n)) eqn:Hkids; [discriminate|].
  all: assert (children n = []) as Hnil
    by (apply Nat.ltb_ge in Hkids; destruct (children n);
        [reflexivity|cbn in Hkids; lia]).
  all: pose proof (lookup_safe_no_children n Hn Hnil) as Hflag.
  all: destruct (bool_decide (head w = Some colon)).
  - (* a parameter, no fuel *)
    set (n1 := if (0 <? i)%Z then set_path (take (Z.to_nat i) p) n else n)
      in H.
    assert (lookup_safe n1 /\ children n1 = [] /\ nType n1 = nType n)
      as (Hn1 & Hnil1 & Hty1).
    { subst n1. destruct (0 <? i)%Z; [|auto]. split; [|split].
      - eapply lookup_safe_same; [| | |exact Hn]; reflexivity.
      - exact Hnil.
      - reflexivity. }
    destruct (length w <? length _); [discriminate|]. injection H as <-.
    split; [|destruct n1; exact Hty1].
    eapply insertChild_param_safe; try eassumption; try reflexivity.
    by apply lookup_safe_leaf.
  - catch_all_case H Hn Hnil Hflag Hw.
  - (* a parameter *)
    set (n1 := if (0 <? i)%Z then set_path (take (Z.to_nat i) p) n else n)
      in H.
    assert (lookup_safe n1 /\ children n1 = [] /\ nType n1 = nType n)
      as (Hn1 & Hnil1 & Hty1).
    { subst n1. destruct (0 <? i)%Z; [|auto]. split; [|split].
      - eapply lookup_safe_same; [| | |exact Hn]; reflexivity.
      - exact Hnil.
      - reflexivity. }
    destruct (length w <? length _).
    + destruct (insertChild_loop fuel _ _ _ _) as [c2| |] eqn:Hrec;
        [|discriminate..].
      cbn [mbind result_bind] in H. injection H as <-.
      apply IH in Hrec as [Hc2 _]; [|by apply lookup_safe_leaf].
      split; [|destruct n1; exact Hty1].
      eapply insertChild_param_safe; try eassumption; try reflexivity.
      apply lookup_safe_intro; [cbn; lia|discriminate|].
      constructor; [exact Hc2|constructor].
    + injection H as <-. split; [|destruct n1; exact Hty1].
      eapply insertChild_param_safe; try eassumption; try reflexivity.
      by apply lookup_safe_leaf.
  - catch_all_case H Hn Hnil Hflag Hw.
Qed.

Lemma lookup_safe_incr_priority (c : node) :
  lookup_safe c -> lookup_safe (incr_priority c).
Proof. apply lookup_safe_same; destruct c; reflexivity. Qed.

Lemma incrementChildPrio_safe (n n' : node) (pos k : nat) :
  incrementChildPrio n pos = Ok (n', k) ->
  Forall lookup_safe (children n) ->
  Forall lookup_safe (children n')
  /\ length (children n') = length (children n)
  /\ length (indices n') = length (indices n)
  /\ wildChild n' = wildChild n /\ path n' = path n /\ nType n' = nType n.
Proof.
  intros H Hc. pose proof (incrementChildPrio_indices _ _ _ _ H) as Hix.
  apply incrementChildPrio_inv in H
    as (front & back & post & c & Hcs & _ & _ & Hcs' & _ & Hp & _ & Hty & Hw
        & _).
  rewrite Hcs in Hc. rewrite Hcs, Hcs'.
  apply Forall_app in Hc as [Hfb Hcp].
  apply Forall_app in Hfb as [Hf Hb].
  apply Forall_cons in Hcp as [Hc Hpost].
  split; [|split; [|auto]].
  - apply Forall_app. split; [exact Hf|]. constructor.
    + apply lookup_safe_incr_priority, Hc.
    + apply Forall_app. split; assumption.
  - rewrite !length_app. cbn [length]. rewrite !length_app. lia.
Qed.

Lemma insert_new_child_safe (n n' : node) (idxc : ascii) (p fp : str)
    (hs : option (list HandlerFunc)) :
  lookup_safe n -> wildChild n = false ->
  insert_new_child n idxc p fp hs = Ok n' ->
  lookup_safe n' /\ path n' = path n /\ nType n' = nType n.
Proof.
  intros Hn Hflag H. unfold insert_new_child in H.
  set (child := set_fullPath fp zero_node) in H.
  set (n0 := set_children (children n ++ [child]) _) in H.
  apply lookup_safe_eq in Hn as [[Hle _] Hkids].
  assert (Forall lookup_safe (children n0)) as Hkids0.
  { apply Forall_app. split; [exact Hkids|].
    constructor; [by apply lookup_safe_leaf|constructor]. }
  destruct (incrementChildPrio n0 _) as [[n2 newPos]| |] eqn:Hinc;
    [|discriminate..].
  cbn [mbind result_bind] in H.
  apply incrementChildPrio_safe in Hinc
    as (Hkids2 & Hlen2 & Hix2 & Hw2 & Hp2 & Hty2); [|exact Hkids0].
  match type of H with
  | match children n2 !! ?k with _ => _ end = _ =>
      destruct (children n2 !! k) as [ch|] eqn:Hat; [|discriminate]
  end.
  destruct (insertChild ch p fp hs) as [ch'| |] eqn:Hins; [|discriminate..].
  cbn [mbind result_bind] in H. injection H as <-.
  apply insertChild_loop_safe in Hins as [Hch' _].
  2:{ rewrite Forall_forall in Hkids2. apply Hkids2.
      eapply list_elem_of_lookup_2, Hat. }
  split; [|split; [exact Hp2|exact Hty2]].
  apply lookup_safe_intro.
  - cbn [indices children set_children]. rewrite length_insert, Hlen2, Hix2.
    cbn [n0 indices children set_children set_indices].
    rewrite !length_app. cbn [length]. lia.
  - cbn [wildChild set_children]. rewrite Hw2. cbn [n0 wildChild set_children
      set_indices]. congruence.
  - cbn [children set_children]. apply Forall_insert; assumption.
Qed.

(** The insertion walk keeps the tree well-formed; where it does not
    split the edge of the node it stands on, it keeps the fragment and
    the type of that node. *)
Lemma addRoute_walk_safe (fuel : nat) :
  forall (n n' : node) (p fp : str) (pfi : nat)
         (hs : option (list HandlerFunc)),
    lookup_safe n -> addRoute_walk fuel n p fp pfi hs = Ok n' ->
    lookup_safe n'
    /\ (longestCommonPrefix p (path n) = length (path n) ->
        path n' = path n /\ nType n' = nType n).
Proof.
  induction fuel as [|fuel IH]; intros n n' p fp pfi hs Hn H;
    [discriminate|].
  cbn [addRoute_walk] in H.
  set (i := longestCommonPrefix p (path n)) in *.
  destruct (Nat.ltb_spec i (length (path n))) as [Hsplit|Hfull].
  - (* the edge is split *)
    split; [|lia].
    unfold split_edge in H.
    destruct (path n !! i) as [b|] eqn:Hb; [|discriminate].
    destruct (length fp <? pfi + i); [discriminate|].
    cbn [mbind result_bind path wildChild indices handlers children] in H.
    set (child := {| path := drop i (path n); indices := indices n;
                     children := children n; handlers := handlers n;
                     priority := u32 (priority n - 1); nType := static;
                     wildChild := wildChild n; fullPath := fullPath n |})
      in H.
    assert (lookup_safe child) as Hchild
      by (eapply lookup_safe_same; [| | |exact Hn]; reflexivity).
    set (n1 := {| path := take i p; indices := [b]; children := [child];
                  handlers := None; priority := priority n;
                  nType := nType n; wildChild := false;
                  fullPath := take (pfi + i) fp |}) in H.
    assert (lookup_safe n1) as Hn1.
    { apply lookup_safe_intro; [cbn; lia|discriminate|].
      constructor; [exact Hchild|constructor]. }
    destruct (i <? length p).
    + destruct (drop i p) as [|idxc q]; [discriminate|].
      destruct (index_of idxc [b]) as [k|].
      * destruct (incrementChildPrio n1 k) as [[n2 k2]| |] eqn:Hinc;
          [|discriminate..].
        cbn [mbind result_bind] in H.
        destruct (children n2 !! k2) as [c|] eqn:Hc; [|discriminate].
        destruct (addRoute_walk fuel _ _ _ _ _) as [c'| |] eqn:Hwalk;
          [|discriminate..].
        cbn [mbind result_bind] in H. injection H as <-.
        apply incrementChildPrio_safe in Hinc
          as (Hkids2 & Hlen2 & Hix2 & Hw2 & _).
        2:{ constructor; [exact Hchild|constructor]. }
        apply IH in Hwalk as [Hc' _].
        2:{ rewrite Forall_forall in Hkids2. apply Hkids2.
            eapply list_elem_of_lookup_2, Hc. }
        apply lookup_safe_intro.
        -- cbn [indices children set_children].
           rewrite length_insert, Hlen2, Hix2. cbn. lia.
        -- cbn [wildChild set_children]. rewrite Hw2. discriminate.
        -- cbn [children set_children]. apply Forall_insert; assumption.
      * destruct (negb (is_sigil idxc)).
        -- apply insert_new_child_safe in H as [H _]; done.
        -- apply insertChild_loop_safe in H as [H _]; done.
    + destruct (bool_decide _); [discriminate|]. injection H as <-.
      eapply lookup_safe_same; [| | |exact Hn1]; reflexivity.
  - assert ((i <? length (path n)) = false) as Hi by (apply Nat.ltb_ge; lia).
    cbn [mbind result_bind] in H.
    pose proof Hn as Hn0.
    apply lookup_safe_eq in Hn0 as [[Hle Hwild] Hkids].
    destruct (i <? length p).
    + destruct (wildChild n) eqn:Hflag.
      * (* the wildcard child *)
        destruct (Hwild eq_refl) as (c & cs & Hcs & Hwc).
        rewrite Hcs in H.
        destruct (wildcard_matches (incr_priority c) (drop i p)) eqn:Hm;
          [|discriminate].
        destruct (addRoute_walk fuel _ _ _ _ _) as [c'| |] eqn:Hwalk;
          [|discriminate..].
        cbn [mbind result_bind] in H. injection H as <-.
        rewrite Hcs in Hkids. apply Forall_cons in Hkids as [Hc Hrest].
        apply IH in Hwalk as [Hc' Hsame];
          [|apply lookup_safe_incr_priority, Hc].
        destruct Hsame as [Hp' Hty'].
        { unfold wildcard_matches in Hm.
          apply andb_true_iff in Hm as [Hm _].
          apply andb_true_iff in Hm as [_ Hm].
          unfold eqb_str in Hm. apply bool_decide_eq_true in Hm.
          cbn [incr_priority path set_priority] in *.
          assert (drop i p
                  = path c ++ drop (length (path c)) (drop i p)) as Hq.
          { rewrite Hm at 1. symmetry. apply take_drop. }
          rewrite Hq. apply longestCommonPrefix_app. }
        split; [|intros _; destruct n; split; reflexivity].
        apply lookup_safe_intro.
        -- cbn [indices children set_children length]. rewrite Hcs in Hle.
           cbn in Hle. exact Hle.
        -- intros _. exists c', cs. split; [reflexivity|].
           unfold wild_ok in *. rewrite Hty', Hp'. exact Hwc.
        -- cbn [children set_children]. constructor; assumption.
      * destruct (drop i p) as [|idxc q] eqn:Hd; [discriminate|].
        destruct (index_of idxc (indices n)) as [k|].
        -- destruct (incrementChildPrio n k) as [[n2 k2]| |] eqn:Hinc;
             [|discriminate..].
           cbn [mbind result_bind] in H.
           destruct (children n2 !! k2) as [c|] eqn:Hc; [|discriminate].
           destruct (addRoute_walk fuel _ _ _ _ _) as [c'| |] eqn:Hwalk;
             [|discriminate..].
           cbn [mbind result_bind] in H. injection H as <-.
           apply incrementChildPrio_safe in Hinc
             as (Hkids2 & Hlen2 & Hix2 & Hw2 & Hp2 & Hty2); [|exact Hkids].
           apply IH in Hwalk as [Hc' _].
           2:{ rewrite Forall_forall in Hkids2. apply Hkids2.
               eapply list_elem_of_lookup_2, Hc. }
           split; [|intros _; split; assumption].
           apply lookup_safe_intro.
           ++ cbn [indices children set_children].
              rewrite length_insert, Hlen2, Hix2. exact Hle.
           ++ cbn [wildChild set_children]. rewrite Hw2, Hflag. discriminate.
           ++ cbn [children set_children]. apply Forall_insert; assumption.
        -- destruct (negb (is_sigil idxc)) eqn:Hsig.
           ++ apply insert_new_child_safe in H as (H & Hp' & Hty'); auto.
           ++ apply negb_false_iff in Hsig.
              pose proof (insertChild_loop_path _ _ _ _ _ _ _ Hsig H) as Hp'.
              apply insertChild_loop_safe in H as [H Hty']; auto.
    + destruct (bool_decide _); [discriminate|]. injection H as <-.
      split; [|intros _; destruct n; split; reflexivity].
      eapply lookup_safe_same; [| | |exact Hn]; destruct n; reflexivity.
Qed.

Lemma addRoute_safe (root root' : node) (p : str)
    (hs : option (list HandlerFunc)) :
  lookup_safe root -> addRoute root p hs = Ok root' -> lookup_safe root'.
Proof.
  intros Hn H. unfold addRoute in H.
  apply lookup_safe_incr_priority in Hn.
  destruct (_ && _).
  - destruct (insertChild _ _ _ _) as [n1| |] eqn:Hins; [|discriminate..].
    cbn [mbind result_bind] in H. injection H as <-.
    apply insertChild_loop_safe in Hins as [Hn1 _]; [|exact Hn].
    eapply lookup_safe_same; [| | |exact Hn1]; destruct n1; reflexivity.
  - eapply addRoute_walk_safe; [exact Hn|exact H].
Qed.

Lemma engine_addRoute_safe (e e' : drift.Engine) (method : string)
    (p : str) (hs : list HandlerFunc) :
  trees_safe e -> drift.addRoute e method p hs = Ok e' -> trees_safe e'.
Proof.
  intros He H. unfold drift.addRoute in H.
  destruct p as [|c p]; [discriminate|].
  destruct (bool_decide (c <> slash)); [discriminate|].
  destruct (addRoute _ _ _) as [root'| |] eqn:Hadd; [|discriminate..].
  cbn [mbind result_bind] in H. injection H as <-.
  apply addRoute_safe in Hadd.
  - intros m root. cbn [drift.trees drift.set_trees].
    destruct (decide (m = method)) as [->|Hm].
    + rewrite lookup_insert_eq. intros [= <-]. exact Hadd.
    + rewrite lookup_insert_ne by congruence. apply He.
  - destruct (drift.trees e !! method) as [root|] eqn:Hroot; cbn [default].
    + eapply He, Hroot.
    + by apply lookup_safe_leaf.
Qed.

Lemma register_all_stops (routes : list (string * str * list HandlerFunc))
    (r : result drift.Engine) :
  ~ is_ok r -> foldl register_all_step r routes = r.
Proof.
  revert r. induction routes as [|route routes IH]; intros r Hr;
    [reflexivity|].
  cbn [foldl]. destruct r as [e| |]; [exfalso; apply Hr; exact I| |];
    apply IH; intros [].
Qed.

Lemma register_all_safe (routes : list (string * str * list HandlerFunc)) :
  forall e e' : drift.Engine,
    trees_safe e -> foldl register_all_step (Ok e) routes = Ok e' ->
    trees_safe e'.
Proof.
  induction routes as [|route routes IH]; intros e e' He H.
  - injection H as <-. exact He.
  - cbn [foldl register_all_step mbind result_bind] in H.
    destruct (drift.addRoute e route.1.1 route.1.2 route.2) as [e1| |] eqn:He1.
    2,3: rewrite register_all_stops in H by (intros []); discriminate.
    eapply IH; [|exact H]. eapply engine_addRoute_safe; eassumption.
Qed.

(** After any sequence of registrations, of any patterns and for any
    methods, the lookup of any path in any tree of the engine returns: no
    index or slice of [getValue] is out of range and no node type is
    invalid. *)
Theorem lookup_never_panics
    (routes : list (string * str * list HandlerFunc)) (e : drift.Engine)
    (method : string) (root : node) (q : str) :
  register_all routes drift.New = Ok e ->
  drift.trees e !! method = Some root ->
  is_ok (getValue root q).
Proof.
  intros Hreg Hroot. unfold getValue.
  apply (getValue_walk_safe (height root)); [reflexivity|].
  eapply (register_all_safe routes drift.New e); [|exact Hreg|exact Hroot].
  intros m r Hr. cbn [drift.New drift.trees] in Hr.
  rewrite lookup_empty in Hr. discriminate.
Qed.

Lemma lookup_never_panics_witness :
  exists e root,
    register_all
      [("GET"%string, bytes "/users/:id/a", [hA]);
       ("GET"%string, bytes "/users/:id/b", [hB]);
       ("GET"%string, bytes "/files/*rest", [hC]);
       ("POST"%string, bytes "/users", [hA])] drift.New = Ok e
    /\ drift.trees e !! "GET"%string = Some root
    /\ is_ok (getValue root (bytes "/users/1/b")).
Proof.
  eexists _, _. split; [vm_compute; reflexivity|].
  split; [vm_compute; reflexivity|].
  eapply (lookup_never_panics
            [("GET"%string, bytes "/users/:id/a", [hA]);
             ("GET"%string, bytes "/users/:id/b", [hB]);
             ("GET"%string, bytes "/files/*rest", [hC]);
             ("POST"%string, bytes "/users", [hA])] _ "GET");
    vm_compute; reflexivity.
Defined.

End lookup_safety.

(** ** Dispatch *)

Section dispatch.
Import tree props more context.

(** [handleRequest] on a path that the tree of the method binds. *)
Lemma handleRequest_found (e : drift.Engine) (c : Context)
    (tr : list event) (root : node) (hs : list HandlerFunc)
    (ps : gmap str str) (fp : str) (m : gmap str value) :
  drift.trees e !! Method (Request_ c) = Some root ->
  getValue root (URLPath (Request_ c)) = Ok (Some hs, Some ps, fp) ->
  store c = Some m ->
  drift.handleRequest e (c, tr)
  = Next (set_store (Some (<[bytes "_fullPath" := VString fp]> m))
            (set_Params ps (set_handlers hs c)), tr).
Proof.
  intros Hroot Hget Hst. unfold drift.handleRequest. cbn [fst snd].
  rewrite Hroot, Hget. unfold Set_.
  cbn [store set_Params set_handlers default]. rewrite Hst. reflexivity.
Qed.

(** The answer of the built-in handler for unmatched requests. *)
Lemma Next_notFoundHandler (c : Context) (tr : list event) :
  index c = (-1)%Z -> aborted c = false ->
  Next (set_handlers [drift.notFoundHandler] c, tr)
  = ((Write_ (bytes "application/json") 404 not_found_body
        (set_index 1 (set_handlers [drift.notFoundHandler] c)),
      tr ++ [Advanced (-1) 0; Invoked 0; Advanced 0 1]), Running).
Proof.
  intros Hi Hab. destruct c as [rq w ps q hs i st ab sc].
  cbn [index aborted] in Hi, Hab. subst i ab.
  unfold Next, Next_fuel. change chain_fuel with (S (S 126)).
  rewrite Next_loop_unfold.
  cbn [advance fst snd set_index set_handlers index handlers aborted length].
  change (i8 (-1 + 1)) with 0%Z. change (i8 (Z.of_nat 1)) with 1%Z.
  change (0 <? 1)%Z with true. change (0 <? 0)%Z with false. cbv iota.
  change (Z.to_nat 0) with 0. cbn [lookup list_lookup].
  unfold drift.notFoundHandler at 1. cbn [run fst snd].
  rewrite Next_loop_unfold.
  cbn [advance fst snd set_index set_handlers index handlers aborted length
       Write_].
  change (i8 (0 + 1)) with 1%Z. change (i8 (Z.of_nat 1)) with 1%Z.
  change (1 <? 1)%Z with false. cbv iota.
  unfold advance. cbn [fst snd Write_ set_index set_handlers index].
  rewrite <- !app_assoc. reflexivity.
Qed.

Lemma ServeHTTP_outcome (e : drift.Engine) (w : list write) (req : Request) :
  (drift.ServeHTTP e w req).2
  = drift.handleRequest e
      (drift.reset (drift.pool_Get (drift.pool e)).1 w req, []).
Proof.
  unfold drift.ServeHTTP. destruct (drift.pool_Get (drift.pool e)) as [c rest].
  cbn [fst]. destruct (drift.handleRequest e _) as [s st].
  destruct st; reflexivity.
Qed.

(** A request for a registered literal route: [ServeHTTP] runs the
    chain registered for the path, from its first handler, on a context
    that holds the request, no parameters and the pattern under
    [_fullPath], whatever the pooled context held before; [FullPath]
    returns the pattern there. *)
Theorem ServeHTTP_runs_registered_chain (method : string)
    (routes : list (str * list HandlerFunc)) (e e' : drift.Engine)
    (p : str) (hs : list HandlerFunc) (w : list write) (req : Request) :
  Forall (fun r => literal r.1) routes ->
  drift.register method routes drift.New = Ok e ->
  drift.trees e' = drift.trees e ->
  (p, hs) ∈ routes -> Method req = method -> URLPath req = p ->
  (drift.ServeHTTP e' w req).2 = Next (dispatched w req hs ∅ p, [])
  /\ context_api.FullPath (dispatched w req hs ∅ p) = Ok p.
Proof.
  intros Hlit Hreg Htrees Hin Hm Hp. split; [|reflexivity].
  destruct (register_models method routes drift.New ∅) as [_ Hfound];
    [exact models_empty|done|exact Hlit|].
  destruct (Hfound e Hreg) as (M & (_ & _ & _ & Hget) & Htree & _ & Hall).
  specialize (Hall p hs Hin).
  destruct Htree as [root Hroot].
  { intros ->. rewrite lookup_empty in Hall. discriminate. }
  unfold root_of in Hget. rewrite Hroot in Hget. cbn [default] in Hget.
  rewrite ServeHTTP_outcome.
  erewrite handleRequest_found.
  - unfold dispatched, drift.reset.
    cbn [set_store set_Params set_handlers Request_ Response Params Query
         handlers index store aborted statusCode].
    rewrite insert_empty. reflexivity.
  - cbn [drift.reset Request_]. rewrite Htrees, Hm. exact Hroot.
  - cbn [drift.reset Request_]. unfold getValue. rewrite Hp, Hget, Hall.
    reflexivity.
  - reflexivity.
Qed.

Lemma ServeHTTP_runs_registered_chain_witness :
  exists e,
    drift.register "GET" [(bytes "/api/users", [hA; hB])] drift.New = Ok e
    /\ (drift.ServeHTTP e []
          {| Method := "GET"; URLPath := bytes "/api/users";
             URLQuery := ∅ |}).2
       = Next (dispatched []
                 {| Method := "GET"; URLPath := bytes "/api/users";
                    URLQuery := ∅ |} [hA; hB] ∅ (bytes "/api/users"), []).
Proof.
  eexists. split; [vm_compute; reflexivity|].
  eapply (ServeHTTP_runs_registered_chain "GET"
            [(bytes "/api/users", [hA; hB])]).
  - repeat constructor.
  - vm_compute. reflexivity.
  - reflexivity.
  - left.
  - reflexivity.
  - reflexivity.
Defined.

(** A request that no route matches (there is no tree for its method, or
    the lookup in the tree finds no chain) is answered by the built-in
    handler: status 404 with the JSON object that has the one field error, Not Found;
    [ServeHTTP] returns normally and puts the context back into the
    pool. *)
Theorem unmatched_request_is_answered_404 (e : drift.Engine)
    (w : list write) (req : Request) :
  (forall root,
      drift.trees e !! Method req = Some root ->
      exists ps fp, getValue root (URLPath req) = Ok (None, ps, fp)) ->
  drift.ServeHTTP e w req
  = (drift.set_pool (answered_404 w req :: tail (drift.pool e)) e,
     ((answered_404 w req, [Advanced (-1) 0; Invoked 0; Advanced 0 1]),
      Running)).
Proof.
  intros Hmiss. unfold drift.ServeHTTP.
  assert (forall c,
             drift.handleRequest e (drift.reset c w req, [])
             = ((answered_404 w req,
                 [Advanced (-1) 0; Invoked 0; Advanced 0 1]), Running))
    as Hh.
  { intros c. unfold drift.handleRequest. cbn [fst snd drift.reset Request_].
    assert (forall c0, c0 = drift.reset c w req ->
              Next (set_handlers [drift.notFoundHandler] c0, [])
              = ((answered_404 w req,
                  [Advanced (-1) 0; Invoked 0; Advanced 0 1]), Running))
      as Hnf.
    { intros c0 ->. rewrite Next_notFoundHandler by reflexivity.
      reflexivity. }
    specialize (Hnf _ eq_refl). unfold drift.reset in Hnf.
    destruct (drift.trees e !! Method req) as [root|] eqn:Hroot;
      [|exact Hnf].
    destruct (Hmiss root eq_refl) as (ps & fp & ->). exact Hnf. }
  destruct (drift.pool e) as [|c rest]; cbn [drift.pool_Get tail];
    rewrite Hh; reflexivity.
Qed.

Lemma unmatched_request_is_answered_404_witness :
  drift.ServeHTTP drift.New []
    {| Method := "GET"; URLPath := bytes "/nothing"; URLQuery := ∅ |}
  = (drift.set_pool
       [answered_404 []
          {| Method := "GET"; URLPath := bytes "/nothing"; URLQuery := ∅ |}]
       drift.New,
     ((answered_404 []
         {| Method := "GET"; URLPath := bytes "/nothing"; URLQuery := ∅ |},
       [Advanced (-1) 0; Invoked 0; Advanced 0 1]), Running)).
Proof.
  apply (unmatched_request_is_answered_404 drift.New).
  intros root Hroot. cbn in Hroot. rewrite lookup_empty in Hroot.
  discriminate.
Defined.

End dispatch.

(** ** Chains of plain handlers; the int8 bound *)

Section plain_chains.
Import tree props more context.

(** A plain handler returns and leaves the chain state alone. *)
Lemma run_plain (next : run_state -> outcome) (h : hprog) :
  no_next h -> no_abort h ->
  forall s, store s.1 <> None ->
  exists s', run next h s = (s', Running)
             /\ handlers s'.1 = handlers s.1 /\ index s'.1 = index s.1
             /\ store s'.1 <> None /\ invocations s'.2 = invocations s.2
             /\ aborted s'.1 = aborted s.1.
Proof.
  induction 1 as [|k _ IH|key v k _ IH|key k _ IH|key k _ IH|k _ IH
    |ct code body k _ IH]; intros Hna [c tr] Hst; cbn [run fst snd] in *.
  - eauto 10.
  - inversion Hna.
  - inversion Hna; subst. unfold Set_.
    destruct (store c) as [m|] eqn:Hm; [|done].
    destruct (IH ltac:(assumption) (set_store (Some (<[key:=v]> m)) c, tr))
      as (s' & -> & ? & ? & ? & ? & ?); [done|]. eauto 10.
  - inversion Hna; subst. apply (IH _ ltac:(auto) (c, tr)). exact Hst.
  - inversion Hna; subst. apply (IH _ ltac:(auto) (c, tr)). exact Hst.
  - inversion Hna; subst. apply (IH _ ltac:(auto) (c, tr)). exact Hst.
  - inversion Hna; subst.
    destruct (IH ltac:(assumption) (Write_ ct code body c, tr))
      as (s' & -> & ? & ? & ? & ? & ?); [exact Hst|]. eauto 10.
Qed.

Lemma positions_snoc (n : nat) : positions (S n) = positions n ++ [Z.of_nat n].
Proof. unfold positions. rewrite seq_S, fmap_app. reflexivity. Qed.

(** The loop of [Next] over plain handlers, [k] of them still to run. *)
Lemma Next_loop_plain (hs : list HandlerFunc) (k : nat) :
  Forall plain hs -> length hs <= 127 ->
  forall (fuel : nat) (s : run_state),
    k <= fuel -> handlers s.1 = hs ->
    (index s.1 + 1 + Z.of_nat k = Z.of_nat (length hs))%Z ->
    (-1 <= index s.1)%Z ->
    aborted s.1 = false -> store s.1 <> None ->
    exists s',
      Next_loop fuel (advance s) = (s', Running)
      /\ handlers s'.1 = hs /\ index s'.1 = Z.of_nat (length hs)
      /\ aborted s'.1 = false /\ store s'.1 <> None
      /\ invocations s'.2
         = invocations s.2
           ++ (Z.of_nat <$> seq (Z.to_nat (index s.1 + 1)) k).
Proof.
  intros Hplain Hlen. induction k as [|k IH];
    intros fuel [c tr] Hfuel Hh Hidx Hlow Hab Hst; cbn [fst snd] in *.
  - exists (advance (c, tr)).
    assert (i8 (index c + 1) = Z.of_nat (length hs)) as Hi.
    { rewrite i8_small; [lia|]. unfold int8. lia. }
    assert (i8 (Z.of_nat (length hs)) = Z.of_nat (length hs)) as Hl.
    { apply i8_small. unfold int8. lia. }
    split.
    { destruct fuel; cbn [Next_loop];
        cbn [advance fst snd set_index index handlers];
        rewrite Hh, Hi, Hl, Z.ltb_irrefl; reflexivity. }
    cbn [advance fst snd set_index index handlers aborted store].
    rewrite invocations_app. cbn. rewrite !app_nil_r. auto.
  - destruct fuel as [|fuel]; [lia|].
    assert (i8 (index c + 1) = index c + 1)%Z as Hi.
    { apply i8_small. unfold int8. lia. }
    assert (i8 (Z.of_nat (length hs)) = Z.of_nat (length hs)) as Hl.
    { apply i8_small. unfold int8. lia. }
    rewrite Next_loop_unfold.
    cbn [advance fst snd set_index index handlers aborted].
    rewrite Hh, Hi, Hl, Hab.
    assert ((index c + 1 <? Z.of_nat (length hs))%Z = true) as ->
      by (apply Z.ltb_lt; lia).
    assert ((index c + 1 <? 0)%Z = false) as -> by (apply Z.ltb_ge; lia).
    destruct (hs !! Z.to_nat (index c + 1)) as [h|] eqn:Hh0.
    2:{ exfalso. apply lookup_ge_None in Hh0. unfold HandlerFunc in *. lia. }
    assert (plain h) as [Hnn Hna].
    { rewrite Forall_forall in Hplain. apply Hplain.
      eapply list_elem_of_lookup_2, Hh0. }
    destruct (run_plain (fun s0 => Next_loop fuel (advance s0)) h Hnn Hna
                (set_index (index c + 1) c,
                 (tr ++ [Advanced (index c) (index c + 1)])
                 ++ [Invoked (index c + 1)]))
      as ([c1 tr1] & -> & Hh1 & Hi1 & Hst1 & Hinv1 & Hab1); [exact Hst|].
    cbn [fst snd set_index handlers index aborted store] in *.
    destruct (IH fuel (c1, tr1)) as (s' & -> & Hh' & Hi' & Hab' & Hst' & Hinv');
      cbn [fst snd]; try lia; try congruence.
    exists s'. split; [reflexivity|]. repeat (split; [assumption|]).
    cbn [fst snd] in Hinv'.
    rewrite Hinv', Hinv1, Hi1, !invocations_app. cbn.
    rewrite app_nil_r, <- app_assoc. f_equal. cbn [app].
    replace (Z.to_nat (index c + 1 + 1)) with (S (Z.to_nat (index c + 1)))
      by lia.
    rewrite Z2Nat.id by lia. reflexivity.
Qed.

(** A chain of at most 127 plain handlers, run by [Next] from the cursor
    -1: every handler is invoked once, in the order of the chain; [Next]
    returns with the cursor at the length of the chain. *)
Theorem plain_chain_runs_in_order (c : Context) :
  Forall plain (handlers c) -> length (handlers c) <= 127 ->
  index c = (-1)%Z -> aborted c = false -> store c <> None ->
  exists c' tr,
    Next (c, []) = ((c', tr), Running)
    /\ invocations tr = positions (length (handlers c))
    /\ index c' = Z.of_nat (length (handlers c))
    /\ aborted c' = false.
Proof.
  intros Hplain Hlen Hi Hab Hst.
  destruct (Next_loop_plain (handlers c) (length (handlers c)) Hplain Hlen
              chain_fuel (c, []))
    as ([c' tr] & HN & _ & Hi' & Hab' & _ & Hinv); cbn [fst snd];
    try done; try (rewrite Hi; lia).
  { unfold chain_fuel. lia. }
  exists c', tr. split; [exact HN|]. cbn [fst snd] in *.
  rewrite Hinv, Hi. auto.
Qed.

Lemma plain_chain_runs_in_order_witness :
  exists c' tr,
    Next (set_handlers [hA; hB; hC]
            (drift.reset drift.zero_Context [] some_request), [])
    = ((c', tr), Running)
    /\ invocations tr = positions 3
    /\ index c' = 3%Z /\ aborted c' = false.
Proof.
  apply (plain_chain_runs_in_order
           (set_handlers [hA; hB; hC]
              (drift.reset drift.zero_Context [] some_request))).
  - repeat constructor.
  - cbn. lia.
  - reflexivity.
  - reflexivity.
  - discriminate.
Defined.

(** The loop of [Next] compares the cursor with [int8(len(c.handlers))]:
    no handler at a position from that bound on is ever invoked, and a
    chain of 128 to 256 handlers, whose length is not positive as an
    int8, runs no handler at all: [Next] only moves the cursor and
    returns. *)
Theorem handlers_beyond_int8_never_run (c : Context) (fuel : nat) :
  int8 (index c) ->
  (forall j, j ∈ invocations (Next_fuel fuel (c, [])).1.2 ->
             (0 <= j < i8 (Z.of_nat (length (handlers c))))%Z)
  /\ (128 <= length (handlers c) <= 256 -> index c = (-1)%Z ->
      Next (c, []) = ((set_index 0 c, [Advanced (-1) 0]), Running)).
Proof.
  intros Hr. split.
  - apply (inv_invoked _ _ (Next_fuel_chain_inv c fuel Hr)).
  - intros Hlen Hi. unfold Next, Next_fuel. change chain_fuel with (S 127).
    rewrite Next_loop_unfold.
    cbn [advance fst snd set_index index handlers]. rewrite Hi.
    change (i8 (-1 + 1)) with 0%Z.
    assert ((0 <? i8 (Z.of_nat (length (handlers c))))%Z = false) as ->.
    2:{ unfold advance. cbn [fst snd]. rewrite Hi. reflexivity. }
    apply Z.ltb_ge. unfold i8.
    destruct (decide (length (handlers c) = 256)) as [->|Hne];
      [reflexivity|].
    replace ((Z.of_nat (length (handlers c)) + 128) mod 256)%Z
      with (Z.of_nat (length (handlers c)) - 128)%Z; [lia|].
    apply Z.mod_unique with 1%Z; lia.
Qed.

Lemma handlers_beyond_int8_never_run_witness :
  Next (set_handlers (replicate 128 hA)
          (drift.reset drift.zero_Context [] some_request), [])
  = ((set_index 0
        (set_handlers (replicate 128 hA)
           (drift.reset drift.zero_Context [] some_request)),
      [Advanced (-1) 0]), Running).
Proof.
  apply (handlers_beyond_int8_never_run
           (set_handlers (replicate 128 hA)
              (drift.reset drift.zero_Context [] some_request)) 0).
  - unfold int8. cbn. lia.
  - cbn [handlers set_handlers]. rewrite length_replicate. lia.
  - reflexivity.
Defined.

End plain_chains.

(** ** Catch-all routes *)

Section catch_all.
Import tree props more context.

Lemma findWildcard_catch_all (pre nm : str) :
  literal pre -> slash ∉ nm -> literal nm ->
  findWildcard (catch_all_pattern pre nm)
  = (star :: nm, Z.of_nat (S (length pre)), true).
Proof.
  intros Hpre Hs Hl. unfold findWildcard, catch_all_pattern.
  change (pre ++ slash :: star :: nm) with (pre ++ [slash] ++ star :: nm).
  rewrite app_assoc.
  rewrite findWildcard_from_app
    by (apply literal_app; split; [exact Hpre|by repeat constructor]).
  cbn [findWildcard_from]. change (is_sigil star) with true. cbv iota.
  rewrite wildcardEnd_name by assumption.
  rewrite firstn_all, length_app. cbn [length Nat.add].
  do 2 f_equal. lia.
Qed.

(** Registration of [pre ++ "/*" ++ nm] in an empty tree. *)
Lemma addRoute_catch_all (pre nm : str) (hs : list HandlerFunc) :
  literal pre -> param_name nm ->
  addRoute zero_node (catch_all_pattern pre nm) (Some hs)
  = Ok (catch_all_tree pre nm hs).
Proof.
  intros Hpre (Hne & Hs & Hl).
  unfold addRoute. cbn [incr_priority zero_node set_priority path children
    length Nat.eqb andb priority].
  unfold insertChild.
  destruct (length (catch_all_pattern pre nm)) as [|fuel] eqn:Hlen.
  { unfold catch_all_pattern in Hlen. rewrite length_app in Hlen.
    cbn in Hlen. lia. }
  cbn [insertChild_loop]. rewrite findWildcard_catch_all by assumption.
  assert ((Z.of_nat (S (length pre)) <? 0)%Z = false) as ->
    by (apply Z.ltb_ge; lia).
  destruct nm as [|x nm]; [done|].
  change (length (star :: x :: nm) <? 2) with false.
  cbn [negb children incr_priority set_priority zero_node length path].
  change (0 <? 0) with false.
  rewrite (bool_decide_eq_false_2 (head (star :: x :: nm) = Some colon))
    by discriminate.
  cbn [andb].
  assert ((Z.of_nat (S (length pre)) + Z.of_nat (S (S (length nm)))
           =? Z.of_nat (length (catch_all_pattern pre (x :: nm))))%Z = true)
    as ->.
  { apply Z.eqb_eq. unfold catch_all_pattern. rewrite length_app.
    cbn [length]. lia. }
  cbn [negb].
  assert ((Z.of_nat (S (length pre)) - 1 <? 0)%Z = false) as ->
    by (apply Z.ltb_ge; lia).
  replace (Z.to_nat (Z.of_nat (S (length pre)) - 1)) with (length pre) by lia.
  unfold catch_all_pattern at 1.
  rewrite list_lookup_middle by reflexivity.
  rewrite (bool_decide_eq_true_2 (slash = slash)) by reflexivity.
  cbn [negb mbind result_bind].
  assert (drop (length pre) (catch_all_pattern pre (x :: nm))
          = slash :: star :: x :: nm) as ->
    by apply drop_app_length.
  assert (take (length pre) (catch_all_pattern pre (x :: nm)) = pre) as ->
    by apply take_app_length.
  reflexivity.
Qed.

(** Lookup in that tree: exactly the paths [pre ++ "/" ++ v] are found,
    and the variable is bound to [/] followed by [v]. *)
Lemma getValue_catch_all_tree (pre nm : str) (hs : list HandlerFunc)
    (q : str) :
  (exists v, q = pre ++ slash :: v
     /\ getValue (catch_all_tree pre nm hs) q
        = Ok (Some hs, Some {[ nm := slash :: v ]}, catch_all_pattern pre nm))
  \/ ((forall v, q <> pre ++ slash :: v)
      /\ getValue (catch_all_tree pre nm hs) q = Ok not_found).
Proof.
  unfold getValue. rewrite getValue_walk_eq.
  cbn [catch_all_tree path indices children handlers wildChild fullPath].
  destruct (length pre <? length q) eqn:Hlen.
  - apply Nat.ltb_lt in Hlen. unfold eqb_str. case_bool_decide as Hpre.
    + destruct (drop (length pre) q) as [|idxc rest] eqn:Hd.
      { apply (f_equal length) in Hd. rewrite length_drop in Hd. simpl in Hd.
        lia. }
      assert (q = pre ++ idxc :: rest) as Hq.
      { rewrite <- Hd, <- Hpre at 1. symmetry. by rewrite take_drop. }
      cbn [index_of]. case_bool_decide as Hc.
      * subst idxc. left. exists rest. split; [exact Hq|].
        cbn [lookup list_lookup]. rewrite getValue_walk_eq.
        cbn [path indices children handlers wildChild fullPath length
             index_of take drop eqb_str].
        change (0 <? S (length rest)) with true. cbv iota.
        change (eqb_str [] []) with true. cbv iota.
        unfold getValue_wild. cbn [nType path handlers fullPath length drop].
        change (S (S (length nm)) <? 2) with false. cbv iota.
        rewrite insert_empty. reflexivity.
      * right. split; [|reflexivity].
        intros v Hv. rewrite Hq in Hv. apply app_inv_head in Hv.
        congruence.
    + right. split; [|reflexivity].
      intros v ->. apply Hpre. by rewrite take_app_length.
  - apply Nat.ltb_ge in Hlen. right. split.
    + intros v ->. rewrite length_app in Hlen. simpl in Hlen. lia.
    + unfold eqb_str. case_bool_decide; reflexivity.
Qed.


(** A catch-all pattern [pre ++ "/*" ++ nm], the only one of its tree:
    the lookup finds exactly the paths that continue [pre] with a
    separator, anything may follow, and binds [nm] to the rest of the
    path from that separator on; [pre] itself and every other path are
    not found. *)
Theorem catch_all_route_matches_subtree (method : string) (pre nm : str)
    (hs : list HandlerFunc) :
  literal pre -> pre = [] \/ starts_with_slash pre -> param_name nm ->
  exists e root,
    drift.register method [(catch_all_pattern pre nm, hs)] drift.New = Ok e
    /\ drift.trees e !! method = Some root
    /\ forall q,
         (exists v, q = pre ++ slash :: v
            /\ getValue root q
               = Ok (Some hs, Some {[ nm := slash :: v ]},
                     catch_all_pattern pre nm))
         \/ ((forall v, q <> pre ++ slash :: v)
             /\ getValue root q = Ok not_found).
Proof.
  intros Hpre Hstart Hnm.
  destruct (register_first method (catch_all_pattern pre nm) hs
              (catch_all_tree pre nm hs)) as (e & He & Hroot).
  - destruct Hstart as [->|Hs]; [reflexivity|].
    destruct pre; [discriminate|exact Hs].
  - apply addRoute_catch_all; assumption.
  - exists e, (catch_all_tree pre nm hs).
    split; [exact He|]. split; [exact Hroot|].
    apply getValue_catch_all_tree.
Qed.

Lemma catch_all_route_matches_subtree_witness :
  exists e root,
    drift.register "GET"
      [(catch_all_pattern (bytes "/static") (bytes "file"), [hA])] drift.New
    = Ok e
    /\ drift.trees e !! "GET"%string = Some root
    /\ forall q,
         (exists v, q = bytes "/static" ++ slash :: v
            /\ getValue root q
               = Ok (Some [hA], Some {[ bytes "file" := slash :: v ]},
                     catch_all_pattern (bytes "/static") (bytes "file")))
         \/ ((forall v, q <> bytes "/static" ++ slash :: v)
             /\ getValue root q = Ok not_found).
Proof.
  apply (catch_all_route_matches_subtree "GET" (bytes "/static")
           (bytes "file") [hA]).
  - repeat constructor.
  - right. reflexivity.
  - split; [discriminate|]. split; [|repeat constructor].
    apply (bool_decide_unpack _). vm_compute. exact I.
Defined.

(** [Next] on a chain of one handler that writes one answer. *)
Lemma Next_single_answer (c : Context) (tr : list event)
    (ct : str) (code : Z) (body : str) :
  index c = (-1)%Z -> aborted c = false ->
  handlers c = [CallWrite ct code body Done] ->
  Next (c, tr)
  = ((Write_ ct code body (set_index 1 c),
      tr ++ [Advanced (-1) 0; Invoked 0; Advanced 0 1]), Running).
Proof.
  intros Hi Hab Hh. destruct c as [rq w ps q hs i st ab sc].
  cbn [index aborted handlers] in Hi, Hab, Hh. subst i ab hs.
  unfold Next, Next_fuel. change chain_fuel with (S (S 126)).
  rewrite Next_loop_unfold.
  cbn [advance fst snd set_index index handlers aborted length].
  change (i8 (-1 + 1)) with 0%Z. change (i8 (Z.of_nat 1)) with 1%Z.
  change (0 <? 1)%Z with true. change (0 <? 0)%Z with false. cbv iota.
  change (Z.to_nat 0) with 0. cbn [lookup list_lookup run fst snd].
  rewrite Next_loop_unfold.
  cbn [advance fst snd set_index index handlers aborted length Write_].
  change (i8 (0 + 1)) with 1%Z. change (i8 (Z.of_nat 1)) with 1%Z.
  change (1 <? 1)%Z with false. cbv iota.
  unfold advance. cbn [fst snd Write_ set_index index].
  rewrite <- !app_assoc. reflexivity.
Qed.

(** [Static] on a new engine, for a literal prefix [rel] other than the
    root: it registers the catch-all [rel ++ "/*filepath"] for GET, and
    every GET request for a path that continues [rel] with a separator
    is answered with status 200 and the text that names the root
    directory, the rest of the path being bound to [filepath]. *)
Theorem Static_serves_every_path_below (rel root : str) :
  literal rel -> starts_with_slash rel -> rel <> [slash] ->
  exists e,
    routes.Static drift.New (drift.RouterGroup_ drift.New) rel root = Ok e
    /\ forall (e' : drift.Engine) (w : list write) (req : Request) (v : str),
         drift.trees e' = drift.trees e ->
         Method req = "GET"%string -> URLPath req = rel ++ slash :: v ->
         exists c' tr,
           (drift.ServeHTTP e' w req).2 = ((c', tr), Running)
           /\ Response c'
              = w ++ [(bytes "text/plain", 200%Z,
                       bytes "Static file serving for: " ++ root)]
           /\ statusCode c' = 200%Z
           /\ Params c' = {[ bytes "filepath" := slash :: v ]}.
Proof.
  intros Hl Hs Hne.
  assert (router.joinPaths [slash]
            (router.joinPaths rel (bytes "/*filepath"))
          = catch_all_pattern rel (bytes "filepath")) as Hjoin.
  { destruct rel as [|c rel]; [discriminate|]. injection Hs as ->.
    unfold router.joinPaths at 2.
    rewrite (bool_decide_eq_false_2 (bytes "/*filepath" = [])) by discriminate.
    rewrite (bool_decide_eq_false_2 (slash :: rel = [])) by discriminate.
    rewrite (bool_decide_eq_true_2 (head (bytes "/*filepath") = Some slash))
      by reflexivity.
    rewrite (bool_decide_eq_false_2 (slash :: rel = [slash])) by exact Hne.
    unfold router.joinPaths. cbn [app head].
    rewrite (bool_decide_eq_false_2 (slash :: _ = [])) by discriminate.
    rewrite (bool_decide_eq_false_2 ([slash] = [])) by discriminate.
    rewrite (bool_decide_eq_true_2 (Some slash = Some slash)) by reflexivity.
    rewrite (bool_decide_eq_true_2 ([slash] = [slash])) by reflexivity.
    reflexivity. }
  destruct (register_first "GET" (catch_all_pattern rel (bytes "filepath"))
              [routes.static_handler root]
              (catch_all_tree rel (bytes "filepath")
                 [routes.static_handler root])) as (e & He & Hroot).
  { destruct rel; [discriminate|exact Hs]. }
  { apply addRoute_catch_all; [exact Hl|].
    split; [discriminate|]. split; [|repeat constructor].
    apply (bool_decide_unpack _). vm_compute. exact I. }
  exists e. split.
  { unfold routes.Static, routes.Get, drift.handle,
      router.calculateAbsolutePath, router.combineHandlers.
    cbn [drift.New drift.RouterGroup_ router.basePath router.handlers app].
    rewrite Hjoin. exact He. }
  intros e' w req v Htrees Hm Hp.
  destruct (getValue_catch_all_tree rel (bytes "filepath")
              [routes.static_handler root] (rel ++ slash :: v))
    as [(v' & Hv & Hget)|[Hno _]]; [|exfalso; eapply Hno; reflexivity].
  apply app_inv_head in Hv. injection Hv as <-.
  rewrite ServeHTTP_outcome.
  erewrite handleRequest_found.
  2:{ cbn [drift.reset Request_]. rewrite Htrees, Hm. exact Hroot. }
  2:{ cbn [drift.reset Request_]. rewrite Hp. exact Hget. }
  2:{ reflexivity. }
  erewrite Next_single_answer; [|reflexivity..].
  eexists _, _. split; [reflexivity|]. split; [|split]; reflexivity.
Qed.

Lemma Static_serves_every_path_below_witness :
  exists e,
    routes.Static drift.New (drift.RouterGroup_ drift.New)
      (bytes "/assets") (bytes "./public") = Ok e
    /\ forall (e' : drift.Engine) (w : list write) (req : Request) (v : str),
         drift.trees e' = drift.trees e ->
         Method req = "GET"%string ->
         URLPath req = bytes "/assets" ++ slash :: v ->
         exists c' tr,
           (drift.ServeHTTP e' w req).2 = ((c', tr), Running)
           /\ Response c'
              = w ++ [(bytes "text/plain", 200%Z,
                       bytes "Static file serving for: "
                       ++ bytes "./public")]
           /\ statusCode c' = 200%Z
           /\ Params c' = {[ bytes "filepath" := slash :: v ]}.
Proof.
  apply (Static_serves_every_path_below (bytes "/assets") (bytes "./public")).
  - repeat constructor.
  - reflexivity.
  - discriminate.
Defined.

End catch_all.

(** ** Exact lookup of literal routes; registration through groups *)

Section literal_exact.
Import tree props more context.

(** The lookup after a registration of literal patterns. *)
Lemma literal_lookup_cases (method : string)
    (routes : list (str * list HandlerFunc)) (e : drift.Engine) (q : str) :
  Forall (fun r => literal r.1) routes ->
  drift.register method routes drift.New = Ok e ->
  (exists hs, (q, hs) ∈ routes
              /\ getValue (root_of method e) q = Ok (Some hs, Some ∅, q))
  \/ ((q ∉ routes.*1) /\ getValue (root_of method e) q = Ok not_found).
Proof.
  intros Hlit Hreg.
  destruct (register_models method routes drift.New ∅) as [_ Hfound];
    [exact models_empty|done|exact Hlit|].
  destruct (Hfound e Hreg) as (M & (_ & _ & _ & Hget) & _ & _ & Hall).
  destruct (register_domain method routes drift.New e ∅ models_empty Hlit
              Hreg) as (M' & (_ & _ & _ & Hget') & Hdom).
  unfold getValue.
  destruct (decide (q ∈ routes.*1)) as [Hin|Hnot].
  - left. apply list_elem_of_fmap in Hin as ([q' hs] & -> & Hin).
    cbn [fst]. exists hs. split; [exact Hin|].
    rewrite Hget, (Hall _ _ Hin). reflexivity.
  - right. split; [exact Hnot|]. rewrite Hget'.
    destruct (M' !! q) as [hs|] eqn:Hq; [|reflexivity].
    exfalso. destruct (proj1 (Hdom q) ltac:(eauto)) as [[? Hx]|Hx].
    + rewrite lookup_empty in Hx. discriminate.
    + exact (Hnot Hx).
Qed.

(** After the registration of literal patterns, the lookup finds the
    registered paths, each with its own chain, and no other path: a path
    that was not registered is not found, however close it is to a
    registered one. *)
Theorem literal_lookup_is_exact (method : string)
    (routes : list (str * list HandlerFunc)) (e : drift.Engine) (q : str) :
  Forall (fun r => literal r.1) routes ->
  drift.register method routes drift.New = Ok e ->
  (exists hs, (q, hs) ∈ routes
              /\ getValue (root_of method e) q = Ok (Some hs, Some ∅, q))
  \/ ((q ∉ routes.*1) /\ getValue (root_of method e) q = Ok not_found).
Proof. apply literal_lookup_cases. Qed.

Lemma literal_lookup_is_exact_witness :
  exists e,
    drift.register "GET"
      [(bytes "/api/users", [hA]); (bytes "/api/usage", [hB])] drift.New
    = Ok e
    /\ ((exists hs,
           (bytes "/api/us", hs)
             ∈ [(bytes "/api/users", [hA]); (bytes "/api/usage", [hB])]
           /\ getValue (root_of "GET" e) (bytes "/api/us")
              = Ok (Some hs, Some ∅, bytes "/api/us"))
        \/ ((bytes "/api/us"
              ∉ [(bytes "/api/users", [hA]); (bytes "/api/usage", [hB])].*1)
            /\ getValue (root_of "GET" e) (bytes "/api/us") = Ok not_found)).
Proof.
  eexists. split; [vm_compute; reflexivity|].
  apply (literal_lookup_is_exact "GET"
           [(bytes "/api/users", [hA]); (bytes "/api/usage", [hB])]).
  - repeat constructor.
  - vm_compute. reflexivity.
Defined.

End literal_exact.

(** ** Registration through groups *)

Section groups.
Import tree props more context.

Lemma joinPaths_starts_with_slash (base rel : str) :
  starts_with_slash base -> starts_with_slash (router.joinPaths base rel).
Proof.
  unfold starts_with_slash, router.joinPaths. intros Hb.
  destruct base as [|c base]; [discriminate|]. injection Hb as ->.
  case_bool_decide; [reflexivity|].
  rewrite (bool_decide_eq_false_2 (slash :: base = [])) by discriminate.
  repeat case_bool_decide; try reflexivity. assumption.
Qed.

Lemma derived_basePath (g : router.RouterGroup) :
  derived g -> starts_with_slash (router.basePath g).
Proof.
  induction 1 as [|g rel hs _ IH|g mw _ IH]; [reflexivity| |exact IH].
  apply joinPaths_starts_with_slash, IH.
Qed.

(** A route registered through a group of the application, with any
    relative path (empty, with or without leading separator): the
    absolute path that [handle] computes starts with the separator, so
    that the check of [Engine.addRoute] passes and the registration is
    that of [addRoute] on the tree of the method, with the middleware of
    the group in front of the handlers of the route. *)
Theorem group_routes_pass_separator_check (g : router.RouterGroup)
    (e : drift.Engine) (method : string) (rel : str)
    (hs : list HandlerFunc) :
  derived g ->
  starts_with_slash (router.calculateAbsolutePath g rel)
  /\ drift.handle e g method rel hs
     = (root ← addRoute (root_of method e)
                 (router.joinPaths (router.basePath g) rel)
                 (Some (router.handlers g ++ hs));
        Ok (drift.set_trees (<[method := root]> (drift.trees e)) e)).
Proof.
  intros Hg. pose proof (derived_basePath g Hg) as Hb.
  pose proof (joinPaths_starts_with_slash _ rel Hb) as Hs.
  split; [exact Hs|].
  unfold drift.handle, drift.addRoute, router.calculateAbsolutePath,
    router.combineHandlers.
  destruct (router.joinPaths (router.basePath g) rel) as [|c p];
    [discriminate|].
  injection Hs as ->.
  rewrite bool_decide_eq_false_2 by (intros H; apply H; reflexivity).
  reflexivity.
Qed.

Lemma group_routes_pass_separator_check_witness :
  starts_with_slash
    (router.calculateAbsolutePath
       (router.Group (drift.RouterGroup_ drift.New) (bytes "api") [hA])
       (bytes "users"))
  /\ drift.handle drift.New
       (router.Group (drift.RouterGroup_ drift.New) (bytes "api") [hA])
       "GET" (bytes "users") [hB]
     = (root ← addRoute (root_of "GET" drift.New)
                 (router.joinPaths
                    (router.basePath
                       (router.Group (drift.RouterGroup_ drift.New)
                          (bytes "api") [hA]))
                    (bytes "users"))
                 (Some (router.handlers
                          (router.Group (drift.RouterGroup_ drift.New)
                             (bytes "api") [hA]) ++ [hB]));
        Ok (drift.set_trees
              (<["GET"%string := root]> (drift.trees drift.New)) drift.New)).
Proof.
  apply group_routes_pass_separator_check.
  apply derived_Group, derived_engine.
Defined.

End groups.

(** ** Routes of groups are found; other lookups are unchanged *)

Section group_routes.
Import tree props more context.

Lemma engine_addRoute_other (e e' : drift.Engine) (method : string)
    (p : str) (hs : list HandlerFunc) :
  drift.addRoute e method p hs = Ok e' ->
  forall m, m <> method -> root_of m e' = root_of m e.
Proof.
  unfold drift.addRoute. intros H m Hm.
  destruct p as [|c p]; [discriminate|].
  destruct (bool_decide (c <> slash)); [discriminate|].
  destruct (tree.addRoute _ _ _) as [root| |]; try discriminate.
  cbn in H. injection H as <-. unfold root_of. cbn.
  rewrite lookup_insert_ne by congruence. reflexivity.
Qed.

Lemma tracked_New : tracked [] drift.New.
Proof.
  intros m. exists ∅. split; [exact models_empty|].
  intros p [x Hx]. rewrite lookup_empty in Hx. discriminate.
Qed.

Lemma engine_addRoute_tracked (seen : list (string * str))
    (e e' : drift.Engine) (method : string) (p : str)
    (hs : list HandlerFunc) :
  tracked seen e -> literal p ->
  drift.addRoute e method p hs = Ok e' ->
  tracked (seen ++ [(method, p)]) e'.
Proof.
  intros Ht Hl Hadd m. destruct (Ht m) as (M & HM & Hseen).
  destruct (decide (m = method)) as [->|Hm].
  - destruct (engine_addRoute_models method M e p hs HM Hl) as [Hfwd Hbwd].
    destruct (Hbwd e' Hadd) as [Hs Hnone].
    destruct (Hfwd Hs Hnone) as (e'' & He'' & HM' & _).
    assert (e'' = e') as -> by congruence.
    exists (<[p := hs]> M). split; [exact HM'|].
    intros q Hq. apply elem_of_app.
    destruct (decide (q = p)) as [->|Hne].
    + right. apply list_elem_of_singleton. reflexivity.
    + left. apply Hseen. rewrite lookup_insert_ne in Hq by congruence.
      exact Hq.
  - exists M. rewrite (engine_addRoute_other e e' method p hs Hadd m Hm).
    split; [exact HM|]. intros q Hq. apply elem_of_app. left.
    apply Hseen, Hq.
Qed.

Lemma register_all_tracked (routes : list (string * str * list HandlerFunc)) :
  forall (seen : list (string * str)) (e e' : drift.Engine),
    tracked seen e ->
    Forall (fun r => literal r.1.2) routes ->
    foldl register_all_step (Ok e) routes = Ok e' ->
    tracked (seen ++ routes.*1) e'.
Proof.
  induction routes as [|[[m p] hs] routes IH]; intros seen e e' Ht Hl Hf.
  - injection Hf as <-. cbn. rewrite app_nil_r. exact Ht.
  - apply Forall_cons in Hl as [Hl Hls]. cbn [fst snd] in Hl.
    cbn [foldl register_all_step mbind result_bind fst snd] in Hf.
    destruct (drift.addRoute e m p hs) as [e1| |] eqn:He1.
    + cbn [fmap list_fmap fst].
      change ((m, p) :: routes.*1) with ([(m, p)] ++ routes.*1).
      rewrite app_assoc. apply (IH _ e1 e'); [|exact Hls|exact Hf].
      exact (engine_addRoute_tracked seen e e1 m p hs Ht Hl He1).
    + exfalso. clear -Hf. induction routes as [|r routes IH];
        [discriminate|exact (IH Hf)].
    + exfalso. clear -Hf. induction routes as [|r routes IH];
        [discriminate|exact (IH Hf)].
Qed.

(** One registration through a group, on an engine of literal routes. *)
Lemma handle_tracked (seen : list (string * str)) (e : drift.Engine)
    (g : router.RouterGroup) (method : string) (rel : str)
    (hs : list HandlerFunc) :
  tracked seen e -> derived g ->
  literal (router.calculateAbsolutePath g rel) ->
  (method, router.calculateAbsolutePath g rel) ∉ seen ->
  exists e',
    drift.handle e g method rel hs = Ok e'
    /\ tracked (seen ++ [(method, router.calculateAbsolutePath g rel)]) e'
    /\ getValue (root_of method e') (router.calculateAbsolutePath g rel)
       = Ok (Some (router.handlers g ++ hs), Some ∅,
             router.calculateAbsolutePath g rel)
    /\ forall m q,
         m <> method \/ q <> router.calculateAbsolutePath g rel ->
         getValue (root_of m e') q = getValue (root_of m e) q.
Proof.
  intros Ht Hg Hl Hnew. set (p := router.calculateAbsolutePath g rel) in *.
  assert (starts_with_slash p) as Hs.
  { apply joinPaths_starts_with_slash, derived_basePath, Hg. }
  destruct (Ht method) as (M & HM & Hseen).
  assert (M !! p = None) as Hnone.
  { destruct (M !! p) eqn:Hp; [|reflexivity].
    exfalso. apply Hnew, Hseen. rewrite Hp. eauto. }
  destruct (engine_addRoute_models method M e p
              (router.combineHandlers g hs) HM Hl) as [Hfwd _].
  destruct (Hfwd Hs Hnone) as (e' & He' & HM' & _).
  exists e'. unfold drift.handle. fold p. split; [exact He'|].
  split; [exact (engine_addRoute_tracked seen e e' method p _ Ht Hl He')|].
  destruct HM as (_ & _ & _ & Hget), HM' as (_ & _ & _ & Hget').
  unfold getValue. split.
  - rewrite Hget', lookup_insert_eq. reflexivity.
  - intros m q Hmq. destruct (decide (m = method)) as [->|Hm].
    + destruct Hmq as [Hmq|Hq]; [done|].
      rewrite Hget', Hget, lookup_insert_ne by congruence. reflexivity.
    + rewrite (engine_addRoute_other e e' method p _ He' m Hm). reflexivity.
Qed.

(** A new literal route registered through a group of the application,
    after any literal routes: the registration returns, the lookup of
    the joined path then finds the middleware of the group followed by
    the handlers of the route, under the joined path as pattern, and
    every other lookup, of another path or for another method, answers
    as before. *)
Theorem group_route_is_found_others_unchanged
    (routes : list (string * str * list HandlerFunc)) (e : drift.Engine)
    (g : router.RouterGroup) (method : string) (rel : str)
    (hs : list HandlerFunc) :
  Forall (fun r => literal r.1.2) routes ->
  register_all routes drift.New = Ok e ->
  derived g ->
  literal (router.calculateAbsolutePath g rel) ->
  (method, router.calculateAbsolutePath g rel) ∉ routes.*1 ->
  exists e',
    drift.handle e g method rel hs = Ok e'
    /\ getValue (root_of method e') (router.calculateAbsolutePath g rel)
       = Ok (Some (router.handlers g ++ hs), Some ∅,
             router.calculateAbsolutePath g rel)
    /\ forall m q,
         m <> method \/ q <> router.calculateAbsolutePath g rel ->
         getValue (root_of m e') q = getValue (root_of m e) q.
Proof.
  intros Hl Hreg Hg Hp Hnew.
  pose proof (register_all_tracked routes [] drift.New e tracked_New Hl Hreg)
    as Ht.
  destruct (handle_tracked _ e g method rel hs Ht Hg Hp Hnew)
    as (e' & He' & _ & Hfound & Hframe).
  exists e'. auto.
Qed.

Lemma group_route_is_found_others_unchanged_witness :
  exists e',
    drift.handle drift.New
      (router.Use (router.Group (drift.RouterGroup_ drift.New)
                     (bytes "api") [hA]) [hB])
      "GET" (bytes "users") [hC] = Ok e'
    /\ getValue (root_of "GET" e') (bytes "/api/users")
       = Ok (Some ([hA; hB] ++ [hC]), Some ∅, bytes "/api/users")
    /\ forall m q,
         m <> "GET"%string \/ q <> bytes "/api/users" ->
         getValue (root_of m e') q = getValue (root_of m drift.New) q.
Proof.
  apply (group_route_is_found_others_unchanged [] drift.New
           (router.Use (router.Group (drift.RouterGroup_ drift.New)
                          (bytes "api") [hA]) [hB])
           "GET" (bytes "users") [hC]).
  - constructor.
  - reflexivity.
  - apply derived_Use, derived_Group, derived_engine.
  - vm_compute. repeat constructor.
  - apply not_elem_of_nil.
Defined.

(** [Any] over the methods [ms]. *)
Lemma Any_fold (g : router.RouterGroup) (rel : str) (hs : list HandlerFunc) :
  derived g -> literal (router.calculateAbsolutePath g rel) ->
  forall (ms : list string) (seen : list (string * str)) (e : drift.Engine),
    NoDup ms -> tracked seen e ->
    (forall m, m ∈ ms -> (m, router.calculateAbsolutePath g rel) ∉ seen) ->
    exists e',
      foldl (routes.Any_step g rel hs) (Ok e) ms = Ok e'
      /\ (forall m, m ∈ ms ->
            getValue (root_of m e') (router.calculateAbsolutePath g rel)
            = Ok (Some (router.handlers g ++ hs), Some ∅,
                  router.calculateAbsolutePath g rel))
      /\ forall m q,
           m ∉ ms \/ q <> router.calculateAbsolutePath g rel ->
           getValue (root_of m e') q = getValue (root_of m e) q.
Proof.
  intros Hg Hl. set (p := router.calculateAbsolutePath g rel) in *.
  induction ms as [|m ms IH]; intros seen e Hnd Ht Hnew.
  - exists e. split; [reflexivity|]. split; [|reflexivity].
    intros m Hm. inversion Hm.
  - apply NoDup_cons in Hnd as [Hm Hnd].
    destruct (handle_tracked seen e g m rel hs Ht Hg Hl)
      as (e1 & He1 & Ht1 & Hfound & Hframe).
    { apply Hnew. left. }
    fold p in Ht1, Hfound, Hframe.
    destruct (IH (seen ++ [(m, p)]) e1 Hnd Ht1) as (e' & He' & Hall & Hrest).
    { intros m' Hm' Hin. apply elem_of_app in Hin as [Hin|Hin].
      - apply (Hnew m'); [right; exact Hm'|exact Hin].
      - apply list_elem_of_singleton in Hin. injection Hin as ->.
        exact (Hm Hm'). }
    exists e'. cbn [foldl routes.Any_step mbind result_bind].
    rewrite He1. split; [exact He'|]. split.
    + intros m' Hm'. apply elem_of_cons in Hm' as [->|Hm'].
      * rewrite Hrest by (left; exact Hm). exact Hfound.
      * apply Hall, Hm'.
    + intros m' q Hmq. rewrite Hrest, Hframe; [reflexivity| |].
      * destruct Hmq as [Hmq|Hq]; [left|right; exact Hq].
        intros ->. apply Hmq. left.
      * destruct Hmq as [Hmq|Hq]; [left|right; exact Hq].
        intros Hin. apply Hmq. right. exact Hin.
Qed.

(** [Any] with a new literal route, after any literal routes: the
    registration returns, the joined path is then found for each of the
    seven methods, with the middleware of the group followed by the
    handlers of the route, and every other lookup, of another path or
    for a method that is not among the seven, answers as before. *)
Theorem Any_registers_all_methods
    (rs : list (string * str * list HandlerFunc)) (e : drift.Engine)
    (g : router.RouterGroup) (rel : str) (hs : list HandlerFunc) :
  Forall (fun r => literal r.1.2) rs ->
  register_all rs drift.New = Ok e ->
  derived g ->
  literal (router.calculateAbsolutePath g rel) ->
  (forall m, m ∈ routes.methods ->
             (m, router.calculateAbsolutePath g rel) ∉ rs.*1) ->
  exists e',
    routes.Any e g rel hs = Ok e'
    /\ (forall m, m ∈ routes.methods ->
          getValue (root_of m e') (router.calculateAbsolutePath g rel)
          = Ok (Some (router.handlers g ++ hs), Some ∅,
                router.calculateAbsolutePath g rel))
    /\ forall m q,
         m ∉ routes.methods \/ q <> router.calculateAbsolutePath g rel ->
         getValue (root_of m e') q = getValue (root_of m e) q.
Proof.
  intros Hl Hreg Hg Hp Hnew.
  pose proof (register_all_tracked rs [] drift.New e tracked_New Hl Hreg)
    as Ht.
  apply (Any_fold g rel hs Hg Hp routes.methods ([] ++ rs.*1) e); [|exact Ht|exact Hnew].
  unfold routes.methods. repeat (apply NoDup_cons; split;
    [rewrite ?elem_of_cons, elem_of_nil; intuition discriminate|]).
  apply NoDup_nil_2.
Qed.

Lemma Any_registers_all_methods_witness :
  exists e',
    routes.Any drift.New (drift.RouterGroup_ drift.New) (bytes "/ping") [hA]
    = Ok e'
    /\ (forall m, m ∈ routes.methods ->
          getValue (root_of m e') (bytes "/ping")
          = Ok (Some ([] ++ [hA]), Some ∅, bytes "/ping"))
    /\ forall m q,
         m ∉ routes.methods \/ q <> bytes "/ping" ->
         getValue (root_of m e') q = getValue (root_of m drift.New) q.
Proof.
  apply (Any_registers_all_methods [] drift.New
           (drift.RouterGroup_ drift.New) (bytes "/ping") [hA]).
  - constructor.
  - reflexivity.
  - apply derived_engine.
  - vm_compute. repeat constructor.
  - intros m _. apply not_elem_of_nil.
Defined.

End group_routes.

(** ** The helper functions of the tree; instances of the order theorems *)

Section tree_helpers.
Import tree props more.

(** [longestCommonPrefix a b] is the length of the longest common prefix:
    the two strings agree on that many bytes, which both have, and on no
    longer prefix. *)
Theorem longestCommonPrefix_is_longest (a b : str) :
  take (longestCommonPrefix a b) a = take (longestCommonPrefix a b) b
  /\ longestCommonPrefix a b <= length a
  /\ longestCommonPrefix a b <= length b
  /\ forall j, j <= length a -> j <= length b -> take j a = take j b ->
               j <= longestCommonPrefix a b.
Proof.
  split; [apply longestCommonPrefix_take|].
  split; [apply longestCommonPrefix_le_l|].
  split; [apply longestCommonPrefix_le_r|].
  intros j Ha Hb Hj. set (i := longestCommonPrefix a b).
  destruct (decide (j <= i)) as [|Hlt]; [assumption|exfalso].
  destruct (lookup_lt_is_Some_2 a i ltac:(lia)) as [x Hx].
  destruct (lookup_lt_is_Some_2 b i ltac:(lia)) as [y Hy].
  apply (longestCommonPrefix_next a b x y Hx Hy).
  assert (take j a !! i = Some x) as H1
    by (rewrite lookup_take_lt by lia; exact Hx).
  rewrite Hj, lookup_take_lt in H1 by lia. fold i in Hy. congruence.
Qed.

(** [findWildcard] returns the first wildcard of the path: without a
    sigil in the path it returns the empty string, -1 and false;
    otherwise the path is a literal part, the wildcard from its sigil up
    to the next separator or the end of the path, and the rest, the
    position is the length of the literal part, and the wildcard is valid
    exactly if no further sigil follows in it. *)
Theorem findWildcard_finds_first_wildcard (p : str) :
  (literal p /\ findWildcard p = ([], (-1)%Z, false))
  \/ exists a c b post valid,
       p = a ++ (c :: b) ++ post
       /\ literal a /\ is_sigil c = true /\ (slash ∉ b)
       /\ (post = [] \/ head post = Some slash)
       /\ findWildcard p = (c :: b, Z.of_nat (length a), valid)
       /\ (valid = true <-> literal b).
Proof.
  destruct (findWildcard_cases p)
    as [H|(a & c & b & post & -> & Ha & Hc & Hb & Hpost & Hf)];
    [left; exact H|right].
  exists a, c, b, post, (bool_decide (sigils b = 0)).
  split; [reflexivity|]. split; [exact Ha|]. split; [exact Hc|].
  split; [exact Hb|]. split; [exact Hpost|]. split; [exact Hf|].
  rewrite bool_decide_eq_true. symmetry. apply sigils_literal.
Qed.

Lemma registration_keeps_siblings_ordered_witness :
  exists e,
    drift.register "GET"
      [(bytes "/a", [hA]); (bytes "/b", [hB]); (bytes "/b/:id", [hC])]
      drift.New = Ok e
    /\ forall (m : string) (root : node),
         drift.trees e !! m = Some root -> siblings_ordered root.
Proof.
  eexists. split; [vm_compute; reflexivity|].
  apply (registration_keeps_siblings_ordered "GET"
           [(bytes "/a", [hA]); (bytes "/b", [hB]); (bytes "/b/:id", [hC])]).
  - vm_compute. reflexivity.
  - vm_compute. reflexivity.
Defined.

Lemma literal_priorities_count_routes_witness :
  exists e,
    drift.register "GET"
      [(bytes "/a", [hA]); (bytes "/b", [hB]); (bytes "/b/c", [hC])]
      drift.New = Ok e
    /\ counted (root_of "GET" e)
    /\ routes_below (root_of "GET" e) = 3.
Proof.
  eexists. split; [vm_compute; reflexivity|].
  apply (literal_priorities_count_routes "GET"
           [(bytes "/a", [hA]); (bytes "/b", [hB]); (bytes "/b/c", [hC])]).
  - repeat constructor.
  - vm_compute. reflexivity.
  - vm_compute. reflexivity.
Defined.

Lemma incrementChildPrio_moves_ahead_witness :
  exists n' k,
    incrementChildPrio
      (set_children
         [set_priority 2 (set_path (bytes "a") zero_node);
          set_priority 1 (set_path (bytes "b") zero_node);
          set_priority 1 (set_path (bytes "c") zero_node)]
         (set_indices (bytes "abc") zero_node)) 2 = Ok (n', k)
    /\ exists front back post,
         [set_priority 2 (set_path (bytes "a") zero_node);
          set_priority 1 (set_path (bytes "b") zero_node);
          set_priority 1 (set_path (bytes "c") zero_node)]
         = front ++ back
           ++ set_priority 1 (set_path (bytes "c") zero_node) :: post
         /\ children n'
            = front
              ++ incr_priority
                   (set_priority 1 (set_path (bytes "c") zero_node))
              :: back ++ post
         /\ k = length front
         /\ priority (incr_priority
                        (set_priority 1 (set_path (bytes "c") zero_node)))
            = (1 + 1)%Z
         /\ Forall (fun d => (priority d < 1 + 1)%Z) back
         /\ Forall (fun d => (1 + 1 <= priority d)%Z) front
         /\ sorted_children n'.
Proof.
  eexists _, _. split; [vm_compute; reflexivity|].
  apply (incrementChildPrio_moves_ahead
           (set_children
              [set_priority 2 (set_path (bytes "a") zero_node);
               set_priority 1 (set_path (bytes "b") zero_node);
               set_priority 1 (set_path (bytes "c") zero_node)]
              (set_indices (bytes "abc") zero_node))
           _ 2 _ (set_priority 1 (set_path (bytes "c") zero_node))).
  - repeat constructor; cbn; lia.
  - reflexivity.
  - cbn. lia.
  - cbn. lia.
  - vm_compute. reflexivity.
Defined.

End tree_helpers.

(** ** Dispatch of a parameter route *)

Section param_dispatch.
Import tree props more context.

(** A request below a parameter route, the pattern [pre ++ ":" ++ nm]
    being the only one of its method: for every path [pre ++ v] with a
    non-empty, separator-free [v], [ServeHTTP] runs the chain of the
    route on a context in which [Param nm] is [v], every other parameter
    is the empty string, and [FullPath] is the pattern. *)
Theorem ServeHTTP_binds_path_parameter (method : string) (pre nm v : str)
    (hs : list HandlerFunc) (e : drift.Engine) (w : list write)
    (req : Request) :
  literal pre -> starts_with_slash pre -> param_name nm ->
  v <> [] -> slash ∉ v ->
  drift.register method [(pre ++ colon :: nm, hs)] drift.New = Ok e ->
  Method req = method -> URLPath req = pre ++ v ->
  (drift.ServeHTTP e w req).2
  = Next (dispatched w req hs {[ nm := v ]} (pre ++ colon :: nm), [])
  /\ Param nm (dispatched w req hs {[ nm := v ]} (pre ++ colon :: nm)) = v
  /\ (forall key, key <> nm ->
        Param key (dispatched w req hs {[ nm := v ]} (pre ++ colon :: nm))
        = [])
  /\ context_api.FullPath
       (dispatched w req hs {[ nm := v ]} (pre ++ colon :: nm))
     = Ok (pre ++ colon :: nm).
Proof.
  intros Hpre Hstart Hnm Hv Hsl Hreg Hm Hp.
  split; [|split; [|split]].
  - pose proof (addRoute_single_param pre nm hs Hpre Hstart Hnm) as Hadd.
    assert (starts_with_slash (pre ++ colon :: nm)) as Hs.
    { destruct pre; [discriminate|exact Hstart]. }
    destruct (register_first method _ hs _ Hs Hadd) as (e0 & He0 & Hroot).
    assert (e0 = e) as -> by congruence.
    rewrite ServeHTTP_outcome.
    erewrite handleRequest_found.
    + unfold dispatched, drift.reset.
      cbn [set_store set_Params set_handlers Request_ Response Params Query
           handlers index store aborted statusCode].
      rewrite insert_empty. reflexivity.
    + cbn [drift.reset Request_]. rewrite Hm. exact Hroot.
    + cbn [drift.reset Request_]. rewrite Hp.
      destruct (getValue_param_tree pre nm hs (pre ++ v))
        as [(v' & Hq & _ & _ & Hget)|[Hno _]].
      * apply app_inv_head in Hq. subst v'. exact Hget.
      * exfalso. exact (Hsl (Hno v eq_refl Hv)).
    + reflexivity.
  - unfold Param, dispatched. cbn [Params].
    rewrite lookup_singleton_eq. reflexivity.
  - intros key Hkey. unfold Param, dispatched. cbn [Params].
    rewrite lookup_singleton_ne by congruence. reflexivity.
  - reflexivity.
Qed.

Lemma ServeHTTP_binds_path_parameter_witness :
  exists e,
    drift.register "GET" [(bytes "/users/:id", [hA])] drift.New = Ok e
    /\ (drift.ServeHTTP e []
          {| Method := "GET"; URLPath := bytes "/users/42";
             URLQuery := ∅ |}).2
       = Next (dispatched []
                 {| Method := "GET"; URLPath := bytes "/users/42";
                    URLQuery := ∅ |} [hA] {[ bytes "id" := bytes "42" ]}
                 (bytes "/users/:id"), []).
Proof.
  eexists. split; [vm_compute; reflexivity|].
  eapply (ServeHTTP_binds_path_parameter "GET" (bytes "/users/")
            (bytes "id") (bytes "42") [hA]).
  - by_evaluation.
  - reflexivity.
  - split; [discriminate|]. split; by_evaluation.
  - discriminate.
  - by_evaluation.
  - vm_compute. reflexivity.
  - reflexivity.
  - reflexivity.
Defined.

End param_dispatch.

(** ** The error helpers in a chain *)

Section error_helpers.
Import tree props more context.

Variable enc : Z -> str -> str.
Variable statusText : Z -> str.

(** The loop of [Next] over plain handlers, [k] of them still to run,
    and then a handler that is [AbortWithStatusJSON]. *)
Lemma Next_loop_error (pre rest : list HandlerFunc) (code : Z) (body : str)
    (k : nat) :
  Forall plain pre ->
  length (pre ++ context_api.AbortWithStatusJSON code body Done :: rest)
  <= 127 ->
  forall (fuel : nat) (s : run_state),
    k < fuel ->
    handlers s.1
    = pre ++ context_api.AbortWithStatusJSON code body Done :: rest ->
    (index s.1 + 1 + Z.of_nat k = Z.of_nat (length pre))%Z ->
    (-1 <= index s.1)%Z ->
    aborted s.1 = false -> store s.1 <> None ->
    exists c1 tr1,
      Next_loop fuel (advance s)
      = (advance (Write_ (bytes "application/json") code body (Abort c1),
                  tr1 ++ [AbortCalled]), Running)
      /\ invocations tr1
         = invocations s.2
           ++ (Z.of_nat <$> seq (Z.to_nat (index s.1 + 1)) (S k)).
Proof.
  intros Hplain Hlen.
  set (hs := pre ++ context_api.AbortWithStatusJSON code body Done :: rest)
    in *.
  assert (i8 (Z.of_nat (length hs)) = Z.of_nat (length hs)) as Hl.
  { apply i8_small. unfold int8. lia. }
  assert (length pre < length hs) as Hpre.
  { unfold hs. rewrite length_app. cbn [length]. lia. }
  induction k as [|k IH];
    intros fuel [c tr] Hfuel Hh Hidx Hlow Hab Hst; cbn [fst snd] in *;
    (destruct fuel as [|fuel]; [lia|]);
    assert (i8 (index c + 1) = index c + 1)%Z as Hi
      by (apply i8_small; unfold int8; lia);
    rewrite Next_loop_unfold;
    cbn [advance fst snd set_index index handlers aborted];
    rewrite Hh, Hi, Hl, Hab;
    (assert ((index c + 1 <? Z.of_nat (length hs))%Z = true) as ->
      by (apply Z.ltb_lt; lia));
    (assert ((index c + 1 <? 0)%Z = false) as -> by (apply Z.ltb_ge; lia)).
  - assert (Z.to_nat (index c + 1) = length pre) as ->.
    { clear -Hidx Hlow. lia. }
    unfold hs at 1. rewrite list_lookup_middle by reflexivity.
    unfold context_api.AbortWithStatusJSON at 1. cbn [run fst snd].
    rewrite Next_loop_aborted by reflexivity.
    eexists _, _. split; [reflexivity|].
    rewrite !invocations_app. cbn. rewrite app_nil_r.
    replace (Z.of_nat (length pre)) with (index c + 1)%Z by lia.
    reflexivity.
  - destruct (hs !! Z.to_nat (index c + 1)) as [h|] eqn:Hh0.
    2:{ exfalso. apply lookup_ge_None in Hh0. unfold HandlerFunc in *. lia. }
    assert (plain h) as [Hnn Hna].
    { unfold hs in Hh0. rewrite lookup_app_l in Hh0 by (clear -Hidx Hlow; unfold HandlerFunc in *; lia).
      rewrite Forall_forall in Hplain. apply Hplain.
      eapply list_elem_of_lookup_2, Hh0. }
    destruct (run_plain (fun s0 => Next_loop fuel (advance s0)) h Hnn Hna
                (set_index (index c + 1) c,
                 (tr ++ [Advanced (index c) (index c + 1)])
                 ++ [Invoked (index c + 1)]))
      as ([c1 tr1] & -> & Hh1 & Hi1 & Hst1 & Hinv1 & Hab1); [exact Hst|].
    cbn [fst snd set_index handlers index aborted store] in *.
    destruct (IH fuel (c1, tr1)) as (c2 & tr2 & -> & Hinv');
      cbn [fst snd]; try lia; try congruence.
    exists c2, tr2. split; [reflexivity|].
    cbn [fst snd] in Hinv'.
    rewrite Hinv', Hinv1, Hi1, !invocations_app. cbn.
    rewrite app_nil_r, <- app_assoc. f_equal. cbn [app].
    replace (Z.to_nat (index c + 1 + 1)) with (S (Z.to_nat (index c + 1)))
      by lia.
    rewrite Z2Nat.id by lia. reflexivity.
Qed.

(** The helpers are [AbortWithStatusJSON] with their answer; [Error]
    is, for a code that [WriteHeader] accepts. *)
Lemma error_helper_eq (h : hprog) (code : Z) (defaultMessage message : str) :
  (exists helper,
      (helper, (code, defaultMessage)) ∈ error_helpers enc
      /\ h = helper message Done)
  \/ (errors.Error enc statusText code message Done = Ok h
      /\ defaultMessage = statusText code) ->
  (100 <= code <= 999)%Z
  /\ h = context_api.AbortWithStatusJSON code
           (error_answer enc code message defaultMessage).2 Done.
Proof.
  intros [(helper & Hin & ->)|[Herr ->]].
  - unfold error_helpers in Hin.
    repeat (apply elem_of_cons in Hin as [[= -> -> ->]|Hin];
            [split; [lia|reflexivity]|]).
    inversion Hin.
  - unfold errors.Error in Herr.
    destruct (code <? 100)%Z eqn:H1; [discriminate|].
    destruct (999 <? code)%Z eqn:H2; [discriminate|].
    cbn [orb] in Herr. injection Herr as <-.
    apply Z.ltb_ge in H1, H2. split; [lia|reflexivity].
Qed.

(** [Error] with a code that is not between 100 and 999 panics and
    answers nothing. *)
Lemma Error_refuses_invalid_code (code : Z) (message : str) (k : hprog) :
  (code < 100 \/ 999 < code)%Z ->
  errors.Error enc statusText code message k
  = Panic errors.invalid_WriteHeader_code.
Proof.
  intros H. unfold errors.Error.
  destruct H as [H|H]; apply Z.ltb_lt in H; rewrite H;
    [reflexivity|rewrite orb_true_r; reflexivity].
Qed.

(** An error helper in a chain.  The chain has at most 127 handlers and
    is run by [Next] from the cursor -1 on a context that is not aborted
    and whose store is allocated (as [ServeHTTP] leaves it); the handler
    [h] calls the helper and returns, and the handlers in front of it
    call neither [Next] nor [Abort].  Then the handlers in front and [h]
    run once each, in order, and no handler after [h]; the context is
    aborted, its status code is the code of the helper, and the last
    write is the answer of the helper, with the default message of the
    helper when it is called with the empty message.  This holds for the
    thirteen helpers with a fixed code, and for [Error] with every code
    for which it returns: those between 100 and 999. *)
Theorem error_helper_answers_and_stops (h : hprog)
    (code : Z) (defaultMessage message : str) (c : Context)
    (pre rest : list HandlerFunc) :
  (exists helper,
      (helper, (code, defaultMessage)) ∈ error_helpers enc
      /\ h = helper message Done)
  \/ (errors.Error enc statusText code message Done = Ok h
      /\ defaultMessage = statusText code) ->
  Forall plain pre ->
  handlers c = pre ++ h :: rest ->
  length (handlers c) <= 127 ->
  index c = (-1)%Z -> aborted c = false -> store c <> None ->
  (100 <= code <= 999)%Z
  /\ exists c' tr,
       Next (c, []) = ((c', tr), Running)
       /\ invocations tr = positions (length pre + 1)
       /\ aborted c' = true
       /\ statusCode c' = code
       /\ last (Response c')
          = Some (error_answer enc code message defaultMessage).
Proof.
  intros Hhelper Hplain Hh Hlen Hi Hab Hst.
  destruct (error_helper_eq h code defaultMessage message Hhelper)
    as [Hcode ->].
  split; [exact Hcode|].
  rewrite Hh in Hlen.
  destruct (Next_loop_error pre rest code _ (length pre) Hplain Hlen
              chain_fuel (c, []))
    as (c1 & tr1 & HN & Hinv); cbn [fst snd]; try done; try (rewrite Hi; lia).
  { rewrite length_app in Hlen. unfold chain_fuel. lia. }
  eexists _, _. split; [exact HN|].
  cbn [advance fst snd set_index Write_ Abort set_aborted aborted statusCode
       Response] in *.
  rewrite Hi in Hinv. rewrite !invocations_app, Hinv. cbn.
  rewrite !app_nil_r, Nat.add_1_r. split; [reflexivity|].
  split; [reflexivity|]. split; [reflexivity|].
  rewrite last_snoc. reflexivity.
Qed.

End error_helpers.

Section error_helpers_instance.
Import tree props more context.

Lemma error_helper_answers_and_stops_witness :
  (100 <= 418 <= 999)%Z
  /\ exists c' tr,
       Next (set_handlers
               [hA; context_api.AbortWithStatusJSON 418 (bytes "teapot") Done;
                hC]
               (drift.reset drift.zero_Context [] some_request), [])
       = ((c', tr), Running)
       /\ invocations tr = positions (1 + 1)
       /\ aborted c' = true
       /\ statusCode c' = 418%Z
       /\ last (Response c')
          = Some (error_answer (fun _ m => m) 418 (bytes "teapot") []).
Proof.
  apply (error_helper_answers_and_stops (fun _ m => m) (fun _ => [])
           (context_api.AbortWithStatusJSON 418 (bytes "teapot") Done)
           418 [] (bytes "teapot")
           (set_handlers
              [hA; context_api.AbortWithStatusJSON 418 (bytes "teapot") Done;
               hC]
              (drift.reset drift.zero_Context [] some_request))
           [hA] [hC]).
  - right. split; reflexivity.
  - repeat constructor.
  - reflexivity.
  - cbn. lia.
  - reflexivity.
  - reflexivity.
  - discriminate.
Defined.

End error_helpers_instance.

(** ** The CSRF middleware *)

Section csrf.
Import middleware mprops.

Lemma byte_inj (x y : ascii) : byte x = byte y -> x = y.
Proof.
  unfold byte. intros H. apply N2Z.inj in H.
  rewrite <- (ascii_N_embedding x), <- (ascii_N_embedding y), H.
  reflexivity.
Qed.

Lemma compare_loop_zero (a : str) :
  forall (b : str) (result : Z),
    length a = length b ->
    compare_loop a b result = 0%Z <-> result = 0%Z /\ a = b.
Proof.
  induction a as [|x a IH]; intros [|y b] result Hlen; try discriminate.
  - cbn. tauto.
  - cbn [compare_loop]. injection Hlen as Hlen.
    rewrite (IH b _ Hlen), Z.lor_eq_0_iff, Z.lxor_eq_0_iff. split.
    + intros [[-> Hxy] ->]. apply byte_inj in Hxy. subst. auto.
    + intros [-> [= -> ->]]. auto.
Qed.

Lemma compareTokens_true (a b : str) : compareTokens a b = true <-> a = b.
Proof.
  unfold compareTokens.
  destruct (length a =? length b) eqn:Hlen; cbn [negb].
  - apply Nat.eqb_eq in Hlen.
    rewrite Z.eqb_eq, (compare_loop_zero a b 0 Hlen). tauto.
  - apply Nat.eqb_neq in Hlen. split; [discriminate|].
    intros ->. contradiction.
Qed.

(** [compareTokens] is equality of strings: the accumulated bit
    differences are zero exactly for two equal tokens, and tokens of
    different lengths are different. *)
Theorem compareTokens_iff_equal (a b : str) :
  (compareTokens a b = true <-> a = b)
  /\ (length a <> length b -> compareTokens a b = false).
Proof.
  split; [apply compareTokens_true|].
  intros Hlen. destruct (compareTokens a b) eqn:H; [|reflexivity].
  apply compareTokens_true in H. subst. contradiction.
Qed.

(** [splitLookup]: a lookup string without colon is returned as it is;
    otherwise it is cut at its first colon, into the part before, which
    holds no colon, and the part after, which may hold more. *)
Theorem splitLookup_cuts_at_first_colon (lookup : str) :
  ((colon ∉ lookup) /\ splitLookup lookup = [lookup])
  \/ exists source key,
       lookup = source ++ colon :: key /\ (colon ∉ source)
       /\ splitLookup lookup = [source; key].
Proof.
  unfold splitLookup.
  destruct (tree.index_of colon lookup) as [i|] eqn:Hi.
  - right. apply index_of_Some in Hi as [Hi Hnot].
    exists (take i lookup), (drop (i + 1) lookup).
    split; [|split; [exact Hnot|reflexivity]].
    rewrite Nat.add_1_r, <- drop_S by exact Hi.
    rewrite take_drop. reflexivity.
  - left. split; [|reflexivity]. apply index_of_None, Hi.
Qed.

(** A request with an unsafe method (any but GET, HEAD and OPTIONS)
    reaches the rest of the chain only with a token: the closure calls
    [Next], and nothing else, exactly if the cookie of the configured
    name is there, is not empty, and equals the token that the lookup
    string extracts from the request; in every other case it runs the
    error handler (the answer 403 unless one is configured) and then
    [Abort]. *)
Theorem CSRF_checks_unsafe_requests (generateToken : Z -> option str)
    (config : CSRFConfig) (r : request) :
  Method r <> "GET"%string -> Method r <> "HEAD"%string ->
  Method r <> "OPTIONS"%string ->
  (exists token,
      token <> []
      /\ Cookie r (CookieName (CSRF_defaults config)) = Some token
      /\ extractToken r (TokenLookup (CSRF_defaults config)) = token
      /\ CSRFWithConfig generateToken config r = [Next])
  \/ ((forall token,
          Cookie r (CookieName (CSRF_defaults config)) = Some token ->
          token = []
          \/ extractToken r (TokenLookup (CSRF_defaults config)) <> token)
      /\ CSRFWithConfig generateToken config r
         = default invalid_token (ErrorHandler config) ++ [Abort]).
Proof.
  intros HG HH HO. unfold CSRFWithConfig.
  rewrite !bool_decide_eq_false_2 by assumption. cbn [orb].
  assert (default [] (ErrorHandler (CSRF_defaults config))
          = default invalid_token (ErrorHandler config)) as ->.
  { unfold CSRF_defaults. cbn [ErrorHandler].
    destruct (ErrorHandler config); reflexivity. }
  destruct (Cookie r (CookieName (CSRF_defaults config))) as [t|] eqn:Hc.
  2:{ right. split; [discriminate|reflexivity]. }
  case_bool_decide as Ht.
  { right. split; [|reflexivity]. intros ? [= <-]. left. exact Ht. }
  case_bool_decide as Hr.
  { right. split; [|reflexivity]. intros ? [= <-]. right. congruence. }
  destruct (compareTokens t _) eqn:Hcmp; cbn [negb].
  - left. apply compareTokens_true in Hcmp. exists t. auto.
  - right. split; [|reflexivity]. intros ? [= <-]. right. intros Heq.
    symmetry in Heq. apply compareTokens_true in Heq. congruence.
Qed.

Lemma CSRF_checks_unsafe_requests_witness :
  (exists token,
      token <> []
      /\ Cookie (post_with_tokens (bytes "s3cret") (bytes "s3cret"))
           (CookieName (CSRF_defaults zero_CSRFConfig)) = Some token
      /\ extractToken (post_with_tokens (bytes "s3cret") (bytes "s3cret"))
           (TokenLookup (CSRF_defaults zero_CSRFConfig)) = token
      /\ CSRFWithConfig (fun _ => None) zero_CSRFConfig
           (post_with_tokens (bytes "s3cret") (bytes "s3cret")) = [Next])
  \/ ((forall token,
          Cookie (post_with_tokens (bytes "s3cret") (bytes "s3cret"))
            (CookieName (CSRF_defaults zero_CSRFConfig)) = Some token ->
          token = []
          \/ extractToken
               (post_with_tokens (bytes "s3cret") (bytes "s3cret"))
               (TokenLookup (CSRF_defaults zero_CSRFConfig)) <> token)
      /\ CSRFWithConfig (fun _ => None) zero_CSRFConfig
           (post_with_tokens (bytes "s3cret") (bytes "s3cret"))
         = default invalid_token (ErrorHandler zero_CSRFConfig) ++ [Abort]).
Proof.
  apply (CSRF_checks_unsafe_requests (fun _ => None) zero_CSRFConfig
           (post_with_tokens (bytes "s3cret") (bytes "s3cret")));
    discriminate.
Defined.

End csrf.

(** ** The CORS middleware *)

Section cors.
Import middleware mprops.

Variable Itoa : Z -> str.

Lemma match_origin_listed (origins : list str) (origin : str) :
  origin ∈ origins \/ bytes "*" ∈ origins ->
  match_origin origins origin = origin.
Proof.
  induction origins as [|o origins IH]; intros H.
  - destruct H as [H|H]; inversion H.
  - cbn [match_origin]. destruct (bool_decide (o = origin)) eqn:H1;
      [reflexivity|].
    destruct (bool_decide (o = bytes "*")) eqn:H2; [reflexivity|].
    cbn [orb]. apply bool_decide_eq_false in H1, H2. apply IH.
    rewrite !elem_of_cons in H. destruct H as [[H|H]|[H|H]]; auto;
      congruence.
Qed.

Lemma match_origin_unlisted (origins : list str) (origin : str) :
  origin ∉ origins -> bytes "*" ∉ origins ->
  match_origin origins origin = [].
Proof.
  induction origins as [|o origins IH]; intros H1 H2; [reflexivity|].
  rewrite not_elem_of_cons in H1, H2. cbn [match_origin].
  rewrite !bool_decide_eq_false_2 by (intros ?; intuition congruence).
  apply IH; tauto.
Qed.

(** What [CORS_headers] sends: the origin header once, with the given
    value, and last the answer to a preflight request or [Next]. *)
Lemma CORS_headers_sent (config : CORSConfig) (r : request) (o : str) :
  header_values (bytes "Access-Control-Allow-Origin")
    (CORS_headers Itoa config r o) = [o]
  /\ header_values (bytes "Access-Control-Allow-Credentials")
       (CORS_headers Itoa config r o)
     = (if AllowCredentials config then [bytes "true"] else [])
  /\ last (CORS_headers Itoa config r o)
     = Some (if bool_decide (Method r = "OPTIONS"%string)
             then AbortWithStatus 204 else Next).
Proof.
  unfold CORS_headers.
  destruct (0 <? length (ExposeHeaders config)),
    (AllowCredentials config), (0 <? MaxAge config)%Z,
    (bool_decide (Method r = "OPTIONS"%string));
    repeat split; reflexivity.
Qed.

(** With listed origins (the first of them is not the wildcard): a
    request without Origin header passes with no header set; a request
    whose origin is not listed, no wildcard being listed either, is
    answered 403 and goes no further; a request whose origin is listed
    gets its own origin back in the header, and then the rest of the
    chain, or the answer 204 if its method is OPTIONS. *)
Theorem CORS_checks_listed_origins (config : CORSConfig) (r : request) :
  AllowOrigins config <> [] ->
  head (AllowOrigins config) <> Some (bytes "*") ->
  (GetHeader r (bytes "Origin") = [] ->
   CORSWithConfig Itoa config r = [Next])
  /\ (GetHeader r (bytes "Origin") <> [] ->
      GetHeader r (bytes "Origin") ∉ AllowOrigins config ->
      bytes "*" ∉ AllowOrigins config ->
      CORSWithConfig Itoa config r = [AbortWithStatus 403])
  /\ (GetHeader r (bytes "Origin") <> [] ->
      GetHeader r (bytes "Origin") ∈ AllowOrigins config ->
      header_values (bytes "Access-Control-Allow-Origin")
        (CORSWithConfig Itoa config r) = [GetHeader r (bytes "Origin")]
      /\ last (CORSWithConfig Itoa config r)
         = Some (if bool_decide (Method r = "OPTIONS"%string)
                 then AbortWithStatus 204 else Next)).
Proof.
  intros Hne Hhead. unfold CORSWithConfig.
  assert (AllowOrigins (CORS_defaults config) = AllowOrigins config) as Heq.
  { unfold CORS_defaults. cbn [AllowOrigins].
    destruct (AllowOrigins config); [done|reflexivity]. }
  rewrite Heq.
  rewrite (bool_decide_eq_false_2 (head (AllowOrigins config) = _))
    by exact Hhead.
  rewrite !andb_false_r.
  set (origin := GetHeader r (bytes "Origin")).
  split; [|split].
  - intros Ho. rewrite Ho.
    destruct (match_origin (AllowOrigins config) []); reflexivity.
  - intros Ho H1 H2. rewrite match_origin_unlisted by assumption.
    rewrite (bool_decide_eq_true_2 (origin <> [])) by exact Ho.
    reflexivity.
  - intros Ho Hin. rewrite match_origin_listed by (left; exact Hin).
    rewrite (bool_decide_eq_false_2 (origin = [])) by exact Ho.
    cbn [andb].
    destruct (CORS_headers_sent (CORS_defaults config) r origin)
      as (H1 & _ & H3).
    split; assumption.
Qed.

(** With the wildcard as first (or, by default, only) origin: when
    credentials are allowed and the wildcard is the only origin, a
    request with an Origin header gets its own origin back, with the
    credentials header, and a request without one passes with no header
    set; in every other configuration the origin header is the
    wildcard, also next to the credentials header when the list goes on
    after the wildcard. *)
Theorem CORS_wildcard_origin (config : CORSConfig) (r : request) :
  head (AllowOrigins (CORS_defaults config)) = Some (bytes "*") ->
  (AllowCredentials config = true -> length (AllowOrigins config) <= 1 ->
   (GetHeader r (bytes "Origin") = [] ->
    CORSWithConfig Itoa config r = [Next])
   /\ (GetHeader r (bytes "Origin") <> [] ->
       header_values (bytes "Access-Control-Allow-Origin")
         (CORSWithConfig Itoa config r) = [GetHeader r (bytes "Origin")]
       /\ header_values (bytes "Access-Control-Allow-Credentials")
            (CORSWithConfig Itoa config r) = [bytes "true"]))
  /\ (AllowCredentials config = false \/ 1 < length (AllowOrigins config) ->
      header_values (bytes "Access-Control-Allow-Origin")
        (CORSWithConfig Itoa config r) = [bytes "*"]
      /\ header_values (bytes "Access-Control-Allow-Credentials")
           (CORSWithConfig Itoa config r)
         = (if AllowCredentials config then [bytes "true"] else [])).
Proof.
  intros Hhead. unfold CORSWithConfig. rewrite Hhead.
  rewrite !(bool_decide_eq_true_2 (Some (bytes "*") = Some (bytes "*")))
    by reflexivity.
  rewrite !andb_true_r.
  assert (length (AllowOrigins (CORS_defaults config))
          = if length (AllowOrigins config) =? 0 then 1
            else length (AllowOrigins config)) as Hlen.
  { unfold CORS_defaults. cbn [AllowOrigins].
    destruct (length (AllowOrigins config) =? 0); reflexivity. }
  assert (AllowCredentials (CORS_defaults config) = AllowCredentials config)
    as Hcred by reflexivity.
  rewrite Hlen, Hcred. split.
  - intros Hc Hle. rewrite Hc. cbn [andb].
    assert (((if length (AllowOrigins config) =? 0 then 1
              else length (AllowOrigins config)) =? 1) = true) as ->.
    { destruct (length (AllowOrigins config)) as [|[|n]]; [done|done|lia]. }
    split.
    + intros ->. reflexivity.
    + intros Ho. rewrite bool_decide_eq_true_2 by exact Ho.
      destruct (CORS_headers_sent (CORS_defaults config) r
                  (GetHeader r (bytes "Origin"))) as (H1 & H2 & _).
      rewrite Hcred, Hc in H2. split; assumption.
  - intros Hor.
    assert ((AllowCredentials config
             && ((if length (AllowOrigins config) =? 0 then 1
                  else length (AllowOrigins config)) =? 1)) = false) as ->.
    { destruct Hor as [->|Hlt]; [reflexivity|].
      destruct (length (AllowOrigins config)) as [|[|n]]; [lia|lia|].
      apply andb_false_r. }
    assert ((0 <? (if length (AllowOrigins config) =? 0 then 1
                   else length (AllowOrigins config))) = true) as ->.
    { destruct (length (AllowOrigins config)); reflexivity. }
    destruct (CORS_headers_sent (CORS_defaults config) r (bytes "*"))
      as (H1 & H2 & _).
    rewrite Hcred in H2. split; assumption.
Qed.

End cors.

Section cors_instances.
Import middleware mprops.

Lemma CORS_checks_listed_origins_witness :
  (GetHeader (request_from "GET" (bytes "https://a.example")) (bytes "Origin")
   = [] ->
   CORSWithConfig (fun _ => []) (only_origin (bytes "https://a.example"))
     (request_from "GET" (bytes "https://a.example")) = [Next])
  /\ (GetHeader (request_from "GET" (bytes "https://a.example"))
        (bytes "Origin") <> [] ->
      GetHeader (request_from "GET" (bytes "https://a.example"))
        (bytes "Origin")
        ∉ AllowOrigins (only_origin (bytes "https://a.example")) ->
      bytes "*" ∉ AllowOrigins (only_origin (bytes "https://a.example")) ->
      CORSWithConfig (fun _ => []) (only_origin (bytes "https://a.example"))
        (request_from "GET" (bytes "https://a.example"))
      = [AbortWithStatus 403])
  /\ (GetHeader (request_from "GET" (bytes "https://a.example"))
        (bytes "Origin") <> [] ->
      GetHeader (request_from "GET" (bytes "https://a.example"))
        (bytes "Origin")
        ∈ AllowOrigins (only_origin (bytes "https://a.example")) ->
      header_values (bytes "Access-Control-Allow-Origin")
        (CORSWithConfig (fun _ => [])
           (only_origin (bytes "https://a.example"))
           (request_from "GET" (bytes "https://a.example")))
      = [GetHeader (request_from "GET" (bytes "https://a.example"))
           (bytes "Origin")]
      /\ last (CORSWithConfig (fun _ => [])
                 (only_origin (bytes "https://a.example"))
                 (request_from "GET" (bytes "https://a.example")))
         = Some (if bool_decide
                      (Method (request_from "GET"
                                 (bytes "https://a.example"))
                       = "OPTIONS"%string)
                 then AbortWithStatus 204 else Next)).
Proof.
  apply (CORS_checks_listed_origins (fun _ => [])
           (only_origin (bytes "https://a.example"))
           (request_from "GET" (bytes "https://a.example"))).
  - discriminate.
  - vm_compute. discriminate.
Defined.

Lemma CORS_wildcard_origin_witness :
  header_values (bytes "Access-Control-Allow-Origin")
    (CORSWithConfig (fun _ => []) DefaultCORSConfig
       (request_from "GET" (bytes "https://a.example"))) = [bytes "*"]
  /\ header_values (bytes "Access-Control-Allow-Credentials")
       (CORSWithConfig (fun _ => []) DefaultCORSConfig
          (request_from "GET" (bytes "https://a.example")))
     = (if AllowCredentials DefaultCORSConfig then [bytes "true"] else []).
Proof.
  apply (CORS_wildcard_origin (fun _ => []) DefaultCORSConfig
           (request_from "GET" (bytes "https://a.example"))).
  - reflexivity.
  - left. reflexivity.
Defined.

End cors_instances.

(** ** Security headers; the compressing writer *)

Section secure.
Import middleware mprops.

Variable Itoa : Z -> str.

Lemma or_default_not_empty (s d : str) : d <> [] -> or_default s d <> [].
Proof. unfold or_default. case_bool_decide; auto. Qed.

Lemma header_values_app (key : str) (l1 l2 : list call) :
  header_values key (l1 ++ l2) = header_values key l1 ++ header_values key l2.
Proof. apply omap_app. Qed.

Lemma header_values_if_set (key k v : str) :
  header_values key (header_if_set k v)
  = if bool_decide (k = key) && bool_decide (v <> []) then [v] else [].
Proof.
  unfold header_if_set. destruct (bool_decide (v <> []));
    [|rewrite andb_false_r; reflexivity].
  cbn. destruct (bool_decide (k = key)); reflexivity.
Qed.

(** Whatever the configuration, [SecureWithConfig] sets the headers
    X-XSS-Protection, X-Content-Type-Options, X-Frame-Options and
    Referrer-Policy, each once and to a value that is not empty (the
    configured one, or the default for an empty one), and then calls
    [Next]; the header Strict-Transport-Security is left out exactly for
    a negative max-age, zero standing for the default of one year. *)
Theorem Secure_sets_base_headers (config : SecurityConfig) :
  header_values (bytes "X-XSS-Protection") (SecureWithConfig Itoa config)
  = [or_default (XSSProtection config) (bytes "1; mode=block")]
  /\ header_values (bytes "X-Content-Type-Options")
       (SecureWithConfig Itoa config)
     = [or_default (ContentTypeNosniff config) (bytes "nosniff")]
  /\ header_values (bytes "X-Frame-Options") (SecureWithConfig Itoa config)
     = [or_default (XFrameOptions config) (bytes "SAMEORIGIN")]
  /\ header_values (bytes "Referrer-Policy") (SecureWithConfig Itoa config)
     = [or_default (ReferrerPolicy config)
          (bytes "strict-origin-when-cross-origin")]
  /\ (header_values (bytes "Strict-Transport-Security")
        (SecureWithConfig Itoa config) = []
      <-> (HSTSMaxAge config < 0)%Z)
  /\ last (SecureWithConfig Itoa config) = Some Next.
Proof.
  unfold SecureWithConfig.
  rewrite !header_values_app, !header_values_if_set.
  cbn [Secure_defaults XSSProtection ContentTypeNosniff XFrameOptions
       HSTSMaxAge HSTSIncludeSubdomains HSTSPreload ContentSecurityPolicy
       ReferrerPolicy PermissionsPolicy].
  rewrite !(bool_decide_eq_true_2 (or_default _ _ <> []))
    by (apply or_default_not_empty; discriminate).
  assert ((0 <? (if (HSTSMaxAge config =? 0)%Z then 31536000
                 else HSTSMaxAge config))%Z
          = negb (HSTSMaxAge config <? 0)%Z) as ->.
  { destruct (HSTSMaxAge config =? 0)%Z eqn:H0.
    - apply Z.eqb_eq in H0. rewrite H0. reflexivity.
    - apply Z.eqb_neq in H0. destruct (HSTSMaxAge config <? 0)%Z eqn:Hn;
        cbn [negb]; [apply Z.ltb_ge|apply Z.ltb_lt]; lia. }
  repeat split.
  - destruct (HSTSMaxAge config <? 0)%Z; reflexivity.
  - destruct (HSTSMaxAge config <? 0)%Z; reflexivity.
  - destruct (HSTSMaxAge config <? 0)%Z; reflexivity.
  - destruct (HSTSMaxAge config <? 0)%Z; reflexivity.
  - destruct (HSTSMaxAge config <? 0)%Z eqn:Hn; cbn [negb].
    + intros _. apply Z.ltb_lt, Hn.
    + intros H. exfalso. revert H. vm_compute. discriminate.
  - intros Hn. apply Z.ltb_lt in Hn. rewrite Hn. reflexivity.
  - rewrite !app_assoc. apply last_snoc.
Qed.

End secure.

Section compress_writer.
Import middleware mprops.

(** Writes after the first one go to the compressor. *)
Lemma Write_all_later (chunks : list str) :
  forall (w : compressResponseWriter) (calls : list wcall),
    headerSet w = true ->
    (foldl (fun st data => let '(w', calls) := Write st.1 data in
                           (w', st.2 ++ calls)) (w, calls) chunks).2
    = calls ++ (Compressed <$> chunks).
Proof.
  induction chunks as [|data chunks IH]; intros w calls Hw.
  - cbn. rewrite app_nil_r. reflexivity.
  - cbn [foldl fst snd]. unfold Write at 2. rewrite Hw. cbn [negb].
    rewrite IH by reflexivity. rewrite <- app_assoc. reflexivity.
Qed.

(** The writer decides on its first write.  A first chunk shorter than
    [minLength] is written as it is and no header is set; a first chunk
    of at least [minLength] bytes sets Content-Encoding to the encoding
    of the writer, deletes Content-Length, adds Vary, and goes to the
    compressor.  Every later chunk goes to the compressor in both cases,
    whatever its length. *)
Theorem compress_writer_decides_on_first_write (enc : str)
    (minLen : nat) (first : str) (rest : list str) :
  (Write_all (new_writer enc minLen) (first :: rest)).2
  = if length first <? minLen then
      Direct first :: (Compressed <$> rest)
    else
      [ HeaderSet (bytes "Content-Encoding") enc;
        HeaderDel (bytes "Content-Length");
        HeaderAdd (bytes "Vary") (bytes "Accept-Encoding") ]
      ++ (Compressed <$> first :: rest).
Proof.
  unfold Write_all. cbn [foldl fst snd]. unfold Write at 2.
  cbn [new_writer headerSet negb minLength encoding written].
  destruct (length first <? minLen);
    rewrite Write_all_later by reflexivity; reflexivity.
Qed.

End compress_writer.

(** ** Literal routes and wildcards at the same place *)

Section wildcard_conflicts.
Import tree props more.

Lemma wildcardEnd_segment (nm post : str) (valid : bool) :
  slash ∉ nm -> literal nm -> post = [] \/ head post = Some slash ->
  wildcardEnd (nm ++ post) valid = (length nm, valid).
Proof.
  intros Hs Hl Hpost. revert valid.
  induction nm as [|c nm IH]; intros valid.
  - destruct Hpost as [->|Hpost]; [reflexivity|].
    destruct post as [|d post]; [discriminate|]. injection Hpost as ->.
    reflexivity.
  - inversion Hl as [|? ? Hc Hp]; subst. cbn [app wildcardEnd].
    rewrite bool_decide_eq_false_2 by (intros ->; apply Hs; left).
    rewrite Hc, IH; [reflexivity| |assumption].
    intros H. apply Hs. right. exact H.
Qed.

Lemma wildcard_matches_inv (c : node) (x : str) :
  wildcard_matches c x = true ->
  exists rest, x = path c ++ rest /\ (rest = [] \/ head rest = Some slash).
Proof.
  unfold wildcard_matches, eqb_str.
  intros [[Hlen Heq%bool_decide_eq_true]%andb_true_iff Hnext]%andb_true_iff.
  apply Nat.leb_le in Hlen.
  exists (drop (length (path c)) x). split.
  - rewrite Heq at 1. rewrite take_drop. reflexivity.
  - apply orb_true_iff in Hnext as [Hle%Nat.leb_le|Hs%bool_decide_eq_true].
    + left. apply drop_ge. exact Hle.
    + right. rewrite head_lookup, lookup_drop, Nat.add_0_r. exact Hs.
Qed.

(** Registration beside a parameter. *)
Lemma register_beside_parameter (method : string)
    (pre nm x : str) (hs hs' : list HandlerFunc) :
  literal pre -> starts_with_slash pre -> param_name nm -> x <> [] ->
  (forall rest, x = (colon :: nm) ++ rest ->
                rest <> [] /\ head rest <> Some slash) ->
  drift.register method [(pre ++ colon :: nm, hs); (pre ++ x, hs')] drift.New
  = Panic "conflict with wildcard route".
Proof.
  intros Hpre Hstart Hnm Hx Hno.
  pose proof (addRoute_single_param pre nm hs Hpre Hstart Hnm) as Hadd.
  assert (starts_with_slash (pre ++ colon :: nm)) as Hs.
  { destruct pre; [discriminate|exact Hstart]. }
  destruct (register_first method _ hs _ Hs Hadd) as (e & He & Hroot).
  unfold drift.register in *.
  cbn [foldl drift.register_step mbind result_bind fst snd] in *.
  rewrite He. unfold drift.addRoute.
  destruct pre as [|c pre]; [discriminate|]. injection Hstart as ->.
  cbn [app]. rewrite bool_decide_eq_false_2 by (intros H; apply H; reflexivity).
  cbn [mbind result_bind]. rewrite Hroot. cbn [default from_option id]. unfold addRoute.
  cbn [incr_priority param_tree set_priority path children length Nat.eqb
       andb].
  cbn [addRoute_walk path set_priority].
  change (slash :: pre ++ x) with ((slash :: pre) ++ x).
  rewrite longestCommonPrefix_app, Nat.ltb_irrefl.
  cbn [mbind result_bind mret result_ret].
  cbn [path incr_priority set_priority param_tree wildChild children].
  assert ((length (slash :: pre) <? length ((slash :: pre) ++ x)) = true) as ->.
  { apply Nat.ltb_lt. rewrite length_app. destruct x; [done|]. cbn. lia. }
  rewrite drop_app_length. cbn [wildChild children].
  destruct (wildcard_matches _ x) eqn:Hm; [exfalso|reflexivity].
  apply wildcard_matches_inv in Hm as (rest & Hrest & Hor).
  cbn [path incr_priority set_priority] in Hrest.
  destruct (Hno rest Hrest) as [H1 H2]. destruct Hor; contradiction.
Qed.

(** A route beside a parameter is refused.  With [pre ++ ":" ++ nm]
    registered, the registration of [pre ++ x] panics with the wildcard
    conflict for every non-empty [x] that does not go through the
    parameter, that is, unless [x] is [":" ++ nm], alone or followed by
    a separator: a literal such as [/users/new] beside [/users/:id], or
    a parameter of another name. *)
Theorem route_beside_parameter_is_refused (method : string)
    (pre nm x : str) (hs hs' : list HandlerFunc) :
  literal pre -> starts_with_slash pre -> param_name nm -> x <> [] ->
  (forall rest, x = (colon :: nm) ++ rest ->
                rest <> [] /\ head rest <> Some slash) ->
  drift.register method [(pre ++ colon :: nm, hs); (pre ++ x, hs')] drift.New
  = Panic "conflict with wildcard route".
Proof. apply register_beside_parameter. Qed.

Lemma route_beside_parameter_is_refused_witness :
  drift.register "GET"
    [(bytes "/users/" ++ colon :: bytes "id", [hA]);
     (bytes "/users/" ++ bytes "new", [hB])] drift.New
  = Panic "conflict with wildcard route".
Proof.
  apply (route_beside_parameter_is_refused "GET" (bytes "/users/")
           (bytes "id") (bytes "new") [hA] [hB]).
  - by_evaluation.
  - reflexivity.
  - split; [discriminate|]. split; by_evaluation.
  - discriminate.
  - intros rest H. discriminate H.
Defined.

(** Registration of a wildcard beside a literal. *)
Lemma register_wildcard_beside_literal (method : string)
    (pre y nm post : str) (c : ascii) (hs hs' : list HandlerFunc) :
  literal (pre ++ y) -> starts_with_slash pre -> y <> [] ->
  is_sigil c = true -> param_name nm ->
  post = [] \/ head post = Some slash ->
  drift.register method
    [(pre ++ y, hs); (pre ++ (c :: nm) ++ post, hs')] drift.New
  = Panic "wildcard segment conflicts with existing children".
Proof.
  intros Hlit Hstart Hy Hc (Hne & Hsl & Hnm) Hpost.
  apply literal_app in Hlit as [Hpre Hly].
  destruct y as [|y0 y]; [done|].
  assert (is_sigil y0 = false) as Hy0 by (inversion Hly; assumption).
  assert (y0 <> c) as Hyc by (intros ->; congruence).
  assert (starts_with_slash (pre ++ y0 :: y)) as Hs.
  { destruct pre; [discriminate|exact Hstart]. }
  assert (addRoute zero_node (pre ++ y0 :: y) (Some hs)
          = Ok {| path := pre ++ y0 :: y; indices := []; children := [];
                  handlers := Some hs; priority := 1; nType := static;
                  wildChild := false; fullPath := pre ++ y0 :: y |}) as Hadd.
  { unfold addRoute.
    cbn [incr_priority zero_node set_priority path children length Nat.eqb
         andb].
    rewrite insertChild_literal by (apply literal_app; split; assumption).
    reflexivity. }
  destruct (register_first method _ hs _ Hs Hadd) as (e & He & Hroot).
  unfold drift.register in *.
  cbn [foldl drift.register_step mbind result_bind fst snd] in *.
  rewrite He. unfold drift.addRoute.
  destruct pre as [|s pre]; [discriminate|]. injection Hstart as ->.
  cbn [app]. rewrite bool_decide_eq_false_2 by (intros H; apply H; reflexivity).
  cbn [mbind result_bind]. rewrite Hroot. cbn [default from_option id].
  unfold addRoute.
  change (incr_priority
            {| path := (slash :: pre) ++ y0 :: y; indices := [];
               children := []; handlers := Some hs; priority := 1;
               nType := static; wildChild := false;
               fullPath := (slash :: pre) ++ y0 :: y |})
    with {| path := (slash :: pre) ++ y0 :: y; indices := [];
            children := []; handlers := Some hs; priority := 2;
            nType := static; wildChild := false;
            fullPath := (slash :: pre) ++ y0 :: y |}.
  cbn [path children height].
  assert ((length ((slash :: pre) ++ y0 :: y) =? 0) = false) as ->
    by reflexivity.
  cbn [andb addRoute_walk path].
  change (slash :: pre ++ c :: nm ++ post)
    with ((slash :: pre) ++ c :: nm ++ post).
  assert (longestCommonPrefix ((slash :: pre) ++ c :: nm ++ post)
            ((slash :: pre) ++ y0 :: y) = length (slash :: pre)) as ->.
  { clear -Hyc. induction (slash :: pre) as [|a l IH]; cbn.
    - rewrite bool_decide_eq_false_2 by congruence. reflexivity.
    - rewrite bool_decide_eq_true_2 by reflexivity. f_equal. exact IH. }
  assert ((length (slash :: pre) <? length ((slash :: pre) ++ y0 :: y))
          = true) as ->
    by (apply Nat.ltb_lt; rewrite length_app; cbn; lia).
  unfold split_edge. cbn [path indices children handlers priority wildChild].
  rewrite list_lookup_middle by reflexivity.
  assert ((length ((slash :: pre) ++ c :: nm ++ post)
           <? 0 + length (slash :: pre)) = false) as ->
    by (apply Nat.ltb_ge; rewrite length_app; cbn; lia).
  cbn [mbind result_bind path indices children wildChild].
  assert ((length (slash :: pre)
           <? length ((slash :: pre) ++ c :: nm ++ post)) = true) as ->
    by (apply Nat.ltb_lt; rewrite length_app; cbn; lia).
  rewrite drop_app_length. cbn [index_of].
  rewrite bool_decide_eq_false_2 by exact Hyc.
  cbn [fmap option_fmap option_map].
  rewrite Hc. cbn [negb]. unfold insertChild.
  cbn [length]. cbn [insertChild_loop]. unfold findWildcard.
  cbn [findWildcard_from]. rewrite Hc.
  rewrite wildcardEnd_segment by assumption.
  rewrite take_app_length. cbn [Z.of_nat Z.ltb Z.compare negb length].
  destruct nm as [|n0 nm]; [done|]. cbn [length Nat.ltb Nat.leb children].
  reflexivity.
Qed.

(** A wildcard beside a literal is refused.  With the literal pattern
    [pre ++ y] registered, [y] not empty, the registration of
    [pre] followed by a parameter or a catch-all with a name, alone or
    with more of a pattern after it, panics: the wildcard conflicts with
    the child that holds [y]. *)
Theorem wildcard_beside_literal_is_refused (method : string)
    (pre y nm post : str) (c : ascii) (hs hs' : list HandlerFunc) :
  literal (pre ++ y) -> starts_with_slash pre -> y <> [] ->
  is_sigil c = true -> param_name nm ->
  post = [] \/ head post = Some slash ->
  drift.register method
    [(pre ++ y, hs); (pre ++ (c :: nm) ++ post, hs')] drift.New
  = Panic "wildcard segment conflicts with existing children".
Proof. apply register_wildcard_beside_literal. Qed.

Lemma wildcard_beside_literal_is_refused_witness :
  drift.register "GET"
    [(bytes "/users/" ++ bytes "new", [hA]);
     (bytes "/users/" ++ (colon :: bytes "id") ++ [], [hB])] drift.New
  = Panic "wildcard segment conflicts with existing children".
Proof.
  apply (wildcard_beside_literal_is_refused "GET" (bytes "/users/")
           (bytes "new") (bytes "id") [] colon [hA] [hB]).
  - by_evaluation.
  - reflexivity.
  - discriminate.
  - reflexivity.
  - split; [discriminate|]. split; by_evaluation.
  - left. reflexivity.
Defined.

End wildcard_conflicts.

(** ** The key/value store of the context *)

Section store.
Import context context_api.

(** [Set] and the getters.  On a context whose store is allocated (as
    [newContext] and [ServeHTTP] leave it) [Set] returns; afterwards
    [Get] and [MustGet] return the value under that key, the typed
    getters return it if it has their type and the zero value of their
    type otherwise, every other key reads as before, and the chain state
    is untouched.  For a key that is not set, [MustGet] panics and the
    typed getters return their zero values. *)
Theorem store_round_trip (c : Context) (key : str) (v : value) :
  store c <> None ->
  (exists c',
      Set_ key v c = Ok c'
      /\ Get key c' = Some v /\ MustGet key c' = Ok v
      /\ GetString key c' = match v with VString s => s | _ => [] end
      /\ GetInt key c' = match v with VInt i => i | _ => 0%Z end
      /\ GetBool key c' = match v with VBool b => b | _ => false end
      /\ (forall k, k <> key -> Get k c' = Get k c)
      /\ handlers c' = handlers c /\ index c' = index c
      /\ aborted c' = aborted c)
  /\ (forall k,
        Get k c = None ->
        MustGet k c = Panic (key_missing k)
        /\ GetString k c = [] /\ GetInt k c = 0%Z /\ GetBool k c = false).
Proof.
  intros Hst. split.
  - unfold Set_. destruct (store c) as [m|] eqn:Hm; [|done].
    eexists. split; [reflexivity|].
    unfold MustGet, GetString, GetInt, GetBool, Get.
    cbn [store set_store mbind option_bind].
    rewrite lookup_insert_eq. repeat (split; [reflexivity|]).
    split; [|auto]. intros k Hk. rewrite Hm. cbn.
    apply lookup_insert_ne. congruence.
  - intros k Hk. unfold MustGet, GetString, GetInt, GetBool.
    rewrite Hk. auto.
Qed.

Lemma store_round_trip_witness :
  exists c',
    Set_ (bytes "user") (VInt 7) (newContext [] props.some_request) = Ok c'
    /\ Get (bytes "user") c' = Some (VInt 7)
    /\ GetInt (bytes "user") c' = 7%Z
    /\ GetString (bytes "user") c' = [].
Proof.
  destruct (store_round_trip (newContext [] props.some_request)
              (bytes "user") (VInt 7)) as [(c' & H1 & H2 & _ & H4 & H5 & _) _].
  - discriminate.
  - exists c'. auto.
Defined.

End store.

(** ** The order of registration *)

Section registration_order.
Import tree props more.

(** What a successful registration of literal patterns says of the
    patterns. *)
Lemma register_ok_inv (method : string)
    (routes : list (str * list HandlerFunc)) :
  forall (e e' : drift.Engine) (M : gmap str (list HandlerFunc)),
    models M (root_of method e) ->
    Forall (fun r => literal r.1) routes ->
    foldl (drift.register_step method) (Ok e) routes = Ok e' ->
    Forall (fun r => starts_with_slash r.1) routes
    /\ NoDup routes.*1
    /\ forall r, r ∈ routes -> M !! r.1 = None.
Proof.
  induction routes as [|[p0 hs0] routes IH]; intros e e' M HM Hlit Hfold.
  - split; [constructor|]. split; [constructor|]. intros r Hr. inversion Hr.
  - apply Forall_cons in Hlit as [Hl Hlit]. cbn [fst] in Hl.
    destruct (engine_addRoute_models method M e p0 hs0 HM Hl) as [Hadd Hinv].
    cbn [foldl drift.register_step mbind result_bind fst snd] in Hfold.
    destruct (drift.addRoute e method p0 hs0) as [e1| |] eqn:He1.
    2,3: rewrite register_stops in Hfold by (intros []); discriminate.
    destruct (Hinv e1 eq_refl) as [Hp Hnone].
    destruct (Hadd Hp Hnone) as (e1' & [= <-] & HM1 & _).
    destruct (IH e1 e' (<[p0 := hs0]> M) HM1 Hlit Hfold)
      as (Hstart & Hnd & Hfree).
    assert (p0 ∉ routes.*1) as Hp0.
    { intros Hin. apply list_elem_of_fmap in Hin as (r & -> & Hr).
      specialize (Hfree r Hr). rewrite lookup_insert_eq in Hfree.
      discriminate. }
    split; [constructor; assumption|]. split.
    + cbn [fmap list_fmap fst]. constructor; assumption.
    + intros r [->|Hr]%elem_of_cons; [exact Hnone|].
      specialize (Hfree r Hr).
      destruct (decide (p0 = r.1)) as [Heq|Hne].
      * rewrite Heq, lookup_insert_eq in Hfree. discriminate.
      * rewrite lookup_insert_ne in Hfree by exact Hne. exact Hfree.
Qed.

(** Literal patterns can be registered exactly if each of them starts
    with the separator and no two of them are the same. *)
Lemma register_ok_iff (method : string)
    (routes : list (str * list HandlerFunc)) :
  Forall (fun r => literal r.1) routes ->
  is_ok (drift.register method routes drift.New)
  <-> Forall (fun r => starts_with_slash r.1) routes /\ NoDup routes.*1.
Proof.
  intros Hlit. split.
  - unfold drift.register.
    destruct (foldl _ _ routes) as [e| |] eqn:He;
      [intros _|intros []|intros []].
    destruct (register_ok_inv method routes drift.New e ∅ models_empty Hlit He)
      as (H1 & H2 & _). auto.
  - intros [Hstart Hnd].
    destruct (register_models method routes drift.New ∅) as [Hok _];
      [exact models_empty|done|exact Hlit|].
    apply Hok; [exact Hstart|exact Hnd|]. intros. apply lookup_empty.
Qed.

(** The order in which literal patterns are registered does not matter:
    the registration of a list of literal patterns returns exactly if
    that of any reordering of the list returns (each pattern starts with
    the separator and none comes twice), and then every lookup gives the
    same answer in both trees, whatever their shape. *)
Theorem literal_registration_order_is_irrelevant (method : string)
    (routes routes' : list (str * list HandlerFunc)) :
  Forall (fun r => literal r.1) routes -> routes ≡ₚ routes' ->
  (is_ok (drift.register method routes drift.New)
   <-> is_ok (drift.register method routes' drift.New))
  /\ forall e e',
       drift.register method routes drift.New = Ok e ->
       drift.register method routes' drift.New = Ok e' ->
       forall q, getValue (root_of method e) q
                 = getValue (root_of method e') q.
Proof.
  intros Hlit Hperm.
  assert (Forall (fun r => literal r.1) routes') as Hlit'
    by (rewrite <- Hperm; exact Hlit).
  split.
  - rewrite !register_ok_iff by assumption. rewrite Hperm. reflexivity.
  - intros e e' He He' q.
    destruct (literal_lookup_cases method routes e q Hlit He)
      as [(hs & Hin & ->)|[Hnot ->]];
      destruct (literal_lookup_cases method routes' e' q Hlit' He')
        as [(hs' & Hin' & ->)|[Hnot' ->]]; try reflexivity.
    + rewrite <- Hperm in Hin'.
      destruct (register_models method routes drift.New ∅) as [_ Hfound];
        [exact models_empty|done|exact Hlit|].
      destruct (Hfound e He) as (M & _ & _ & _ & Hall).
      pose proof (Hall q hs Hin) as H1. rewrite (Hall q hs' Hin') in H1.
      injection H1 as ->. reflexivity.
    + exfalso. apply Hnot'. rewrite <- Hperm.
      apply list_elem_of_fmap. exists (q, hs). auto.
    + exfalso. apply Hnot. rewrite Hperm.
      apply list_elem_of_fmap. exists (q, hs'). auto.
Qed.

Lemma literal_registration_order_is_irrelevant_witness :
  (is_ok (drift.register "GET"
            [(bytes "/a", [hA]); (bytes "/ab", [hB])] drift.New)
   <-> is_ok (drift.register "GET"
                [(bytes "/ab", [hB]); (bytes "/a", [hA])] drift.New))
  /\ forall e e',
       drift.register "GET" [(bytes "/a", [hA]); (bytes "/ab", [hB])]
         drift.New = Ok e ->
       drift.register "GET" [(bytes "/ab", [hB]); (bytes "/a", [hA])]
         drift.New = Ok e' ->
       forall q, getValue (root_of "GET" e) q = getValue (root_of "GET" e') q.
Proof.
  apply (literal_registration_order_is_irrelevant "GET"
           [(bytes "/a", [hA]); (bytes "/ab", [hB])]
           [(bytes "/ab", [hB]); (bytes "/a", [hA])]).
  - repeat constructor.
  - apply perm_swap.
Defined.

End registration_order.

(** ** Joined paths keep their segments *)

Section joined_segments.
Import tree props more router.

Lemma path_names_app_slash (x y : str) :
  path_names (x ++ slash :: y) = path_names x ++ path_names y.
Proof.
  unfold path_names. rewrite segments_app_slash. apply filter_app.
Qed.

Lemma path_names_slash (y : str) : path_names (slash :: y) = path_names y.
Proof. apply (path_names_app_slash [] y). Qed.

Lemma path_names_snoc_slash (x : str) :
  path_names (x ++ [slash]) = path_names x.
Proof. rewrite path_names_app_slash. apply app_nil_r. Qed.

(** [joinPaths] neither drops nor merges a segment: the names on the
    joined path are the names on the base path followed by those on the
    relative path, whether or not either path is empty, the base ends
    with a separator or the relative path starts with one. *)
Theorem joinPaths_keeps_the_segments (base rel : str) :
  path_names (joinPaths base rel) = path_names base ++ path_names rel.
Proof.
  unfold joinPaths. case_bool_decide as Hrel.
  { subst. symmetry. apply app_nil_r. }
  assert (path_names (if bool_decide (base = []) then [slash] else base)
          = path_names base) as Hbase.
  { case_bool_decide; [subst|]; reflexivity. }
  rewrite <- Hbase. clear Hbase.
  set (final := if bool_decide (base = []) then [slash] else base).
  destruct rel as [|c rel]; [done|]. cbn [head].
  case_bool_decide as Hc.
  - injection Hc as ->. case_bool_decide as Hf.
    + rewrite Hf. reflexivity.
    + rewrite path_names_app_slash, path_names_slash. reflexivity.
  - case_bool_decide as Hl.
    + apply last_Some in Hl as [b Hb]. rewrite Hb, <- app_assoc. cbn [app].
      rewrite path_names_app_slash, path_names_snoc_slash. reflexivity.
    + cbn [app]. rewrite path_names_app_slash. reflexivity.
Qed.

End joined_segments.

(** ** A parameter inside a pattern *)

Section inner_param.
Import tree props more.

Lemma findWildcard_inner_param (pre nm suf : str) :
  literal pre -> slash ∉ nm -> literal nm -> starts_with_slash suf ->
  findWildcard (pre ++ colon :: nm ++ suf)
  = (colon :: nm, Z.of_nat (length pre), true).
Proof.
  intros Hpre Hs Hl Hsuf. unfold findWildcard.
  rewrite findWildcard_from_app by assumption. simpl.
  rewrite wildcardEnd_segment by auto.
  rewrite take_app_length. reflexivity.
Qed.

(** Registration of [pre ++ ":" ++ nm ++ suf] in an empty tree. *)
Lemma addRoute_inner_param (pre nm suf : str) (hs : list HandlerFunc) :
  literal pre -> starts_with_slash pre -> param_name nm ->
  literal suf -> starts_with_slash suf ->
  addRoute zero_node (inner_param_pattern pre nm suf) (Some hs)
  = Ok (inner_param_tree pre nm suf hs).
Proof.
  intros Hpre Hstart (Hne & Hs & Hl) Hlsuf Hsuf.
  unfold inner_param_pattern, inner_param_tree.
  destruct pre as [|c pre]; [discriminate|].
  destruct suf as [|s suf]; [discriminate|].
  unfold addRoute. cbn [incr_priority zero_node set_priority path children
    length Nat.eqb andb priority].
  unfold insertChild.
  destruct (length ((c :: pre) ++ colon :: nm ++ s :: suf)) as [|fuel]
    eqn:Hlen; [discriminate|].
  cbn [insertChild_loop]. rewrite findWildcard_inner_param by assumption.
  assert ((Z.of_nat (length (c :: pre)) <? 0)%Z = false) as ->
    by (apply Z.ltb_ge; lia).
  assert ((0 <? Z.of_nat (length (c :: pre)))%Z = true) as ->
    by (apply Z.ltb_lt; simpl; lia).
  rewrite Nat2Z.id, drop_app_length, take_app_length.
  destruct nm as [|x nm]; [done|].
  change (colon :: (x :: nm) ++ s :: suf)
    with ((colon :: x :: nm) ++ s :: suf).
  assert ((length (colon :: x :: nm)
           <? length ((colon :: x :: nm) ++ s :: suf)) = true) as ->.
  { apply Nat.ltb_lt. rewrite length_app. cbn [length]. lia. }
  rewrite drop_app_length.
  destruct fuel as [|fuel].
  { exfalso. rewrite length_app in Hlen. cbn [length] in Hlen.
    rewrite length_app in Hlen. cbn [length] in Hlen. lia. }
  cbn [insertChild_loop]. unfold findWildcard.
  rewrite findWildcard_from_literal by assumption.
  reflexivity.
Qed.

(** Lookup in that tree: exactly the paths [pre ++ v ++ suf] with a
    separator-free [v] have a chain, and [v] is the parameter value. *)
Lemma getValue_inner_param_tree (pre nm suf : str) (hs : list HandlerFunc)
    (q : str) :
  starts_with_slash suf ->
  (exists v, q = pre ++ v ++ suf /\ (slash ∉ v)
     /\ getValue (inner_param_tree pre nm suf hs) q
        = Ok (Some hs, Some {[ nm := v ]}, inner_param_pattern pre nm suf))
  \/ ((forall v, q = pre ++ v ++ suf -> slash ∈ v)
      /\ exists ps fp,
           getValue (inner_param_tree pre nm suf hs) q = Ok (None, ps, fp)).
Proof.
  intros Hsuf. destruct suf as [|s suf]; [discriminate|].
  injection Hsuf as ->.
  unfold getValue. rewrite getValue_walk_eq.
  cbn [inner_param_tree path indices children handlers wildChild fullPath
       index_of].
  destruct (length pre <? length q) eqn:Hlen.
  - apply Nat.ltb_lt in Hlen. unfold eqb_str. case_bool_decide as Hpre.
    + destruct (drop (length pre) q) as [|idxc rest] eqn:Hd.
      { apply (f_equal length) in Hd. rewrite length_drop in Hd. simpl in Hd.
        lia. }
      unfold getValue_wild. cbn [nType path children handlers fullPath].
      change (length (colon :: nm) <? 1) with false.
      change (drop 1 (colon :: nm)) with nm. cbv iota.
      assert (q = pre ++ idxc :: rest) as Hq.
      { rewrite <- Hd, <- Hpre at 1. symmetry. by rewrite take_drop. }
      set (r := idxc :: rest) in *.
      destruct (param_end r <? length r) eqn:He.
      * rewrite getValue_walk_leaf by reflexivity.
        cbn [path handlers fullPath]. case_bool_decide as Hdrop.
        -- left. exists (take (param_end r) r).
           split; [|split; [apply param_end_take|reflexivity]].
           rewrite Hq, <- Hdrop, take_drop. reflexivity.
        -- right. split; [|eauto]. intros v Hv.
           destruct (decide (slash ∈ v)) as [|Hno]; [assumption|exfalso].
           rewrite Hq in Hv. apply app_inv_head in Hv.
           apply Hdrop. rewrite Hv.
           assert (param_end (v ++ slash :: suf) = length v) as ->.
           { clear -Hno. induction v as [|c v IH]; cbn.
             - rewrite bool_decide_eq_true_2 by reflexivity. reflexivity.
             - rewrite bool_decide_eq_false_2
                 by (intros ->; apply Hno; left).
               f_equal. apply IH. intros H. apply Hno. right. exact H. }
           apply drop_app_length.
      * right. split; [|eauto]. intros v Hv. exfalso.
        apply Nat.ltb_ge in He. rewrite Hq in Hv. apply app_inv_head in Hv.
        pose proof (param_end_take r) as Ht.
        rewrite take_ge in Ht by lia. apply Ht. rewrite Hv.
        apply elem_of_app. right. left.
    + right. split; [|eauto].
      intros v ->. exfalso. apply Hpre. by rewrite take_app_length.
  - apply Nat.ltb_ge in Hlen. right. split.
    + intros v ->. rewrite !length_app in Hlen. cbn [length] in Hlen. lia.
    + unfold eqb_str. case_bool_decide; eauto.
Qed.

(** A parameter inside a pattern.  With [pre ++ ":" ++ nm ++ suf] the
    only pattern, [suf] a literal rest that starts with a separator: the
    registration returns; the lookup of [pre ++ v ++ suf] finds the
    chain and binds [nm] to [v] for every [v] without separator, the
    empty one included; and no other path has a chain. *)
Theorem inner_parameter_binds_segment (method : string)
    (pre nm suf : str) (hs : list HandlerFunc) :
  literal pre -> starts_with_slash pre -> param_name nm ->
  literal suf -> starts_with_slash suf ->
  exists e,
    drift.register method [(inner_param_pattern pre nm suf, hs)] drift.New
    = Ok e
    /\ (forall v,
          slash ∉ v ->
          getValue (root_of method e) (pre ++ v ++ suf)
          = Ok (Some hs, Some {[ nm := v ]}, inner_param_pattern pre nm suf))
    /\ (forall q h ps fp,
          getValue (root_of method e) q = Ok (Some h, ps, fp) ->
          exists v, (slash ∉ v) /\ q = pre ++ v ++ suf
                    /\ ps = Some {[ nm := v ]}).
Proof.
  intros Hpre Hstart Hnm Hlsuf Hsuf.
  pose proof (addRoute_inner_param pre nm suf hs Hpre Hstart Hnm Hlsuf Hsuf)
    as Hadd.
  assert (starts_with_slash (inner_param_pattern pre nm suf)) as Hs.
  { unfold inner_param_pattern. destruct pre; [discriminate|exact Hstart]. }
  destruct (register_first method _ hs _ Hs Hadd) as (e & He & Hroot).
  exists e. split; [exact He|].
  unfold root_of. rewrite Hroot. cbn [default from_option id]. split.
  - intros v Hv.
    destruct (getValue_inner_param_tree pre nm suf hs (pre ++ v ++ suf) Hsuf)
      as [(v' & Hq & _ & Hget)|[Hno _]].
    + apply app_inv_head, app_inv_tail in Hq. subst v'. exact Hget.
    + exfalso. exact (Hv (Hno v eq_refl)).
  - intros q h ps fp Hget.
    destruct (getValue_inner_param_tree pre nm suf hs q Hsuf)
      as [(v & Hq & Hv & Hget')|[_ (ps' & fp' & Hget')]];
      rewrite Hget' in Hget; [|discriminate].
    injection Hget as _ <- _. exists v. auto.
Qed.

Lemma inner_parameter_binds_segment_witness :
  exists e,
    drift.register "GET"
      [(inner_param_pattern (bytes "/users/") (bytes "id") (bytes "/posts"),
        [hA])] drift.New = Ok e
    /\ (forall v,
          slash ∉ v ->
          getValue (root_of "GET" e) (bytes "/users/" ++ v ++ bytes "/posts")
          = Ok (Some [hA], Some {[ bytes "id" := v ]},
                inner_param_pattern (bytes "/users/") (bytes "id")
                  (bytes "/posts")))
    /\ (forall q h ps fp,
          getValue (root_of "GET" e) q = Ok (Some h, ps, fp) ->
          exists v, (slash ∉ v) /\ q = bytes "/users/" ++ v ++ bytes "/posts"
                    /\ ps = Some {[ bytes "id" := v ]}).
Proof.
  apply (inner_parameter_binds_segment "GET" (bytes "/users/") (bytes "id")
           (bytes "/posts") [hA]).
  - by_evaluation.
  - reflexivity.
  - split; [discriminate|]. split; by_evaluation.
  - by_evaluation.
  - reflexivity.
Defined.

End inner_param.

(** ** The value of a parameter that ends its pattern *)

Section final_param.
Import tree props more.

Lemma scan_indices_ghost {A : Type} (f : node -> result A) (idxc : ascii)
    (cs : list node) (ix : str) :
  (fix scan (cs : list node) (ix : str) {struct cs} : option (result A) :=
     match ix, cs with
     | [], _ => None
     | c :: ix', ch :: cs' =>
         if bool_decide (c = idxc) then Some (f ch) else scan cs' ix'
     | _ :: _, [] =>
         if bool_decide (idxc ∈ ix)
         then Some (Panic index_out_of_range) else None
     end) cs ix
  = match index_of idxc ix with
    | None => None
    | Some k =>
        Some (match cs !! k with
              | Some ch => f ch
              | None => Panic index_out_of_range
              end)
    end.
Proof.
  revert ix. induction cs as [|ch cs IH]; intros ix.
  - destruct ix as [|c ix]; [reflexivity|].
    case_bool_decide as Hin.
    + assert (is_Some (index_of idxc (c :: ix))) as [k ->]; [|reflexivity].
      clear -Hin. induction Hin as [x l|x y l Hin IH]; simpl.
      * rewrite bool_decide_eq_true_2 by reflexivity. eauto.
      * case_bool_decide; [eauto|]. destruct IH as [k ->]. simpl. eauto.
    + assert (index_of idxc (c :: ix) = None) as ->; [|reflexivity].
      clear -Hin. induction (c :: ix) as [|x l IH]; [reflexivity|]. simpl.
      case_bool_decide as Hx; [subst; exfalso; apply Hin; left|].
      rewrite IH; [reflexivity|]. intros H. apply Hin. right. exact H.
  - destruct ix as [|c ix]; [reflexivity|]. simpl.
    case_bool_decide; [reflexivity|]. rewrite IH.
    destruct (index_of idxc ix); reflexivity.
Qed.

Lemma getValue_ghost_eq (n : node) (p : str) (params : gmap str str) :
  getValue_ghost n p params =
  if length (path n) <? length p then
    if eqb_str (take (length (path n)) p) (path n) then
      match drop (length (path n)) p with
      | [] => Panic index_out_of_range
      | idxc :: _ =>
          match index_of idxc (indices n) with
          | Some k =>
              match children n !! k with
              | Some ch => getValue_ghost ch (drop (length (path n)) p) params
              | None => Panic index_out_of_range
              end
          | None =>
              if wildChild n then
                match children n with
                | [] => Panic index_out_of_range
                | w :: _ =>
                    match nType w with
                    | param =>
                        if length (path w) <? 1 then Panic slice_out_of_range
                        else if param_end (drop (length (path n)) p)
                                <? length (drop (length (path n)) p) then
                          match children w with
                          | gc :: _ =>
                              getValue_ghost gc
                                (drop (param_end (drop (length (path n)) p))
                                   (drop (length (path n)) p))
                                (<[drop 1 (path w)
                                   := take (param_end
                                              (drop (length (path n)) p))
                                        (drop (length (path n)) p)]> params)
                          | [] => Ok (not_found, None)
                          end
                        else
                          Ok ((handlers w,
                               Some (<[drop 1 (path w)
                                       := take (param_end
                                                  (drop (length (path n)) p))
                                            (drop (length (path n)) p)]>
                                       params),
                               fullPath w),
                              Some (at_param, w, drop (length (path n)) p))
                    | catchAll =>
                        if length (path w) <? 2 then Panic slice_out_of_range
                        else
                          Ok ((handlers w,
                               Some (<[drop 2 (path w)
                                       := drop (length (path n)) p]> params),
                               fullPath w),
                              Some (at_catchAll, w,
                                    drop (length (path n)) p))
                    | static => Panic "invalid node type"
                    end
                end
              else Ok (not_found, None)
          end
      end
    else Ok (not_found, None)
  else if eqb_str p (path n) then
    match handlers n with
    | Some _ => Ok ((handlers n, Some params, fullPath n), Some (at_node, n, p))
    | None => Ok (not_found, None)
    end
  else Ok (not_found, None).
Proof.
  destruct n as [prefix ix cs hs pr ty wild fp]. cbn [getValue_ghost path
    indices children handlers wildChild fullPath].
  destruct (length prefix <? length p); [|reflexivity].
  destruct (eqb_str (take (length prefix) p) prefix); [|reflexivity].
  destruct (drop (length prefix) p) as [|idxc rest] eqn:Hd; [reflexivity|].
  rewrite (scan_indices_ghost
             (fun ch => getValue_ghost ch (idxc :: rest) params)).
  destruct (index_of idxc ix) as [k|]; [reflexivity|].
  destruct wild; [|reflexivity].
  destruct cs as [|[wpath wix wcs whs wpr wty wwild wfp] cs]; [reflexivity|].
  cbn [nType path children handlers fullPath].
  destruct wty; reflexivity.
Qed.

(** The ghost result changes nothing: without it, the walk is that of
    [getValue]. *)
Lemma getValue_ghost_erase (k : nat) :
  forall (n : node) (p : str) (ps : gmap str str),
    height n <= k ->
    getValue_walk n p ps = (r ← getValue_ghost n p ps; Ok r.1).
Proof.
  induction k as [|k IH]; intros n p ps Hh.
  { destruct n; cbn in Hh; lia. }
  rewrite getValue_walk_eq, getValue_ghost_eq.
  destruct (_ <? _).
  2:{ destruct (eqb_str _ _); [destruct (handlers n)|]; reflexivity. }
  destruct (eqb_str _ _); [|reflexivity].
  destruct (drop (length (path n)) p) as [|idxc rest] eqn:Hd; [reflexivity|].
  destruct (index_of idxc (indices n)) as [i|].
  - destruct (children n !! i) as [ch|] eqn:Hch; [|reflexivity].
    apply IH.
    pose proof (height_child n ch (list_elem_of_lookup_2 _ _ _ Hch)). lia.
  - destruct (wildChild n); [|reflexivity].
    destruct (children n) as [|w cs] eqn:Hcs; [reflexivity|].
    assert (height w < height n) as Hw
      by (apply height_child; rewrite Hcs; left).
    unfold getValue_wild. destruct (nType w); [reflexivity| |].
    + destruct (length (path w) <? 1); [reflexivity|].
      destruct (param_end _ <? _); [|reflexivity].
      destruct (children w) as [|gc gcs] eqn:Hgc; [reflexivity|].
      apply IH.
      assert (height gc < height w)
        by (apply height_child; rewrite Hgc; left).
      lia.
    + destruct (length (path w) <? 2); reflexivity.
Qed.

(** What the ghost result says. *)
Lemma getValue_ghost_spec (k : nat) :
  forall (n : node) (p : str) (ps : gmap str str)
         (r : lookup_result) (g : option (exit * node * str)),
    height n <= k ->
    getValue_ghost n p ps = Ok (r, g) ->
    match g with
    | Some (x, w, rest) =>
        r.1.1 = handlers w /\ r.2 = fullPath w
        /\ (exists q0, p = q0 ++ rest)
        /\ (x = at_param ->
            nType w = param /\ rest <> [] /\ (slash ∉ rest)
            /\ exists ps0, r.1.2 = Some (<[drop 1 (path w) := rest]> ps0))
    | None => r.1.1 = None
    end.
Proof.
  induction k as [|k IH]; intros n p ps r g Hh.
  { destruct n; cbn in Hh; lia. }
  rewrite getValue_ghost_eq.
  destruct (_ <? _) eqn:Hlen.
  2:{ unfold eqb_str. case_bool_decide as Hp.
      - destruct (handlers n) eqn:Hhs; intros [= <- <-]; cbn;
          [|reflexivity].
        rewrite Hhs. split; [reflexivity|]. split; [reflexivity|].
        split; [exists []; reflexivity|discriminate].
      - intros [= <- <-]. reflexivity. }
  unfold eqb_str. case_bool_decide as Hpre; [|intros [= <- <-]; reflexivity].
  assert (p = path n ++ drop (length (path n)) p) as Hp.
  { rewrite <- (take_drop (length (path n)) p) at 1. rewrite Hpre.
    reflexivity. }
  destruct (drop (length (path n)) p) as [|idxc rest] eqn:Hd; [discriminate|].
  destruct (index_of idxc (indices n)) as [i|].
  - destruct (children n !! i) as [ch|] eqn:Hch; [|discriminate].
    intros Hg. apply IH in Hg.
    2:{ pose proof (height_child n ch (list_elem_of_lookup_2 _ _ _ Hch)).
        lia. }
    destruct g as [[[x w] rest']|]; [|exact Hg].
    destruct Hg as (H1 & H2 & (q0 & Hq0) & H4).
    split; [exact H1|]. split; [exact H2|]. split; [|exact H4].
    exists (path n ++ q0). rewrite <- app_assoc, <- Hq0. exact Hp.
  - destruct (wildChild n); [|intros [= <- <-]; reflexivity].
    destruct (children n) as [|w cs] eqn:Hcs; [discriminate|].
    assert (height w < height n) as Hw
      by (apply height_child; rewrite Hcs; left).
    destruct (nType w) eqn:Hty; [discriminate| |].
    + destruct (length (path w) <? 1); [discriminate|].
      destruct (param_end _ <? _) eqn:He.
      * destruct (children w) as [|gc gcs] eqn:Hgc;
          [intros [= <- <-]; reflexivity|].
        intros Hg. apply IH in Hg.
        2:{ assert (height gc < height w)
              by (apply height_child; rewrite Hgc; left).
            lia. }
        destruct g as [[[x w'] rest']|]; [|exact Hg].
        destruct Hg as (H1 & H2 & (q0 & Hq0) & H4).
        split; [exact H1|]. split; [exact H2|]. split; [|exact H4].
        exists (path n ++ take (param_end (idxc :: rest)) (idxc :: rest)
                ++ q0).
        rewrite <- !app_assoc, <- Hq0, take_drop. exact Hp.
      * intros [= <- <-]. cbn [fst snd].
        apply Nat.ltb_ge in He.
        pose proof (param_end_take (idxc :: rest)) as Hno.
        rewrite take_ge in Hno by exact He.
        split; [reflexivity|]. split; [reflexivity|].
        split; [exists (path n); exact Hp|]. intros _.
        split; [exact Hty|]. split; [discriminate|]. split; [exact Hno|].
        exists ps. rewrite take_ge by exact He. reflexivity.
    + destruct (length (path w) <? 2); [discriminate|].
      intros [= <- <-]. cbn [fst snd].
      split; [reflexivity|]. split; [reflexivity|].
      split; [exists (path n); exact Hp|discriminate].
Qed.

(** The ghost result of a lookup that finds a chain. *)
Lemma getValue_found_exit (root : node) (q : str) (h : list HandlerFunc)
    (ps : gmap str str) (fp : str) :
  getValue root q = Ok (Some h, Some ps, fp) ->
  exists x w rest,
    getValue_ghost root q ∅ = Ok ((Some h, Some ps, fp), Some (x, w, rest))
    /\ handlers w = Some h /\ fullPath w = fp
    /\ (exists q0, q = q0 ++ rest)
    /\ (x = at_param ->
        nType w = param /\ rest <> [] /\ (slash ∉ rest)
        /\ ps !! drop 1 (path w) = Some rest).
Proof.
  unfold getValue. rewrite (getValue_ghost_erase (height root)) by lia.
  destruct (getValue_ghost root q ∅) as [[r g]| |] eqn:Hg; try discriminate.
  cbn [mbind result_bind fst]. intros [= ->].
  pose proof (getValue_ghost_spec (height root) root q ∅ _ g
                (Nat.le_refl _) Hg) as Hspec.
  destruct g as [[[x w] rest]|]; [|discriminate].
  cbn [fst snd] in Hspec. destruct Hspec as (H1 & H2 & H3 & H4).
  exists x, w, rest. split; [reflexivity|]. split; [congruence|].
  split; [congruence|]. split; [exact H3|].
  intros Hx. destruct (H4 Hx) as (Hty & Hne & Hno & ps0 & [= ->]).
  split; [exact Hty|]. split; [exact Hne|]. split; [exact Hno|].
  apply lookup_insert_eq.
Qed.

(** The ghost result of a lookup in the tree of [pre ++ ":" ++ nm]. *)
Lemma getValue_ghost_param_tree (pre nm v : str) (hs : list HandlerFunc) :
  v <> [] -> slash ∉ v ->
  exists w,
    getValue_ghost (param_tree pre nm hs) (pre ++ v) ∅
    = Ok ((Some hs, Some {[ nm := v ]}, pre ++ colon :: nm),
          Some (at_param, w, v)).
Proof.
  intros Hv Hno. rewrite getValue_ghost_eq.
  cbn [param_tree path indices children handlers wildChild fullPath nType].
  assert ((length pre <? length (pre ++ v)) = true) as ->.
  { apply Nat.ltb_lt. rewrite length_app. destruct v; [done|]. cbn. lia. }
  unfold eqb_str. rewrite take_app_length, drop_app_length.
  rewrite bool_decide_eq_true_2 by reflexivity.
  destruct v as [|idxc rest]; [done|]. cbn [index_of].
  change (length (colon :: nm) <? 1) with false. cbv iota.
  rewrite (param_end_no_slash _ Hno), Nat.ltb_irrefl, firstn_all.
  change (drop 1 (colon :: nm)) with nm. rewrite insert_empty.
  eexists. reflexivity.
Qed.

(** C10 (amended): a parameter that takes the rest of the path never
    matches the empty string.  In every tree, whenever the lookup of a
    path finds a chain, it does so by one of the returns of [getValue];
    if that is the return of a parameter node (the parameter ends the
    pattern that was found), the value bound to the name of that node
    is what was left of the path there, which is not empty and holds no
    separator.  So where [pre ++ ":" ++ nm] is the only pattern, [pre]
    a literal prefix such as [/users/]: the lookup of [pre] alone (the
    parameter position empty) is not found, the lookup of [pre ++ v]
    returns at the parameter node for every non-empty [v] without
    separator, and whenever a lookup succeeds the path is [pre]
    followed by a non-empty value, which is what [nm] is bound to. *)
Theorem final_param_value_not_empty :
  (forall (root : node) (q : str) (h : list HandlerFunc)
          (ps : gmap str str) (fp : str),
      getValue root q = Ok (Some h, Some ps, fp) ->
      exists x w rest,
        getValue_ghost root q ∅
        = Ok ((Some h, Some ps, fp), Some (x, w, rest))
        /\ handlers w = Some h /\ fullPath w = fp
        /\ (exists q0, q = q0 ++ rest)
        /\ (x = at_param ->
            nType w = param /\ rest <> [] /\ (slash ∉ rest)
            /\ ps !! drop 1 (path w) = Some rest))
  /\ (forall (pre nm : str) (hs : list HandlerFunc),
        literal pre -> starts_with_slash pre -> param_name nm ->
        exists e root,
          drift.register "GET" [(pre ++ colon :: nm, hs)] drift.New = Ok e
          /\ drift.trees e !! "GET"%string = Some root
          /\ getValue root pre = Ok not_found
          /\ (forall v,
                v <> [] -> slash ∉ v ->
                exists w,
                  getValue_ghost root (pre ++ v) ∅
                  = Ok ((Some hs, Some {[ nm := v ]}, pre ++ colon :: nm),
                        Some (at_param, w, v)))
          /\ forall q h ps fp,
               getValue root q = Ok (Some h, ps, fp) ->
               exists v, v <> [] /\ q = pre ++ v /\ ps = Some {[ nm := v ]}).
Proof.
  split; [exact getValue_found_exit|].
  intros pre nm hs Hpre Hstart Hnm.
  pose proof (addRoute_single_param pre nm hs Hpre Hstart Hnm) as Hadd.
  assert (starts_with_slash (pre ++ colon :: nm)) as Hs.
  { destruct pre; [discriminate|exact Hstart]. }
  destruct (register_first "GET" _ hs _ Hs Hadd) as (e & He & Hroot).
  exists e, (param_tree pre nm hs).
  split; [exact He|]. split; [exact Hroot|]. split; [|split].
  - destruct (getValue_param_tree pre nm hs pre)
      as [(v & Hq & Hv & _)|[_ Hget]]; [|exact Hget].
    rewrite <- (app_nil_r pre) in Hq at 1. apply app_inv_head in Hq.
    congruence.
  - intros v Hv Hno. apply getValue_ghost_param_tree; assumption.
  - intros q h ps fp Hget.
    destruct (getValue_param_tree pre nm hs q)
      as [(v & Hq & Hv & _ & Hget')|[_ Hget']];
      rewrite Hget' in Hget; [|discriminate].
    injection Hget as _ <- _. exists v. auto.
Qed.

Lemma final_param_value_not_empty_witness :
  (exists x w rest,
      getValue_ghost (param_tree (bytes "/users/") (bytes "id") [hA])
        (bytes "/users/42") ∅
      = Ok ((Some [hA], Some {[ bytes "id" := bytes "42" ]},
             bytes "/users/:id"), Some (x, w, rest))
      /\ handlers w = Some [hA] /\ fullPath w = bytes "/users/:id"
      /\ (exists q0, bytes "/users/42" = q0 ++ rest)
      /\ (x = at_param ->
          nType w = param /\ rest <> [] /\ (slash ∉ rest)
          /\ ({[ bytes "id" := bytes "42" ]} : gmap str str)
               !! drop 1 (path w) = Some rest))
  /\ exists e root,
       drift.register "GET" [(bytes "/users/" ++ colon :: bytes "id", [hA])]
         drift.New = Ok e
       /\ drift.trees e !! "GET"%string = Some root
       /\ getValue root (bytes "/users/") = Ok not_found
       /\ (forall v,
             v <> [] -> slash ∉ v ->
             exists w,
               getValue_ghost root (bytes "/users/" ++ v) ∅
               = Ok ((Some [hA], Some {[ bytes "id" := v ]},
                      bytes "/users/" ++ colon :: bytes "id"),
                     Some (at_param, w, v)))
       /\ forall q h ps fp,
            getValue root q = Ok (Some h, ps, fp) ->
            exists v, v <> [] /\ q = bytes "/users/" ++ v
                      /\ ps = Some {[ bytes "id" := v ]}.
Proof.
  split.
  - apply (proj1 final_param_value_not_empty
             (param_tree (bytes "/users/") (bytes "id") [hA])
             (bytes "/users/42") [hA] {[ bytes "id" := bytes "42" ]}
             (bytes "/users/:id")).
    vm_compute. reflexivity.
  - apply (proj2 final_param_value_not_empty (bytes "/users/") (bytes "id")
             [hA]).
    + by_evaluation.
    + reflexivity.
    + split; [discriminate|]. split; by_evaluation.
Defined.

End final_param.
(** ** The causes of a registration panic *)

Section registration_causes.
Import tree props more.







(** Below a parameter the walk loses the node it descends to, so that
    a pattern registered twice there is accepted: the second
    registration goes unnoticed. *)
Example duplicate_below_parameter_is_accepted :
  is_ok (drift.register "GET"
           [(bytes "/u/:id/p", [hA]); (bytes "/u/:id/p", [hB])] drift.New).
Proof. vm_compute. exact I. Qed.



End registration_causes.
